(** * A shallow embedding of the NEAT genome core (package neat)

    The development follows network.go: gene primitives (neuron, synapse),
    the genome container (organism), the weight mutation, crossover (mate)
    and the propagation engine (process / propagate), together with the FIFO
    queue of util.go.

    Go objects live on a heap: an organism stores *pointers* to neurons and
    synapses in its gene sequence and in its id maps, and the propagation
    engine mutates neurons through those pointers.  The embedding therefore
    keeps an explicit store (one typed heap per struct type, addresses are
    indices, allocation appends) and threads it, with the two global
    counters, through a small state-and-failure monad. *)

From Stdlib Require Import ZArith NArith List Lia String PrimFloat Reals Lra Sorted.
From stdpp Require Import base option list sorting gmap strings.

Close Scope R_scope.
Open Scope N_scope.
Open Scope nat_scope.

(** ** Scalars

    Every number the engine computes with is a Go [float64].  The program
    only uses the constants 0, 0.5, 1.0 and 2, addition, subtraction,
    multiplication and the comparison [>], so the code is written once over
    this interface.  [binary64] is IEEE 754 double precision, the exact
    arithmetic of the Go program; [exact_real] reads the same expressions
    over the real numbers. *)

Class Float64 (F : Type) := {
  f_zero : F;
  f_half : F;
  f_one : F;
  f_two : F;
  f_add : F -> F -> F;
  f_sub : F -> F -> F;
  f_mul : F -> F -> F;
  f_gt : F -> F -> bool;
}.

#[export] Instance binary64 : Float64 float := {|
  f_zero := 0%float;
  f_half := 0.5%float;
  f_one := 1%float;
  f_two := 2%float;
  f_add := PrimFloat.add;
  f_sub := PrimFloat.sub;
  f_mul := PrimFloat.mul;
  f_gt := fun x y => PrimFloat.ltb y x;
|}.

#[export] Instance exact_real : Float64 R := {|
  f_zero := 0%R;
  f_half := (1 / 2)%R;
  f_one := 1%R;
  f_two := 2%R;
  f_add := Rplus;
  f_sub := Rminus;
  f_mul := Rmult;
  f_gt := fun x y => if Rlt_dec y x then true else false;
|}.

(** ** Machine integers *)

(** [uint64] counters wrap around at 2^64 ([atomic.AddUint64]). *)
Definition uint64_add (a b : N) : N := ((a + b) mod 2 ^ 64)%N.

(** [int] is a 64-bit two's complement integer. *)
Definition int_add (a b : Z) : Z :=
  ((a + b + 2 ^ 63) mod 2 ^ 64 - 2 ^ 63)%Z.

(** util.go *)
Definition max (a b : Z) : Z := if (a <? b)%Z then b else a.

(** ** Gene primitives *)

Abbreviation neuronID := N (only parsing).
Abbreviation synapseID := N (only parsing).
(** An address in one of the two typed heaps. *)
Abbreviation ptr := nat (only parsing).

Inductive neuronKind := sensorNeuron | outputNeuron | hiddenNeuron.

#[export] Instance neuronKind_eq_dec : EqDecision neuronKind.
Proof. solve_decision. Defined.

(** The "most general thing that can be said about the genes": an interface
    value holding either a [*neuron] or a [*synapse]. *)
Inductive gene := GNeuron (p : ptr) | GSynapse (p : ptr).

#[export] Instance gene_eq_dec : EqDecision gene.
Proof. solve_decision. Defined.

Section Neat.

Context {F : Type} {FF : Float64 F}.

Record synapse := mkSynapse {
  s_id : synapseID;
  s_in : neuronID;
  s_out : neuronID;
  s_weight : F;
  s_enabled : bool;
  s_innovation : N;
}.

Record neuron := mkNeuron {
  n_id : neuronID;
  n_value : F;
  n_innovation : N;
  n_kind : neuronKind;
  n_future : F;
  n_sum : F;
  n_visited : bool;
  n_seen : bool;
}.

Definition set_weight (x : F) (s : synapse) : synapse :=
  mkSynapse (s_id s) (s_in s) (s_out s) x (s_enabled s) (s_innovation s).
Definition set_enabled (b : bool) (s : synapse) : synapse :=
  mkSynapse (s_id s) (s_in s) (s_out s) (s_weight s) b (s_innovation s).

Definition set_value (x : F) (n : neuron) : neuron :=
  mkNeuron (n_id n) x (n_innovation n) (n_kind n) (n_future n) (n_sum n)
    (n_visited n) (n_seen n).
Definition set_future (x : F) (n : neuron) : neuron :=
  mkNeuron (n_id n) (n_value n) (n_innovation n) (n_kind n) x (n_sum n)
    (n_visited n) (n_seen n).
Definition set_sum (x : F) (n : neuron) : neuron :=
  mkNeuron (n_id n) (n_value n) (n_innovation n) (n_kind n) (n_future n) x
    (n_visited n) (n_seen n).
Definition set_visited (b : bool) (n : neuron) : neuron :=
  mkNeuron (n_id n) (n_value n) (n_innovation n) (n_kind n) (n_future n)
    (n_sum n) b (n_seen n).
Definition set_seen (b : bool) (n : neuron) : neuron :=
  mkNeuron (n_id n) (n_value n) (n_innovation n) (n_kind n) (n_future n)
    (n_sum n) (n_visited n) b.

(** ** The genome container *)

Record organism := mkOrganism {
  sensors : list neuronID;
  outputs : list neuronID;
  neurons : gmap neuronID ptr;
  synapses : gmap synapseID ptr;
  connections : gmap neuronID (list synapseID);
  genes : list gene;
  generation : Z;
  fitness : F;
}.

Definition set_generation (z : Z) (o : organism) : organism :=
  mkOrganism (sensors o) (outputs o) (neurons o) (synapses o) (connections o)
    (genes o) z (fitness o).
Definition set_fitness (x : F) (o : organism) : organism :=
  mkOrganism (sensors o) (outputs o) (neurons o) (synapses o) (connections o)
    (genes o) (generation o) x.

(** ** Program state: the heaps and the package-level variables *)

Record world := mkWorld {
  neuronHeap : list neuron;
  synapseHeap : list synapse;
  idCount : N;
  innovationCount : N;
  (** number of calls made to [RandFloat64] so far *)
  randCalls : nat;
}.

Definition set_neuronHeap (h : list neuron) (w : world) : world :=
  mkWorld h (synapseHeap w) (idCount w) (innovationCount w) (randCalls w).
Definition set_synapseHeap (h : list synapse) (w : world) : world :=
  mkWorld (neuronHeap w) h (idCount w) (innovationCount w) (randCalls w).

(** ** The monad: state, [log.Fatal], run-time panics, and loop fuel *)

Inductive outcome (A : Type) : Type :=
| Done (a : A) (w : world)
| Fatal (msg : string)
| Panic (msg : string)
| OutOfFuel.

Definition M (A : Type) : Type := world -> outcome A.

Definition ret {A} (a : A) : M A := fun w => Done _ a w.

Definition bind {A B} (m : M A) (k : A -> M B) : M B :=
  fun w =>
    match m w with
    | Done _ a w' => k a w'
    | Fatal _ msg => Fatal _ msg
    | Panic _ msg => Panic _ msg
    | OutOfFuel _ => OutOfFuel _
    end.

Definition log_Fatal {A} (msg : string) : M A := fun _ => Fatal _ msg.
Definition panic {A} (msg : string) : M A := fun _ => Panic _ msg.

End Neat.

Arguments synapse F : clear implicits.
Arguments neuron F : clear implicits.
Arguments organism F : clear implicits.
Arguments world F : clear implicits.
Arguments outcome F A : clear implicits.
Arguments M F A : clear implicits.
Arguments mkSynapse {F}.
Arguments mkNeuron {F}.
Arguments mkOrganism {F}.
Arguments mkWorld {F}.
Arguments Done {F A} a w.
Arguments Fatal {F A} msg.
Arguments Panic {F A} msg.
Arguments OutOfFuel {F A}.

Notation "x <- m ;; k" := (bind m (fun x => k))
  (at level 100, m at next level, right associativity).
Notation "m ;;; k" := (bind m (fun _ => k))
  (at level 100, right associativity).

Definition nil_dereference : string :=
  "invalid memory address or nil pointer dereference".
(** Never produced by a Go program: every pointer it holds is nil or refers
    to a live object.  The store needs the case to be total. *)
Definition dangling_pointer : string := "dangling pointer".
Definition index_out_of_range : string := "index out of range".
Definition divide_by_zero : string := "integer divide by zero".

(** ** Configuration (the part of NeatConfig the engine reads) *)

Record OrganismConfig (F : Type) := mkOrganismConfig {
  SynapseSplitMutProb : F;
  SynapseActivityMutProb : F;
  SynapseWeightMutProp : F;
  SynapseWeightBound : F;
  actFunc : F -> F;
}.
Arguments mkOrganismConfig {F}.
Arguments SynapseSplitMutProb {F}.
Arguments SynapseActivityMutProb {F}.
Arguments SynapseWeightMutProp {F}.
Arguments SynapseWeightBound {F}.
Arguments actFunc {F}.

Section Engine.

Context {F : Type} {FF : Float64 F}.

(** The package-level [config] and the injected random source: the [i]-th
    call of [RandFloat64] returns [rand_source i]. *)
Variable config : OrganismConfig F.
Variable rand_source : nat -> F.

Implicit Types (w : world F) (org : organism F).

(** *** Memory access *)

Definition derefN (p : option ptr) : M F (neuron F) := fun w =>
  match p with
  | None => Panic nil_dereference
  | Some a =>
      match neuronHeap w !! a with
      | Some n => Done n w
      | None => Panic dangling_pointer
      end
  end.

Definition derefS (p : option ptr) : M F (synapse F) := fun w =>
  match p with
  | None => Panic nil_dereference
  | Some a =>
      match synapseHeap w !! a with
      | Some s => Done s w
      | None => Panic dangling_pointer
      end
  end.

(** A field assignment through a pointer: [p.f = v]. *)
Definition updateN (p : option ptr) (f : neuron F -> neuron F) : M F unit :=
  fun w =>
    match p with
    | None => Panic nil_dereference
    | Some a =>
        match neuronHeap w !! a with
        | Some n => Done tt (set_neuronHeap (<[a := f n]> (neuronHeap w)) w)
        | None => Panic dangling_pointer
        end
    end.

Definition updateS (p : option ptr) (f : synapse F -> synapse F) : M F unit :=
  fun w =>
    match p with
    | None => Panic nil_dereference
    | Some a =>
        match synapseHeap w !! a with
        | Some s => Done tt (set_synapseHeap (<[a := f s]> (synapseHeap w)) w)
        | None => Panic dangling_pointer
        end
    end.

(** [&neuron{...}] and [&copy]: a fresh object at the end of the heap. *)
Definition allocN (n : neuron F) : M F ptr := fun w =>
  Done (length (neuronHeap w)) (set_neuronHeap (neuronHeap w ++ [n]) w).

Definition allocS (s : synapse F) : M F ptr := fun w =>
  Done (length (synapseHeap w)) (set_synapseHeap (synapseHeap w ++ [s]) w).

(** *** Loops over slices *)

Fixpoint for_do {A} (l : list A) (body : A -> M F unit) : M F unit :=
  match l with
  | [] => ret tt
  | x :: l' => body x ;;; for_do l' body
  end.

Fixpoint for_fold {A B} (body : B -> A -> M F B) (acc : B) (l : list A) : M F B :=
  match l with
  | [] => ret acc
  | x :: l' => acc' <- body acc x ;; for_fold body acc' l'
  end.

Fixpoint for_map {A B} (f : A -> M F B) (l : list A) : M F (list B) :=
  match l with
  | [] => ret []
  | x :: l' => y <- f x ;; ys <- for_map f l' ;; ret (y :: ys)
  end.

(** *** The identity allocator *)

Definition nextInnovation : M F N := fun w =>
  let c := uint64_add (innovationCount w) 1 in
  Done c (mkWorld (neuronHeap w) (synapseHeap w) (idCount w) c (randCalls w)).

Definition nextID : M F N := fun w =>
  let c := uint64_add (idCount w) 1 in
  Done c (mkWorld (neuronHeap w) (synapseHeap w) c (innovationCount w)
            (randCalls w)).

Definition RandFloat64 : M F F := fun w =>
  Done (rand_source (randCalls w))
    (mkWorld (neuronHeap w) (synapseHeap w) (idCount w) (innovationCount w)
       (S (randCalls w))).

(** *** Synapses *)

Definition newSynapse (in_ out : option ptr) : M F ptr :=
  id <- nextID ;;
  i <- derefN in_ ;;
  o <- derefN out ;;
  innovation <- nextInnovation ;;
  allocS (mkSynapse id (n_id i) (n_id o) f_one true innovation).

Definition synapse_clone (s : option ptr) : M F ptr :=
  copySynapse <- derefS s ;;
  allocS copySynapse.

Definition getInnovationS (s : option ptr) : M F N :=
  v <- derefS s ;; ret (s_innovation v).

Definition synapse_toggleEnabled (s : option ptr) : M F unit :=
  updateS s (fun v => set_enabled (negb (s_enabled v)) v).

Definition synapse_mutateWeight (s : option ptr) : M F unit :=
  r <- RandFloat64 ;;
  updateS s
    (set_weight (f_mul f_two (f_mul (f_sub r f_half) (SynapseWeightBound config)))).

(** *** Neurons *)

Definition _newNeuron (kind : neuronKind) : M F ptr :=
  id <- nextID ;;
  innovation <- nextInnovation ;;
  allocN (mkNeuron id f_zero innovation kind f_zero f_zero false false).

Definition newSensorNeuron : M F ptr := _newNeuron sensorNeuron.
Definition newOutputNeuron : M F ptr := _newNeuron outputNeuron.
Definition newHiddenNeuron : M F ptr := _newNeuron hiddenNeuron.

Definition neuron_clone (n : option ptr) : M F ptr :=
  copyNeuron <- derefN n ;;
  allocN copyNeuron.

Definition getInnovationN (n : option ptr) : M F N :=
  v <- derefN n ;; ret (n_innovation v).

(** Dynamic dispatch of [gene.getInnovation]. *)
Definition getInnovation (g : gene) : M F N :=
  match g with
  | GNeuron p => getInnovationN (Some p)
  | GSynapse p => getInnovationS (Some p)
  end.

(** *** Organisms *)

(** The arguments of [_newOrganism] only size the backing arrays: every
    slice is cut back to length 0 before use, so they do not show in the
    value.  Storage is unbounded here. *)
Definition _newOrganism (nInputs nOutputs : Z) : organism F :=
  mkOrganism [] [] ∅ ∅ ∅ [] 0%Z f_zero.

(** What [addNeuron] records for the object [n] at address [p]. *)
Definition registerNeuron org (p : ptr) (n : neuron F) : organism F :=
  let neurons' := <[n_id n := p]> (neurons org) in
  let genes' := genes org ++ [GNeuron p] in
  match n_kind n with
  | sensorNeuron =>
      mkOrganism (sensors org ++ [n_id n]) (outputs org) neurons'
        (synapses org) (connections org) genes' (generation org)
        (fitness org)
  | outputNeuron =>
      mkOrganism (sensors org) (outputs org ++ [n_id n]) neurons'
        (synapses org) (connections org) genes' (generation org)
        (fitness org)
  | hiddenNeuron =>
      mkOrganism (sensors org) (outputs org) neurons'
        (synapses org) (connections org) genes' (generation org)
        (fitness org)
  end.

Definition addNeuron org (neuron : option ptr) : M F (organism F) :=
  n <- derefN neuron ;;
  match neuron with
  | None => panic nil_dereference
  | Some p => ret (registerNeuron org p n)
  end.

(** What [addSynapse] records for the object [s] at address [p]. *)
Definition registerSynapse org (p : ptr) (s : synapse F) : organism F :=
  mkOrganism (sensors org) (outputs org) (neurons org)
    (<[s_id s := p]> (synapses org))
    (<[s_in s := default [] (connections org !! s_in s) ++ [s_id s]]>
       (connections org))
    (genes org ++ [GSynapse p]) (generation org) (fitness org).

Definition addSynapse org (synapse : option ptr) : M F (organism F) :=
  s <- derefS synapse ;;
  match synapse with
  | None => panic nil_dereference
  | Some p => ret (registerSynapse org p s)
  end.

Definition getNeuron org (id : neuronID) : option ptr := neurons org !! id.

Definition getSynapse org (id : synapseID) : option ptr := synapses org !! id.

Definition synapseEndpoints org (id : synapseID)
  : M F (option ptr * option ptr) :=
  let synapse := getSynapse org id in
  s <- derefS synapse ;;
  ret (neurons org !! s_in s, neurons org !! s_out s).

Definition toggleEnabled org (id : synapseID) : M F unit :=
  synapse_toggleEnabled (synapses org !! id).

Definition mutateWeight org (id : synapseID) : M F unit :=
  synapse_mutateWeight (synapses org !! id).

(** [a % b] on [int]. *)
Definition int_rem (a b : Z) : M F Z :=
  if (b =? 0)%Z then panic divide_by_zero else ret (Z.rem a b).

(** [s[i]] on a slice. *)
Definition index {A} (s : list A) (i : Z) : M F A :=
  if (i <? 0)%Z then panic index_out_of_range
  else match s !! Z.to_nat i with
       | Some x => ret x
       | None => panic index_out_of_range
       end.

Definition newOrganism (nInputs nOutputs : Z) : M F (organism F) :=
  let org := _newOrganism nInputs nOutputs in
  (* Create sensor neurons *)
  org <- for_fold (fun org (_ : nat) =>
                  n <- newSensorNeuron ;; addNeuron org (Some n))
           org (seq 0 (Z.to_nat nInputs)) ;;
  (* Create output neurons *)
  org <- for_fold (fun org (_ : nat) =>
                  n <- newOutputNeuron ;; addNeuron org (Some n))
           org (seq 0 (Z.to_nat nOutputs)) ;;
  (* Match sensors with outputs *)
  for_fold (fun org (i : nat) =>
           a <- int_rem (Z.of_nat i) nInputs ;;
           sid <- index (sensors org) a ;;
           let in_ := neurons org !! sid in
           b <- int_rem (Z.of_nat i) nOutputs ;;
           oid <- index (outputs org) b ;;
           let out := neurons org !! oid in
           s <- newSynapse in_ out ;;
           addSynapse org (Some s))
    org (seq 0 (Z.to_nat (max nInputs nOutputs))).

Definition clone_gene (clone : organism F) (gene : gene) : M F (organism F) :=
  match gene with
  | GNeuron g => c <- neuron_clone (Some g) ;; addNeuron clone (Some c)
  | GSynapse g => c <- synapse_clone (Some g) ;; addSynapse clone (Some c)
  end.

Definition clone org : M F (organism F) :=
  for_fold clone_gene
    (_newOrganism (Z.of_nat (length (sensors org)))
       (Z.of_nat (length (outputs org))))
    (genes org).

Definition splitSynapse org (id : synapseID) : M F (organism F) :=
  io <- synapseEndpoints org id ;;
  neuron <- newHiddenNeuron ;;
  synIn <- newSynapse (fst io) (Some neuron) ;;
  synOut <- newSynapse (Some neuron) (snd io) ;;
  updateS (synapses org !! id) (set_enabled false) ;;;
  org <- addNeuron org (Some neuron) ;;
  org <- addSynapse org (Some synIn) ;;
  addSynapse org (Some synOut).

(** *** Crossover *)

(** The type switch at the end of the loop body of [mate]: the inherited
    gene is copied and the copy registered in the offspring. *)
Definition inherit (offspring : organism F) (inheritance : option gene)
  : M F (organism F) :=
  match inheritance with
  | Some (GNeuron g) =>
      copyNeuron <- derefN (Some g) ;;
      p <- allocN copyNeuron ;;
      addNeuron offspring (Some p)
  | Some (GSynapse g) =>
      copySynapse <- derefS (Some g) ;;
      p <- allocS copySynapse ;;
      addSynapse offspring (Some p)
  | None => ret offspring
  end.

(** One iteration of the merge loop of [mate]. *)
Definition mate_step (a b : organism F) (aIdx bIdx : nat)
    (offspring : organism F) : M F (nat * nat * organism F) :=
  let aLen := length (genes a) in
  let bLen := length (genes b) in
  let aGene := if aIdx <? aLen then genes a !! aIdx else None in
  let bGene := if bIdx <? bLen then genes b !! bIdx else None in
  match aGene, bGene with
  | Some ag, Some bg =>
      aInov <- getInnovation ag ;;
      bInov <- getInnovation bg ;;
      if (aInov =? bInov)%N then
        let inheritance :=
          if f_gt (fitness a) (fitness b) then aGene else bGene in
        o <- inherit offspring inheritance ;;
        ret (S aIdx, S bIdx, o)
      else if (aInov <? bInov)%N then
        o <- inherit offspring aGene ;;
        ret (S aIdx, bIdx, o)
      else if (bInov <? aInov)%N then
        o <- inherit offspring bGene ;;
        ret (aIdx, S bIdx, o)
      else
        o <- inherit offspring None ;;
        ret (aIdx, bIdx, o)
  | Some _, None =>
      o <- inherit offspring aGene ;;
      ret (S aIdx, bIdx, o)
  | None, Some _ =>
      o <- inherit offspring bGene ;;
      ret (aIdx, S bIdx, o)
  | None, None =>
      log_Fatal "Out of genes but haven't reached end of genes"
  end.

Fixpoint mate_loop (fuel : nat) (a b : organism F) (aIdx bIdx : nat)
    (offspring : organism F) : M F (organism F) :=
  if (aIdx <? length (genes a)) || (bIdx <? length (genes b)) then
    match fuel with
    | 0 => fun _ => OutOfFuel
    | S fuel' =>
        st <- mate_step a b aIdx bIdx offspring ;;
        mate_loop fuel' a b (fst (fst st)) (snd (fst st)) (snd st)
    end
  else ret offspring.

Definition mate (a b : organism F) : M F (organism F) :=
  if negb (length (sensors a) =? length (sensors b))
     || negb (length (outputs a) =? length (outputs b))
  then log_Fatal "Wooooh easy there fella' that's illegal"
  else
    let offspring :=
      set_generation (int_add (generation a) 1)
        (_newOrganism (Z.of_nat (length (sensors a)))
           (Z.of_nat (length (outputs a)))) in
    mate_loop (length (genes a) + length (genes b)) a b 0 0 offspring.

(** *** The FIFO queue of util.go, holding [*neuron] items *)

Definition squeue := list (option ptr).
Definition newsqueue : squeue := [].
Definition Push (q : squeue) (item : option ptr) : squeue := q ++ [item].
Definition Pop (q : squeue) : M F (option ptr * squeue) :=
  match q with
  | [] => panic index_out_of_range
  | item :: q' => ret (item, q')
  end.
Definition Size (q : squeue) : nat := length q.

(** *** Propagation *)

(** The body of the loop over the outgoing synapses of the popped neuron. *)
Definition propagate_synapse org (n : option ptr) (queue : squeue)
    (id : synapseID) : M F squeue :=
  let synapse := getSynapse org id in
  s <- derefS synapse ;;
  if s_enabled s then
    nv <- derefN n ;;
    let signal := f_mul (n_value nv) (s_weight s) in
    let out := neurons org !! s_out s in
    o <- derefN out ;;
    if n_visited o then
      updateN out (fun o => set_future (f_add (n_future o) signal) o) ;;;
      ret queue
    else
      updateN out (fun o => set_sum (f_add (n_sum o) signal) o) ;;;
      if negb (n_seen o) then
        updateN out (set_seen true) ;;;
        ret (Push queue out)
      else ret queue
  else ret queue.

(** The body of the loop over the queue. *)
Definition propagate_visit org (queue : squeue) : M F squeue :=
  pq <- Pop queue ;;
  let n := fst pq in
  let queue := snd pq in
  nv <- derefN n ;;
  if n_visited nv then log_Fatal "Found visited neuron in the queue"
  else
    updateN n (set_visited true) ;;;
    updateN n (fun v => set_value (actFunc config (n_sum v)) v) ;;;
    for_fold (propagate_synapse org n) queue
      (default [] (connections org !! n_id nv)).

Fixpoint propagate_loop (fuel : nat) org (queue : squeue) : M F unit :=
  if 0 <? Size queue then
    match fuel with
    | 0 => fun _ => OutOfFuel
    | S fuel' =>
        queue' <- propagate_visit org queue ;;
        propagate_loop fuel' org queue'
    end
  else ret tt.

(** The queue after the loop that pushes the sensor neurons. *)
Definition initial_queue org : squeue :=
  foldl (fun q id => Push q (neurons org !! id)) newsqueue (sensors org).

(** Every iteration of the outer loop pops one item, and an item is only
    pushed when a neuron of the genome turns from unseen to seen;
    [propagate_fuel] bounds the number of iterations (lemma
    [propagate_loop_terminates]). *)
Definition propagate_fuel org : nat :=
  length (sensors org) + size (neurons org).

Definition propagate org : M F unit :=
  let queue := initial_queue org in
  propagate_loop (propagate_fuel org) org queue.

(** [neuron.sum, neuron.future = neuron.future, 0] and the two flags. *)
Definition clear_neuron (n : neuron F) : neuron F :=
  mkNeuron (n_id n) (n_value n) (n_innovation n) (n_kind n) f_zero
    (n_future n) false false.

Definition process org (input : list F) : M F (list F) :=
  if negb (length input =? length (sensors org)) then
    log_Fatal "Number of inputs exceeds number of sensors"
  else
    (* Clear all neurons *)
    for_do (map_to_list (neurons org))
      (fun kv => updateN (Some (snd kv)) clear_neuron) ;;;
    (* Add the input signals to the sensor neurons; [input[i]] is in range
       by the length check *)
    for_do (zip (sensors org) input)
      (fun ix =>
         let s := neurons org !! fst ix in
         updateN s (fun v => set_sum (f_add (n_sum v) (snd ix)) v)) ;;;
    propagate org ;;;
    for_map (fun id => v <- derefN (neurons org !! id) ;; ret (n_value v))
      (outputs org).

End Engine.

(** ** Fixtures of network_test.go *)

Definition identity (a : float) : float := a.

#[warnings="-inexact-float"]
Definition testConfig : OrganismConfig float :=
  mkOrganismConfig 0.01%float 0.01%float 0.01%float 5%float identity.

(** A fresh process: nothing allocated, both counters at zero. *)
Definition initial_world {F} : world F := mkWorld [] [] 0%N 0%N 0.

(** Sensor -> Hidden -> Output, with Hidden feeding back into Sensor. *)
Definition createSimpleRecurrent : M float (organism float) :=
  let org := _newOrganism 1 1 in
  sensor <- newSensorNeuron ;;
  hidden <- newHiddenNeuron ;;
  output <- newOutputNeuron ;;
  org <- addNeuron org (Some sensor) ;;
  org <- addNeuron org (Some hidden) ;;
  org <- addNeuron org (Some output) ;;
  s <- newSynapse (Some sensor) (Some hidden) ;;
  org <- addSynapse org (Some s) ;;
  s <- newSynapse (Some hidden) (Some sensor) ;;
  org <- addSynapse org (Some s) ;;
  s <- newSynapse (Some hidden) (Some output) ;;
  addSynapse org (Some s).

(** Two sensors, the first wired into the second, built with the same
    calls as [createSimpleRecurrent]. *)
Definition createSensorToSensor : M float (organism float) :=
  let org := _newOrganism 2 0 in
  first <- newSensorNeuron ;;
  second <- newSensorNeuron ;;
  org <- addNeuron org (Some first) ;;
  org <- addNeuron org (Some second) ;;
  s <- newSynapse (Some first) (Some second) ;;
  addSynapse org (Some s).

(** What a caller observes of a run: the returned value or the failure. *)
Inductive result (A : Type) : Type :=
| Returned (a : A)
| FatalExit (msg : string)
| Panicked (msg : string)
| Diverged.
Arguments Returned {A} a.
Arguments FatalExit {A} msg.
Arguments Panicked {A} msg.
Arguments Diverged {A}.

Definition observe {F A} (r : outcome F A) : result A :=
  match r with
  | Done a _ => Returned a
  | Fatal msg => FatalExit msg
  | Panic msg => Panicked msg
  | OutOfFuel => Diverged
  end.

(** [process] called once per input vector, in order. *)
Definition process_all {F} `{Float64 F} (config : OrganismConfig F)
    (org : organism F) (inputs : list (list F)) : M F (list (list F)) :=
  for_map (process config org) inputs.


(** [a.process(input)] then [b.process(input)] for every input vector, as
    TestOrganismClone drives an organism and its clone. *)
Definition process_both {F} `{Float64 F} (config : OrganismConfig F)
    (a b : organism F) (inputs : list (list F))
  : M F (list (list F * list F)) :=
  for_map (fun input =>
             outA <- process config a input ;;
             outB <- process config b input ;;
             ret (outA, outB)) inputs.

(** A call that mutates a synapse of an organism in place. *)
Inductive mutation := ToggleEnabled (id : synapseID) | MutateWeight (id : synapseID).

Definition apply_mutation {F} `{Float64 F} (config : OrganismConfig F)
    (rand_source : nat -> F) (org : organism F) (m : mutation) : M F unit :=
  match m with
  | ToggleEnabled id => toggleEnabled org id
  | MutateWeight id => mutateWeight config rand_source org id
  end.

Definition mutate_all {F} `{Float64 F} (config : OrganismConfig F)
    (rand_source : nat -> F) (org : organism F) (ms : list mutation)
  : M F unit :=
  for_do ms (apply_mutation config rand_source org).

Definition result_map {A B} (f : A -> B) (r : result A) : result B :=
  match r with
  | Returned a => Returned (f a)
  | FatalExit msg => FatalExit msg
  | Panicked msg => Panicked msg
  | Diverged => Diverged
  end.

(** * Reasoning about runs *)

Section Runs.

Context {F : Type} {FF : Float64 F}.

Implicit Types (w : world F) (org : organism F).

Lemma bind_Done {A B} (m : M F A) (k : A → M F B) w a w' :
  m w = Done a w' → bind m k w = k a w'.
Proof. unfold bind. intros ->. reflexivity. Qed.

Lemma bind_Done_inv {A B} (m : M F A) (k : A → M F B) w b w2 :
  bind m k w = Done b w2 → ∃ a w1, m w = Done a w1 ∧ k a w1 = Done b w2.
Proof.
  unfold bind. destruct (m w) as [a w1| | |]; try discriminate.
  intros Hk. exists a, w1. split; [reflexivity|exact Hk].
Qed.

Lemma bind_Fatal {A B} (m : M F A) (k : A → M F B) w msg :
  m w = Fatal msg → bind m k w = Fatal msg.
Proof. unfold bind. intros ->. reflexivity. Qed.

Lemma bind_Panic {A B} (m : M F A) (k : A → M F B) w msg :
  m w = Panic msg → bind m k w = Panic msg.
Proof. unfold bind. intros ->. reflexivity. Qed.

Lemma bind_OutOfFuel {A B} (m : M F A) (k : A → M F B) w :
  m w = OutOfFuel → bind m k w = OutOfFuel.
Proof. unfold bind. intros ->. reflexivity. Qed.

Lemma observe_bind_ret {A B} (m : M F A) (f : A → B) w :
  observe (bind m (fun a => ret (f a)) w) = result_map f (observe (m w)).
Proof. unfold bind. destruct (m w); reflexivity. Qed.

Lemma result_map_compose {A B C} (f : A → B) (h : B → C) (r : result A) :
  result_map h (result_map f r) = result_map (fun a => h (f a)) r.
Proof. destruct r; reflexivity. Qed.

Lemma for_fold_app {A B} (body : B → A → M F B) acc (l1 l2 : list A) w :
  for_fold body acc (l1 ++ l2) w
  = bind (for_fold body acc l1) (fun acc' => for_fold body acc' l2) w.
Proof.
  revert acc w. induction l1 as [|x l1 IH]; intros acc w; simpl.
  - reflexivity.
  - unfold bind. destruct (body acc x w) as [acc' w'| | |]; try reflexivity.
    rewrite IH. reflexivity.
Qed.

(** ** Genes read through the heap *)

(** The struct a gene pointer refers to. *)
Inductive gene_value := VNeuron (n : neuron F) | VSynapse (s : synapse F).

Definition innovation_of (v : gene_value) : N :=
  match v with
  | VNeuron n => n_innovation n
  | VSynapse s => s_innovation s
  end.

Definition read_gene w (g : gene) : option gene_value :=
  match g with
  | GNeuron p => VNeuron <$> neuronHeap w !! p
  | GSynapse p => VSynapse <$> synapseHeap w !! p
  end.

(** [vs] are the structs behind the gene sequence [gs], in order. *)
Definition genes_read w (gs : list gene) (vs : list gene_value) : Prop :=
  Forall2 (fun g v => read_gene w g = Some v) gs vs.

(** The offspring inherits a copy of [v]: a fresh object holding [v] is
    allocated and registered with [addNeuron] / [addSynapse]. *)
Definition copy_into (offspring : organism F) (v : gene_value) w
  : organism F * world F :=
  match v with
  | VNeuron n =>
      (registerNeuron offspring (length (neuronHeap w)) n,
       set_neuronHeap (neuronHeap w ++ [n]) w)
  | VSynapse s =>
      (registerSynapse offspring (length (synapseHeap w)) s,
       set_synapseHeap (synapseHeap w ++ [s]) w)
  end.

Definition copied {A} (k : organism F → A) (offspring : organism F)
    (v : gene_value) w : outcome F A :=
  Done (k (copy_into offspring v w).1) (copy_into offspring v w).2.

Lemma getInnovation_read w g v :
  read_gene w g = Some v → getInnovation g w = Done (innovation_of v) w.
Proof.
  destruct g as [p|p]; simpl; unfold getInnovationN, getInnovationS, bind,
    derefN, derefS, ret.
  - destruct (neuronHeap w !! p); simpl; [|discriminate].
    intros [= <-]. reflexivity.
  - destruct (synapseHeap w !! p); simpl; [|discriminate].
    intros [= <-]. reflexivity.
Qed.

Lemma inherit_copy (offspring : organism F) g v w :
  read_gene w g = Some v →
  inherit offspring (Some g) w = copied (fun o => o) offspring v w.
Proof.
  destruct g as [p|p]; simpl; unfold copied, copy_into, bind, derefN, derefS,
    allocN, allocS, addNeuron, addSynapse, bind, derefN, derefS, ret.
  - destruct (neuronHeap w !! p) as [n|]; simpl; [|discriminate].
    intros [= <-]. rewrite list_lookup_middle by reflexivity. reflexivity.
  - destruct (synapseHeap w !! p) as [s|]; simpl; [|discriminate].
    intros [= <-]. rewrite list_lookup_middle by reflexivity. reflexivity.
Qed.

End Runs.

Arguments gene_value F : clear implicits.

(** * Crossover *)

Section Crossover.

Context {F : Type} {FF : Float64 F}.

Implicit Types (w : world F) (a b offspring : organism F)
  (la lb : list (gene_value F)).

Lemma guarded_lookup {A} (l : list A) (i : nat) :
  (if i <? length l then l !! i else None) = l !! i.
Proof.
  destruct (Nat.ltb_spec i (length l)) as [Hlt|Hge]; [reflexivity|].
  symmetry. apply lookup_ge_None. lia.
Qed.

Lemma genes_read_lookup w (gs : list gene) (vs : list (gene_value F)) (i : nat) :
  genes_read w gs vs →
  match vs !! i with
  | Some v => ∃ g, gs !! i = Some g ∧ read_gene w g = Some v
  | None => gs !! i = None
  end.
Proof.
  intros Hread. destruct (vs !! i) as [v|] eqn:Hv.
  - destruct (Forall2_lookup_r _ _ _ _ _ Hread Hv) as (g & Hg & Hgv). eauto.
  - apply lookup_ge_None. apply lookup_ge_None in Hv.
    rewrite (Forall2_length _ _ _ Hread). exact Hv.
Qed.

(** One iteration of the merge loop, by the genes under the two cursors. *)
Lemma mate_step_spec a b offspring la lb (aIdx bIdx : nat) w :
  genes_read w (genes a) la →
  genes_read w (genes b) lb →
  mate_step a b aIdx bIdx offspring w =
    match la !! aIdx, lb !! bIdx with
    | Some va, Some vb =>
        if (innovation_of va =? innovation_of vb)%N then
          copied (fun o => (S aIdx, S bIdx, o)) offspring
            (if f_gt (fitness a) (fitness b) then va else vb) w
        else if (innovation_of va <? innovation_of vb)%N then
          copied (fun o => (S aIdx, bIdx, o)) offspring va w
        else
          copied (fun o => (aIdx, S bIdx, o)) offspring vb w
    | Some va, None => copied (fun o => (S aIdx, bIdx, o)) offspring va w
    | None, Some vb => copied (fun o => (aIdx, S bIdx, o)) offspring vb w
    | None, None => Fatal "Out of genes but haven't reached end of genes"
    end.
Proof.
  intros Ha Hb. unfold mate_step. rewrite !guarded_lookup.
  pose proof (genes_read_lookup w _ _ aIdx Ha) as Hai.
  pose proof (genes_read_lookup w _ _ bIdx Hb) as Hbi.
  destruct (la !! aIdx) as [va|]; destruct (lb !! bIdx) as [vb|].
  - destruct Hai as (ga & -> & Hga). destruct Hbi as (gb & -> & Hgb).
    rewrite (bind_Done _ _ _ _ _ (getInnovation_read _ _ _ Hga)).
    rewrite (bind_Done _ _ _ _ _ (getInnovation_read _ _ _ Hgb)).
    destruct (N.eqb_spec (innovation_of va) (innovation_of vb)) as [Heq|Hne].
    + destruct (f_gt (fitness a) (fitness b)).
      * unfold bind. rewrite (inherit_copy _ _ _ _ Hga). reflexivity.
      * unfold bind. rewrite (inherit_copy _ _ _ _ Hgb). reflexivity.
    + destruct (N.ltb_spec (innovation_of va) (innovation_of vb)) as [Hlt|Hge].
      * unfold bind. rewrite (inherit_copy _ _ _ _ Hga). reflexivity.
      * destruct (N.ltb_spec (innovation_of vb) (innovation_of va)) as [Hlt'|Hge'].
        -- unfold bind. rewrite (inherit_copy _ _ _ _ Hgb). reflexivity.
        -- exfalso. apply Hne. lia.
  - destruct Hai as (ga & -> & Hga). rewrite Hbi.
    unfold bind. rewrite (inherit_copy _ _ _ _ Hga). reflexivity.
  - destruct Hbi as (gb & -> & Hgb). rewrite Hai.
    unfold bind. rewrite (inherit_copy _ _ _ _ Hgb). reflexivity.
  - rewrite Hai, Hbi. reflexivity.
Qed.

(** ** The merge as a function on gene values

    [merge_genes] is the sequence of genes the loop of [mate] inherits, read
    off the two parents' sequences; [pickA] is [a.fitness > b.fitness]. *)
Fixpoint merge_genes (pickA : bool) la : list (gene_value F) → list (gene_value F) :=
  match la with
  | [] => fun lb => lb
  | va :: la' =>
      fix merge_b lb :=
        match lb with
        | [] => va :: la'
        | vb :: lb' =>
            if (innovation_of va =? innovation_of vb)%N then
              (if pickA then va else vb) :: merge_genes pickA la' lb'
            else if (innovation_of va <? innovation_of vb)%N then
              va :: merge_genes pickA la' (vb :: lb')
            else vb :: merge_b lb'
        end
  end.

Lemma merge_genes_nil_r pickA la : merge_genes pickA la [] = la.
Proof. destruct la; reflexivity. Qed.

(** Copies of [vs] inherited one after the other. *)
Definition copy_all offspring (vs : list (gene_value F)) w
  : organism F * world F :=
  foldl (fun ow v => copy_into ow.1 v ow.2) (offspring, w) vs.

Lemma copy_all_cons offspring v vs w :
  copy_all offspring (v :: vs) w
  = copy_all (copy_into offspring v w).1 vs (copy_into offspring v w).2.
Proof. unfold copy_all. simpl. destruct (copy_into offspring v w); reflexivity. Qed.

Lemma copy_all_app offspring vs1 vs2 w :
  copy_all offspring (vs1 ++ vs2) w
  = copy_all (copy_all offspring vs1 w).1 vs2 (copy_all offspring vs1 w).2.
Proof.
  unfold copy_all. rewrite foldl_app.
  destruct (foldl _ (offspring, w) vs1); reflexivity.
Qed.

(** The heaps of [w'] extend those of [w]: objects are only added. *)
Definition extends w w' : Prop :=
  neuronHeap w `prefix_of` neuronHeap w'
  ∧ synapseHeap w `prefix_of` synapseHeap w'.

Lemma extends_refl w : extends w w.
Proof. split; reflexivity. Qed.

Lemma extends_trans w1 w2 w3 : extends w1 w2 → extends w2 w3 → extends w1 w3.
Proof. intros [? ?] [? ?]. split; etrans; eauto. Qed.

Lemma copy_into_extends offspring v w : extends w (copy_into offspring v w).2.
Proof.
  destruct v; simpl; split; simpl; try reflexivity; apply prefix_app_r; reflexivity.
Qed.

Lemma copy_all_extends offspring vs w : extends w (copy_all offspring vs w).2.
Proof.
  revert offspring w. induction vs as [|v vs IH]; intros offspring w.
  - apply extends_refl.
  - rewrite copy_all_cons. eapply extends_trans; [apply copy_into_extends|apply IH].
Qed.

Lemma read_gene_extends w w' g v :
  extends w w' → read_gene w g = Some v → read_gene w' g = Some v.
Proof.
  intros [Hn Hs]. destruct g as [p|p]; simpl.
  - destruct (neuronHeap w !! p) as [n|] eqn:Hp; [|discriminate].
    intros [= <-]. rewrite (prefix_lookup_Some _ _ _ _ Hp Hn). reflexivity.
  - destruct (synapseHeap w !! p) as [s|] eqn:Hp; [|discriminate].
    intros [= <-]. rewrite (prefix_lookup_Some _ _ _ _ Hp Hs). reflexivity.
Qed.

Lemma genes_read_extends w w' gs vs :
  extends w w' → genes_read w gs vs → genes_read w' gs vs.
Proof.
  intros Hext Hread. eapply Forall2_impl; [exact Hread|].
  intros g v. apply read_gene_extends. exact Hext.
Qed.

(** The loop of [mate] inherits exactly [merge_genes] of what is left of the
    two sequences, and never runs out of the fuel [mate] gives it. *)
Lemma mate_loop_merge a b la lb (fuel aIdx bIdx : nat) offspring w :
  genes_read w (genes a) la →
  genes_read w (genes b) lb →
  length (drop aIdx la) + length (drop bIdx lb) ≤ fuel →
  mate_loop fuel a b aIdx bIdx offspring w
  = Done (copy_all offspring
            (merge_genes (f_gt (fitness a) (fitness b))
               (drop aIdx la) (drop bIdx lb)) w).1
         (copy_all offspring
            (merge_genes (f_gt (fitness a) (fitness b))
               (drop aIdx la) (drop bIdx lb)) w).2.
Proof.
  revert aIdx bIdx offspring w.
  induction fuel as [|fuel IH]; intros aIdx bIdx offspring w Ha Hb Hfuel.
  - pose proof (Forall2_length _ _ _ Ha) as Hla.
    pose proof (Forall2_length _ _ _ Hb) as Hlb.
    rewrite !length_drop in Hfuel.
    rewrite !drop_ge by lia. simpl.
    rewrite (proj2 (Nat.ltb_ge aIdx (length (genes a)))) by lia.
    rewrite (proj2 (Nat.ltb_ge bIdx (length (genes b)))) by lia.
    reflexivity.
  - pose proof (Forall2_length _ _ _ Ha) as Hla.
    pose proof (Forall2_length _ _ _ Hb) as Hlb.
    simpl mate_loop.
    destruct ((aIdx <? length (genes a)) || (bIdx <? length (genes b))) eqn:Hc.
    + unfold bind. rewrite (mate_step_spec a b offspring la lb aIdx bIdx w Ha Hb).
      assert (Hstep : ∀ i j v (ms : list (gene_value F)),
        length (drop i la) + length (drop j lb) ≤ fuel →
        ms = v :: merge_genes (f_gt (fitness a) (fitness b)) (drop i la) (drop j lb) →
        match copied (fun o => (i, j, o)) offspring v w with
        | Done st w' => mate_loop fuel a b st.1.1 st.1.2 st.2 w'
        | Fatal msg => Fatal msg
        | Panic msg => Panic msg
        | OutOfFuel => OutOfFuel
        end
        = Done (copy_all offspring ms w).1 (copy_all offspring ms w).2).
      { intros i j v ms Hf ->. unfold copied. simpl.
        rewrite IH; [rewrite copy_all_cons; reflexivity| | |exact Hf].
        - eapply genes_read_extends; [apply copy_into_extends|exact Ha].
        - eapply genes_read_extends; [apply copy_into_extends|exact Hb]. }
      destruct (la !! aIdx) as [va|] eqn:Hva; destruct (lb !! bIdx) as [vb|] eqn:Hvb.
      * rewrite (drop_S _ _ _ Hva), (drop_S _ _ _ Hvb) in Hfuel |- *.
        simpl in Hfuel. simpl merge_genes.
        destruct (innovation_of va =? innovation_of vb)%N.
        { apply Hstep; [lia|reflexivity]. }
        destruct (innovation_of va <? innovation_of vb)%N.
        { apply Hstep; [rewrite (drop_S _ _ _ Hvb); simpl; lia|].
          rewrite (drop_S _ _ _ Hvb). reflexivity. }
        apply Hstep; [rewrite (drop_S _ _ _ Hva); simpl; lia|].
        rewrite (drop_S _ _ _ Hva). reflexivity.
      * rewrite (drop_S _ _ _ Hva) in Hfuel |- *.
        assert (Hdb : drop bIdx lb = []).
        { apply drop_ge. apply lookup_ge_None. exact Hvb. }
        rewrite Hdb in Hfuel |- *. simpl in Hfuel.
        apply Hstep; [rewrite Hdb; simpl; lia|].
        rewrite Hdb. rewrite !merge_genes_nil_r. reflexivity.
      * rewrite (drop_S _ _ _ Hvb) in Hfuel |- *.
        assert (Hda : drop aIdx la = []).
        { apply drop_ge. apply lookup_ge_None. exact Hva. }
        rewrite Hda in Hfuel |- *. simpl in Hfuel.
        apply Hstep; [rewrite Hda; simpl; lia|].
        rewrite Hda. reflexivity.
      * apply lookup_ge_None in Hva, Hvb.
        apply orb_true_iff in Hc. rewrite !Nat.ltb_lt in Hc. lia.
    + apply orb_false_iff in Hc. rewrite !Nat.ltb_ge in Hc.
      rewrite !drop_ge by lia. reflexivity.
Qed.

(** ** What a sequence of inherited copies amounts to *)

(** The ids of the neurons of kind [k] in a gene sequence, in order: what
    [addNeuron] appends to the sensor or output list. *)
Definition ids_of_kind (k : neuronKind) (vs : list (gene_value F)) : list N :=
  omap (fun v => match v with
                 | VNeuron n => if decide (n_kind n = k) then Some (n_id n) else None
                 | VSynapse _ => None
                 end) vs.

Lemma copy_into_spec offspring v w vs0 :
  genes_read w (genes offspring) vs0 →
  genes_read (copy_into offspring v w).2 (genes (copy_into offspring v w).1)
    (vs0 ++ [v])
  ∧ sensors (copy_into offspring v w).1
    = sensors offspring ++ ids_of_kind sensorNeuron [v]
  ∧ outputs (copy_into offspring v w).1
    = outputs offspring ++ ids_of_kind outputNeuron [v]
  ∧ generation (copy_into offspring v w).1 = generation offspring
  ∧ fitness (copy_into offspring v w).1 = fitness offspring.
Proof.
  intros Hread.
  pose proof (genes_read_extends _ _ _ _ (copy_into_extends offspring v w) Hread)
    as Hread'.
  destruct v as [n|s]; simpl in *.
  - split.
    + assert (Hg : genes (registerNeuron offspring (length (neuronHeap w)) n)
                   = genes offspring ++ [GNeuron (length (neuronHeap w))]).
      { unfold registerNeuron. destruct (n_kind n); reflexivity. }
      rewrite Hg. apply Forall2_app; [exact Hread'|].
      constructor; [|constructor]. simpl.
      rewrite list_lookup_middle by reflexivity. reflexivity.
    + unfold registerNeuron, ids_of_kind. simpl.
      destruct (n_kind n); simpl; rewrite ?app_nil_r; repeat split; reflexivity.
  - split.
    + apply Forall2_app; [exact Hread'|].
      constructor; [|constructor]. simpl.
      rewrite list_lookup_middle by reflexivity. reflexivity.
    + rewrite !app_nil_r. repeat split; reflexivity.
Qed.

Lemma copy_all_spec offspring vs w vs0 :
  genes_read w (genes offspring) vs0 →
  genes_read (copy_all offspring vs w).2 (genes (copy_all offspring vs w).1)
    (vs0 ++ vs)
  ∧ sensors (copy_all offspring vs w).1
    = sensors offspring ++ ids_of_kind sensorNeuron vs
  ∧ outputs (copy_all offspring vs w).1
    = outputs offspring ++ ids_of_kind outputNeuron vs
  ∧ generation (copy_all offspring vs w).1 = generation offspring
  ∧ fitness (copy_all offspring vs w).1 = fitness offspring.
Proof.
  revert offspring w vs0. induction vs as [|v vs IH]; intros offspring w vs0 Hread.
  - unfold copy_all. simpl. rewrite !app_nil_r. repeat split; try reflexivity.
    exact Hread.
  - rewrite copy_all_cons.
    destruct (copy_into_spec offspring v w vs0 Hread) as (Hg & Hs & Ho & Hgen & Hfit).
    destruct (IH _ _ _ Hg) as (Hg' & Hs' & Ho' & Hgen' & Hfit').
    rewrite <- app_assoc in Hg'. simpl in Hg'.
    split; [exact Hg'|].
    rewrite Hs', Ho', Hgen', Hfit', Hs, Ho, <- !app_assoc.
    unfold ids_of_kind. rewrite <- !omap_app. simpl. repeat split; auto.
Qed.

(** ** Genomes assembled through the container's interface *)

(** [built w org]: [org] is an empty organism to which live objects of [w]
    were added with [addNeuron] and [addSynapse]. *)
Inductive built w : organism F → Prop :=
| built_empty gen fit : built w (mkOrganism [] [] ∅ ∅ ∅ [] gen fit)
| built_neuron org p n :
    built w org → neuronHeap w !! p = Some n → built w (registerNeuron org p n)
| built_synapse org p s :
    built w org → synapseHeap w !! p = Some s → built w (registerSynapse org p s).

Lemma built_genes_read w org :
  built w org →
  ∃ vs, genes_read w (genes org) vs
        ∧ sensors org = ids_of_kind sensorNeuron vs
        ∧ outputs org = ids_of_kind outputNeuron vs.
Proof.
  induction 1 as [gen fit|org p n _ (vs & Hg & Hs & Ho) Hp
                 |org p s _ (vs & Hg & Hs & Ho) Hp].
  - exists []. repeat split; constructor.
  - exists (vs ++ [VNeuron n]). unfold ids_of_kind in *. rewrite !omap_app. simpl.
    unfold registerNeuron.
    destruct (n_kind n); simpl; rewrite ?app_nil_r, <- ?Hs, <- ?Ho;
      (split; [|split; reflexivity]);
      (apply Forall2_app; [exact Hg|constructor; [|constructor]]);
      simpl; rewrite Hp; reflexivity.
  - exists (vs ++ [VSynapse s]). unfold ids_of_kind in *. rewrite !omap_app. simpl.
    rewrite !app_nil_r, <- Hs, <- Ho. split; [|split; reflexivity].
    apply Forall2_app; [exact Hg|constructor; [|constructor]].
    simpl. rewrite Hp. reflexivity.
Qed.

Lemma genes_read_functional w gs vs1 vs2 :
  genes_read w gs vs1 → genes_read w gs vs2 → vs1 = vs2.
Proof.
  intros H1. revert vs2. induction H1 as [|g v gs vs Hv _ IH]; intros vs2 H2.
  - inversion H2. reflexivity.
  - inversion H2 as [|g' v' gs' vs' Hv' Hrest]; subst.
    rewrite Hv in Hv'. injection Hv' as ->. f_equal. apply IH. exact Hrest.
Qed.

(** ** Properties of the merged sequence *)

Definition innovation_lt (v1 v2 : gene_value F) : Prop :=
  (innovation_of v1 < innovation_of v2)%N.

(** Every gene has a lower innovation number than the next one. *)
Definition strictly_ascending (vs : list (gene_value F)) : Prop :=
  Sorted innovation_lt vs.

#[local] Instance innovation_lt_transitive : Transitive innovation_lt.
Proof. unfold innovation_lt. intros x y z. lia. Qed.

Lemma merge_genes_cons pickA va la vb lb :
  merge_genes pickA (va :: la) (vb :: lb)
  = if (innovation_of va =? innovation_of vb)%N then
      (if pickA then va else vb) :: merge_genes pickA la lb
    else if (innovation_of va <? innovation_of vb)%N then
      va :: merge_genes pickA la (vb :: lb)
    else vb :: merge_genes pickA (va :: la) lb.
Proof. reflexivity. Qed.

(** Induction along the recursion of [merge_genes]. *)
Lemma merge_genes_ind (P : list (gene_value F) → list (gene_value F) → Prop) :
  (∀ lb, P [] lb) →
  (∀ va la, P (va :: la) []) →
  (∀ va la vb lb,
     P la lb → P la (vb :: lb) → P (va :: la) lb → P (va :: la) (vb :: lb)) →
  ∀ la lb, P la lb.
Proof.
  intros Hnil Hnil' Hcons. induction la as [|va la IHa]; [exact Hnil|].
  induction lb as [|vb lb IHb]; [apply Hnil'|].
  apply Hcons; auto.
Qed.

Lemma merge_genes_Forall (P : gene_value F → Prop) pickA la lb :
  Forall P la → Forall P lb → Forall P (merge_genes pickA la lb).
Proof.
  revert la lb. apply (merge_genes_ind (fun la lb =>
    Forall P la → Forall P lb → Forall P (merge_genes pickA la lb))).
  - intros lb _ Hb. exact Hb.
  - intros va la Ha _. rewrite merge_genes_nil_r. exact Ha.
  - intros va la vb lb IH1 IH2 IH3 Ha Hb. rewrite merge_genes_cons.
    pose proof (Forall_inv Ha) as Hva. pose proof (Forall_inv_tail Ha) as Hla.
    pose proof (Forall_inv Hb) as Hvb. pose proof (Forall_inv_tail Hb) as Hlb.
    destruct (innovation_of va =? innovation_of vb)%N.
    { constructor; [destruct pickA; assumption|auto]. }
    destruct (innovation_of va <? innovation_of vb)%N; constructor; auto.
Qed.

Lemma merge_genes_ascending pickA la lb :
  StronglySorted innovation_lt la → StronglySorted innovation_lt lb →
  StronglySorted innovation_lt (merge_genes pickA la lb).
Proof.
  revert la lb. apply (merge_genes_ind (fun la lb =>
    StronglySorted innovation_lt la → StronglySorted innovation_lt lb →
    StronglySorted innovation_lt (merge_genes pickA la lb))).
  - intros lb _ Hb. exact Hb.
  - intros va la Ha _. rewrite merge_genes_nil_r. exact Ha.
  - intros va la vb lb IH1 IH2 IH3 Ha Hb. rewrite merge_genes_cons.
    apply StronglySorted_inv in Ha as Ha'. destruct Ha' as [Hla Hva].
    apply StronglySorted_inv in Hb as Hb'. destruct Hb' as [Hlb Hvb].
    destruct (N.eqb_spec (innovation_of va) (innovation_of vb)) as [Heq|Hne].
    { constructor; [auto|]. apply merge_genes_Forall.
      - eapply Forall_impl; [exact Hva|]. unfold innovation_lt.
        intros v Hv. destruct pickA; lia.
      - eapply Forall_impl; [exact Hvb|]. unfold innovation_lt.
        intros v Hv. destruct pickA; lia. }
    destruct (N.ltb_spec (innovation_of va) (innovation_of vb)) as [Hlt|Hge].
    + constructor; [auto|]. apply merge_genes_Forall; [exact Hva|].
      constructor; [exact Hlt|].
      eapply Forall_impl; [exact Hvb|]. unfold innovation_lt in *. intros v Hv. lia.
    + constructor; [auto|]. apply merge_genes_Forall; [|exact Hvb].
      constructor; [unfold innovation_lt; lia|].
      eapply Forall_impl; [exact Hva|]. unfold innovation_lt in *. intros v Hv. lia.
Qed.

Lemma merge_genes_innovations pickA la lb (i : N) :
  i ∈ innovation_of <$> merge_genes pickA la lb
  ↔ i ∈ innovation_of <$> la ∨ i ∈ innovation_of <$> lb.
Proof.
  revert la lb. apply (merge_genes_ind (fun la lb =>
    i ∈ innovation_of <$> merge_genes pickA la lb
    ↔ i ∈ innovation_of <$> la ∨ i ∈ innovation_of <$> lb)).
  - intros lb. simpl. rewrite elem_of_nil. tauto.
  - intros va la. rewrite merge_genes_nil_r. simpl (innovation_of <$> []).
    rewrite elem_of_nil. tauto.
  - intros va la vb lb IH1 IH2 IH3. rewrite merge_genes_cons.
    destruct (N.eqb_spec (innovation_of va) (innovation_of vb)) as [Heq|Hne].
    { rewrite !fmap_cons, !elem_of_cons, IH1.
      destruct pickA; rewrite ?Heq; tauto. }
    destruct (innovation_of va <? innovation_of vb)%N.
    + rewrite !fmap_cons, !elem_of_cons, IH2, fmap_cons, elem_of_cons. tauto.
    + rewrite !fmap_cons, !elem_of_cons, IH3, fmap_cons, elem_of_cons. tauto.
Qed.

(** No innovation number occurs in both sequences. *)
Definition no_common_innovation la lb : Prop :=
  ∀ va vb, va ∈ la → vb ∈ lb → innovation_of va ≠ innovation_of vb.

Lemma merge_genes_disjoint pickA la lb :
  no_common_innovation la lb → merge_genes pickA la lb ≡ₚ la ++ lb.
Proof.
  revert la lb. apply (merge_genes_ind (fun la lb =>
    no_common_innovation la lb → merge_genes pickA la lb ≡ₚ la ++ lb)).
  - intros lb _. reflexivity.
  - intros va la _. rewrite merge_genes_nil_r, app_nil_r. reflexivity.
  - intros va la vb lb IH1 IH2 IH3 Hdis. rewrite merge_genes_cons.
    destruct (N.eqb_spec (innovation_of va) (innovation_of vb)) as [Heq|Hne].
    { exfalso. apply (Hdis va vb); [left|left|exact Heq]. }
    destruct (innovation_of va <? innovation_of vb)%N.
    + simpl. constructor. apply IH2.
      intros x y Hx Hy. apply Hdis; [right; exact Hx|exact Hy].
    + rewrite IH3.
      * apply Permutation_middle.
      * intros x y Hx Hy. apply Hdis; [exact Hx|right; exact Hy].
Qed.

Lemma merge_genes_self pickA la : merge_genes pickA la la = la.
Proof.
  induction la as [|va la IH]; [reflexivity|].
  rewrite merge_genes_cons, N.eqb_refl, IH. destruct pickA; reflexivity.
Qed.

(** ** [mate] as a whole *)

Lemma mate_spec a b la lb w :
  genes_read w (genes a) la →
  genes_read w (genes b) lb →
  length (sensors a) = length (sensors b) →
  length (outputs a) = length (outputs b) →
  mate a b w
  = Done (copy_all (mkOrganism [] [] ∅ ∅ ∅ [] (int_add (generation a) 1) f_zero)
            (merge_genes (f_gt (fitness a) (fitness b)) la lb) w).1
         (copy_all (mkOrganism [] [] ∅ ∅ ∅ [] (int_add (generation a) 1) f_zero)
            (merge_genes (f_gt (fitness a) (fitness b)) la lb) w).2.
Proof.
  intros Ha Hb Hs Ho. unfold mate.
  rewrite Hs, Ho, !Nat.eqb_refl. simpl.
  rewrite (mate_loop_merge a b la lb _ 0 0 _ w Ha Hb).
  - rewrite !drop_0. reflexivity.
  - rewrite !drop_0, (Forall2_length _ _ _ Ha), (Forall2_length _ _ _ Hb). lia.
Qed.

(** ** [clone] *)

Lemma clone_gene_copy (c : organism F) g v w :
  read_gene w g = Some v →
  clone_gene c g w = copied (fun o => o) c v w.
Proof.
  destruct g as [p|p]; simpl; unfold copied, copy_into, neuron_clone,
    synapse_clone, bind, derefN, derefS, allocN, allocS, addNeuron, addSynapse,
    bind, derefN, derefS, ret.
  - destruct (neuronHeap w !! p) as [n|]; simpl; [|discriminate].
    intros [= <-]. rewrite list_lookup_middle by reflexivity. reflexivity.
  - destruct (synapseHeap w !! p) as [s|]; simpl; [|discriminate].
    intros [= <-]. rewrite list_lookup_middle by reflexivity. reflexivity.
Qed.

Lemma clone_loop_spec (c : organism F) gs vs w :
  genes_read w gs vs →
  for_fold clone_gene c gs w
  = Done (copy_all c vs w).1 (copy_all c vs w).2.
Proof.
  revert gs c w. induction vs as [|v vs IH]; intros gs c w Hread.
  - inversion Hread. reflexivity.
  - inversion Hread as [|g v' gs' vs' Hg Hrest]; subst.
    simpl. unfold bind. rewrite (clone_gene_copy _ _ v _ Hg). unfold copied.
    rewrite IH; [rewrite copy_all_cons; reflexivity|].
    eapply genes_read_extends; [apply copy_into_extends|exact Hrest].
Qed.

Lemma clone_spec g vs w :
  genes_read w (genes g) vs →
  clone g w
  = Done (copy_all (mkOrganism [] [] ∅ ∅ ∅ [] 0%Z f_zero) vs w).1
         (copy_all (mkOrganism [] [] ∅ ∅ ∅ [] 0%Z f_zero) vs w).2.
Proof. intros Hread. unfold clone. apply clone_loop_spec. exact Hread. Qed.

(** ** Genes by kind *)

Inductive geneKind := neuronGene (k : neuronKind) | synapseGene.

Definition kind_of (v : gene_value F) : geneKind :=
  match v with
  | VNeuron n => neuronGene (n_kind n)
  | VSynapse _ => synapseGene
  end.

(** The (innovation number, gene kind) pair of a gene. *)
Definition signature_of (v : gene_value F) : N * geneKind :=
  (innovation_of v, kind_of v).

(** The range of [int]. *)
Definition is_int (z : Z) : Prop := (- 2 ^ 63 <= z < 2 ^ 63)%Z.

End Crossover.

(** * Genomes and the heap *)

Section Built.

Context {F : Type} {FF : Float64 F}.

Implicit Types (w : world F) (org : organism F).

(** The fields that never change after creation are the same in [w'] for
    every object of [w]: ids, kinds, and the source neuron of a synapse. *)
Definition same_identity w w' : Prop :=
  (∀ p n, neuronHeap w !! p = Some n →
          ∃ n', neuronHeap w' !! p = Some n'
                ∧ n_id n' = n_id n ∧ n_kind n' = n_kind n)
  ∧ (∀ p s, synapseHeap w !! p = Some s →
            ∃ s', synapseHeap w' !! p = Some s'
                  ∧ s_id s' = s_id s ∧ s_in s' = s_in s).

Lemma same_identity_refl w : same_identity w w.
Proof. split; eauto. Qed.

Lemma same_identity_trans w1 w2 w3 :
  same_identity w1 w2 → same_identity w2 w3 → same_identity w1 w3.
Proof.
  intros [Hn12 Hs12] [Hn23 Hs23]. split.
  - intros p n Hp. destruct (Hn12 p n Hp) as (n2 & Hp2 & Hid & Hk).
    destruct (Hn23 p n2 Hp2) as (n3 & Hp3 & Hid3 & Hk3).
    exists n3. repeat split; congruence.
  - intros p s Hp. destruct (Hs12 p s Hp) as (s2 & Hp2 & Hid & Hin).
    destruct (Hs23 p s2 Hp2) as (s3 & Hp3 & Hid3 & Hin3).
    exists s3. repeat split; congruence.
Qed.

Lemma extends_same_identity w w' : extends w w' → same_identity w w'.
Proof.
  intros [Hn Hs]. split.
  - intros p n Hp. exists n. rewrite (prefix_lookup_Some _ _ _ _ Hp Hn). auto.
  - intros p s Hp. exists s. rewrite (prefix_lookup_Some _ _ _ _ Hp Hs). auto.
Qed.

Lemma registerNeuron_identity org p (n n' : neuron F) :
  n_id n' = n_id n → n_kind n' = n_kind n →
  registerNeuron org p n' = registerNeuron org p n.
Proof. unfold registerNeuron. intros -> ->. reflexivity. Qed.

Lemma registerSynapse_identity org p (s s' : synapse F) :
  s_id s' = s_id s → s_in s' = s_in s →
  registerSynapse org p s' = registerSynapse org p s.
Proof. unfold registerSynapse. intros -> ->. reflexivity. Qed.

Lemma built_same_identity w w' org :
  same_identity w w' → built w org → built w' org.
Proof.
  intros [Hn Hs]. induction 1 as [gen fit|org p n _ IH Hp|org p s _ IH Hp].
  - constructor.
  - destruct (Hn p n Hp) as (n' & Hp' & Hid & Hk).
    rewrite <- (registerNeuron_identity org p n n' Hid Hk).
    constructor; assumption.
  - destruct (Hs p s Hp) as (s' & Hp' & Hid & Hin).
    rewrite <- (registerSynapse_identity org p s s' Hid Hin).
    constructor; assumption.
Qed.

Lemma built_extends w w' org : extends w w' → built w org → built w' org.
Proof. intros Hext. apply built_same_identity, extends_same_identity, Hext. Qed.

Lemma built_set_generation w org z : built w org → built w (set_generation z org).
Proof.
  induction 1 as [gen fit|org p n _ IH Hp|org p s _ IH Hp].
  - constructor.
  - replace (set_generation z (registerNeuron org p n))
      with (registerNeuron (set_generation z org) p n)
      by (unfold registerNeuron; destruct (n_kind n); reflexivity).
    constructor; assumption.
  - change (built w (registerSynapse (set_generation z org) p s)).
    constructor; assumption.
Qed.

Lemma built_set_fitness w org x : built w org → built w (set_fitness x org).
Proof.
  induction 1 as [gen fit|org p n _ IH Hp|org p s _ IH Hp].
  - constructor.
  - replace (set_fitness x (registerNeuron org p n))
      with (registerNeuron (set_fitness x org) p n)
      by (unfold registerNeuron; destruct (n_kind n); reflexivity).
    constructor; assumption.
  - change (built w (registerSynapse (set_fitness x org) p s)).
    constructor; assumption.
Qed.

(** ** The container's operations keep a genome a genome *)

Lemma addNeuron_spec org p (n : neuron F) w :
  neuronHeap w !! p = Some n →
  addNeuron org (Some p) w = Done (registerNeuron org p n) w.
Proof. intros Hp. unfold addNeuron, bind, derefN. rewrite Hp. reflexivity. Qed.

Lemma addSynapse_spec org p (s : synapse F) w :
  synapseHeap w !! p = Some s →
  addSynapse org (Some p) w = Done (registerSynapse org p s) w.
Proof. intros Hp. unfold addSynapse, bind, derefS. rewrite Hp. reflexivity. Qed.

Lemma addNeuron_built org p w org' w' :
  built w org → addNeuron org p w = Done org' w' → built w' org' ∧ w' = w.
Proof.
  intros Hb. unfold addNeuron, bind, derefN.
  destruct p as [p|]; [|discriminate].
  destruct (neuronHeap w !! p) as [n|] eqn:Hp; [|discriminate].
  intros [= <- <-]. split; [constructor; assumption|reflexivity].
Qed.

Lemma addSynapse_built org p w org' w' :
  built w org → addSynapse org p w = Done org' w' → built w' org' ∧ w' = w.
Proof.
  intros Hb. unfold addSynapse, bind, derefS.
  destruct p as [p|]; [|discriminate].
  destruct (synapseHeap w !! p) as [s|] eqn:Hp; [|discriminate].
  intros [= <- <-]. split; [constructor; assumption|reflexivity].
Qed.

Lemma copy_into_built org (v : gene_value F) w :
  built w org → built (copy_into org v w).2 (copy_into org v w).1.
Proof.
  intros Hb.
  pose proof (built_extends _ _ _ (copy_into_extends org v w) Hb) as Hb'.
  destruct v as [n|s]; simpl in *.
  - constructor; [exact Hb'|]. simpl. apply list_lookup_middle. reflexivity.
  - constructor; [exact Hb'|]. simpl. apply list_lookup_middle. reflexivity.
Qed.

Lemma copy_all_built org (vs : list (gene_value F)) w :
  built w org → built (copy_all org vs w).2 (copy_all org vs w).1.
Proof.
  revert org w. induction vs as [|v vs IH]; intros org w Hb; [exact Hb|].
  rewrite copy_all_cons. apply IH, copy_into_built, Hb.
Qed.

Lemma clone_built g w :
  built w g →
  ∃ c w', clone g w = Done c w' ∧ built w' c ∧ built w' g ∧ extends w w'.
Proof.
  intros Hb. destruct (built_genes_read w g Hb) as (vs & Hread & _).
  eexists _, _. split; [apply (clone_spec g vs w Hread)|].
  split; [apply copy_all_built; constructor|].
  split; [|apply copy_all_extends].
  eapply built_extends; [apply copy_all_extends|exact Hb].
Qed.

(** ** What the maps of a genome point at *)

Lemma built_neurons w org id p :
  built w org → neurons org !! id = Some p →
  ∃ n, neuronHeap w !! p = Some n ∧ n_id n = id.
Proof.
  induction 1 as [gen fit|org q n _ IH Hq|org q s _ IH Hq]; simpl.
  - rewrite lookup_empty. discriminate.
  - assert (Hn : neurons (registerNeuron org q n) = <[n_id n := q]> (neurons org))
      by (unfold registerNeuron; destruct (n_kind n); reflexivity).
    rewrite Hn. destruct (decide (n_id n = id)) as [<-|Hne].
    + rewrite lookup_insert_eq. intros [= <-]. eauto.
    + rewrite lookup_insert_ne by exact Hne. exact IH.
  - exact IH.
Qed.

Lemma built_synapses w org id p :
  built w org → synapses org !! id = Some p →
  ∃ s, synapseHeap w !! p = Some s ∧ s_id s = id.
Proof.
  induction 1 as [gen fit|org q n _ IH Hq|org q s _ IH Hq]; simpl.
  - rewrite lookup_empty. discriminate.
  - assert (Hn : synapses (registerNeuron org q n) = synapses org)
      by (unfold registerNeuron; destruct (n_kind n); reflexivity).
    rewrite Hn. exact IH.
  - destruct (decide (s_id s = id)) as [<-|Hne].
    + rewrite lookup_insert_eq. intros [= <-]. eauto.
    + rewrite lookup_insert_ne by exact Hne. exact IH.
Qed.

Lemma built_sensors w org id :
  built w org → id ∈ sensors org → is_Some (neurons org !! id).
Proof.
  induction 1 as [gen fit|org q n _ IH Hq|org q s _ IH Hq]; simpl.
  - intros Hin. apply elem_of_nil in Hin. contradiction.
  - unfold registerNeuron. destruct (n_kind n); simpl; intros Hin;
      destruct (decide (n_id n = id)) as [<-|Hne];
      rewrite ?lookup_insert_eq, ?lookup_insert_ne by exact Hne; eauto.
    apply elem_of_app in Hin as [Hin|Hin]; [auto|].
    apply list_elem_of_singleton in Hin. congruence.
  - exact IH.
Qed.

Lemma built_outputs w org id :
  built w org → id ∈ outputs org → is_Some (neurons org !! id).
Proof.
  induction 1 as [gen fit|org q n _ IH Hq|org q s _ IH Hq]; simpl.
  - intros Hin. apply elem_of_nil in Hin. contradiction.
  - unfold registerNeuron. destruct (n_kind n); simpl; intros Hin;
      destruct (decide (n_id n = id)) as [<-|Hne];
      rewrite ?lookup_insert_eq, ?lookup_insert_ne by exact Hne; eauto.
    apply elem_of_app in Hin as [Hin|Hin]; [auto|].
    apply list_elem_of_singleton in Hin. congruence.
  - exact IH.
Qed.

End Built.

(** * Initial wiring *)

Section InitialWiring.

Context {F : Type} {FF : Float64 F}.

Implicit Types (w : world F) (org : organism F).

(** Both counters advanced by one, as one gene creation does. *)
Definition bump w : world F :=
  mkWorld (neuronHeap w) (synapseHeap w) (uint64_add (idCount w) 1)
    (uint64_add (innovationCount w) 1) (randCalls w).

(** The neuron [_newNeuron] creates in [w]. *)
Definition fresh_neuron (k : neuronKind) w : neuron F :=
  mkNeuron (uint64_add (idCount w) 1) f_zero
    (uint64_add (innovationCount w) 1) k f_zero f_zero false false.

(** The synapse [newSynapse] creates in [w] between [i] and [o]. *)
Definition fresh_synapse (i o : neuron F) w : synapse F :=
  mkSynapse (uint64_add (idCount w) 1) (n_id i) (n_id o) f_one true
    (uint64_add (innovationCount w) 1).

Lemma extends_bump w : extends w (bump w).
Proof. split; reflexivity. Qed.

Lemma newNeuron_add org k w :
  (n <- _newNeuron k ;; addNeuron org (Some n)) w
  = copied (fun o => o) org (VNeuron (fresh_neuron k w)) (bump w).
Proof.
  unfold _newNeuron, addNeuron, bind, nextID, nextInnovation, allocN, derefN,
    copied, copy_into, fresh_neuron, bump. simpl.
  rewrite list_lookup_middle by reflexivity. reflexivity.
Qed.

Lemma newSynapse_add org pi po (ni no : neuron F) w :
  neuronHeap w !! pi = Some ni →
  neuronHeap w !! po = Some no →
  (s <- newSynapse (Some pi) (Some po) ;; addSynapse org (Some s)) w
  = copied (fun o => o) org (VSynapse (fresh_synapse ni no w)) (bump w).
Proof.
  intros Hi Ho.
  unfold newSynapse, addSynapse, bind, nextID, nextInnovation, allocS, derefN,
    derefS, copied, copy_into, fresh_synapse, bump. simpl.
  rewrite Hi. simpl. rewrite Ho. simpl.
  rewrite list_lookup_middle by reflexivity. reflexivity.
Qed.

(** A loop invariant for [for_fold]: [I i] holds before iteration [i]. *)
Lemma for_fold_invariant {A B} (I : nat → B → world F → Prop)
    (body : B → A → M F B) (l : list A) acc w :
  I 0 acc w →
  (∀ i x acc w, l !! i = Some x → I i acc w →
     ∃ acc' w', body acc x w = Done acc' w' ∧ I (S i) acc' w') →
  ∃ acc' w', for_fold body acc l w = Done acc' w' ∧ I (length l) acc' w'.
Proof.
  revert I acc w. induction l as [|x l IH]; intros I acc w H0 Hstep.
  - exists acc, w. split; [reflexivity|exact H0].
  - destruct (Hstep 0 x acc w eq_refl H0) as (acc1 & w1 & Hbody & H1).
    destruct (IH (fun i => I (S i)) acc1 w1 H1) as (acc' & w' & Hrun & Hlen).
    { intros i y acc2 w2 Hy Hi. apply (Hstep (S i) y acc2 w2 Hy Hi). }
    exists acc', w'. split; [|exact Hlen].
    simpl. unfold bind. rewrite Hbody. exact Hrun.
Qed.

(** The gene sequence of a genome made of the neurons [S] and [O] and the
    synapses [Y], in this order. *)
Definition wiring (S O : list (neuron F)) (Y : list (synapse F))
  : list (gene_value F) :=
  (VNeuron <$> S) ++ (VNeuron <$> O) ++ (VSynapse <$> Y).

Lemma neuron_loop (k : neuronKind) (count : nat) org w vs0 :
  built w org →
  genes_read w (genes org) vs0 →
  ∃ org' w' (L : list (neuron F)),
    for_fold (fun org (_ : nat) => n <- _newNeuron k ;; addNeuron org (Some n))
      org (seq 0 count) w = Done org' w'
    ∧ extends w w'
    ∧ built w' org'
    ∧ genes_read w' (genes org') (vs0 ++ (VNeuron <$> L))
    ∧ length L = count
    ∧ Forall (fun n => n_kind n = k) L
    ∧ sensors org' = sensors org ++ ids_of_kind sensorNeuron (VNeuron <$> L)
    ∧ outputs org' = outputs org ++ ids_of_kind outputNeuron (VNeuron <$> L).
Proof.
  intros Hb Hread.
  destruct (for_fold_invariant
    (fun i org' w' =>
       (extends w w' ∧ built w' org')
       ∧ ∃ L : list (neuron F),
           genes_read w' (genes org') (vs0 ++ (VNeuron <$> L))
           ∧ length L = i
           ∧ Forall (fun n => n_kind n = k) L
           ∧ sensors org' = sensors org ++ ids_of_kind sensorNeuron (VNeuron <$> L)
           ∧ outputs org' = outputs org ++ ids_of_kind outputNeuron (VNeuron <$> L))
    (fun org (_ : nat) => n <- _newNeuron k ;; addNeuron org (Some n))
    (seq 0 count) org w) as (org' & w' & Hrun & [Hext Hb'] & L & HL).
  - split; [split; [apply extends_refl|exact Hb]|]. exists []. simpl.
    rewrite !app_nil_r. repeat split; [exact Hread|constructor].
  - intros i x acc w1 _ ([Hext1 Hb1] & L & Hg & Hlen & Hk & Hs & Ho).
    eexists _, _. split; [apply newNeuron_add|]. unfold copied.
    pose proof (genes_read_extends _ _ _ _ (extends_bump w1) Hg) as Hg'.
    destruct (copy_into_spec acc (VNeuron (fresh_neuron k w1)) (bump w1) _ Hg')
      as (Hg2 & Hs2 & Ho2 & _).
    split.
    { split.
      - eapply extends_trans; [exact Hext1|].
        eapply extends_trans; [apply extends_bump|apply copy_into_extends].
      - apply copy_into_built. eapply built_extends; [apply extends_bump|exact Hb1]. }
    exists (L ++ [fresh_neuron k w1]).
    rewrite fmap_app, app_assoc. split; [exact Hg2|].
    split; [rewrite length_app; simpl; lia|].
    split; [apply Forall_app; split; [exact Hk|repeat constructor]|].
    rewrite Hs2, Ho2, Hs, Ho. unfold ids_of_kind.
    rewrite !omap_app, !app_assoc. split; reflexivity.
  - rewrite length_seq in HL. exists org', w', L. tauto.
Qed.

Lemma ids_of_kind_neuron (k : neuronKind) (n : neuron F) vs :
  ids_of_kind k (VNeuron n :: vs)
  = if decide (n_kind n = k) then n_id n :: ids_of_kind k vs
    else ids_of_kind k vs.
Proof. unfold ids_of_kind. simpl. destruct (decide (n_kind n = k)); reflexivity. Qed.

Lemma ids_of_kind_same (k : neuronKind) (L : list (neuron F)) :
  Forall (fun n => n_kind n = k) L →
  ids_of_kind k (VNeuron <$> L) = n_id <$> L.
Proof.
  induction 1 as [|n L Hn _ IH]; [reflexivity|].
  rewrite !fmap_cons, ids_of_kind_neuron, decide_True by exact Hn.
  rewrite IH. reflexivity.
Qed.

Lemma ids_of_kind_other (k k' : neuronKind) (L : list (neuron F)) :
  k' ≠ k →
  Forall (fun n => n_kind n = k') L →
  ids_of_kind k (VNeuron <$> L) = [].
Proof.
  intros Hne. induction 1 as [|n L Hn _ IH]; [reflexivity|].
  rewrite !fmap_cons, ids_of_kind_neuron, decide_False by congruence.
  exact IH.
Qed.

Lemma ids_of_kind_synapses (k : neuronKind) (Y : list (synapse F)) :
  ids_of_kind k (VSynapse <$> Y) = [].
Proof. induction Y as [|s Y IH]; [reflexivity|exact IH]. Qed.

Lemma int_rem_nat (i : nat) (n : Z) w :
  (1 <= n)%Z →
  int_rem (F:=F) (Z.of_nat i) n w = Done (Z.of_nat (i mod Z.to_nat n)) w.
Proof.
  intros Hn. unfold int_rem.
  destruct (Z.eqb_spec n 0) as [->|_]; [lia|].
  unfold ret. f_equal.
  rewrite Z.rem_mod_nonneg by lia.
  rewrite Nat2Z.inj_mod, Z2Nat.id by lia. reflexivity.
Qed.

Lemma index_nat {A} (l : list A) (i : nat) (x : A) w :
  l !! i = Some x → index (F:=F) l (Z.of_nat i) w = Done x w.
Proof.
  intros Hx. unfold index.
  destruct (Z.ltb_spec (Z.of_nat i) 0) as [Hneg|_]; [lia|].
  rewrite Nat2Z.id, Hx. reflexivity.
Qed.

(** What the third loop of [newOrganism] requires of synapse [i]. *)
Definition wired (sens outs : list N) (i : nat) (s : synapse F) : Prop :=
  s_enabled s = true
  ∧ s_weight s = f_one
  ∧ sens !! (i mod length sens) = Some (s_in s)
  ∧ outs !! (i mod length outs) = Some (s_out s).

Lemma synapse_loop (nInputs nOutputs : Z) (count : nat) org w vs0 :
  (1 <= nInputs)%Z →
  (1 <= nOutputs)%Z →
  built w org →
  genes_read w (genes org) vs0 →
  length (sensors org) = Z.to_nat nInputs →
  length (outputs org) = Z.to_nat nOutputs →
  ∃ org' w' (Y : list (synapse F)),
    for_fold (fun org (i : nat) =>
                a <- int_rem (Z.of_nat i) nInputs ;;
                sid <- index (sensors org) a ;;
                let in_ := neurons org !! sid in
                b <- int_rem (Z.of_nat i) nOutputs ;;
                oid <- index (outputs org) b ;;
                let out := neurons org !! oid in
                s <- newSynapse in_ out ;;
                addSynapse org (Some s))
      org (seq 0 count) w = Done org' w'
    ∧ extends w w'
    ∧ built w' org'
    ∧ genes_read w' (genes org') (vs0 ++ (VSynapse <$> Y))
    ∧ length Y = count
    ∧ sensors org' = sensors org
    ∧ outputs org' = outputs org
    ∧ ∀ i s, Y !! i = Some s → wired (sensors org) (outputs org) i s.
Proof.
  intros HnI HnO Hb Hread Hls Hlo.
  destruct (for_fold_invariant
    (fun i org' w' =>
       (extends w w' ∧ built w' org')
       ∧ sensors org' = sensors org
       ∧ outputs org' = outputs org
       ∧ ∃ Y : list (synapse F),
           genes_read w' (genes org') (vs0 ++ (VSynapse <$> Y))
           ∧ length Y = i
           ∧ ∀ j s, Y !! j = Some s → wired (sensors org) (outputs org) j s)
    (fun org (i : nat) =>
       a <- int_rem (Z.of_nat i) nInputs ;;
       sid <- index (sensors org) a ;;
       let in_ := neurons org !! sid in
       b <- int_rem (Z.of_nat i) nOutputs ;;
       oid <- index (outputs org) b ;;
       let out := neurons org !! oid in
       s <- newSynapse in_ out ;;
       addSynapse org (Some s))
    (seq 0 count) org w) as (org' & w' & Hrun & [Hext Hb'] & Hs' & Ho' & Y & HY).
  - split; [split; [apply extends_refl|exact Hb]|].
    split; [reflexivity|]. split; [reflexivity|].
    exists []. simpl. rewrite app_nil_r. split; [exact Hread|].
    split; [reflexivity|]. intros j s Hj. rewrite lookup_nil in Hj. discriminate.
  - intros i x acc w1 Hx ([Hext1 Hb1] & Hs1 & Ho1 & Y & Hg & Hlen & HY).
    apply lookup_seq in Hx as [-> Hi]. simpl.
    assert (Hsi : ∃ sid, sensors acc !! (i mod Z.to_nat nInputs) = Some sid).
    { apply lookup_lt_is_Some_2. rewrite Hs1, Hls. apply Nat.mod_upper_bound. lia. }
    assert (Hoi : ∃ oid, outputs acc !! (i mod Z.to_nat nOutputs) = Some oid).
    { apply lookup_lt_is_Some_2. rewrite Ho1, Hlo. apply Nat.mod_upper_bound. lia. }
    destruct Hsi as (sid & Hsid). destruct Hoi as (oid & Hoid).
    destruct (built_sensors w1 acc sid Hb1) as (pi & Hpi).
    { eapply list_elem_of_lookup_2. exact Hsid. }
    destruct (built_outputs w1 acc oid Hb1) as (po & Hpo).
    { eapply list_elem_of_lookup_2. exact Hoid. }
    destruct (built_neurons w1 acc sid pi Hb1 Hpi) as (ni & Hni & Hnid).
    destruct (built_neurons w1 acc oid po Hb1 Hpo) as (no & Hno & Hnod).
    eexists _, _. split.
    { unfold bind at 1. rewrite (int_rem_nat i nInputs w1 HnI).
      unfold bind at 1. rewrite (index_nat _ _ _ w1 Hsid).
      unfold bind at 1. rewrite (int_rem_nat i nOutputs w1 HnO).
      unfold bind at 1. rewrite (index_nat _ _ _ w1 Hoid).
      rewrite Hpi, Hpo. apply (newSynapse_add acc pi po ni no w1 Hni Hno). }
    unfold copied.
    pose proof (genes_read_extends _ _ _ _ (extends_bump w1) Hg) as Hg'.
    destruct (copy_into_spec acc (VSynapse (fresh_synapse ni no w1)) (bump w1) _ Hg')
      as (Hg2 & Hs2 & Ho2 & _).
    split.
    { split.
      - eapply extends_trans; [exact Hext1|].
        eapply extends_trans; [apply extends_bump|apply copy_into_extends].
      - apply copy_into_built. eapply built_extends; [apply extends_bump|exact Hb1]. }
    split; [exact Hs1|]. split; [exact Ho1|].
    exists (Y ++ [fresh_synapse ni no w1]).
    rewrite fmap_app, app_assoc. split; [exact Hg2|].
    split; [rewrite length_app; simpl; lia|].
    intros j s Hj. apply lookup_app_Some in Hj as [Hj|[Hge Hj]]; [auto|].
    apply list_lookup_singleton_Some in Hj as [Hj0 <-].
    assert (j = i) as -> by lia.
    unfold wired. simpl. rewrite Hls, Hlo, <- Hs1, <- Ho1, Hsid, Hoid, Hnid, Hnod.
    auto.
  - rewrite length_seq in HY. exists org', w', Y. tauto.
Qed.


Lemma newOrganism_spec (nInputs nOutputs : Z) w :
  (1 <= nInputs)%Z →
  (1 <= nOutputs)%Z →
  ∃ org w' (S O : list (neuron F)) (Y : list (synapse F)),
    newOrganism nInputs nOutputs w = Done org w'
    ∧ extends w w'
    ∧ built w' org
    ∧ genes_read w' (genes org) (wiring S O Y)
    ∧ length S = Z.to_nat nInputs
    ∧ Forall (fun n => n_kind n = sensorNeuron) S
    ∧ sensors org = n_id <$> S
    ∧ length O = Z.to_nat nOutputs
    ∧ Forall (fun n => n_kind n = outputNeuron) O
    ∧ outputs org = n_id <$> O
    ∧ length Y = Z.to_nat (max nInputs nOutputs)
    ∧ ∀ i s, Y !! i = Some s → wired (sensors org) (outputs org) i s.
Proof.
  intros HnI HnO. unfold newOrganism.
  destruct (neuron_loop sensorNeuron (Z.to_nat nInputs)
              (_newOrganism nInputs nOutputs) w [])
    as (org1 & w1 & S & Hrun1 & Hext1 & Hb1 & Hg1 & HlS & HkS & Hs1 & Ho1);
    [constructor|constructor|].
  destruct (neuron_loop outputNeuron (Z.to_nat nOutputs) org1 w1 _ Hb1 Hg1)
    as (org2 & w2 & O & Hrun2 & Hext2 & Hb2 & Hg2 & HlO & HkO & Hs2 & Ho2).
  simpl in Hs1, Ho1.
  rewrite (ids_of_kind_same _ _ HkS) in Hs1.
  rewrite (ids_of_kind_other outputNeuron sensorNeuron _ ltac:(discriminate) HkS)
    in Ho1.
  rewrite (ids_of_kind_other sensorNeuron outputNeuron _ ltac:(discriminate) HkO),
    app_nil_r, Hs1 in Hs2.
  rewrite (ids_of_kind_same _ _ HkO), Ho1 in Ho2. simpl in Ho2.
  destruct (synapse_loop nInputs nOutputs (Z.to_nat (max nInputs nOutputs))
              org2 w2 _ HnI HnO Hb2 Hg2)
    as (org3 & w3 & Y & Hrun3 & Hext3 & Hb3 & Hg3 & HlY & Hs3 & Ho3 & HY).
  { rewrite Hs2, length_fmap. exact HlS. }
  { rewrite Ho2, length_fmap. exact HlO. }
  exists org3, w3, S, O, Y.
  split.
  { unfold newSensorNeuron, newOutputNeuron.
    unfold bind at 1. rewrite Hrun1. unfold bind at 1. rewrite Hrun2.
    exact Hrun3. }
  split; [eapply extends_trans; [exact Hext1|eapply extends_trans; eauto]|].
  split; [exact Hb3|].
  split; [unfold wiring; rewrite app_assoc; exact Hg3|].
  rewrite Hs3, Ho3, Hs2, Ho2.
  do 7 (split; [assumption || reflexivity|]).
  intros i s Hi. rewrite <- Hs2, <- Ho2. apply HY. exact Hi.
Qed.

(** Whatever [newOrganism] returns is a genome, and older objects stay. *)
Lemma newOrganism_built (nInputs nOutputs : Z) w org w' :
  (1 <= nInputs)%Z →
  (1 <= nOutputs)%Z →
  newOrganism nInputs nOutputs w = Done org w' →
  built w' org ∧ extends w w'.
Proof.
  intros HnI HnO Hrun.
  destruct (newOrganism_spec nInputs nOutputs w HnI HnO)
    as (org1 & w1 & S & O & Y & Hrun1 & Hext & Hb & _).
  rewrite Hrun in Hrun1. injection Hrun1 as -> ->. split; assumption.
Qed.

End InitialWiring.

(** * Two runs side by side *)

Section Related.

Context {F : Type} {FF : Float64 F}.

(** Two outcomes agree: both return, with results and final states in
    relation [R], or both fail in the same way. *)
Definition related {A B} (R : A → world F → B → world F → Prop)
    (r1 : outcome F A) (r2 : outcome F B) : Prop :=
  match r1, r2 with
  | Done a w1, Done b w2 => R a w1 b w2
  | Fatal m1, Fatal m2 => m1 = m2
  | Panic m1, Panic m2 => m1 = m2
  | OutOfFuel, OutOfFuel => True
  | _, _ => False
  end.

Lemma related_bind {A B A' B'} (R : A → world F → B → world F → Prop)
    (R' : A' → world F → B' → world F → Prop)
    (m1 : M F A) (m2 : M F B) (k1 : A → M F A') (k2 : B → M F B') w1 w2 :
  related R (m1 w1) (m2 w2) →
  (∀ a w1' b w2', R a w1' b w2' → related R' (k1 a w1') (k2 b w2')) →
  related R' (bind m1 k1 w1) (bind m2 k2 w2).
Proof.
  unfold bind. intros Hm Hk.
  destruct (m1 w1) as [a w1'| | |], (m2 w2) as [b w2'| | |]; simpl in *;
    try contradiction; auto.
Qed.

Lemma related_weaken {A B} (R R' : A → world F → B → world F → Prop) r1 r2 :
  (∀ a w1 b w2, R a w1 b w2 → R' a w1 b w2) →
  related R r1 r2 → related R' r1 r2.
Proof.
  intros HR. destruct r1, r2; simpl; auto.
Qed.

Lemma related_for_fold {A B1 B2} (I : B1 → world F → B2 → world F → Prop)
    (body1 : B1 → A → M F B1) (body2 : B2 → A → M F B2) (l : list A)
    acc1 acc2 w1 w2 :
  I acc1 w1 acc2 w2 →
  (∀ x acc1 w1 acc2 w2, x ∈ l → I acc1 w1 acc2 w2 →
     related I (body1 acc1 x w1) (body2 acc2 x w2)) →
  related I (for_fold body1 acc1 l w1) (for_fold body2 acc2 l w2).
Proof.
  revert acc1 acc2 w1 w2. induction l as [|x l IH]; intros acc1 acc2 w1 w2 HI Hstep.
  - exact HI.
  - simpl. eapply related_bind.
    + apply Hstep; [left|exact HI].
    + intros a w1' b w2' HI'. apply IH; [exact HI'|].
      intros y ? ? ? ? Hy. apply Hstep. right. exact Hy.
Qed.

Lemma related_for_do {A} (I : world F → world F → Prop)
    (body1 body2 : A → M F unit) (l : list A) w1 w2 :
  I w1 w2 →
  (∀ x w1 w2, x ∈ l → I w1 w2 →
     related (fun _ w1' _ w2' => I w1' w2') (body1 x w1) (body2 x w2)) →
  related (fun _ w1' _ w2' => I w1' w2') (for_do l body1 w1) (for_do l body2 w2).
Proof.
  revert w1 w2. induction l as [|x l IH]; intros w1 w2 HI Hstep.
  - exact HI.
  - simpl. eapply related_bind.
    + apply Hstep; [left|exact HI].
    + intros u1 w1' u2 w2' HI'. simpl in HI'. apply IH; [exact HI'|].
      intros y ? ? Hy. apply Hstep. right. exact Hy.
Qed.

Lemma related_for_map {A B} (I : world F → world F → Prop)
    (f1 f2 : A → M F B) (l : list A) w1 w2 :
  I w1 w2 →
  (∀ x w1 w2, x ∈ l → I w1 w2 →
     related (fun y1 w1' y2 w2' => y1 = y2 ∧ I w1' w2') (f1 x w1) (f2 x w2)) →
  related (fun ys1 w1' ys2 w2' => ys1 = ys2 ∧ I w1' w2')
    (for_map f1 l w1) (for_map f2 l w2).
Proof.
  revert w1 w2. induction l as [|x l IH]; intros w1 w2 HI Hstep.
  - simpl. auto.
  - simpl. eapply related_bind.
    + apply Hstep; [left|exact HI].
    + intros y1 w1' y2 w2' [-> HI']. eapply related_bind.
      * apply IH; [exact HI'|]. intros z ? ? Hz. apply Hstep. right. exact Hz.
      * intros ys1 w1'' ys2 w2'' [-> HI'']. simpl. auto.
Qed.

Lemma related_observe {A} (R : A → world F → A → world F → Prop)
    (r1 r2 : outcome F A) :
  (∀ a w1 b w2, R a w1 b w2 → a = b) →
  related R r1 r2 → observe r1 = observe r2.
Proof.
  intros HR. destruct r1 as [a w1| | |], r2 as [b w2| | |]; simpl;
    try contradiction; try congruence.
  intros H. f_equal. eapply HR. exact H.
Qed.

End Related.

Section Simulation.

Context {F : Type} {FF : Float64 F}.

Variable config : OrganismConfig F.

(** The two pointers are both nil, or refer to equal structs whose id is
    [id]. *)
Definition same_object {T} (h1 h2 : list T) (key : T → N) (id : N)
    (p1 p2 : option ptr) : Prop :=
  match p1, p2 with
  | None, None => True
  | Some a1, Some a2 => ∃ x, h1 !! a1 = Some x ∧ h2 !! a2 = Some x ∧ key x = id
  | _, _ => False
  end.

(** [o1] in [w1] and [o2] in [w2] are the same network in the same state:
    same sensor list, output list and adjacency, and under every id the
    same neuron and the same synapse, field for field. *)
Record sim (w1 : world F) (o1 : organism F) (w2 : world F) (o2 : organism F)
  : Prop := mkSim {
  sim_sensors : sensors o1 = sensors o2;
  sim_outputs : outputs o1 = outputs o2;
  sim_connections : connections o1 = connections o2;
  sim_neurons : ∀ id,
    same_object (neuronHeap w1) (neuronHeap w2) n_id id
      (neurons o1 !! id) (neurons o2 !! id);
  sim_synapses : ∀ id,
    same_object (synapseHeap w1) (synapseHeap w2) s_id id
      (synapses o1 !! id) (synapses o2 !! id);
}.

Variables o1 o2 : organism F.

Lemma sim_derefN w1 w2 id :
  sim w1 o1 w2 o2 →
  related (fun n1 w1' n2 w2' => n1 = n2 ∧ n_id n1 = id ∧ w1' = w1 ∧ w2' = w2)
    (derefN (neurons o1 !! id) w1) (derefN (neurons o2 !! id) w2).
Proof.
  intros Hsim. pose proof (sim_neurons _ _ _ _ Hsim id) as Hid.
  unfold derefN, same_object in *.
  destruct (neurons o1 !! id) as [a1|], (neurons o2 !! id) as [a2|];
    simpl; try contradiction; [|reflexivity].
  destruct Hid as (x & -> & -> & Hx). simpl. auto.
Qed.

Lemma sim_derefS w1 w2 id :
  sim w1 o1 w2 o2 →
  related (fun s1 w1' s2 w2' => s1 = s2 ∧ s_id s1 = id ∧ w1' = w1 ∧ w2' = w2)
    (derefS (synapses o1 !! id) w1) (derefS (synapses o2 !! id) w2).
Proof.
  intros Hsim. pose proof (sim_synapses _ _ _ _ Hsim id) as Hid.
  unfold derefS, same_object in *.
  destruct (synapses o1 !! id) as [a1|], (synapses o2 !! id) as [a2|];
    simpl; try contradiction; [|reflexivity].
  destruct Hid as (x & -> & -> & Hx). simpl. auto.
Qed.

Lemma same_object_insert {T} (h1 h2 : list T) (key : T → N) id id' a1 a2 x y
    (p1 p2 : option ptr) :
  h1 !! a1 = Some x → h2 !! a2 = Some x → key x = id → key y = id →
  (id' = id → p1 = Some a1 ∧ p2 = Some a2) →
  same_object h1 h2 key id' p1 p2 →
  same_object (<[a1 := y]> h1) (<[a2 := y]> h2) key id' p1 p2.
Proof.
  intros H1 H2 Hx Hy Hsame Hobj. unfold same_object in *.
  destruct p1 as [b1|], p2 as [b2|]; try contradiction; [|exact I].
  destruct Hobj as (z & Hz1 & Hz2 & Hz).
  destruct (decide (id' = id)) as [->|Hne].
  - destruct (Hsame eq_refl) as [[= ->] [= ->]]. exists y.
    rewrite !list_lookup_insert_eq by (eapply lookup_lt_Some; eauto). auto.
  - exists z. rewrite !list_lookup_insert_ne; [auto| |].
    + intros ->. rewrite H2 in Hz2. injection Hz2 as ->. congruence.
    + intros ->. rewrite H1 in Hz1. injection Hz1 as ->. congruence.
Qed.

Lemma sim_updateN w1 w2 id (f : neuron F → neuron F) :
  (∀ n, n_id (f n) = n_id n) →
  sim w1 o1 w2 o2 →
  related (fun _ w1' _ w2' => sim w1' o1 w2' o2)
    (updateN (neurons o1 !! id) f w1) (updateN (neurons o2 !! id) f w2).
Proof.
  intros Hf Hsim. pose proof (sim_neurons _ _ _ _ Hsim id) as Hid.
  unfold updateN. unfold same_object in Hid.
  destruct (neurons o1 !! id) as [a1|] eqn:Hp1,
           (neurons o2 !! id) as [a2|] eqn:Hp2;
    simpl; try contradiction; [|reflexivity].
  destruct Hid as (x & H1 & H2 & Hx). rewrite H1, H2. simpl.
  destruct Hsim as [Hs Ho Hc Hn Hsy]. constructor; auto; simpl.
  intros id'. apply (same_object_insert _ _ n_id id id' a1 a2 x (f x)); auto.
  - rewrite Hf. exact Hx.
  - intros ->. auto.
Qed.

(** ** Propagation *)

(** The queue holding the neurons registered under [ids]. *)
Definition queue_of (o : organism F) (ids : list N) : squeue :=
  (fun id => neurons o !! id) <$> ids.

(** Both queues hold the neurons of the same ids. *)
Definition queues_agree (q1 q2 : squeue) : Prop :=
  ∃ ids, q1 = queue_of o1 ids ∧ q2 = queue_of o2 ids.

Lemma push_all (o : organism F) (q : squeue) (ids : list N) :
  foldl (fun q id => Push q (neurons o !! id)) q ids = q ++ queue_of o ids.
Proof.
  revert q. induction ids as [|id ids IH]; intros q; simpl.
  - rewrite app_nil_r. reflexivity.
  - rewrite IH. unfold Push. rewrite <- app_assoc. reflexivity.
Qed.

Lemma initial_queue_of (o : organism F) : initial_queue o = queue_of o (sensors o).
Proof. unfold initial_queue. rewrite push_all. reflexivity. Qed.

Lemma sim_propagate_synapse w1 w2 nid q1 q2 sid :
  sim w1 o1 w2 o2 →
  queues_agree q1 q2 →
  related (fun q1' w1' q2' w2' => sim w1' o1 w2' o2 ∧ queues_agree q1' q2')
    (propagate_synapse o1 (neurons o1 !! nid) q1 sid w1)
    (propagate_synapse o2 (neurons o2 !! nid) q2 sid w2).
Proof.
  intros Hsim Hq. unfold propagate_synapse, getSynapse.
  eapply related_bind; [apply (sim_derefS w1 w2 sid Hsim)|].
  intros s ? s' ? (<- & _ & -> & ->).
  destruct (s_enabled s); [|simpl; auto].
  eapply related_bind; [apply (sim_derefN w1 w2 nid Hsim)|].
  intros nv ? nv' ? (<- & _ & -> & ->).
  eapply related_bind; [apply (sim_derefN w1 w2 (s_out s) Hsim)|].
  intros o ? o' ? (<- & _ & -> & ->).
  destruct (n_visited o).
  - eapply related_bind; [apply (sim_updateN w1 w2 (s_out s)); [reflexivity|exact Hsim]|].
    intros u1 w1' u2 w2' Hsim'. simpl. auto.
  - eapply related_bind; [apply (sim_updateN w1 w2 (s_out s)); [reflexivity|exact Hsim]|].
    intros u1 w1' u2 w2' Hsim'. simpl in Hsim'.
    destruct (negb (n_seen o)); [|simpl; auto].
    eapply related_bind; [apply (sim_updateN w1' w2' (s_out s)); [reflexivity|exact Hsim']|].
    intros u1' w1'' u2' w2'' Hsim''. simpl in *. split; [exact Hsim''|].
    destruct Hq as (ids & -> & ->). exists (ids ++ [s_out s]).
    unfold Push, queue_of. rewrite !fmap_app. auto.
Qed.

Lemma sim_propagate_visit w1 w2 q1 q2 :
  sim w1 o1 w2 o2 →
  queues_agree q1 q2 →
  related (fun q1' w1' q2' w2' => sim w1' o1 w2' o2 ∧ queues_agree q1' q2')
    (propagate_visit config o1 q1 w1) (propagate_visit config o2 q2 w2).
Proof.
  intros Hsim (ids & -> & ->). unfold propagate_visit.
  destruct ids as [|id ids]; [reflexivity|].
  simpl queue_of. unfold Pop.
  eapply related_bind with
    (R := fun pq1 w1' pq2 w2' =>
            pq1 = (neurons o1 !! id, queue_of o1 ids)
            ∧ pq2 = (neurons o2 !! id, queue_of o2 ids) ∧ w1' = w1 ∧ w2' = w2).
  { simpl. auto. }
  intros pq1 ? pq2 ? (-> & -> & -> & ->). simpl.
  eapply related_bind; [apply (sim_derefN w1 w2 id Hsim)|].
  intros nv ? nv' ? (<- & _ & -> & ->).
  destruct (n_visited nv); [reflexivity|].
  eapply related_bind; [apply (sim_updateN w1 w2 id); [reflexivity|exact Hsim]|].
  intros u1 w1' u2 w2' Hsim'. simpl in Hsim'.
  eapply related_bind; [apply (sim_updateN w1' w2' id); [reflexivity|exact Hsim']|].
  intros u1' w1'' u2' w2'' Hsim''. simpl in Hsim''.
  rewrite <- (sim_connections _ _ _ _ Hsim).
  apply related_for_fold.
  - split; [exact Hsim''|]. exists ids. auto.
  - intros sid q1 v1 q2 v2 _ [Hs Hq]. apply sim_propagate_synapse; assumption.
Qed.

Lemma sim_propagate_loop (fuel : nat) w1 w2 q1 q2 :
  sim w1 o1 w2 o2 →
  queues_agree q1 q2 →
  related (fun _ w1' _ w2' => sim w1' o1 w2' o2)
    (propagate_loop config fuel o1 q1 w1) (propagate_loop config fuel o2 q2 w2).
Proof.
  revert w1 w2 q1 q2. induction fuel as [|fuel IH]; intros w1 w2 q1 q2 Hsim Hq.
  - destruct Hq as (ids & -> & ->). simpl. unfold Size, queue_of.
    rewrite !length_fmap. destruct (0 <? length ids); simpl; auto.
  - assert (Hsize : Size q1 = Size q2).
    { destruct Hq as (ids & -> & ->). unfold Size, queue_of.
      rewrite !length_fmap. reflexivity. }
    simpl. rewrite Hsize. destruct (0 <? Size q2); [|simpl; auto].
    eapply related_bind; [apply sim_propagate_visit; eassumption|].
    intros q1' w1' q2' w2' [Hsim' Hq']. apply IH; assumption.
Qed.

Lemma sim_size w1 w2 :
  sim w1 o1 w2 o2 → size (neurons o1) = size (neurons o2).
Proof.
  intros Hsim. rewrite <- !size_dom. f_equal. apply set_eq. intros id.
  rewrite !elem_of_dom. pose proof (sim_neurons _ _ _ _ Hsim id) as Hid.
  unfold same_object in Hid.
  destruct (neurons o1 !! id), (neurons o2 !! id); try contradiction;
    split; intros [? ?]; eauto; discriminate.
Qed.

Lemma sim_propagate w1 w2 :
  sim w1 o1 w2 o2 →
  related (fun _ w1' _ w2' => sim w1' o1 w2' o2)
    (propagate config o1 w1) (propagate config o2 w2).
Proof.
  intros Hsim. unfold propagate, propagate_fuel.
  rewrite (sim_size w1 w2 Hsim), (sim_sensors _ _ _ _ Hsim).
  apply sim_propagate_loop; [exact Hsim|].
  exists (sensors o2). rewrite !initial_queue_of, (sim_sensors _ _ _ _ Hsim). auto.
Qed.

(** ** One call of [process] *)

(** The first loop of [process] clears every object it ranges over once;
    the order of the range is immaterial. *)
Lemma clear_all_spec (l : list (N * nat)) w :
  NoDup l.*2 →
  (∀ kv, kv ∈ l → is_Some (neuronHeap w !! kv.2)) →
  ∃ w',
    for_do l (fun kv => updateN (Some kv.2) clear_neuron) w = Done tt w'
    ∧ synapseHeap w' = synapseHeap w
    ∧ ∀ p, neuronHeap w' !! p
           = if decide (p ∈ l.*2) then clear_neuron <$> neuronHeap w !! p
             else neuronHeap w !! p.
Proof.
  revert w. induction l as [|[k p] l IH]; intros w Hnd Hvalid.
  - exists w. split; [reflexivity|]. split; [reflexivity|]. intros p.
    case_decide as Hin; [|reflexivity].
    apply elem_of_nil in Hin. contradiction.
  - simpl in Hnd. apply NoDup_cons in Hnd as [Hp Hnd].
    destruct (Hvalid (k, p)) as [n Hn]; [left|]. simpl in Hn.
    destruct (IH (set_neuronHeap (<[p := clear_neuron n]> (neuronHeap w)) w) Hnd)
      as (w' & Hrun & Hsyn & Hheap).
    { intros kv Hkv. simpl. apply lookup_lt_is_Some. rewrite length_insert.
      apply lookup_lt_is_Some. apply Hvalid. right. exact Hkv. }
    exists w'. split.
    { simpl. unfold bind, updateN at 1. rewrite Hn. exact Hrun. }
    split; [rewrite Hsyn; reflexivity|].
    intros q. rewrite Hheap. simpl.
    destruct (decide (q = p)) as [->|Hne].
    + rewrite (decide_False _ _ Hp), decide_True by left.
      rewrite list_lookup_insert_eq by (eapply lookup_lt_Some; eauto).
      rewrite Hn. reflexivity.
    + rewrite list_lookup_insert_ne by congruence.
      destruct (decide (q ∈ l.*2)) as [Hin|Hnin].
      * rewrite decide_True by (right; exact Hin). reflexivity.
      * rewrite decide_False; [reflexivity|].
        intros Hin. apply elem_of_cons in Hin as [?|?]; contradiction.
Qed.

(** In a genome whose map entries point at objects carrying the entry's
    key as their id, no object sits under two keys. *)
Lemma keyed_NoDup (m : gmap N nat) (h : list (neuron F)) :
  (∀ id p, m !! id = Some p → ∃ n, h !! p = Some n ∧ n_id n = id) →
  NoDup (map_to_list m).*2.
Proof.
  intros Hkey. apply NoDup_fmap_2_strong; [|apply NoDup_map_to_list].
  intros [k1 p1] [k2 p2] H1 H2. simpl. intros <-.
  apply elem_of_map_to_list in H1, H2.
  destruct (Hkey _ _ H1) as (n1 & Hn1 & Hk1).
  destruct (Hkey _ _ H2) as (n2 & Hn2 & Hk2).
  rewrite Hn1 in Hn2. injection Hn2 as <-. congruence.
Qed.

Lemma sim_keyed_l w1 w2 id p :
  sim w1 o1 w2 o2 → neurons o1 !! id = Some p →
  ∃ n, neuronHeap w1 !! p = Some n ∧ n_id n = id.
Proof.
  intros Hsim Hp. pose proof (sim_neurons _ _ _ _ Hsim id) as Hid.
  rewrite Hp in Hid. unfold same_object in Hid.
  destruct (neurons o2 !! id); [|contradiction].
  destruct Hid as (x & ? & ? & ?). eauto.
Qed.

Lemma sim_keyed_r w1 w2 id p :
  sim w1 o1 w2 o2 → neurons o2 !! id = Some p →
  ∃ n, neuronHeap w2 !! p = Some n ∧ n_id n = id.
Proof.
  intros Hsim Hp. pose proof (sim_neurons _ _ _ _ Hsim id) as Hid.
  rewrite Hp in Hid. unfold same_object in Hid.
  destruct (neurons o1 !! id); [|contradiction].
  destruct Hid as (x & ? & ? & ?). eauto.
Qed.

Lemma sim_clear w1 w2 :
  sim w1 o1 w2 o2 →
  related (fun _ w1' _ w2' => sim w1' o1 w2' o2)
    (for_do (map_to_list (neurons o1))
       (fun kv => updateN (Some kv.2) clear_neuron) w1)
    (for_do (map_to_list (neurons o2))
       (fun kv => updateN (Some kv.2) clear_neuron) w2).
Proof.
  intros Hsim.
  destruct (clear_all_spec (map_to_list (neurons o1)) w1)
    as (w1' & -> & Hsyn1 & Hheap1).
  { apply (keyed_NoDup _ (neuronHeap w1)). intros id p Hp.
    exact (sim_keyed_l w1 w2 id p Hsim Hp). }
  { intros [k p] Hkp. apply elem_of_map_to_list in Hkp.
    destruct (sim_keyed_l _ _ _ _ Hsim Hkp) as (n & Hn & _). simpl. eauto. }
  destruct (clear_all_spec (map_to_list (neurons o2)) w2)
    as (w2' & -> & Hsyn2 & Hheap2).
  { apply (keyed_NoDup _ (neuronHeap w2)). intros id p Hp.
    exact (sim_keyed_r w1 w2 id p Hsim Hp). }
  { intros [k p] Hkp. apply elem_of_map_to_list in Hkp.
    destruct (sim_keyed_r _ _ _ _ Hsim Hkp) as (n & Hn & _). simpl. eauto. }
  simpl. destruct Hsim as [Hs Ho Hc Hn Hsy]. constructor; auto.
  - intros id. specialize (Hn id). unfold same_object in *.
    destruct (neurons o1 !! id) as [a1|] eqn:Hp1,
             (neurons o2 !! id) as [a2|] eqn:Hp2; try contradiction; [|exact I].
    destruct Hn as (x & H1 & H2 & Hx). exists (clear_neuron x).
    rewrite Hheap1, Hheap2, H1, H2.
    rewrite !decide_True; [auto| |].
    + apply list_elem_of_fmap. exists (id, a2). split; [reflexivity|].
      apply elem_of_map_to_list. exact Hp2.
    + apply list_elem_of_fmap. exists (id, a1). split; [reflexivity|].
      apply elem_of_map_to_list. exact Hp1.
  - intros id. rewrite Hsyn1, Hsyn2. apply Hsy.
Qed.

Lemma sim_process (input : list F) w1 w2 :
  sim w1 o1 w2 o2 →
  related (fun out1 w1' out2 w2' => out1 = out2 ∧ sim w1' o1 w2' o2)
    (process config o1 input w1) (process config o2 input w2).
Proof.
  intros Hsim. unfold process. rewrite (sim_sensors _ _ _ _ Hsim).
  destruct (negb (length input =? length (sensors o2))); [reflexivity|].
  eapply related_bind; [apply sim_clear; exact Hsim|].
  intros u1 w1a u2 w2a Hsim_a. simpl in Hsim_a.
  eapply related_bind.
  { apply (related_for_do (fun w1' w2' => sim w1' o1 w2' o2)); [exact Hsim_a|].
    intros [id x] v1 v2 _ Hv. simpl.
    apply (sim_updateN v1 v2 id); [reflexivity|exact Hv]. }
  intros u1' w1b u2' w2b Hsim_b. simpl in Hsim_b.
  eapply related_bind; [apply sim_propagate; exact Hsim_b|].
  intros u1'' w1c u2'' w2c Hsim_c. simpl in Hsim_c.
  rewrite (sim_outputs _ _ _ _ Hsim).
  apply (related_for_map (fun w1' w2' => sim w1' o1 w2' o2)); [exact Hsim_c|].
  intros id v1 v2 _ Hv.
  eapply related_bind; [apply (sim_derefN v1 v2 id Hv)|].
  intros n ? n' ? (<- & _ & -> & ->). simpl. auto.
Qed.

(** Driving both with the same input sequence gives the same outputs at
    every step, or the same failure at the same step. *)
Lemma sim_process_all (inputs : list (list F)) w1 w2 :
  sim w1 o1 w2 o2 →
  related (fun outs1 w1' outs2 w2' => outs1 = outs2 ∧ sim w1' o1 w2' o2)
    (process_all config o1 inputs w1) (process_all config o2 inputs w2).
Proof.
  intros Hsim. unfold process_all.
  apply (related_for_map (fun w1' w2' => sim w1' o1 w2' o2)); [exact Hsim|].
  intros input v1 v2 _ Hv. apply sim_process. exact Hv.
Qed.

End Simulation.

Arguments sim {F} w1 o1 w2 o2.

(** * One run: termination and footprint *)

Section Ensures.

Context {F : Type} {FF : Float64 F}.

(** The run does not exhaust its fuel, and when it returns, [P] holds of
    the result and the final state. *)
Definition ensures {A} (P : A → world F → Prop) (r : outcome F A) : Prop :=
  match r with
  | Done a w => P a w
  | Fatal _ | Panic _ => True
  | OutOfFuel => False
  end.

Lemma ensures_bind {A B} (P : A → world F → Prop) (Q : B → world F → Prop)
    (m : M F A) (k : A → M F B) w :
  ensures P (m w) →
  (∀ a w', P a w' → ensures Q (k a w')) →
  ensures Q (bind m k w).
Proof.
  unfold bind. intros Hm Hk. destruct (m w) as [a w'| | |]; simpl in *; auto.
Qed.

Lemma ensures_weaken {A} (P Q : A → world F → Prop) r :
  (∀ a w, P a w → Q a w) → ensures P r → ensures Q r.
Proof. intros HPQ. destruct r; simpl; auto. Qed.

Lemma ensures_for_fold {A B} (I : B → world F → Prop) (body : B → A → M F B)
    (l : list A) acc w :
  I acc w →
  (∀ x acc w, x ∈ l → I acc w → ensures I (body acc x w)) →
  ensures I (for_fold body acc l w).
Proof.
  revert acc w. induction l as [|x l IH]; intros acc w HI Hstep.
  - exact HI.
  - simpl. eapply ensures_bind.
    + apply Hstep; [left|exact HI].
    + intros acc' w' HI'. apply IH; [exact HI'|].
      intros y ? ? Hy. apply Hstep. right. exact Hy.
Qed.

Lemma ensures_for_do {A} (I : world F → Prop) (body : A → M F unit)
    (l : list A) w :
  I w →
  (∀ x w, x ∈ l → I w → ensures (fun _ w' => I w') (body x w)) →
  ensures (fun _ w' => I w') (for_do l body w).
Proof.
  revert w. induction l as [|x l IH]; intros w HI Hstep.
  - exact HI.
  - simpl. eapply ensures_bind.
    + apply Hstep; [left|exact HI].
    + intros u w' HI'. simpl in HI'. apply IH; [exact HI'|].
      intros y ? Hy. apply Hstep. right. exact Hy.
Qed.

Lemma ensures_for_map {A B} (I : world F → Prop) (f : A → M F B)
    (l : list A) w :
  I w →
  (∀ x w, x ∈ l → I w → ensures (fun _ w' => I w') (f x w)) →
  ensures (fun _ w' => I w') (for_map f l w).
Proof.
  revert w. induction l as [|x l IH]; intros w HI Hstep.
  - exact HI.
  - simpl. eapply ensures_bind.
    + apply Hstep; [left|exact HI].
    + intros y w' HI'. simpl in HI'. eapply ensures_bind.
      * apply IH; [exact HI'|]. intros z ? Hz. apply Hstep. right. exact Hz.
      * intros ys w'' HI''. exact HI''.
Qed.

Lemma ensures_not_diverged {A} (P : A → world F → Prop) (r : outcome F A) :
  ensures P r → observe r ≠ Diverged.
Proof. destruct r; simpl; intros H; [discriminate..|contradiction]. Qed.

End Ensures.

Section Footprint.

Context {F : Type} {FF : Float64 F}.

Variable config : OrganismConfig F.
Variable org : organism F.

Implicit Types (w : world F).

(** A field update that leaves id and kind alone. *)
Definition keeps_identity (f : neuron F → neuron F) : Prop :=
  ∀ n, n_id (f n) = n_id n ∧ n_kind (f n) = n_kind n.

(** [w'] differs from [w] at most in the neurons of [org]: synapses are
    untouched, nothing is allocated, neurons outside the genome keep
    their value, and every object keeps its identity. *)
Definition modifies_only w w' : Prop :=
  synapseHeap w' = synapseHeap w
  ∧ length (neuronHeap w') = length (neuronHeap w)
  ∧ (∀ p, (∀ id, neurons org !! id ≠ Some p) →
          neuronHeap w' !! p = neuronHeap w !! p)
  ∧ same_identity w w'.

Lemma modifies_only_refl w : modifies_only w w.
Proof.
  split; [reflexivity|]. split; [reflexivity|]. split; [reflexivity|].
  apply same_identity_refl.
Qed.

Lemma modifies_only_trans w1 w2 w3 :
  modifies_only w1 w2 → modifies_only w2 w3 → modifies_only w1 w3.
Proof.
  intros (Hs12 & Hl12 & Hn12 & Hi12) (Hs23 & Hl23 & Hn23 & Hi23).
  split; [congruence|]. split; [congruence|].
  split; [|eapply same_identity_trans; eassumption].
  intros p Hp. rewrite Hn23, Hn12 by exact Hp. reflexivity.
Qed.

(** ** The measure that bounds the traversal *)

Definition unseen_at (h : list (neuron F)) (p : nat) : bool :=
  match h !! p with
  | Some n => negb (n_seen n)
  | None => false
  end.

(** How many of the pointers [ps] refer to a neuron not yet marked seen. *)
Fixpoint count_unseen (h : list (neuron F)) (ps : list nat) : nat :=
  match ps with
  | [] => 0
  | p :: ps' => (if unseen_at h p then 1 else 0) + count_unseen h ps'
  end.

(** The neurons of the genome not yet marked seen. *)
Definition unseen w : nat :=
  count_unseen (neuronHeap w) (map_to_list (neurons org)).*2.

Lemma count_unseen_le (h : list (neuron F)) ps : count_unseen h ps ≤ length ps.
Proof.
  induction ps as [|p ps IH]; simpl; [lia|].
  destruct (unseen_at h p); lia.
Qed.

Lemma unseen_at_insert (h : list (neuron F)) a n p :
  h !! a = Some n →
  unseen_at (<[a := n]> h) p = if decide (p = a) then negb (n_seen n) else unseen_at h p.
Proof.
  intros Ha. unfold unseen_at. destruct (decide (p = a)) as [->|Hne].
  - rewrite list_lookup_insert_eq by (eapply lookup_lt_Some; eauto). reflexivity.
  - rewrite list_lookup_insert_ne by congruence. reflexivity.
Qed.

Lemma count_unseen_same (h : list (neuron F)) a n n' ps :
  h !! a = Some n → n_seen n' = n_seen n →
  count_unseen (<[a := n']> h) ps = count_unseen h ps.
Proof.
  intros Ha Hseen. induction ps as [|p ps IH]; simpl; [reflexivity|].
  rewrite IH. f_equal. unfold unseen_at.
  destruct (decide (p = a)) as [->|Hne].
  - rewrite list_lookup_insert_eq by (eapply lookup_lt_Some; eauto).
    rewrite Ha, Hseen. reflexivity.
  - rewrite list_lookup_insert_ne by congruence. reflexivity.
Qed.

Lemma count_unseen_mark_le (h : list (neuron F)) a n ps :
  h !! a = Some n →
  count_unseen (<[a := set_seen true n]> h) ps ≤ count_unseen h ps.
Proof.
  intros Ha. induction ps as [|p ps IH]; simpl; [lia|].
  unfold unseen_at. destruct (decide (p = a)) as [->|Hne].
  - rewrite list_lookup_insert_eq by (eapply lookup_lt_Some; eauto).
    rewrite Ha. simpl. destruct (negb (n_seen n)); lia.
  - rewrite list_lookup_insert_ne by congruence.
    destruct (h !! p) as [m|]; [destruct (negb (n_seen m))|]; lia.
Qed.

Lemma count_unseen_mark_lt (h : list (neuron F)) a n ps :
  h !! a = Some n → n_seen n = false → a ∈ ps →
  count_unseen (<[a := set_seen true n]> h) ps < count_unseen h ps.
Proof.
  intros Ha Hseen Hin. induction ps as [|p ps IH]; [inversion Hin|].
  simpl. unfold unseen_at. destruct (decide (p = a)) as [->|Hne].
  - rewrite list_lookup_insert_eq by (eapply lookup_lt_Some; eauto).
    rewrite Ha, Hseen. simpl.
    pose proof (count_unseen_mark_le h a n ps Ha). lia.
  - rewrite list_lookup_insert_ne by congruence.
    apply elem_of_cons in Hin as [->|Hin]; [contradiction|].
    specialize (IH Hin).
    destruct (h !! p) as [m|]; [destruct (negb (n_seen m))|]; lia.
Qed.

(** ** Memory access *)

Lemma derefN_spec (p : option nat) w :
  ensures (fun n w' => w' = w ∧ ∃ a, p = Some a ∧ neuronHeap w !! a = Some n)
    (derefN p w).
Proof.
  unfold derefN. destruct p as [a|]; [|exact I].
  destruct (neuronHeap w !! a) as [n|] eqn:Ha; [|exact I].
  simpl. eauto.
Qed.

Lemma derefS_spec (p : option nat) w :
  ensures (fun _ w' => w' = w) (derefS p w).
Proof.
  unfold derefS. destruct p as [a|]; [|exact I].
  destruct (synapseHeap w !! a); simpl; auto.
Qed.

Lemma updateN_spec (p : option nat) (f : neuron F → neuron F) w :
  ensures (fun _ w' =>
             ∃ a n, p = Some a ∧ neuronHeap w !! a = Some n
                    ∧ w' = set_neuronHeap (<[a := f n]> (neuronHeap w)) w)
    (updateN p f w).
Proof.
  unfold updateN. destruct p as [a|]; [|exact I].
  destruct (neuronHeap w !! a) as [n|] eqn:Ha; [|exact I].
  simpl. eauto.
Qed.

Lemma store_modifies_only id a (n x : neuron F) w :
  neurons org !! id = Some a →
  neuronHeap w !! a = Some n →
  n_id x = n_id n → n_kind x = n_kind n →
  modifies_only w (set_neuronHeap (<[a := x]> (neuronHeap w)) w).
Proof.
  intros Ha Hn Hid Hkind.
  split; [reflexivity|]. split; [simpl; apply length_insert|]. split.
  - intros p Hp. simpl. apply list_lookup_insert_ne. intros ->. exact (Hp id Ha).
  - split; [|intros p s Hp; exists s; auto].
    intros p m Hp. simpl. destruct (decide (p = a)) as [->|Hne].
    + exists x. rewrite list_lookup_insert_eq by (eapply lookup_lt_Some; eauto).
      rewrite Hn in Hp. injection Hp as <-. auto.
    + exists m. rewrite list_lookup_insert_ne by congruence. auto.
Qed.

Lemma updateN_modifies id (f : neuron F → neuron F) w :
  keeps_identity f →
  ensures (fun _ w' => modifies_only w w') (updateN (neurons org !! id) f w).
Proof.
  intros Hf. eapply ensures_weaken; [|apply updateN_spec].
  intros _ w' (a & n & Ha & Hn & ->).
  apply (store_modifies_only id a n); [exact Ha|exact Hn|apply Hf|apply Hf].
Qed.

(** A write that leaves the [seen] flag alone. *)
Lemma updateN_quiet id (f : neuron F → neuron F) w :
  (∀ n, n_seen (f n) = n_seen n) →
  keeps_identity f →
  ensures (fun _ w' => unseen w' = unseen w ∧ modifies_only w w')
    (updateN (neurons org !! id) f w).
Proof.
  intros Hf Hid. eapply ensures_weaken; [|apply updateN_spec].
  intros _ w' (a & n & Ha & Hn & ->). split.
  - unfold unseen. simpl. apply (count_unseen_same _ a n); [exact Hn|apply Hf].
  - apply (store_modifies_only id a n); [exact Ha|exact Hn|apply Hid|apply Hid].
Qed.

Ltac field_update := intros ?; try split; reflexivity.

(** ** The traversal *)

(** The queue holds neurons of the genome only. *)
Definition queue_within (q : squeue) : Prop := ∃ ids, q = queue_of org ids.

(** Queue length plus unseen neurons: what every iteration of the outer
    loop of [propagate] decreases. *)
Definition work (q : squeue) w : nat := length q + unseen w.

Lemma propagate_synapse_progress (n : option nat) (q : squeue) sid w :
  queue_within q →
  ensures (fun q' w' =>
             work q' w' ≤ work q w ∧ modifies_only w w' ∧ queue_within q')
    (propagate_synapse org n q sid w).
Proof.
  intros Hq. unfold propagate_synapse, getSynapse.
  eapply ensures_bind; [apply derefS_spec|]. intros s ? ->.
  destruct (s_enabled s);
    [|simpl; split; [lia|split; [apply modifies_only_refl|exact Hq]]].
  eapply ensures_bind; [apply derefN_spec|]. intros nv ? [-> _].
  eapply ensures_bind; [apply derefN_spec|]. intros o ? [-> (a & Ha & Ho)].
  destruct (n_visited o).
  - eapply ensures_bind; [apply (updateN_quiet (s_out s)); field_update|].
    intros _ w' [Hu Hm]. simpl. unfold work. split; [lia|]. split; assumption.
  - eapply ensures_bind; [apply updateN_spec|].
    intros _ w' (a' & o' & Ha' & Ho' & ->).
    rewrite Ha in Ha'. injection Ha' as <-. rewrite Ho in Ho'. injection Ho' as <-.
    assert (Hu : unseen (set_neuronHeap
                           (<[a := set_sum (f_add (n_sum o)
                                              (f_mul (n_value nv) (s_weight s))) o]>
                              (neuronHeap w)) w) = unseen w).
    { unfold unseen. simpl. apply (count_unseen_same _ a o); [exact Ho|reflexivity]. }
    pose proof (store_modifies_only (s_out s) a o
                  (set_sum (f_add (n_sum o) (f_mul (n_value nv) (s_weight s))) o)
                  w Ha Ho eq_refl eq_refl) as Hm.
    destruct (n_seen o) eqn:Hseen; simpl.
    { unfold work. split; [lia|]. split; assumption. }
    eapply ensures_bind; [apply updateN_spec|].
    intros _ w'' (a'' & o'' & Ha'' & Ho'' & ->).
    rewrite Ha in Ha''. injection Ha'' as <-.
    simpl in Ho''.
    rewrite list_lookup_insert_eq in Ho'' by (eapply lookup_lt_Some; eauto).
    injection Ho'' as <-.
    simpl. split; [|split].
    + unfold work, Push. rewrite length_app. simpl.
      rewrite <- Hu. unfold unseen at 1. simpl.
      match goal with
      | |- context [count_unseen (<[a := set_seen true ?x]> ?h) ?ps] =>
          pose proof (count_unseen_mark_lt h a x ps) as Hlt
      end.
      unfold unseen at 1. simpl.
      assert (a ∈ (map_to_list (neurons org)).*2) as Hin.
      { apply list_elem_of_fmap. exists (s_out s, a). split; [reflexivity|].
        apply elem_of_map_to_list. exact Ha. }
      specialize (Hlt ltac:(apply list_lookup_insert_eq; eapply lookup_lt_Some; eauto)
                      Hseen Hin).
      lia.
    + eapply modifies_only_trans; [exact Hm|].
      apply (store_modifies_only (s_out s) a
               (set_sum (f_add (n_sum o) (f_mul (n_value nv) (s_weight s))) o));
        [exact Ha| |reflexivity|reflexivity].
      simpl. apply list_lookup_insert_eq. eapply lookup_lt_Some; eauto.
    + destruct Hq as (ids & ->). exists (ids ++ [s_out s]).
      unfold Push, queue_of. rewrite fmap_app. reflexivity.
Qed.

Lemma propagate_visit_progress (q : squeue) w :
  queue_within q →
  ensures (fun q' w' =>
             work q' w' < work q w ∧ modifies_only w w' ∧ queue_within q')
    (propagate_visit config org q w).
Proof.
  intros (ids & ->). unfold propagate_visit.
  destruct ids as [|id ids]; [exact I|].
  simpl queue_of. unfold Pop, bind at 1, ret. simpl fst. simpl snd.
  eapply ensures_bind; [apply derefN_spec|]. intros nv ? [-> _].
  destruct (n_visited nv); [exact I|].
  eapply ensures_bind; [apply (updateN_quiet id); field_update|].
  intros ? w1 [Hu1 Hm1].
  eapply ensures_bind; [apply (updateN_quiet id); field_update|].
  intros ? w2 [Hu2 Hm2].
  eapply ensures_weaken;
    [|apply (ensures_for_fold
               (fun q' w' => work q' w' ≤ work (queue_of org ids) w2
                             ∧ modifies_only w2 w' ∧ queue_within q'))].
  - intros q' w' (Hw & Hm & Hq). unfold work in *. simpl. split; [lia|].
    split; [|exact Hq].
    eapply modifies_only_trans; [exact Hm1|].
    eapply modifies_only_trans; [exact Hm2|exact Hm].
  - split; [lia|]. split; [apply modifies_only_refl|]. exists ids. reflexivity.
  - intros sid q' w' _ (Hw & Hm & Hq).
    eapply ensures_weaken; [|apply propagate_synapse_progress; exact Hq].
    intros q'' w'' (Hw' & Hm' & Hq'). split; [lia|].
    split; [|exact Hq']. eapply modifies_only_trans; eassumption.
Qed.

(** The outer loop of [propagate] never runs out of fuel that covers
    [work]. *)
Lemma propagate_loop_terminates (fuel : nat) (q : squeue) w :
  queue_within q →
  work q w ≤ fuel →
  ensures (fun _ w' => modifies_only w w') (propagate_loop config fuel org q w).
Proof.
  revert q w. induction fuel as [|fuel IH]; intros q w Hq Hfuel.
  - unfold work in Hfuel. simpl. unfold Size.
    assert (length q = 0) as -> by lia. simpl. apply modifies_only_refl.
  - simpl. destruct (0 <? Size q); [|simpl; apply modifies_only_refl].
    eapply ensures_bind; [apply propagate_visit_progress; exact Hq|].
    intros q' w' (Hw & Hm & Hq').
    eapply ensures_weaken; [|apply IH; [exact Hq'|lia]].
    intros ? w'' Hm'. eapply modifies_only_trans; eassumption.
Qed.

Lemma propagate_footprint w :
  ensures (fun _ w' => modifies_only w w') (propagate config org w).
Proof.
  unfold propagate. apply propagate_loop_terminates.
  - exists (sensors org). apply initial_queue_of.
  - unfold work, propagate_fuel, unseen.
    rewrite initial_queue_of. unfold queue_of. rewrite length_fmap.
    pose proof (count_unseen_le (neuronHeap w) (map_to_list (neurons org)).*2) as Hle.
    rewrite length_fmap, length_map_to_list in Hle. lia.
Qed.

(** [process] always comes back: it returns, exits through [log.Fatal] or
    panics, and touches nothing but the neurons of the genome. *)
Lemma process_footprint (input : list F) w :
  ensures (fun _ w' => modifies_only w w') (process config org input w).
Proof.
  unfold process.
  destruct (negb (length input =? length (sensors org))); [exact I|].
  eapply ensures_bind.
  { apply (ensures_for_do (fun w' => modifies_only w w'));
      [apply modifies_only_refl|].
    intros [k p] w1 Hkp Hm. apply elem_of_map_to_list in Hkp.
    change (ensures (fun (_ : unit) w' => modifies_only w w')
              (updateN (Some p) clear_neuron w1)).
    rewrite <- Hkp.
    eapply ensures_weaken; [|apply (updateN_modifies k); field_update].
    intros ? w2 Hm'. eapply modifies_only_trans; eassumption. }
  intros ? w1 Hm1. simpl in Hm1.
  eapply ensures_bind.
  { apply (ensures_for_do (fun w' => modifies_only w w')); [exact Hm1|].
    intros [id x] w2 _ Hm. simpl.
    eapply ensures_weaken; [|apply (updateN_modifies id); field_update].
    intros ? w3 Hm'. eapply modifies_only_trans; eassumption. }
  intros ? w2 Hm2. simpl in Hm2.
  eapply ensures_bind; [apply propagate_footprint|].
  intros ? w3 Hm3.
  apply (ensures_for_map (fun w' => modifies_only w w')).
  { eapply modifies_only_trans; eassumption. }
  intros id w4 _ Hm.
  eapply ensures_bind; [apply derefN_spec|]. intros n ? [-> _]. exact Hm.
Qed.

Lemma process_all_footprint (inputs : list (list F)) w :
  ensures (fun _ w' => modifies_only w w') (process_all config org inputs w).
Proof.
  unfold process_all.
  apply (ensures_for_map (fun w' => modifies_only w w'));
    [apply modifies_only_refl|].
  intros input w1 _ Hm.
  eapply ensures_weaken; [|apply process_footprint].
  intros ? w2 Hm'. eapply modifies_only_trans; eassumption.
Qed.

End Footprint.

(** * A clone and its original *)

Section Independence.

Context {F : Type} {FF : Float64 F}.

Implicit Types (w : world F) (g c o : organism F).

(** ** The relation [sim] is a partial equivalence *)

Lemma same_object_sym {T} (h1 h2 : list T) key id p1 p2 :
  same_object h1 h2 key id p1 p2 → same_object h2 h1 key id p2 p1.
Proof.
  unfold same_object. destruct p1, p2; try tauto.
  intros (x & ? & ? & ?). eauto.
Qed.

Lemma same_object_trans {T} (h1 h2 h3 : list T) key id p1 p2 p3 :
  same_object h1 h2 key id p1 p2 → same_object h2 h3 key id p2 p3 →
  same_object h1 h3 key id p1 p3.
Proof.
  unfold same_object. destruct p1, p2, p3; try tauto.
  intros (x & H1 & H2 & Hx) (y & H2' & H3 & Hy).
  rewrite H2 in H2'. injection H2' as <-. eauto.
Qed.

Lemma sim_sym w1 o1 w2 o2 : sim w1 o1 w2 o2 → sim w2 o2 w1 o1.
Proof.
  intros [Hs Ho Hc Hn Hsy]. constructor; auto.
  - intros id. apply same_object_sym, Hn.
  - intros id. apply same_object_sym, Hsy.
Qed.

Lemma sim_trans w1 o1 w2 o2 w3 o3 :
  sim w1 o1 w2 o2 → sim w2 o2 w3 o3 → sim w1 o1 w3 o3.
Proof.
  intros [Hs Ho Hc Hn Hsy] [Hs' Ho' Hc' Hn' Hsy']. constructor; try congruence.
  - intros id. eapply same_object_trans; [apply Hn|apply Hn'].
  - intros id. eapply same_object_trans; [apply Hsy|apply Hsy'].
Qed.

(** The objects of [o] are the same in [w'] as in [w]. *)
Definition untouched o w w' : Prop :=
  (∀ id p, neurons o !! id = Some p → neuronHeap w' !! p = neuronHeap w !! p)
  ∧ (∀ id p, synapses o !! id = Some p →
             synapseHeap w' !! p = synapseHeap w !! p).

Lemma sim_untouched o w w' : sim w o w o → untouched o w w' → sim w o w' o.
Proof.
  intros [Hs Ho Hc Hn Hsy] [Hun Hus]. constructor; auto.
  - intros id. specialize (Hn id). unfold same_object in *.
    destruct (neurons o !! id) as [p|] eqn:Hp; [|exact I].
    destruct Hn as (x & H1 & _ & Hx). exists x.
    rewrite (Hun id p Hp). auto.
  - intros id. specialize (Hsy id). unfold same_object in *.
    destruct (synapses o !! id) as [p|] eqn:Hp; [|exact I].
    destruct Hsy as (x & H1 & _ & Hx). exists x.
    rewrite (Hus id p Hp). auto.
Qed.

(** ** Twins: two genomes assembled from equal structs, step by step *)

Inductive twin w : organism F → organism F → Prop :=
| twin_empty gen1 fit1 gen2 fit2 :
    twin w (mkOrganism [] [] ∅ ∅ ∅ [] gen1 fit1)
           (mkOrganism [] [] ∅ ∅ ∅ [] gen2 fit2)
| twin_neuron o1 o2 p1 p2 n :
    twin w o1 o2 →
    neuronHeap w !! p1 = Some n → neuronHeap w !! p2 = Some n →
    twin w (registerNeuron o1 p1 n) (registerNeuron o2 p2 n)
| twin_synapse o1 o2 p1 p2 s :
    twin w o1 o2 →
    synapseHeap w !! p1 = Some s → synapseHeap w !! p2 = Some s →
    twin w (registerSynapse o1 p1 s) (registerSynapse o2 p2 s).

Lemma twin_extends w w' o1 o2 : extends w w' → twin w o1 o2 → twin w' o1 o2.
Proof.
  intros [Hn Hs]. induction 1 as [| |]; constructor; auto;
    eapply prefix_lookup_Some; eauto.
Qed.

Lemma built_twin w o : built w o → twin w o o.
Proof. induction 1; constructor; auto. Qed.

Lemma registerNeuron_fields o p (n : neuron F) :
  neurons (registerNeuron o p n) = <[n_id n := p]> (neurons o)
  ∧ synapses (registerNeuron o p n) = synapses o
  ∧ connections (registerNeuron o p n) = connections o
  ∧ genes (registerNeuron o p n) = genes o ++ [GNeuron p].
Proof. unfold registerNeuron. destruct (n_kind n); simpl; auto. Qed.

Lemma twin_sim w o1 o2 : twin w o1 o2 → sim w o1 w o2.
Proof.
  induction 1 as [gen1 fit1 gen2 fit2
                 |o1 o2 p1 p2 n _ [Hs Ho Hc Hn Hsy] H1 H2
                 |o1 o2 p1 p2 s _ [Hs Ho Hc Hn Hsy] H1 H2].
  - constructor; simpl; auto; intros id; rewrite !lookup_empty; exact I.
  - destruct (registerNeuron_fields o1 p1 n) as (Hn1 & Hs1 & Hc1 & _).
    destruct (registerNeuron_fields o2 p2 n) as (Hn2 & Hs2 & Hc2 & _).
    constructor.
    + unfold registerNeuron. destruct (n_kind n); simpl; congruence.
    + unfold registerNeuron. destruct (n_kind n); simpl; congruence.
    + congruence.
    + intros id. rewrite Hn1, Hn2. destruct (decide (n_id n = id)) as [<-|Hne].
      * rewrite !lookup_insert_eq. simpl. eauto.
      * rewrite !lookup_insert_ne by exact Hne. apply Hn.
    + intros id. rewrite Hs1, Hs2. apply Hsy.
  - constructor; simpl; auto.
    + rewrite Hc. reflexivity.
    + intros id. destruct (decide (s_id s = id)) as [<-|Hne].
      * rewrite !lookup_insert_eq. simpl. eauto.
      * rewrite !lookup_insert_ne by exact Hne. apply Hsy.
Qed.

Lemma clone_twin w g :
  built w g →
  ∀ vs gen fit w0,
    genes_read w (genes g) vs →
    extends w w0 →
    twin (copy_all (mkOrganism [] [] ∅ ∅ ∅ [] gen fit) vs w0).2 g
         (copy_all (mkOrganism [] [] ∅ ∅ ∅ [] gen fit) vs w0).1.
Proof.
  induction 1 as [gen0 fit0|g p n Hb IH Hp|g p s Hb IH Hp];
    intros vs gen fit w0 Hread Hext.
  - simpl in Hread. apply Forall2_nil_inv_l in Hread as ->. constructor.
  - destruct (registerNeuron_fields g p n) as (_ & _ & _ & Hg).
    rewrite Hg in Hread.
    apply List.Forall2_app_inv_l in Hread as (vs0 & vs1 & Hr0 & Hr1 & ->).
    inversion Hr1 as [|? v ? ? Hv Hnil]; subst. inversion Hnil; subst.
    simpl in Hv. rewrite Hp in Hv. injection Hv as <-.
    rewrite copy_all_app.
    set (e := mkOrganism [] [] ∅ ∅ ∅ [] gen fit) in *.
    specialize (IH vs0 gen fit w0 Hr0 Hext). fold e in IH.
    change (copy_all (copy_all e vs0 w0).1 [VNeuron n] (copy_all e vs0 w0).2)
      with (copy_into (copy_all e vs0 w0).1 (VNeuron n) (copy_all e vs0 w0).2).
    simpl. constructor.
    + eapply twin_extends; [|exact IH]. split; simpl; [|reflexivity].
      apply prefix_app_r. reflexivity.
    + simpl. apply lookup_app_l_Some.
      destruct (copy_all_extends e vs0 w0) as [Hn _].
      destruct Hext as [Hn0 _].
      eapply prefix_lookup_Some; [|exact Hn].
      eapply prefix_lookup_Some; [exact Hp|exact Hn0].
    + simpl. apply list_lookup_middle. reflexivity.
  - simpl in Hread.
    apply List.Forall2_app_inv_l in Hread as (vs0 & vs1 & Hr0 & Hr1 & ->).
    inversion Hr1 as [|? v ? ? Hv Hnil]; subst. inversion Hnil; subst.
    simpl in Hv. rewrite Hp in Hv. injection Hv as <-.
    rewrite copy_all_app.
    set (e := mkOrganism [] [] ∅ ∅ ∅ [] gen fit) in *.
    specialize (IH vs0 gen fit w0 Hr0 Hext). fold e in IH.
    change (copy_all (copy_all e vs0 w0).1 [VSynapse s] (copy_all e vs0 w0).2)
      with (copy_into (copy_all e vs0 w0).1 (VSynapse s) (copy_all e vs0 w0).2).
    simpl. constructor.
    + eapply twin_extends; [|exact IH]. split; simpl; [reflexivity|].
      apply prefix_app_r. reflexivity.
    + simpl. apply lookup_app_l_Some.
      destruct (copy_all_extends e vs0 w0) as [_ Hs].
      destruct Hext as [_ Hs0].
      eapply prefix_lookup_Some; [|exact Hs].
      eapply prefix_lookup_Some; [exact Hp|exact Hs0].
    + simpl. apply list_lookup_middle. reflexivity.
Qed.

(** After [clone], the clone and the original are the same network in the
    same state. *)
Lemma clone_sim w g :
  built w g →
  ∃ c w1, clone g w = Done c w1 ∧ extends w w1 ∧ sim w1 g w1 c.
Proof.
  intros Hb. destruct (built_genes_read w g Hb) as (vs & Hread & _).
  eexists _, _. split; [apply (clone_spec g vs w Hread)|].
  split; [apply copy_all_extends|].
  apply twin_sim. apply (clone_twin w g Hb vs 0%Z f_zero w Hread).
  apply extends_refl.
Qed.

(** ** The clone's objects are fresh *)

(** No object belongs to both genomes. *)
Definition separate g c : Prop :=
  (∀ id id' p, neurons g !! id = Some p → neurons c !! id' ≠ Some p)
  ∧ (∀ id id' p, synapses g !! id = Some p → synapses c !! id' ≠ Some p).

Lemma separate_sym g c : separate g c → separate c g.
Proof.
  intros [Hn Hs]. split; intros id id' p H1 H2; [eapply Hn|eapply Hs]; eauto.
Qed.

Lemma copy_all_pointers o (vs : list (gene_value F)) w (Ln Ls : nat) :
  Ln ≤ length (neuronHeap w) →
  Ls ≤ length (synapseHeap w) →
  (∀ id p, neurons o !! id = Some p → Ln ≤ p) →
  (∀ id p, synapses o !! id = Some p → Ls ≤ p) →
  (∀ id p, neurons (copy_all o vs w).1 !! id = Some p → Ln ≤ p)
  ∧ (∀ id p, synapses (copy_all o vs w).1 !! id = Some p → Ls ≤ p).
Proof.
  revert o w. induction vs as [|v vs IH]; intros o w HLn HLs Hn Hs.
  - split; assumption.
  - rewrite copy_all_cons. destruct v as [n|s]; simpl.
    + destruct (registerNeuron_fields o (length (neuronHeap w)) n)
        as (Hn1 & Hs1 & _).
      apply IH; simpl.
      * rewrite length_app. lia.
      * exact HLs.
      * intros id p. rewrite Hn1. destruct (decide (n_id n = id)) as [<-|Hne].
        -- rewrite lookup_insert_eq. intros [= <-]. exact HLn.
        -- rewrite lookup_insert_ne by exact Hne. apply Hn.
      * intros id p. rewrite Hs1. apply Hs.
    + apply IH; simpl.
      * exact HLn.
      * rewrite length_app. lia.
      * exact Hn.
      * intros id p. destruct (decide (s_id s = id)) as [<-|Hne].
        -- rewrite lookup_insert_eq. intros [= <-]. exact HLs.
        -- rewrite lookup_insert_ne by exact Hne. apply Hs.
Qed.

Lemma clone_separate w g c w1 :
  built w g → clone g w = Done c w1 → separate g c.
Proof.
  intros Hb Hrun. destruct (built_genes_read w g Hb) as (vs & Hread & _).
  rewrite (clone_spec g vs w Hread) in Hrun. injection Hrun as <- <-.
  destruct (copy_all_pointers (mkOrganism [] [] ∅ ∅ ∅ [] 0%Z f_zero) vs w
              (length (neuronHeap w)) (length (synapseHeap w)))
    as [Hcn Hcs]; try reflexivity;
    try (intros id p; simpl; rewrite lookup_empty; discriminate).
  split.
  - intros id id' p Hg Hc.
    destruct (built_neurons w g id p Hb Hg) as (n & Hn & _).
    apply lookup_lt_Some in Hn. specialize (Hcn id' p Hc). lia.
  - intros id id' p Hg Hc.
    destruct (built_synapses w g id p Hb Hg) as (s & Hs & _).
    apply lookup_lt_Some in Hs. specialize (Hcs id' p Hc). lia.
Qed.

(** ** What a call on one genome leaves alone in the other *)

Lemma untouched_refl o w : untouched o w w.
Proof. split; reflexivity. Qed.

Lemma untouched_trans o w1 w2 w3 :
  untouched o w1 w2 → untouched o w2 w3 → untouched o w1 w3.
Proof.
  intros [Hn12 Hs12] [Hn23 Hs23]. split; intros id p Hp.
  - rewrite (Hn23 id p Hp). apply (Hn12 id p Hp).
  - rewrite (Hs23 id p Hp). apply (Hs12 id p Hp).
Qed.

Lemma modifies_only_untouched g c w w' :
  separate g c → modifies_only c w w' → untouched g w w'.
Proof.
  intros [Hsep _] (Hsyn & _ & Hn & _). split.
  - intros id p Hp. apply Hn. intros id'. exact (Hsep id id' p Hp).
  - intros id p Hp. rewrite Hsyn. reflexivity.
Qed.

Lemma updateS_untouched g c id (f : synapse F → synapse F) w :
  separate g c →
  ensures (fun _ w' => untouched g w w') (updateS (synapses c !! id) f w).
Proof.
  intros [_ Hsep]. unfold updateS.
  destruct (synapses c !! id) as [a|] eqn:Ha; [|exact I].
  destruct (synapseHeap w !! a) as [s|]; [|exact I].
  simpl. split; [reflexivity|].
  intros id' p Hp. simpl. apply list_lookup_insert_ne.
  intros ->. exact (Hsep id' id p Hp Ha).
Qed.

Lemma apply_mutation_untouched config rand g c (m : mutation) w :
  separate g c →
  ensures (fun _ w' => untouched g w w') (apply_mutation config rand c m w).
Proof.
  intros Hsep. destruct m as [id|id]; simpl.
  - unfold toggleEnabled, synapse_toggleEnabled.
    apply updateS_untouched. exact Hsep.
  - unfold mutateWeight, synapse_mutateWeight, bind, RandFloat64.
    eapply ensures_weaken; [|apply (updateS_untouched g c id); exact Hsep].
    intros u w' [Hn Hs]. split; [exact Hn|exact Hs].
Qed.

Lemma mutate_all_untouched config rand g c (ms : list mutation) w :
  separate g c →
  ensures (fun _ w' => untouched g w w') (mutate_all config rand c ms w).
Proof.
  intros Hsep. unfold mutate_all.
  apply (ensures_for_do (fun w' => untouched g w w')); [apply untouched_refl|].
  intros m w1 _ Hu.
  eapply ensures_weaken; [|apply apply_mutation_untouched; exact Hsep].
  intros u w2 Hu'. eapply untouched_trans; eassumption.
Qed.

(** ** Any later state *)

Section Later.

Variable config : OrganismConfig F.
Variable rand_source : nat → F.
Variables g c : organism F.

(** [later w w']: [w'] is reached from [w] by calls of [process] on either
    genome and by mutations of [c], in any order. *)
Inductive later : world F → world F → Prop :=
| later_now w : later w w
| later_process_original w w1 input out w2 :
    later w w1 → process config g input w1 = Done out w2 → later w w2
| later_process_clone w w1 input out w2 :
    later w w1 → process config c input w1 = Done out w2 → later w w2
| later_mutation w w1 m w2 :
    later w w1 → apply_mutation config rand_source c m w1 = Done tt w2 →
    later w w2.

(** A genome that is the same network as itself: every entry of its maps
    points at a live object carrying the entry's key. *)
Lemma sim_self_untouched w w' :
  sim w g w g → untouched g w w' → sim w' g w' g.
Proof.
  intros Hsim Hun. pose proof (sim_untouched g w w' Hsim Hun) as H.
  eapply sim_trans; [apply sim_sym; exact H|exact H].
Qed.

Lemma process_keeps_self o (input : list F) out w w' :
  sim w o w o → process config o input w = Done out w' → sim w' o w' o.
Proof.
  intros Hsim Hrun. pose proof (sim_process config o o input w w Hsim) as Hrel.
  rewrite Hrun in Hrel. simpl in Hrel. apply Hrel.
Qed.

Lemma later_self w w' :
  separate g c → sim w g w g → later w w' → sim w' g w' g.
Proof.
  intros Hsep Hsim. induction 1 as [w|w w1 input out w2 _ IH Hrun
                                    |w w1 input out w2 _ IH Hrun
                                    |w w1 m w2 _ IH Hrun].
  - exact Hsim.
  - eapply process_keeps_self; [apply IH, Hsim|exact Hrun].
  - specialize (IH Hsim). apply (sim_self_untouched w1 w2 IH).
    apply (modifies_only_untouched g c); [exact Hsep|].
    pose proof (process_footprint config c input w1) as Hfoot.
    rewrite Hrun in Hfoot. exact Hfoot.
  - specialize (IH Hsim). apply (sim_self_untouched w1 w2 IH).
    pose proof (apply_mutation_untouched config rand_source g c m w1 Hsep) as Hun.
    rewrite Hrun in Hun. exact Hun.
Qed.

(** Mutating [c] does not show in what [g] computes afterwards. *)
Lemma mutation_unobservable (ms : list mutation) (inputs : list (list F)) w w' :
  separate g c → sim w g w g →
  mutate_all config rand_source c ms w = Done tt w' →
  observe (process_all config g inputs w')
  = observe (process_all config g inputs w).
Proof.
  intros Hsep Hsim Hrun.
  pose proof (mutate_all_untouched config rand_source g c ms w Hsep) as Hun.
  rewrite Hrun in Hun. simpl in Hun.
  pose proof (sim_untouched g w w' Hsim Hun) as Hsim'.
  symmetry. eapply related_observe;
    [|apply (sim_process_all config g g inputs w w' Hsim')].
  intros a w1 b w2 [Hab _]. exact Hab.
Qed.

(** Driving the two in lockstep: each step's pair of outputs is the
    output of [g] twice; the run fails where [g] alone would fail. *)
Lemma lockstep (inputs : list (list F)) w wg :
  separate g c → sim w g w c → sim w g wg g →
  observe (process_both config g c inputs w)
  = result_map (fmap (fun out => (out, out)))
      (observe (process_all config g inputs wg)).
Proof.
  intros Hsep. revert w wg.
  induction inputs as [|input inputs IH]; intros w wg Hgc Hgg; [reflexivity|].
  unfold process_both, process_all in *. simpl for_map.
  pose proof (sim_process config g g input w wg Hgg) as Hself.
  pose proof (sim_process config g c input w w Hgc) as Hpair.
  pose proof (process_footprint config g input w) as Hfoot.
  destruct (process config g input w) as [out wa|msg|msg|] eqn:Hg;
    destruct (process config g input wg) as [out' wg'|msg'|msg'|] eqn:Hg';
    simpl in Hself; try contradiction.
  - destruct Hself as [<- Hgg'].
    destruct (process config c input w) as [out'' wc| | |] eqn:Hc;
      simpl in Hpair; try contradiction.
    destruct Hpair as [<- Hgc']. simpl in Hfoot.
    assert (Hcc : sim w c w c).
    { eapply sim_trans; [apply sim_sym; exact Hgc|exact Hgc]. }
    assert (Hc_frame : sim w c wa c).
    { apply (sim_untouched c w wa Hcc).
      apply (modifies_only_untouched c g);
        [apply separate_sym; exact Hsep|exact Hfoot]. }
    pose proof (sim_process config c c input w wa Hc_frame) as Hcrun.
    rewrite Hc in Hcrun.
    pose proof (process_footprint config c input wa) as Hfoot_c.
    destruct (process config c input wa) as [out2 wac| | |] eqn:Hc2;
      simpl in Hcrun; try contradiction.
    destruct Hcrun as [<- Hcc']. simpl in Hfoot_c.
    assert (Hga : sim wa g wa g).
    { eapply sim_trans; [exact Hgc'|apply sim_sym; exact Hgc']. }
    assert (Hg_frame : sim wa g wac g).
    { apply (sim_untouched g wa wac Hga).
      apply (modifies_only_untouched g c); [exact Hsep|exact Hfoot_c]. }
    assert (Hgc2 : sim wac g wac c).
    { eapply sim_trans; [apply sim_sym; exact Hg_frame|].
      eapply sim_trans; [exact Hgc'|exact Hcc']. }
    assert (Hgg2 : sim wac g wg' g).
    { eapply sim_trans; [apply sim_sym; exact Hg_frame|exact Hgg']. }
    specialize (IH wac wg' Hgc2 Hgg2).
    assert (Hboth : (outA <- process config g input ;;
                     outB <- process config c input ;; ret (outA, outB)) w
                    = Done (out, out) wac).
    { rewrite (bind_Done _ _ _ _ _ Hg), (bind_Done _ _ _ _ _ Hc2). reflexivity. }
    rewrite (bind_Done _ _ _ _ _ Hboth), (bind_Done _ _ _ _ _ Hg').
    rewrite !observe_bind_ret, IH, !result_map_compose. reflexivity.
  - subst msg'.
    rewrite (bind_Fatal _ _ _ _ Hg'), (bind_Fatal _ _ _ _ (bind_Fatal _ _ _ _ Hg)).
    reflexivity.
  - subst msg'.
    rewrite (bind_Panic _ _ _ _ Hg'), (bind_Panic _ _ _ _ (bind_Panic _ _ _ _ Hg)).
    reflexivity.
Qed.

End Later.

End Independence.

(** * Every operation of the package yields genomes *)

Section Closure.

Context {F : Type} {FF : Float64 F}.

Variable config : OrganismConfig F.
Variable rand_source : nat → F.

Implicit Types (w : world F) (org o : organism F).

Lemma process_built o org (input : list F) out w w' :
  built w o → process config org input w = Done out w' → built w' o.
Proof.
  intros Hb Hrun. pose proof (process_footprint config org input w) as Hfoot.
  rewrite Hrun in Hfoot. destruct Hfoot as (_ & _ & _ & Hid).
  eapply built_same_identity; eassumption.
Qed.

Lemma mate_built (a b : organism F) w offspring w' :
  built w a → built w b →
  mate a b w = Done offspring w' →
  built w' offspring ∧ extends w w'.
Proof.
  intros Ha Hb Hrun.
  destruct (built_genes_read w a Ha) as (la & Hla & _).
  destruct (built_genes_read w b Hb) as (lb & Hlb & _).
  unfold mate in Hrun.
  destruct (negb (length (sensors a) =? length (sensors b))
            || negb (length (outputs a) =? length (outputs b))); [discriminate|].
  rewrite (mate_loop_merge a b la lb _ 0 0 _ w Hla Hlb) in Hrun.
  - injection Hrun as <- <-. split; [|apply copy_all_extends].
    apply copy_all_built. constructor.
  - rewrite !drop_0, (Forall2_length _ _ _ Hla), (Forall2_length _ _ _ Hlb). lia.
Qed.

Lemma updateS_same_identity (p : option nat) (f : synapse F → synapse F) w w' :
  (∀ s, s_id (f s) = s_id s ∧ s_in (f s) = s_in s) →
  updateS p f w = Done tt w' → same_identity w w'.
Proof.
  intros Hf. unfold updateS. destruct p as [a|]; [|discriminate].
  destruct (synapseHeap w !! a) as [s|] eqn:Ha; [|discriminate].
  intros [= <-]. split; [intros p n Hp; exists n; auto|].
  intros p s' Hp. simpl. destruct (decide (p = a)) as [->|Hne].
  - exists (f s). rewrite list_lookup_insert_eq by (eapply lookup_lt_Some; eauto).
    rewrite Ha in Hp. injection Hp as <-. split; [reflexivity|apply Hf].
  - exists s'. rewrite list_lookup_insert_ne by congruence. auto.
Qed.

Lemma apply_mutation_built o org (m : mutation) w w' :
  built w o → apply_mutation config rand_source org m w = Done tt w' →
  built w' o.
Proof.
  intros Hb. destruct m as [id|id]; simpl.
  - unfold toggleEnabled, synapse_toggleEnabled. intros Hrun.
    eapply built_same_identity; [|exact Hb].
    eapply updateS_same_identity; [|exact Hrun]. intros s. split; reflexivity.
  - unfold mutateWeight, synapse_mutateWeight, bind, RandFloat64. intros Hrun.
    eapply built_same_identity; [|exact Hb].
    eapply same_identity_trans;
      [|eapply updateS_same_identity; [|exact Hrun]; intros s; split; reflexivity].
    split; simpl; eauto.
Qed.

Lemma splitSynapse_built org (id : N) w org' w' :
  built w org → splitSynapse org id w = Done org' w' → built w' org'.
Proof.
  intros Hb Hrun. unfold splitSynapse in Hrun.
  apply bind_Done_inv in Hrun as (io & w0 & Hio & Hrun).
  assert (w0 = w) as ->.
  { unfold synapseEndpoints, bind, derefS, getSynapse in Hio.
    destruct (synapses org !! id) as [a|]; [|discriminate].
    destruct (synapseHeap w !! a); [|discriminate].
    injection Hio as _ <-. reflexivity. }
  apply bind_Done_inv in Hrun as (pn & w1 & Hpn & Hrun).
  apply bind_Done_inv in Hrun as (psi & w2 & Hpsi & Hrun).
  apply bind_Done_inv in Hrun as (pso & w3 & Hpso & Hrun).
  apply bind_Done_inv in Hrun as (u & w4 & Hupd & Hrun).
  apply bind_Done_inv in Hrun as (orgA & w5 & HA & Hrun).
  apply bind_Done_inv in Hrun as (orgB & w6 & HB & Hrun).
  assert (Hx1 : extends w w1).
  { unfold newHiddenNeuron, _newNeuron, bind, nextID, nextInnovation, allocN in Hpn.
    injection Hpn as _ <-. split; simpl; [apply prefix_app_r|]; reflexivity. }
  assert (Hx : ∀ (i j : option nat) (v v' : world F) (p : nat),
             newSynapse i j v = Done p v' → extends v v').
  { intros i j v v' p. unfold newSynapse, bind, nextID, nextInnovation, allocS,
      derefN. simpl.
    destruct i as [ai|]; [|discriminate].
    destruct (neuronHeap v !! ai); [|discriminate]. simpl.
    destruct j as [ao|]; [|discriminate].
    destruct (neuronHeap v !! ao); [|discriminate]. simpl.
    intros [= _ <-]. split; simpl; [|apply prefix_app_r]; reflexivity. }
  assert (Hid : same_identity w w4).
  { eapply same_identity_trans; [apply extends_same_identity; exact Hx1|].
    eapply same_identity_trans;
      [apply extends_same_identity; apply (Hx _ _ _ _ _ Hpsi)|].
    eapply same_identity_trans;
      [apply extends_same_identity; apply (Hx _ _ _ _ _ Hpso)|].
    destruct u. eapply updateS_same_identity; [|exact Hupd].
    intros s. split; reflexivity. }
  pose proof (built_same_identity _ _ _ Hid Hb) as Hb4.
  destruct (addNeuron_built _ _ _ _ _ Hb4 HA) as [HbA ->].
  destruct (addSynapse_built _ _ _ _ _ HbA HB) as [HbB ->].
  destruct (addSynapse_built _ _ _ _ _ HbB Hrun) as [HbC ->].
  exact HbC.
Qed.

(** The synapse a mutation call names. *)
Definition mutation_id (m : mutation) : synapseID :=
  match m with ToggleEnabled id | MutateWeight id => id end.

(** A mutation of a synapse the genome holds returns. *)
Lemma apply_mutation_returns o (m : mutation) w :
  built w o → is_Some (synapses o !! mutation_id m) →
  ∃ w', apply_mutation config rand_source o m w = Done tt w'.
Proof.
  intros Hb [p Hp]. destruct (built_synapses w o _ p Hb Hp) as (s & Hs & _).
  destruct m as [id|id]; simpl in Hp |- *.
  - unfold toggleEnabled, synapse_toggleEnabled, updateS. rewrite Hp, Hs. eauto.
  - unfold mutateWeight, synapse_mutateWeight, bind, RandFloat64, updateS.
    rewrite Hp. simpl. rewrite Hs. eauto.
Qed.

Lemma mutate_all_returns o (ms : list mutation) w :
  built w o → Forall (fun m => is_Some (synapses o !! mutation_id m)) ms →
  ∃ w', mutate_all config rand_source o ms w = Done tt w'.
Proof.
  intros Hb Hms. revert w Hb.
  induction Hms as [|m ms Hm _ IH]; intros w Hb; [eexists; reflexivity|].
  destruct (apply_mutation_returns o m w Hb Hm) as [w1 Hrun].
  destruct (IH w1 (apply_mutation_built o o m w w1 Hb Hrun)) as [w2 Hrest].
  exists w2. unfold mutate_all in *. simpl.
  rewrite (bind_Done _ _ _ _ _ Hrun). exact Hrest.
Qed.

(** Calls of [process] and mutations keep every genome a genome. *)
Lemma later_built (g c o : organism F) w w' :
  later config rand_source g c w w' → built w o → built w' o.
Proof.
  induction 1 as [w|w w1 input out w2 _ IH Hrun
                  |w w1 input out w2 _ IH Hrun
                  |w w1 m w2 _ IH Hrun]; intros Hb.
  - exact Hb.
  - eapply process_built; [apply IH, Hb|exact Hrun].
  - eapply process_built; [apply IH, Hb|exact Hrun].
  - eapply apply_mutation_built; [apply IH, Hb|exact Hrun].
Qed.

End Closure.

(** * When the traversal cannot meet a visited neuron *)

Section NoFatal.

Context {F : Type} {FF : Float64 F}.

(** The run does not end in [log.Fatal]; when it returns, [P] holds. *)
Definition safely {A} (P : A → world F → Prop) (r : outcome F A) : Prop :=
  match r with
  | Done a w => P a w
  | Fatal _ => False
  | Panic _ | OutOfFuel => True
  end.

Lemma safely_bind {A B} (P : A → world F → Prop) (Q : B → world F → Prop)
    (m : M F A) (k : A → M F B) w :
  safely P (m w) →
  (∀ a w', P a w' → safely Q (k a w')) →
  safely Q (bind m k w).
Proof.
  unfold bind. intros Hm Hk. destruct (m w) as [a w'| | |]; simpl in *; auto.
Qed.

Lemma safely_weaken {A} (P Q : A → world F → Prop) r :
  (∀ a w, P a w → Q a w) → safely P r → safely Q r.
Proof. intros HPQ. destruct r; simpl; auto. Qed.

Lemma safely_for_fold {A B} (I : B → world F → Prop) (body : B → A → M F B)
    (l : list A) acc w :
  I acc w →
  (∀ x acc w, x ∈ l → I acc w → safely I (body acc x w)) →
  safely I (for_fold body acc l w).
Proof.
  revert acc w. induction l as [|x l IH]; intros acc w HI Hstep.
  - exact HI.
  - simpl. eapply safely_bind.
    + apply Hstep; [left|exact HI].
    + intros acc' w' HI'. apply IH; [exact HI'|].
      intros y ? ? Hy. apply Hstep. right. exact Hy.
Qed.

Lemma safely_for_do {A} (I : world F → Prop) (body : A → M F unit)
    (l : list A) w :
  I w →
  (∀ x w, x ∈ l → I w → safely (fun _ w' => I w') (body x w)) →
  safely (fun _ w' => I w') (for_do l body w).
Proof.
  revert w. induction l as [|x l IH]; intros w HI Hstep.
  - exact HI.
  - simpl. eapply safely_bind.
    + apply Hstep; [left|exact HI].
    + intros u w' HI'. simpl in HI'. apply IH; [exact HI'|].
      intros y ? Hy. apply Hstep. right. exact Hy.
Qed.

Lemma safely_for_map {A B} (I : world F → Prop) (f : A → M F B)
    (l : list A) w :
  I w →
  (∀ x w, x ∈ l → I w → safely (fun _ w' => I w') (f x w)) →
  safely (fun _ w' => I w') (for_map f l w).
Proof.
  revert w. induction l as [|x l IH]; intros w HI Hstep.
  - exact HI.
  - simpl. eapply safely_bind.
    + apply Hstep; [left|exact HI].
    + intros y w' HI'. simpl in HI'. eapply safely_bind.
      * apply IH; [exact HI'|]. intros z ? Hz. apply Hstep. right. exact Hz.
      * intros ys w'' HI''. exact HI''.
Qed.

End NoFatal.

Section NoRevisit.

Context {F : Type} {FF : Float64 F}.

Variable config : OrganismConfig F.
Variable org : organism F.

Implicit Types (w : world F).

(** The neuron registered under [id], as it is in [w]. *)
Definition state w (id : N) : option (neuron F) :=
  match neurons org !! id with
  | Some p => neuronHeap w !! p
  | None => None
  end.

(** Every entry of the neuron map points at a live object carrying the
    entry's key as its id. *)
Definition keyed w : Prop :=
  ∀ id p, neurons org !! id = Some p →
          ∃ n, neuronHeap w !! p = Some n ∧ n_id n = id.

Lemma built_keyed w : built w org → keyed w.
Proof. intros Hb id p Hp. exact (built_neurons w org id p Hb Hp). Qed.

Lemma derefN_state id w :
  safely (fun n w' => w' = w ∧ state w id = Some n)
    (derefN (neurons org !! id) w).
Proof.
  unfold derefN, state. destruct (neurons org !! id) as [p|]; [|exact I].
  destruct (neuronHeap w !! p) as [n|]; simpl; auto.
Qed.

Lemma updateN_state id (f : neuron F → neuron F) w :
  keyed w →
  (∀ n, n_id (f n) = n_id n) →
  safely (fun _ w' =>
            keyed w'
            ∧ synapseHeap w' = synapseHeap w
            ∧ ∀ id', state w' id'
                     = if decide (id' = id) then f <$> state w id
                       else state w id')
    (updateN (neurons org !! id) f w).
Proof.
  intros Hkey Hf. unfold updateN.
  destruct (neurons org !! id) as [p|] eqn:Hp; [|exact I].
  destruct (neuronHeap w !! p) as [n|] eqn:Hn; [|exact I].
  simpl. split; [|split; [reflexivity|]].
  - intros id' p' Hp'. simpl. destruct (Hkey id' p' Hp') as (n' & Hn' & Hid').
    destruct (decide (p' = p)) as [->|Hne].
    + exists (f n). rewrite list_lookup_insert_eq by (eapply lookup_lt_Some; eauto).
      rewrite Hn in Hn'. injection Hn' as <-. rewrite Hf. auto.
    + exists n'. rewrite list_lookup_insert_ne by congruence. auto.
  - intros id'. unfold state. simpl.
    destruct (decide (id' = id)) as [->|Hne].
    + rewrite Hp, Hn. simpl.
      apply list_lookup_insert_eq. eapply lookup_lt_Some; eauto.
    + destruct (neurons org !! id') as [p'|] eqn:Hp'; [|reflexivity].
      apply list_lookup_insert_ne. intros Heq. subst p'.
      destruct (Hkey id p Hp) as (n1 & Hn1 & Hid1).
      destruct (Hkey id' p Hp') as (n2 & Hn2 & Hid2).
      rewrite Hn1 in Hn2. injection Hn2 as <-. congruence.
Qed.

(** No synapse of the genome leads into a sensor. *)
Definition no_sensor_target (h : list (synapse F)) : Prop :=
  ∀ sid p s, synapses org !! sid = Some p → h !! p = Some s →
             s_out s ∉ sensors org.

(** The state of the traversal between two steps: the queue holds the
    neurons of [ids], none of them twice, none of them visited, and those
    that are not sensors are marked seen. *)
Record traversal (ids : list N) w : Prop := mkTraversal {
  tr_keyed : keyed w;
  tr_targets : no_sensor_target (synapseHeap w);
  tr_nodup : NoDup ids;
  tr_unvisited : ∀ id n, id ∈ ids → state w id = Some n → n_visited n = false;
  tr_seen : ∀ id n, id ∈ ids → id ∉ sensors org → state w id = Some n →
                    n_seen n = true;
}.

(** A field update of one neuron that leaves both flags alone. *)
Lemma traversal_update ids id (f : neuron F → neuron F) w :
  (∀ n, n_id (f n) = n_id n) →
  (∀ n, n_visited (f n) = n_visited n) →
  (∀ n, n_seen (f n) = n_seen n) →
  traversal ids w →
  safely (fun _ w' =>
            traversal ids w'
            ∧ ∀ id', state w' id'
                     = if decide (id' = id) then f <$> state w id
                       else state w id')
    (updateN (neurons org !! id) f w).
Proof.
  intros Hid Hvis Hseen [Hkey Htgt Hnd Hunv Hsn].
  eapply safely_weaken; [|apply (updateN_state id f w Hkey Hid)].
  intros _ w' (Hkey' & Hsyn & Hst). split; [|exact Hst].
  constructor; auto.
  - rewrite Hsyn. exact Htgt.
  - intros id' n Hin. rewrite Hst. destruct (decide (id' = id)) as [->|Hne].
    + destruct (state w id) as [m|] eqn:Hm; [|discriminate].
      intros [= <-]. rewrite Hvis. eapply Hunv; eauto.
    + apply Hunv. exact Hin.
  - intros id' n Hin Hns. rewrite Hst. destruct (decide (id' = id)) as [->|Hne].
    + destruct (state w id) as [m|] eqn:Hm; [|discriminate].
      intros [= <-]. rewrite Hseen. eapply Hsn; eauto.
    + apply Hsn; assumption.
Qed.

Lemma derefS_target sid w :
  no_sensor_target (synapseHeap w) →
  safely (fun s w' => w' = w ∧ s_out s ∉ sensors org)
    (derefS (synapses org !! sid) w).
Proof.
  intros Htgt. unfold derefS.
  destruct (synapses org !! sid) as [p|] eqn:Hp; [|exact I].
  destruct (synapseHeap w !! p) as [s|] eqn:Hs; [|exact I].
  simpl. split; [reflexivity|]. eapply Htgt; eauto.
Qed.

Lemma propagate_synapse_traversal (n : option nat) ids sid w :
  traversal ids w →
  safely (fun q' w' => ∃ ids', q' = queue_of org ids' ∧ traversal ids' w')
    (propagate_synapse org n (queue_of org ids) sid w).
Proof.
  intros Htr. unfold propagate_synapse, getSynapse.
  eapply safely_bind; [apply derefS_target, (tr_targets _ _ Htr)|].
  intros s ? [-> Hout].
  destruct (s_enabled s); [|simpl; eauto].
  destruct n as [a|]; [|exact I].
  unfold bind at 1, derefN at 1.
  destruct (neuronHeap w !! a) as [nv|]; [|exact I].
  eapply safely_bind; [apply derefN_state|]. intros o ? [-> Ho].
  destruct (n_visited o) eqn:Hvis.
  - eapply safely_bind;
      [apply (traversal_update ids (s_out s)); [reflexivity..|exact Htr]|].
    intros _ w' [Htr' _]. simpl. eauto.
  - eapply safely_bind;
      [apply (traversal_update ids (s_out s)); [reflexivity..|exact Htr]|].
    intros _ w1 [Htr1 Hst1].
    destruct (n_seen o) eqn:Hseen; [simpl; eauto|]. simpl negb. cbv iota.
    assert (Hnotin : s_out s ∉ ids).
    { intros Hin. pose proof (tr_seen _ _ Htr _ _ Hin Hout Ho). congruence. }
    destruct Htr1 as [Hkey1 Htgt1 Hnd1 Hunv1 Hsn1].
    eapply safely_bind;
      [apply (updateN_state (s_out s) (set_seen true) w1 Hkey1); reflexivity|].
    intros _ w2 (Hkey2 & Hsyn2 & Hst2). simpl.
    exists (ids ++ [s_out s]). split.
    { unfold Push, queue_of. rewrite fmap_app. reflexivity. }
    constructor.
    + exact Hkey2.
    + rewrite Hsyn2. exact Htgt1.
    + apply NoDup_app. split; [exact Hnd1|]. split; [|apply NoDup_singleton].
      intros x Hx Hx'. apply list_elem_of_singleton in Hx'. subst x. contradiction.
    + intros id m Hin. rewrite Hst2. destruct (decide (id = s_out s)) as [->|Hne].
      * rewrite Hst1, decide_True by reflexivity. rewrite Ho. simpl.
        intros [= <-]. simpl. exact Hvis.
      * apply elem_of_app in Hin as [Hin|Hin];
          [|apply list_elem_of_singleton in Hin; contradiction].
        apply Hunv1. exact Hin.
    + intros id m Hin Hns. rewrite Hst2.
      destruct (decide (id = s_out s)) as [->|Hne].
      * rewrite Hst1, decide_True by reflexivity. rewrite Ho. simpl.
        intros [= <-]. reflexivity.
      * apply elem_of_app in Hin as [Hin|Hin];
          [|apply list_elem_of_singleton in Hin; contradiction].
        apply Hsn1; assumption.
Qed.

Lemma propagate_visit_traversal ids w :
  traversal ids w →
  safely (fun q' w' => ∃ ids', q' = queue_of org ids' ∧ traversal ids' w')
    (propagate_visit config org (queue_of org ids) w).
Proof.
  intros Htr. unfold propagate_visit.
  destruct ids as [|id ids]; [exact I|].
  simpl queue_of. unfold Pop, bind at 1, ret. simpl fst. simpl snd.
  eapply safely_bind; [apply derefN_state|]. intros nv ? [-> Hnv].
  rewrite (tr_unvisited _ _ Htr id nv ltac:(left) Hnv).
  destruct Htr as [Hkey Htgt Hnd Hunv Hsn].
  apply NoDup_cons in Hnd as [Hnotin Hnd].
  eapply safely_bind;
    [apply (updateN_state id (set_visited true) w Hkey); reflexivity|].
  intros _ w1 (Hkey1 & Hsyn1 & Hst1).
  eapply safely_bind;
    [apply (updateN_state id _ w1 Hkey1); reflexivity|].
  intros _ w2 (Hkey2 & Hsyn2 & Hst2).
  apply (safely_for_fold
           (fun q' w' => ∃ ids', q' = queue_of org ids' ∧ traversal ids' w')).
  - exists ids. split; [reflexivity|]. constructor; auto.
    + rewrite Hsyn2, Hsyn1. exact Htgt.
    + intros id' m Hin.
      assert (id' ≠ id) as Hne by (intros ->; contradiction).
      rewrite Hst2, decide_False by exact Hne.
      rewrite Hst1, decide_False by exact Hne.
      apply Hunv. right. exact Hin.
    + intros id' m Hin Hns.
      assert (id' ≠ id) as Hne by (intros ->; contradiction).
      rewrite Hst2, decide_False by exact Hne.
      rewrite Hst1, decide_False by exact Hne.
      apply Hsn; [right; exact Hin|exact Hns].
  - intros sid q' w' _ (ids' & -> & Htr').
    apply propagate_synapse_traversal. exact Htr'.
Qed.

Lemma propagate_loop_traversal (fuel : nat) ids w :
  traversal ids w →
  safely (fun _ _ => True) (propagate_loop config fuel org (queue_of org ids) w).
Proof.
  revert ids w. induction fuel as [|fuel IH]; intros ids w Htr; simpl.
  - destruct (0 <? Size (queue_of org ids)); exact I.
  - destruct (0 <? Size (queue_of org ids)); [|exact I].
    eapply safely_bind; [apply propagate_visit_traversal; exact Htr|].
    intros q' w' (ids' & -> & Htr'). apply IH. exact Htr'.
Qed.

(** For a genome with no sensor listed twice and no synapse into a sensor,
    [propagate] never finds a visited neuron in its queue: the arity check
    is the only way [process] can leave through [log.Fatal]. *)
Lemma process_never_revisits (input : list F) w :
  built w org →
  NoDup (sensors org) →
  no_sensor_target (synapseHeap w) →
  length input = length (sensors org) →
  safely (fun _ _ => True) (process config org input w).
Proof.
  intros Hb Hnd Htgt Hlen. pose proof (built_keyed w Hb) as Hkey.
  unfold process. rewrite Hlen, Nat.eqb_refl. cbn [negb].
  destruct (clear_all_spec (map_to_list (neurons org)) w)
    as (w1 & Hrun1 & Hsyn1 & Hheap1).
  { apply (keyed_NoDup _ (neuronHeap w)). exact Hkey. }
  { intros [k p] Hkp. apply elem_of_map_to_list in Hkp.
    destruct (Hkey k p Hkp) as (n & Hn & _). simpl. eauto. }
  rewrite (bind_Done _ _ _ _ _ Hrun1).
  assert (Hst1 : ∀ id, state w1 id = clear_neuron <$> state w id).
  { intros id. unfold state. destruct (neurons org !! id) as [p|] eqn:Hp;
      [|reflexivity].
    rewrite Hheap1, decide_True; [reflexivity|].
    apply list_elem_of_fmap. exists (id, p). split; [reflexivity|].
    apply elem_of_map_to_list. exact Hp. }
  assert (Hkey1 : keyed w1).
  { intros id p Hp. destruct (Hkey id p Hp) as (n & Hn & Hid).
    exists (clear_neuron n). specialize (Hst1 id). unfold state in Hst1.
    rewrite Hp, Hn in Hst1. auto. }
  set (J := fun w' : world F =>
              keyed w' ∧ synapseHeap w' = synapseHeap w
              ∧ ∀ id n, state w' id = Some n → n_visited n = false).
  assert (HJ1 : J w1).
  { split; [exact Hkey1|]. split; [exact Hsyn1|].
    intros id n. rewrite Hst1. destruct (state w id); [|discriminate].
    intros [= <-]. reflexivity. }
  eapply safely_bind.
  { apply (safely_for_do J); [exact HJ1|].
    intros [id x] v _ (Hk & Hs & Hv). simpl.
    eapply safely_weaken; [|apply (updateN_state id _ v Hk); reflexivity].
    intros _ v' (Hk' & Hs' & Hst'). split; [exact Hk'|]. split; [congruence|].
    intros id' n. rewrite Hst'. destruct (decide (id' = id)) as [->|Hne].
    - destruct (state v id) as [m|] eqn:Hm; [|discriminate].
      intros [= <-]. simpl. eapply Hv. exact Hm.
    - apply Hv. }
  intros _ w2 (Hkey2 & Hsyn2 & Hunv2). simpl.
  eapply safely_bind.
  { unfold propagate. rewrite initial_queue_of.
    apply propagate_loop_traversal. constructor.
    - exact Hkey2.
    - rewrite Hsyn2. exact Htgt.
    - exact Hnd.
    - intros id n _. apply Hunv2.
    - intros id n Hin Hnotin. contradiction. }
  intros _ w3 _.
  apply (safely_for_map (fun _ => True)); [exact I|].
  intros id v _ _. unfold bind, derefN.
  destruct (neurons org !! id) as [p|]; [|exact I].
  destruct (neuronHeap v !! p); exact I.
Qed.

End NoRevisit.

(** * Concrete genomes *)

Section Evaluation.

Context {F : Type} {FF : Float64 F}.

(** The structs behind a gene sequence, computed. *)
Definition values_of (w : world F) (gs : list gene) : list (gene_value F) :=
  omap (read_gene w) gs.

Definition readable (w : world F) (gs : list gene) : bool :=
  forallb (fun g => match read_gene w g with Some _ => true | None => false end)
    gs.

Lemma genes_read_values (w : world F) (gs : list gene) :
  readable w gs = true → genes_read w gs (values_of w gs).
Proof.
  unfold values_of, readable. induction gs as [|g gs IH]; intros Hr;
    [constructor|].
  simpl in Hr. apply andb_true_iff in Hr as [Hg Hrest].
  change (omap (read_gene w) (g :: gs))
    with (match read_gene w g with
          | Some v => v :: omap (read_gene w) gs
          | None => omap (read_gene w) gs
          end).
  destruct (read_gene w g) as [v|] eqn:Hv; [|discriminate].
  constructor; [exact Hv|]. apply IH. exact Hrest.
Qed.

Definition ascending_check (vs : list (gene_value F)) : bool :=
  forallb (fun p => (innovation_of p.1 <? innovation_of p.2)%N)
    (zip vs (drop 1 vs)).

Lemma ascending_check_sound (vs : list (gene_value F)) :
  ascending_check vs = true → strictly_ascending vs.
Proof.
  unfold ascending_check, strictly_ascending.
  induction vs as [|v vs IH]; intros Hc; [constructor|].
  destruct vs as [|v' vs]; [repeat constructor|].
  simpl in Hc. apply andb_true_iff in Hc as [Hlt Hrest].
  constructor.
  - apply IH. simpl. rewrite drop_0. exact Hrest.
  - constructor. apply N.ltb_lt. exact Hlt.
Qed.

Definition disjoint_check (la lb : list (gene_value F)) : bool :=
  forallb (fun va =>
    forallb (fun vb => negb (innovation_of va =? innovation_of vb)%N) lb) la.

Lemma disjoint_check_sound (la lb : list (gene_value F)) :
  disjoint_check la lb = true → no_common_innovation la lb.
Proof.
  unfold disjoint_check, no_common_innovation. intros Hc va vb Ha Hb.
  rewrite forallb_forall in Hc. apply list_elem_of_In in Ha, Hb.
  specialize (Hc va Ha). rewrite forallb_forall in Hc.
  specialize (Hc vb Hb). apply negb_true_iff, N.eqb_neq in Hc. exact Hc.
Qed.

(** [org] is what replaying its own gene sequence through the container's
    registration gives: a check of [built] that computes. *)
Definition replay_gene (w : world F) (o : option (organism F)) (gene : gene)
  : option (organism F) :=
  match o, gene with
  | Some o, GNeuron p => registerNeuron o p <$> neuronHeap w !! p
  | Some o, GSynapse p => registerSynapse o p <$> synapseHeap w !! p
  | None, _ => None
  end.

Definition replay (w : world F) (org : organism F) : option (organism F) :=
  foldl (replay_gene w)
    (Some (mkOrganism [] [] ∅ ∅ ∅ [] (generation org) (fitness org)))
    (genes org).

Definition built_check (w : world F) (org : organism F) : bool :=
  match replay w org with
  | Some o =>
      bool_decide (sensors o = sensors org ∧ outputs o = outputs org
                   ∧ neurons o = neurons org ∧ synapses o = synapses org
                   ∧ connections o = connections org ∧ genes o = genes org)
  | None => false
  end.

Lemma replay_gene_built (w : world F) gs (e : option (organism F)) o :
  (∀ o', e = Some o' → built w o') →
  foldl (replay_gene w) e gs = Some o → built w o.
Proof.
  revert e. induction gs as [|g gs IH]; intros e He; simpl.
  - intros ->. apply He. reflexivity.
  - apply IH. intros o' Ho'. destruct e as [o0|]; [|discriminate].
    specialize (He o0 eq_refl). destruct g as [p|p]; simpl in Ho'.
    + destruct (neuronHeap w !! p) as [n|] eqn:Hp; [|discriminate].
      injection Ho' as <-. constructor; assumption.
    + destruct (synapseHeap w !! p) as [s|] eqn:Hp; [|discriminate].
      injection Ho' as <-. constructor; assumption.
Qed.

Lemma replay_gene_generation (w : world F) gs (e : option (organism F)) o :
  foldl (replay_gene w) e gs = Some o →
  ∃ o0, e = Some o0 ∧ generation o = generation o0 ∧ fitness o = fitness o0.
Proof.
  revert e. induction gs as [|g gs IH]; intros e; simpl.
  - intros ->. eauto.
  - intros Hrun. destruct (IH _ Hrun) as (o1 & Ho1 & Hgen & Hfit).
    destruct e as [o0|]; [|discriminate]. exists o0. split; [reflexivity|].
    rewrite Hgen, Hfit. destruct g as [p|p]; simpl in Ho1.
    + destruct (neuronHeap w !! p) as [n|]; [|discriminate].
      injection Ho1 as <-. unfold registerNeuron. destruct (n_kind n); auto.
    + destruct (synapseHeap w !! p) as [s|]; [|discriminate].
      injection Ho1 as <-. auto.
Qed.

Lemma built_check_sound (w : world F) (org : organism F) :
  built_check w org = true → built w org.
Proof.
  unfold built_check, replay.
  destruct (foldl _ _ (genes org)) as [o|] eqn:Hrun; [|discriminate].
  intros Hc. apply bool_decide_eq_true in Hc as (Hs & Ho & Hn & Hsy & Hc & Hg).
  destruct (replay_gene_generation _ _ _ _ Hrun) as (o0 & [= <-] & Hgen & Hfit).
  simpl in Hgen, Hfit.
  assert (o = org) as <-.
  { destruct o, org. simpl in *. congruence. }
  eapply replay_gene_built; [|exact Hrun].
  intros o' [= <-]. constructor.
Qed.

(** No synapse object at all leads into a sensor of [org]: a check of
    [no_sensor_target] that computes. *)
Definition targets_check (org : organism F) (h : list (synapse F)) : bool :=
  forallb (fun s => negb (bool_decide (s_out s ∈ sensors org))) h.

Lemma targets_check_sound (org : organism F) (h : list (synapse F)) :
  targets_check org h = true → no_sensor_target org h.
Proof.
  unfold targets_check, no_sensor_target. intros Hc sid p s _ Hs.
  rewrite forallb_forall in Hc.
  specialize (Hc s ltac:(apply list_elem_of_In; eapply list_elem_of_lookup_2; eauto)).
  apply negb_true_iff, bool_decide_eq_false in Hc. exact Hc.
Qed.

End Evaluation.

(** A genome grown by one split, and a relative that split further,
    while the first one split elsewhere. *)
Definition createRelatives : M float (organism float * organism float) :=
  a <- newOrganism 1 1 ;;
  a <- splitSynapse a 3%N ;;
  b <- clone a ;;
  b <- splitSynapse b 5%N ;;
  a <- splitSynapse a 6%N ;;
  ret (a, b).

(** Two genomes created independently of each other. *)
Definition createStrangers : M float (organism float * organism float) :=
  a <- newOrganism 1 1 ;;
  b <- newOrganism 1 1 ;;
  ret (a, b).

Definition result_of {A} (default : A) (r : outcome float A) : A :=
  match r with
  | Done a _ => a
  | _ => default
  end.

Definition world_of {A} (r : outcome float A) : world float :=
  match r with
  | Done _ w => w
  | _ => initial_world
  end.

Definition no_organism : organism float := _newOrganism 0 0.

Definition relatives : outcome float (organism float * organism float) :=
  createRelatives initial_world.
Definition relative_a : organism float := (result_of (no_organism, no_organism) relatives).1.
Definition relative_b : organism float := (result_of (no_organism, no_organism) relatives).2.

Definition strangers : outcome float (organism float * organism float) :=
  createStrangers initial_world.
Definition stranger_a : organism float := (result_of (no_organism, no_organism) strangers).1.
Definition stranger_b : organism float := (result_of (no_organism, no_organism) strangers).2.

(** The genome of TestMating. *)
Definition two_by_two : outcome float (organism float) :=
  newOrganism 2 2 initial_world.

(** The recurrent network of the test suite, and the state it is created in. *)
Definition recurrent : outcome float (organism float) :=
  createSimpleRecurrent initial_world.

(** The genomes the package grows by itself have no synapse into a sensor:
    on [relative_a] (initial wiring and two splits) the traversal cannot
    meet a visited neuron. *)
Example relative_never_revisits :
  safely (fun _ _ => True)
    (process testConfig relative_a [1%float] (world_of relatives)).
Proof.
  apply process_never_revisits.
  - apply built_check_sound. vm_compute. reflexivity.
  - apply (bool_decide_eq_true_1 (NoDup (sensors relative_a))).
    vm_compute. reflexivity.
  - apply targets_check_sound. vm_compute. reflexivity.
  - reflexivity.
Qed.

(** * Claims about crossover (C5, C6, C7, C10) *)

Section CrossoverClaims.

Context {F : Type} {FF : Float64 F}.

Implicit Types (w : world F) (a b g offspring : organism F)
  (la lb vs : list (gene_value F)).

(** C5: when the gene sequences of both parents are strictly ascending by
    innovation number (and the arities match), [mate] returns an offspring
    whose gene sequence is strictly ascending, and the innovation numbers
    it carries are exactly those of the two parents (one copy of each). *)
Theorem mate_strictly_ascending a b la lb w :
  genes_read w (genes a) la →
  genes_read w (genes b) lb →
  length (sensors a) = length (sensors b) →
  length (outputs a) = length (outputs b) →
  strictly_ascending la →
  strictly_ascending lb →
  ∃ offspring w' lo,
    mate a b w = Done offspring w'
    ∧ genes_read w' (genes offspring) lo
    ∧ strictly_ascending lo
    ∧ (∀ i : N, i ∈ innovation_of <$> lo
               ↔ i ∈ innovation_of <$> la ∨ i ∈ innovation_of <$> lb).
Proof.
  intros Ha Hb Hs Ho Hsa Hsb.
  eexists _, _, _. split; [apply (mate_spec a b la lb w Ha Hb Hs Ho)|].
  destruct (copy_all_spec
              (mkOrganism [] [] ∅ ∅ ∅ [] (int_add (generation a) 1) f_zero)
              (merge_genes (f_gt (fitness a) (fitness b)) la lb) w [])
    as (Hg & _); [constructor|].
  split; [exact Hg|]. simpl. split.
  - apply StronglySorted_Sorted. apply merge_genes_ascending.
    + apply Sorted_StronglySorted; [apply innovation_lt_transitive|exact Hsa].
    + apply Sorted_StronglySorted; [apply innovation_lt_transitive|exact Hsb].
  - intros i. apply merge_genes_innovations.
Qed.

(** C6: one iteration of the merge loop, and the tail of the loop.
    With both cursors on a gene: equal innovation numbers inherit a copy of
    a's gene when [a.fitness > b.fitness] and of b's gene otherwise, and
    advance both cursors; a strictly lower innovation number inherits that
    parent's gene and advances only that cursor.  With one parent exhausted
    the loop inherits what is left of the other parent, gene by gene, in
    order. *)
Theorem mate_step_cases a b offspring la lb (aIdx bIdx : nat) w :
  genes_read w (genes a) la →
  genes_read w (genes b) lb →
  mate_step a b aIdx bIdx offspring w
  = match la !! aIdx, lb !! bIdx with
    | Some va, Some vb =>
        if (innovation_of va =? innovation_of vb)%N then
          copied (fun o => (S aIdx, S bIdx, o)) offspring
            (if f_gt (fitness a) (fitness b) then va else vb) w
        else if (innovation_of va <? innovation_of vb)%N then
          copied (fun o => (S aIdx, bIdx, o)) offspring va w
        else
          copied (fun o => (aIdx, S bIdx, o)) offspring vb w
    | Some va, None => copied (fun o => (S aIdx, bIdx, o)) offspring va w
    | None, Some vb => copied (fun o => (aIdx, S bIdx, o)) offspring vb w
    | None, None => Fatal "Out of genes but haven't reached end of genes"
    end
  ∧ (lb !! bIdx = None →
     mate_loop (length (genes a) + length (genes b)) a b aIdx bIdx offspring w
     = Done (copy_all offspring (drop aIdx la) w).1
            (copy_all offspring (drop aIdx la) w).2)
  ∧ (la !! aIdx = None →
     mate_loop (length (genes a) + length (genes b)) a b aIdx bIdx offspring w
     = Done (copy_all offspring (drop bIdx lb) w).1
            (copy_all offspring (drop bIdx lb) w).2).
Proof.
  intros Ha Hb.
  pose proof (Forall2_length _ _ _ Ha) as Hla.
  pose proof (Forall2_length _ _ _ Hb) as Hlb.
  split; [apply mate_step_spec; assumption|]. split.
  - intros Hnone. apply lookup_ge_None in Hnone.
    rewrite (mate_loop_merge a b la lb _ aIdx bIdx offspring w Ha Hb).
    + rewrite (drop_ge lb bIdx Hnone), merge_genes_nil_r. reflexivity.
    + rewrite !length_drop. lia.
  - intros Hnone. apply lookup_ge_None in Hnone.
    rewrite (mate_loop_merge a b la lb _ aIdx bIdx offspring w Ha Hb).
    + rewrite (drop_ge la aIdx Hnone). reflexivity.
    + rewrite !length_drop. lia.
Qed.

(** C7: mating a genome with its clone.  Every gene is homologous, the
    offspring's genes are field-for-field those of [g], so in particular the
    (innovation number, gene kind) pairs coincide; the offspring's generation
    is [g.generation + 1] in [int] arithmetic. *)
Theorem mate_with_clone g vs w :
  built w g →
  genes_read w (genes g) vs →
  ∃ c w1 offspring w2 vo,
    clone g w = Done c w1
    ∧ mate g c w1 = Done offspring w2
    ∧ genes_read w2 (genes offspring) vo
    ∧ vo = vs
    ∧ (∀ x, x ∈ signature_of <$> vo ↔ x ∈ signature_of <$> vs)
    ∧ generation offspring = int_add (generation g) 1
    ∧ (is_int (generation g) → generation g ≠ (2 ^ 63 - 1)%Z →
       generation offspring = (generation g + 1)%Z).
Proof.
  intros Hbuilt Hread.
  destruct (built_genes_read w g Hbuilt) as (vs' & Hread' & Hsens & Houts).
  rewrite (genes_read_functional _ _ _ _ Hread' Hread) in Hsens, Houts.
  set (e := mkOrganism [] [] ∅ ∅ ∅ [] 0%Z (f_zero (F:=F))).
  destruct (copy_all_spec e vs w []) as (Hcg & Hcs & Hco & _); [constructor|].
  simpl in Hcg, Hcs, Hco.
  pose proof (copy_all_extends e vs w) as Hext.
  pose proof (genes_read_extends _ _ _ _ Hext Hread) as Hread1.
  set (e' := mkOrganism [] [] ∅ ∅ ∅ [] (int_add (generation g) 1) (f_zero (F:=F))).
  destruct (copy_all_spec e'
              (merge_genes (f_gt (fitness g) (fitness (copy_all e vs w).1)) vs vs)
              (copy_all e vs w).2 [])
    as (Hog & _ & _ & Hgen & _); [constructor|].
  simpl in Hog, Hgen. rewrite merge_genes_self in Hog, Hgen.
  exists (copy_all e vs w).1, (copy_all e vs w).2.
  exists (copy_all e' vs (copy_all e vs w).2).1, (copy_all e' vs (copy_all e vs w).2).2.
  exists vs.
  split; [apply clone_spec; exact Hread|].
  split.
  { rewrite (mate_spec g _ vs vs _ Hread1 Hcg).
    - rewrite merge_genes_self. reflexivity.
    - rewrite Hcs, Hsens. reflexivity.
    - rewrite Hco, Houts. reflexivity. }
  split; [exact Hog|]. split; [reflexivity|]. split; [tauto|].
  split; [exact Hgen|].
  intros Hint Hmax. rewrite Hgen. unfold int_add, is_int in *.
  rewrite Z.mod_small by lia. lia.
Qed.

(** C10: when the parents have no innovation number in common, [mate]
    inherits every gene of both, so the offspring has
    [len(a.sensors) + len(b.sensors)] sensors and
    [len(a.outputs) + len(b.outputs)] outputs. *)
Theorem mate_disjoint_arity a b la lb w :
  built w a →
  built w b →
  genes_read w (genes a) la →
  genes_read w (genes b) lb →
  length (sensors a) = length (sensors b) →
  length (outputs a) = length (outputs b) →
  no_common_innovation la lb →
  ∃ offspring w' lo,
    mate a b w = Done offspring w'
    ∧ genes_read w' (genes offspring) lo
    ∧ lo ≡ₚ la ++ lb
    ∧ length (sensors offspring) = length (sensors a) + length (sensors b)
    ∧ length (outputs offspring) = length (outputs a) + length (outputs b).
Proof.
  intros Hba Hbb Ha Hb Hs Ho Hdis.
  destruct (built_genes_read w a Hba) as (la' & Ha' & Hsa & Hoa).
  rewrite (genes_read_functional _ _ _ _ Ha' Ha) in Hsa, Hoa.
  destruct (built_genes_read w b Hbb) as (lb' & Hb' & Hsb & Hob).
  rewrite (genes_read_functional _ _ _ _ Hb' Hb) in Hsb, Hob.
  eexists _, _, _. split; [apply (mate_spec a b la lb w Ha Hb Hs Ho)|].
  destruct (copy_all_spec
              (mkOrganism [] [] ∅ ∅ ∅ [] (int_add (generation a) 1) f_zero)
              (merge_genes (f_gt (fitness a) (fitness b)) la lb) w [])
    as (Hg & Hsens & Houts & _); [constructor|].
  pose proof (merge_genes_disjoint (f_gt (fitness a) (fitness b)) la lb Hdis)
    as Hperm.
  split; [exact Hg|]. split; [exact Hperm|].
  rewrite Hsens, Houts, Hsa, Hoa, Hsb, Hob. simpl.
  unfold ids_of_kind. rewrite !Hperm, !omap_app, !length_app. split; reflexivity.
Qed.

End CrossoverClaims.

Lemma mate_strictly_ascending_witness :
  ∃ offspring w' lo,
    mate relative_a relative_b (world_of relatives) = Done offspring w'
    ∧ genes_read w' (genes offspring) lo
    ∧ strictly_ascending lo
    ∧ (∀ i : N,
         i ∈ innovation_of <$> lo
         ↔ i ∈ innovation_of <$> values_of (world_of relatives) (genes relative_a)
           ∨ i ∈ innovation_of <$> values_of (world_of relatives) (genes relative_b)).
Proof.
  apply (mate_strictly_ascending relative_a relative_b
           (values_of (world_of relatives) (genes relative_a))
           (values_of (world_of relatives) (genes relative_b))
           (world_of relatives)).
  - apply genes_read_values. vm_compute. reflexivity.
  - apply genes_read_values. vm_compute. reflexivity.
  - vm_compute. reflexivity.
  - vm_compute. reflexivity.
  - apply ascending_check_sound. vm_compute. reflexivity.
  - apply ascending_check_sound. vm_compute. reflexivity.
Defined.

Lemma mate_step_cases_witness :
  mate_step relative_a relative_b 6 6 no_organism (world_of relatives)
  = match values_of (world_of relatives) (genes relative_a) !! 6,
          values_of (world_of relatives) (genes relative_b) !! 6 with
    | Some va, Some vb =>
        if (innovation_of va =? innovation_of vb)%N then
          copied (fun o => (7, 7, o)) no_organism
            (if f_gt (fitness relative_a) (fitness relative_b) then va else vb)
            (world_of relatives)
        else if (innovation_of va <? innovation_of vb)%N then
          copied (fun o => (7, 6, o)) no_organism va (world_of relatives)
        else
          copied (fun o => (6, 7, o)) no_organism vb (world_of relatives)
    | Some va, None =>
        copied (fun o => (7, 6, o)) no_organism va (world_of relatives)
    | None, Some vb =>
        copied (fun o => (6, 7, o)) no_organism vb (world_of relatives)
    | None, None => Fatal "Out of genes but haven't reached end of genes"
    end
  ∧ (values_of (world_of relatives) (genes relative_b) !! 6 = None →
     mate_loop (length (genes relative_a) + length (genes relative_b))
       relative_a relative_b 6 6 no_organism (world_of relatives)
     = Done (copy_all no_organism
               (drop 6 (values_of (world_of relatives) (genes relative_a)))
               (world_of relatives)).1
            (copy_all no_organism
               (drop 6 (values_of (world_of relatives) (genes relative_a)))
               (world_of relatives)).2)
  ∧ (values_of (world_of relatives) (genes relative_a) !! 6 = None →
     mate_loop (length (genes relative_a) + length (genes relative_b))
       relative_a relative_b 6 6 no_organism (world_of relatives)
     = Done (copy_all no_organism
               (drop 6 (values_of (world_of relatives) (genes relative_b)))
               (world_of relatives)).1
            (copy_all no_organism
               (drop 6 (values_of (world_of relatives) (genes relative_b)))
               (world_of relatives)).2).
Proof.
  apply (mate_step_cases relative_a relative_b no_organism
           (values_of (world_of relatives) (genes relative_a))
           (values_of (world_of relatives) (genes relative_b))
           6 6 (world_of relatives)).
  - apply genes_read_values. vm_compute. reflexivity.
  - apply genes_read_values. vm_compute. reflexivity.
Defined.

Lemma mate_with_clone_witness :
  ∃ c w1 offspring w2 vo,
    clone (result_of no_organism two_by_two) (world_of two_by_two) = Done c w1
    ∧ mate (result_of no_organism two_by_two) c w1 = Done offspring w2
    ∧ genes_read w2 (genes offspring) vo
    ∧ vo = values_of (world_of two_by_two) (genes (result_of no_organism two_by_two))
    ∧ (∀ x, x ∈ signature_of <$> vo
            ↔ x ∈ signature_of <$> values_of (world_of two_by_two)
                    (genes (result_of no_organism two_by_two)))
    ∧ generation offspring
      = int_add (generation (result_of no_organism two_by_two)) 1
    ∧ (is_int (generation (result_of no_organism two_by_two)) →
       generation (result_of no_organism two_by_two) ≠ (2 ^ 63 - 1)%Z →
       generation offspring
       = (generation (result_of no_organism two_by_two) + 1)%Z).
Proof.
  apply (mate_with_clone (result_of no_organism two_by_two)
           (values_of (world_of two_by_two)
              (genes (result_of no_organism two_by_two)))
           (world_of two_by_two)).
  - apply (newOrganism_built 2 2 initial_world); [lia|lia|].
    vm_compute. reflexivity.
  - apply genes_read_values. vm_compute. reflexivity.
Defined.

Lemma mate_disjoint_arity_witness :
  ∃ offspring w' lo,
    mate stranger_a stranger_b (world_of strangers) = Done offspring w'
    ∧ genes_read w' (genes offspring) lo
    ∧ lo ≡ₚ values_of (world_of strangers) (genes stranger_a)
            ++ values_of (world_of strangers) (genes stranger_b)
    ∧ length (sensors offspring)
      = length (sensors stranger_a) + length (sensors stranger_b)
    ∧ length (outputs offspring)
      = length (outputs stranger_a) + length (outputs stranger_b).
Proof.
  apply (mate_disjoint_arity stranger_a stranger_b
           (values_of (world_of strangers) (genes stranger_a))
           (values_of (world_of strangers) (genes stranger_b))
           (world_of strangers)).
  - apply (built_extends (world_of (newOrganism 1 1 initial_world))).
    + apply (newOrganism_built 1 1 (world_of (newOrganism 1 1 initial_world))
               stranger_b); [lia|lia|].
      vm_compute. reflexivity.
    + apply (newOrganism_built 1 1 initial_world); [lia|lia|].
      vm_compute. reflexivity.
  - apply (newOrganism_built 1 1 (world_of (newOrganism 1 1 initial_world)));
      [lia|lia|].
    vm_compute. reflexivity.
  - apply genes_read_values. vm_compute. reflexivity.
  - apply genes_read_values. vm_compute. reflexivity.
  - vm_compute. reflexivity.
  - vm_compute. reflexivity.
  - apply disjoint_check_sound. vm_compute. reflexivity.
Defined.

(** * Initial wiring (C9) *)

Section WiringClaims.

Context {F : Type} {FF : Float64 F}.


End WiringClaims.

(** * Lookups (C3) *)

Section Lookups.

Context {F : Type} {FF : Float64 F}.

(** A lookup reports a missing id as the claim requires when its result is
    neither the nil pointer handed back as an ordinary value nor an abort. *)
Definition nil_value (r : option ptr) : Prop := r = None.

Definition aborted {A} (r : outcome F A) : Prop :=
  ∃ msg, r = Panic msg ∨ r = Fatal msg.

(** C3, as the code has it: for an id absent from the corresponding mapping,
    [getNeuron] and [getSynapse] return the nil pointer as their ordinary
    result (their signatures have no error component), and
    [synapseEndpoints] dereferences that nil synapse and panics. *)
Theorem lookup_of_absent_id (org : organism F) (id : N) (w : world F) :
  (neurons org !! id = None → getNeuron org id = None) ∧
  (synapses org !! id = None →
     getSynapse org id = None ∧
     synapseEndpoints org id w = Panic nil_dereference).
Proof.
  split.
  - intros Hn. unfold getNeuron. exact Hn.
  - intros Hs. split.
    + unfold getSynapse. exact Hs.
    + unfold synapseEndpoints, getSynapse, bind, derefS. rewrite Hs. reflexivity.
Qed.

End Lookups.

Lemma lookup_of_absent_id_witness :
  getNeuron (_newOrganism (F:=float) 1 1) 7%N = None ∧
  getSynapse (_newOrganism (F:=float) 1 1) 7%N = None ∧
  synapseEndpoints (_newOrganism (F:=float) 1 1) 7%N initial_world
    = Panic nil_dereference.
Proof.
  destruct (lookup_of_absent_id (_newOrganism (F:=float) 1 1) 7%N initial_world)
    as [Hn Hs].
  split; [apply Hn; reflexivity|].
  apply Hs; reflexivity.
Defined.

(** C3 as stated fails on the empty genome, for each of the three lookups:
    the lookup of neuron 7 is the nil value, the lookup of synapse 7 is the
    nil value, and asking for the endpoints of synapse 7 aborts.  So the
    lookups do not report the missing id in the way the claim requires. *)
Lemma lookup_reports_no_error :
  nil_value (getNeuron (_newOrganism (F:=float) 1 1) 7%N)
  ∧ nil_value (getSynapse (_newOrganism (F:=float) 1 1) 7%N)
  ∧ aborted (synapseEndpoints (_newOrganism (F:=float) 1 1) 7%N initial_world)
  ∧ ¬ (¬ nil_value (getNeuron (_newOrganism (F:=float) 1 1) 7%N)
       ∧ ¬ nil_value (getSynapse (_newOrganism (F:=float) 1 1) 7%N)
       ∧ ¬ aborted (synapseEndpoints (_newOrganism (F:=float) 1 1) 7%N
                      initial_world)).
Proof.
  split; [reflexivity|]. split; [reflexivity|]. split.
  - exists nil_dereference. left. reflexivity.
  - intros (Hn & _ & _). apply Hn. reflexivity.
Qed.

(** * Weight resampling (C4) *)





(** * The recurrent network of the test suite (C2) *)

(** The [future] accumulators of all neurons, in creation order, when the
    run returns. *)
Definition futures_after {F A} (r : outcome F A) : list F :=
  match r with
  | Done _ w => n_future <$> neuronHeap w
  | _ => []
  end.

(** C2: the recurrent genome sensor -> hidden, hidden -> sensor,
    hidden -> output, unit weights, identity activation, fed 1, 0, 0, 1,
    answers 1, 1, 1, 2.  The feedback of a call sits in the sensor's
    [future] accumulator when the call returns (sensor, hidden, output
    being the neurons in creation order), to be consumed by the next call. *)
Theorem recurrent_delay :
  observe
    ((org <- createSimpleRecurrent ;;
      process_all testConfig org [[1]; [0]; [0]; [1]]%float) initial_world)
  = Returned [[1]; [1]; [1]; [2]]%float
  ∧ futures_after
      ((org <- createSimpleRecurrent ;;
        process_all testConfig org [[1]]%float) initial_world)
    = [1; 0; 0]%float
  ∧ futures_after
      ((org <- createSimpleRecurrent ;;
        process_all testConfig org [[1]; [0]; [0]; [1]]%float) initial_world)
    = [2; 0; 0]%float.
Proof. repeat split; vm_compute; reflexivity. Qed.

(** * Revisiting a neuron (C1) *)

(** The [seen] flags of the items of a queue. *)
Definition seen_flags {F} (w : world F) (q : squeue) : list (option bool) :=
  map (fun p => match p with
                | Some a => n_seen <$> neuronHeap w !! a
                | None => None
                end) q.

(** C1 fails on a genome with two sensors and a synapse from the first to
    the second: the sensors enter the queue without being marked seen, so
    visiting the first one enqueues the second a second time, and the third
    pop finds a visited neuron.  [process] ends in the fatal branch. *)
Theorem propagate_revisits_sensor :
  (∃ org w,
     createSensorToSensor initial_world = Done org w
     ∧ initial_queue org = [Some 0; Some 1]
     ∧ seen_flags w (initial_queue org) = [Some false; Some false]
     ∧ observe (propagate_visit testConfig org (initial_queue org) w)
       = Returned [Some 1; Some 1])
  ∧ observe
      ((org <- createSensorToSensor ;; process testConfig org [0; 0]%float)
         initial_world)
    = FatalExit "Found visited neuron in the queue".
Proof.
  split.
  - eexists _, _. split; [reflexivity|]. repeat split; vm_compute; reflexivity.
  - vm_compute. reflexivity.
Qed.

(** * Clone independence (C8) *)

Section CloneClaims.

Context {F : Type} {FF : Float64 F}.

Variable config : OrganismConfig F.
Variable rand_source : nat → F.

(** C8: the clone of a genome computes what the original computes, and
    shares no state with it.  After [c := g.clone()]:
    - fed the same input sequence, [c] and [g] answer with the same output
      vector at every step (or stop with the same failure at the same step),
      whether each is run on its own or the two are driven in lockstep;
    - no such run exhausts the fuel of the traversal;
    - in any later state, reached by calls of [process] on either genome
      and by mutations of the clone, mutating weights or enabled flags of
      synapses of the clone returns, and leaves the outputs of [g] on every
      subsequent input sequence as they would have been. *)
Theorem clone_independent (g : organism F) (w : world F) :
  built w g →
  ∃ c w1,
    clone g w = Done c w1
    ∧ (∀ inputs,
         observe (process_all config c inputs w1)
         = observe (process_all config g inputs w1))
    ∧ (∀ inputs, observe (process_all config g inputs w1) ≠ Diverged)
    ∧ (∀ inputs,
         observe (process_both config g c inputs w1)
         = result_map (fmap (fun out => (out, out)))
             (observe (process_all config g inputs w1)))
    ∧ (∀ w2 ms,
         later config rand_source g c w1 w2 →
         Forall (fun m => is_Some (synapses c !! mutation_id m)) ms →
         ∃ w3,
           mutate_all config rand_source c ms w2 = Done tt w3
           ∧ ∀ inputs,
               observe (process_all config g inputs w3)
               = observe (process_all config g inputs w2)).
Proof.
  intros Hb.
  destruct (clone_sim w g Hb) as (c & w1 & Hrun & Hext & Hsim).
  destruct (clone_built g w Hb) as (c' & w1' & Hrun' & Hbc & _).
  rewrite Hrun in Hrun'. injection Hrun' as <- <-.
  pose proof (clone_separate w g c w1 Hb Hrun) as Hsep.
  assert (Hself : sim w1 g w1 g).
  { eapply sim_trans; [exact Hsim|apply sim_sym; exact Hsim]. }
  exists c, w1. split; [exact Hrun|]. split; [|split; [|split]].
  - intros inputs. symmetry.
    eapply related_observe;
      [|apply (sim_process_all config g c inputs w1 w1 Hsim)].
    intros a v1 b v2 [Hab _]. exact Hab.
  - intros inputs.
    eapply ensures_not_diverged. apply (process_all_footprint config g inputs w1).
  - intros inputs. apply lockstep; assumption.
  - intros w2 ms Hlater Hms.
    destruct (mutate_all_returns config rand_source c ms w2) as [w3 Hmut];
      [eapply later_built; eassumption|exact Hms|].
    exists w3. split; [exact Hmut|]. intros inputs.
    apply (mutation_unobservable config rand_source g c ms inputs w2 w3 Hsep);
      [|exact Hmut].
    apply (later_self config rand_source g c w1 w2 Hsep Hself Hlater).
Qed.

End CloneClaims.

Lemma clone_independent_witness :
  ∃ c w1,
    clone (result_of no_organism recurrent) (world_of recurrent) = Done c w1
    ∧ (∀ inputs,
         observe (process_all testConfig c inputs w1)
         = observe (process_all testConfig (result_of no_organism recurrent)
                      inputs w1))
    ∧ (∀ inputs,
         observe (process_all testConfig (result_of no_organism recurrent)
                    inputs w1) ≠ Diverged)
    ∧ (∀ inputs,
         observe (process_both testConfig (result_of no_organism recurrent) c
                    inputs w1)
         = result_map (fmap (fun out => (out, out)))
             (observe (process_all testConfig
                         (result_of no_organism recurrent) inputs w1)))
    ∧ (∀ w2 ms,
         later testConfig (fun _ => 0%float) (result_of no_organism recurrent)
           c w1 w2 →
         Forall (fun m => is_Some (synapses c !! mutation_id m)) ms →
         ∃ w3,
           mutate_all testConfig (fun _ => 0%float) c ms w2 = Done tt w3
           ∧ ∀ inputs,
               observe (process_all testConfig
                          (result_of no_organism recurrent) inputs w3)
               = observe (process_all testConfig
                            (result_of no_organism recurrent) inputs w2)).
Proof.
  apply (clone_independent testConfig (fun _ => 0%float)
           (result_of no_organism recurrent) (world_of recurrent)).
  apply built_check_sound. vm_compute. reflexivity.
Defined.

(** On the recurrent network: after the clone's synapse into the output is
    disabled and the weight of its first synapse resampled, the clone stays
    silent while the original answers as before. *)
Example clone_mutation_example :
  observe
    ((c <- clone (result_of no_organism recurrent) ;;
      mutate_all testConfig (fun _ => 0%float) c
        [ToggleEnabled 6%N; MutateWeight 4%N] ;;;
      process_both testConfig (result_of no_organism recurrent) c
        [[1]; [0]; [0]; [1]]%float) (world_of recurrent))
  = Returned [([1], [0]); ([1], [0]); ([1], [0]); ([2], [0])]%float.
Proof. vm_compute. reflexivity. Qed.

(** * The queue of util.go *)

Section Queue.

Context {F : Type} {FF : Float64 F}.

(** A caller of the queue: a sequence of [Push] and [Pop] calls. *)
Inductive queue_op := DoPush (item : option ptr) | DoPop.

(** The items handed to [Push], in call order. *)
Definition pushed (ops : list queue_op) : list (option ptr) :=
  omap (fun op => match op with DoPush x => Some x | DoPop => None end) ops.

(** Runs the calls in order on [q]; returns the items the [Pop] calls
    returned, in call order, and the queue that is left. *)
Fixpoint run_queue (ops : list queue_op) (q : squeue)
  : M F (list (option ptr) * squeue) :=
  match ops with
  | [] => ret ([], q)
  | DoPush x :: ops' => run_queue ops' (Push q x)
  | DoPop :: ops' =>
      pq <- Pop q ;;
      r <- run_queue ops' (snd pq) ;;
      ret (fst pq :: fst r, snd r)
  end.

Lemma run_queue_fifo (ops : list queue_op) (q : squeue) (w : world F) :
  match run_queue ops q w with
  | Done r w' => w' = w ∧ q ++ pushed ops = r.1 ++ r.2
                 ∧ Size r.2 + length r.1 = Size q + length (pushed ops)
  | Panic msg => msg = index_out_of_range
  | Fatal _ | OutOfFuel => False
  end.
Proof.
  revert q. induction ops as [|[x|] ops IH]; intros q; simpl.
  - rewrite app_nil_r. unfold Size. simpl. auto with lia.
  - specialize (IH (Push q x)). unfold Push in *.
    destruct (run_queue ops (q ++ [x]) w) as [r w'| | |]; try exact IH.
    destruct IH as (-> & Heq & Hsz). rewrite <- app_assoc in Heq.
    unfold Size in *. rewrite length_app in Hsz. simpl in *.
    split; [reflexivity|]. split; [exact Heq|lia].
  - unfold bind. destruct q as [|item q']; simpl; [reflexivity|].
    specialize (IH q').
    destruct (run_queue ops q' w) as [r w'| | |]; try exact IH.
    destruct IH as (-> & Heq & Hsz). simpl. unfold Size in *. simpl.
    split; [reflexivity|]. split; [rewrite Heq; reflexivity|lia].
Qed.

(** X1: the queue is first in, first out.  Whatever the sequence of [Push]
    and [Pop] calls, if it runs through, the items popped followed by the
    items left in the queue are the initial items followed by the items
    pushed, in order, and [Size] counts them; the only failure is the
    index-out-of-range panic of a [Pop] on an empty queue, which is what a
    [Pop] on the new queue gives. *)
Theorem squeue_first_in_first_out (ops : list queue_op) (q : squeue)
    (w : world F) :
  match run_queue ops q w with
  | Done r w' => w' = w ∧ q ++ pushed ops = r.1 ++ r.2
                 ∧ Size r.2 + length r.1 = Size q + length (pushed ops)
  | Panic msg => msg = index_out_of_range
  | Fatal _ | OutOfFuel => False
  end
  ∧ Pop (F:=F) newsqueue w = Panic index_out_of_range
  ∧ (∀ items, run_queue ((DoPush <$> items) ++ replicate (length items) DoPop) newsqueue w
              = Done (items, newsqueue) w).
Proof.
  split; [apply run_queue_fifo|]. split; [reflexivity|].
  intros items.
  assert (Hpush : ∀ ops' q', run_queue ((DoPush <$> items) ++ ops') q' w
                             = run_queue ops' (q' ++ items) w).
  { induction items as [|x items IH]; intros ops' q'; simpl.
    - rewrite app_nil_r. reflexivity.
    - rewrite IH. unfold Push. rewrite <- app_assoc. reflexivity. }
  rewrite Hpush. simpl. clear Hpush.
  induction items as [|x items IH]; simpl; [reflexivity|].
  unfold bind at 1. simpl. unfold bind at 1. rewrite IH. reflexivity.
Qed.

End Queue.

(** * Registering and looking up genes; mutating a synapse in place *)

Section Registry.

Context {F : Type} {FF : Float64 F}.

Variable config : OrganismConfig F.
Variable rand_source : nat → F.

Implicit Types (w : world F) (org : organism F).

(** X2: [addNeuron] then [getNeuron].  Adding the neuron object at [p]
    returns without touching the store; afterwards its id looks up to [p]
    and every other id looks up as before; the gene sequence grows by this
    gene at the end; a sensor is appended to the sensor list only, an output
    neuron to the output list only, a hidden neuron to neither; synapses
    and connections are not touched.  Adding the nil pointer panics. *)
Theorem addNeuron_getNeuron org (p : ptr) (n : neuron F) w :
  neuronHeap w !! p = Some n →
  ∃ org',
    addNeuron org (Some p) w = Done org' w
    ∧ getNeuron org' (n_id n) = Some p
    ∧ (∀ id, id ≠ n_id n → getNeuron org' id = getNeuron org id)
    ∧ genes org' = genes org ++ [GNeuron p]
    ∧ sensors org'
      = sensors org ++ (if decide (n_kind n = sensorNeuron) then [n_id n] else [])
    ∧ outputs org'
      = outputs org ++ (if decide (n_kind n = outputNeuron) then [n_id n] else [])
    ∧ synapses org' = synapses org
    ∧ connections org' = connections org
    ∧ addNeuron org None w = Panic nil_dereference.
Proof.
  intros Hp. exists (registerNeuron org p n).
  split; [apply addNeuron_spec; exact Hp|].
  destruct (registerNeuron_fields org p n) as (Hn & Hs & Hc & Hg).
  unfold getNeuron. rewrite Hn, Hs, Hc, Hg.
  split; [apply lookup_insert_eq|].
  split; [intros id Hne; apply lookup_insert_ne; congruence|].
  split; [reflexivity|].
  unfold registerNeuron.
  destruct (n_kind n); simpl; rewrite ?app_nil_r; repeat split; reflexivity.
Qed.

(** X3: [addSynapse] then [getSynapse].  Adding the synapse object at [p]
    returns without touching the store; afterwards its id looks up to [p]
    and every other id looks up as before; its id is appended to the
    outgoing connections of its source neuron (a list that starts empty)
    and no other neuron's connections change; the gene sequence grows by
    this gene; neurons, sensors and outputs are not touched, and neither
    endpoint has to be a neuron of the organism.  Adding the nil pointer
    panics. *)
Theorem addSynapse_getSynapse org (p : ptr) (s : synapse F) w :
  synapseHeap w !! p = Some s →
  ∃ org',
    addSynapse org (Some p) w = Done org' w
    ∧ getSynapse org' (s_id s) = Some p
    ∧ (∀ id, id ≠ s_id s → getSynapse org' id = getSynapse org id)
    ∧ connections org' !! s_in s
      = Some (default [] (connections org !! s_in s) ++ [s_id s])
    ∧ (∀ id, id ≠ s_in s → connections org' !! id = connections org !! id)
    ∧ genes org' = genes org ++ [GSynapse p]
    ∧ neurons org' = neurons org
    ∧ sensors org' = sensors org
    ∧ outputs org' = outputs org
    ∧ addSynapse org None w = Panic nil_dereference.
Proof.
  intros Hp. exists (registerSynapse org p s).
  split; [apply addSynapse_spec; exact Hp|].
  unfold getSynapse, registerSynapse. simpl.
  split; [apply lookup_insert_eq|].
  split; [intros id Hne; apply lookup_insert_ne; congruence|].
  split; [apply lookup_insert_eq|].
  split; [intros id Hne; apply lookup_insert_ne; congruence|].
  repeat split; reflexivity.
Qed.

(** A store update that writes back what is there changes nothing. *)
Lemma set_synapseHeap_id (s : synapse F) (p : ptr) w :
  synapseHeap w !! p = Some s →
  set_synapseHeap (<[p := s]> (synapseHeap w)) w = w.
Proof.
  intros Hp. destruct w as [nh sh ic nc rc]. unfold set_synapseHeap. simpl in *.
  rewrite list_insert_id by exact Hp. reflexivity.
Qed.

(** X4: [toggleEnabled].  On a synapse the organism holds, one call
    flips the [enabled] flag of that synapse object and changes nothing
    else in the store, and a second call restores the store exactly. *)
Theorem toggleEnabled_twice org (id : N) (p : ptr) (s : synapse F) w :
  synapses org !! id = Some p →
  synapseHeap w !! p = Some s →
  toggleEnabled org id w
  = Done tt (set_synapseHeap
               (<[p := set_enabled (negb (s_enabled s)) s]> (synapseHeap w)) w)
  ∧ (toggleEnabled org id ;;; toggleEnabled org id) w = Done tt w.
Proof.
  intros Hid Hp.
  assert (Hone : toggleEnabled org id w
                 = Done tt (set_synapseHeap
                      (<[p := set_enabled (negb (s_enabled s)) s]> (synapseHeap w)) w)).
  { unfold toggleEnabled, synapse_toggleEnabled, updateS. rewrite Hid, Hp.
    reflexivity. }
  split; [exact Hone|].
  rewrite (bind_Done _ _ _ _ _ Hone).
  unfold toggleEnabled, synapse_toggleEnabled, updateS. rewrite Hid. simpl.
  rewrite list_lookup_insert_eq by (eapply lookup_lt_Some; exact Hp).
  f_equal. unfold set_synapseHeap. simpl. rewrite list_insert_insert_eq.
  unfold set_enabled. simpl. rewrite negb_involutive.
  destruct s as [i a b x e v]. simpl.
  apply (set_synapseHeap_id (mkSynapse i a b x e v) p w Hp).
Qed.

(** X5: operations on a synapse the organism cannot resolve.  For an id
    absent from the synapse map, [splitSynapse], [toggleEnabled] and
    [mutateWeight] panic with a nil dereference.  [splitSynapse] also
    panics with a nil dereference when the synapse is there but one of its
    endpoints is not a neuron of the organism (which [addSynapse] does not
    check). *)
Theorem unresolved_synapse_panics org (id : N) w :
  (synapses org !! id = None →
   splitSynapse org id w = Panic nil_dereference
   ∧ toggleEnabled org id w = Panic nil_dereference
   ∧ mutateWeight config rand_source org id w = Panic nil_dereference)
  ∧ (∀ p s, built w org →
            synapses org !! id = Some p → synapseHeap w !! p = Some s →
            neurons org !! s_in s = None ∨ neurons org !! s_out s = None →
            splitSynapse org id w = Panic nil_dereference).
Proof.
  split.
  - intros Hid. unfold splitSynapse, synapseEndpoints, getSynapse, toggleEnabled,
      mutateWeight, synapse_toggleEnabled, synapse_mutateWeight, bind, derefS,
      updateS, RandFloat64.
    rewrite Hid. auto.
  - intros p s Hb Hid Hp Hmiss.
    unfold splitSynapse, synapseEndpoints, getSynapse, bind, derefS.
    rewrite Hid, Hp. simpl.
    destruct (neurons org !! s_in s) as [pi|] eqn:Hin; [|reflexivity].
    destruct Hmiss as [Hmiss|Hmiss]; [discriminate|]. rewrite Hmiss.
    destruct (built_neurons w org _ pi Hb Hin) as (ni & Hpi & _).
    unfold newSynapse, bind, nextID, derefN, nextInnovation, allocS. simpl.
    rewrite (lookup_app_l_Some _ _ _ _ Hpi). simpl.
    rewrite list_lookup_middle by reflexivity. simpl.
    rewrite list_lookup_middle by reflexivity. reflexivity.
Qed.

End Registry.

(** * What [clone] and [mate] produce, and what they leave alone *)

Section Copies.

Context {F : Type} {FF : Float64 F}.

Implicit Types (w : world F) (a b g c o : organism F)
  (la lb vs : list (gene_value F)).

(** Copying genes draws no id, no innovation number and no random number. *)
Definition same_counters w w' : Prop :=
  idCount w' = idCount w
  ∧ innovationCount w' = innovationCount w
  ∧ randCalls w' = randCalls w.

Lemma copy_all_counters o vs w : same_counters w (copy_all o vs w).2.
Proof.
  revert o w. induction vs as [|v vs IH]; intros o w.
  - repeat split.
  - rewrite copy_all_cons.
    destruct (IH (copy_into o v w).1 (copy_into o v w).2) as (H1 & H2 & H3).
    destruct v; simpl in *; repeat split; assumption.
Qed.

(** The objects of a genome assembled in [w] lie below the ends of the
    heaps of [w]; the copies made afterwards lie above. *)
Lemma copy_all_separate o vs w gen fit :
  built w o →
  separate o (copy_all (mkOrganism [] [] ∅ ∅ ∅ [] gen fit) vs w).1.
Proof.
  intros Hb.
  destruct (copy_all_pointers (mkOrganism [] [] ∅ ∅ ∅ [] gen fit) vs w
              (length (neuronHeap w)) (length (synapseHeap w)))
    as [Hcn Hcs]; try reflexivity;
    try (intros id p; simpl; rewrite lookup_empty; discriminate).
  split.
  - intros id id' p Hg Hc.
    destruct (built_neurons w o id p Hb Hg) as (n & Hn & _).
    apply lookup_lt_Some in Hn. specialize (Hcn id' p Hc). lia.
  - intros id id' p Hg Hc.
    destruct (built_synapses w o id p Hb Hg) as (s & Hs & _).
    apply lookup_lt_Some in Hs. specialize (Hcs id' p Hc). lia.
Qed.

Lemma same_object_dom {T} (h1 h2 : list T) key (m1 m2 : gmap N nat) :
  (∀ id, same_object h1 h2 key id (m1 !! id) (m2 !! id)) → dom m1 = dom m2.
Proof.
  intros H. apply set_eq. intros id. rewrite !elem_of_dom.
  specialize (H id). unfold same_object in H.
  destruct (m1 !! id), (m2 !! id); try contradiction;
    split; intros [? ?]; eauto; discriminate.
Qed.

(** X6: [clone].  The clone of a genome [g] carries, gene by gene and in
    order, objects equal field for field to those of [g] (ids, innovation
    numbers, weights, enabled flags and the neurons' accumulators alike);
    its sensor list, output list and connections are those of [g] and its
    maps have the same keys, but every gene is a fresh object; [g] and all
    other objects are left as they were.  Generation and fitness are not
    copied: the clone has generation 0 and fitness 0.  No id, innovation
    number or random number is drawn. *)
Theorem clone_copies_genes g w :
  built w g →
  ∃ c w' vs,
    clone g w = Done c w'
    ∧ genes_read w (genes g) vs
    ∧ genes_read w' (genes g) vs
    ∧ genes_read w' (genes c) vs
    ∧ extends w w'
    ∧ separate g c
    ∧ sensors c = sensors g
    ∧ outputs c = outputs g
    ∧ connections c = connections g
    ∧ dom (neurons c) = dom (neurons g)
    ∧ dom (synapses c) = dom (synapses g)
    ∧ generation c = 0%Z
    ∧ fitness c = f_zero
    ∧ same_counters w w'.
Proof.
  intros Hb. destruct (built_genes_read w g Hb) as (vs & Hread & _).
  set (e := mkOrganism [] [] ∅ ∅ ∅ [] 0%Z (f_zero (F:=F))).
  exists (copy_all e vs w).1, (copy_all e vs w).2, vs.
  pose proof (clone_spec g vs w Hread) as Hrun.
  destruct (copy_all_spec e vs w []) as (Hcg & _ & _ & Hgen & Hfit);
    [constructor|].
  destruct (clone_sim w g Hb) as (c' & w1' & Hrun' & Hext & Hsim).
  rewrite Hrun in Hrun'. injection Hrun' as <- <-.
  destruct Hsim as [Hs Ho Hc Hn Hy].
  split; [exact Hrun|]. split; [exact Hread|].
  split; [eapply genes_read_extends; eassumption|].
  split; [exact Hcg|]. split; [exact Hext|].
  split; [apply copy_all_separate; exact Hb|].
  split; [symmetry; exact Hs|]. split; [symmetry; exact Ho|].
  split; [symmetry; exact Hc|].
  split; [symmetry; eapply same_object_dom; exact Hn|].
  split; [symmetry; eapply same_object_dom; exact Hy|].
  split; [exact Hgen|]. split; [exact Hfit|].
  apply copy_all_counters.
Qed.

(** X7: the guard of [mate].  Two genomes with the same number of sensors
    and the same number of outputs always produce an offspring; any other
    pair ends the program through [log.Fatal].  The offspring is made of
    fresh copies only: both parents and every other object are left as
    they were, and no id, innovation number or random number is drawn.  Its
    generation is that of [a] plus one (the generation of [b] is not read)
    and its fitness is 0. *)
Theorem mate_guard a b w :
  built w a →
  built w b →
  if decide (length (sensors a) = length (sensors b)
             ∧ length (outputs a) = length (outputs b))
  then ∃ o w',
         mate a b w = Done o w'
         ∧ built w' o
         ∧ extends w w'
         ∧ separate a o
         ∧ separate b o
         ∧ generation o = int_add (generation a) 1
         ∧ fitness o = f_zero
         ∧ same_counters w w'
  else mate a b w = Fatal "Wooooh easy there fella' that's illegal".
Proof.
  intros Ha Hb. destruct (decide _) as [[Hs Ho]|Hne].
  - destruct (built_genes_read w a Ha) as (la & Hla & _).
    destruct (built_genes_read w b Hb) as (lb & Hlb & _).
    pose proof (mate_spec a b la lb w Hla Hlb Hs Ho) as Hrun.
    set (e := mkOrganism [] [] ∅ ∅ ∅ [] (int_add (generation a) 1)
                (f_zero (F:=F))) in *.
    set (vs := merge_genes (f_gt (fitness a) (fitness b)) la lb) in *.
    exists (copy_all e vs w).1, (copy_all e vs w).2.
    destruct (copy_all_spec e vs w []) as (_ & _ & _ & Hgen & Hfit);
      [constructor|].
    split; [exact Hrun|].
    split; [apply copy_all_built; constructor|].
    split; [apply copy_all_extends|].
    split; [apply copy_all_separate; exact Ha|].
    split; [apply copy_all_separate; exact Hb|].
    split; [exact Hgen|]. split; [exact Hfit|].
    apply copy_all_counters.
  - unfold mate.
    destruct (Nat.eqb_spec (length (sensors a)) (length (sensors b))) as [Hs|Hs];
      [|reflexivity].
    destruct (Nat.eqb_spec (length (outputs a)) (length (outputs b))) as [Ho|Ho];
      [|reflexivity].
    exfalso. apply Hne. split; assumption.
Qed.

Lemma merge_genes_homologous pickA la lb :
  innovation_of <$> la = innovation_of <$> lb →
  merge_genes pickA la lb = if pickA then la else lb.
Proof.
  revert lb. induction la as [|va la IH]; intros [|vb lb] Heq;
    try discriminate.
  - destruct pickA; reflexivity.
  - injection Heq as Hv Heq. rewrite merge_genes_cons.
    rewrite (proj2 (N.eqb_eq _ _) Hv), (IH lb Heq).
    destruct pickA; reflexivity.
Qed.

(** X8: crossover of two genomes with the same structure.  When the gene
    sequences of [a] and [b] carry the same innovation numbers in the same
    order (as after [clone] and any number of weight or enabled-flag
    mutations), the offspring's genes are field for field those of [a] if
    [a.fitness > b.fitness], and those of [b] otherwise, equal fitness
    included: no mixing of the two parents takes place. *)
Theorem mate_same_structure a b la lb w :
  genes_read w (genes a) la →
  genes_read w (genes b) lb →
  length (sensors a) = length (sensors b) →
  length (outputs a) = length (outputs b) →
  innovation_of <$> la = innovation_of <$> lb →
  ∃ o w',
    mate a b w = Done o w'
    ∧ genes_read w' (genes o) (if f_gt (fitness a) (fitness b) then la else lb).
Proof.
  intros Hla Hlb Hs Ho Hin.
  eexists _, _. split; [apply (mate_spec a b la lb w Hla Hlb Hs Ho)|].
  destruct (copy_all_spec
              (mkOrganism [] [] ∅ ∅ ∅ [] (int_add (generation a) 1) f_zero)
              (merge_genes (f_gt (fitness a) (fitness b)) la lb) w [])
    as (Hg & _); [constructor|].
  simpl in Hg. rewrite <- (merge_genes_homologous _ la lb Hin). exact Hg.
Qed.

End Copies.

(** * The footprint of [process] *)

Section Post.

Context {F : Type} {FF : Float64 F}.

(** The ways a run can fail to return. *)
Inductive failure := ByFatal | ByPanic | ByFuel.

(** [post allowed P r]: if the run [r] returned, [P] holds of its result
    and final state; if it failed, it failed in a way [allowed]. *)
Definition post {A} (allowed : failure → bool) (P : A → world F → Prop)
    (r : outcome F A) : Prop :=
  match r with
  | Done a w => P a w
  | Fatal _ => allowed ByFatal = true
  | Panic _ => allowed ByPanic = true
  | OutOfFuel => allowed ByFuel = true
  end.

Variable allowed : failure → bool.

Lemma post_bind {A B} (P : A → world F → Prop) (Q : B → world F → Prop)
    (m : M F A) (k : A → M F B) w :
  post allowed P (m w) →
  (∀ a w', P a w' → post allowed Q (k a w')) →
  post allowed Q (bind m k w).
Proof.
  unfold bind. destruct (m w); simpl; auto.
Qed.

Lemma post_weaken {A} (P Q : A → world F → Prop) r :
  (∀ a w, P a w → Q a w) → post allowed P r → post allowed Q r.
Proof. destruct r; simpl; auto. Qed.

Lemma post_for_fold {A B} (I : B → world F → Prop) (body : B → A → M F B)
    (l : list A) acc w :
  I acc w →
  (∀ x acc w, x ∈ l → I acc w → post allowed I (body acc x w)) →
  post allowed I (for_fold body acc l w).
Proof.
  revert acc w. induction l as [|x l IH]; intros acc w HI Hbody; simpl.
  - exact HI.
  - eapply post_bind; [apply Hbody; [left|exact HI]|].
    intros acc' w' HI'. apply IH; [exact HI'|].
    intros y acc0 w0 Hy. apply Hbody. right. exact Hy.
Qed.

Lemma post_for_do {A} (I : world F → Prop) (body : A → M F unit)
    (l : list A) w :
  I w →
  (∀ x w, x ∈ l → I w → post allowed (fun _ w' => I w') (body x w)) →
  post allowed (fun _ w' => I w') (for_do l body w).
Proof.
  revert w. induction l as [|x l IH]; intros w HI Hbody; simpl.
  - exact HI.
  - eapply post_bind; [apply Hbody; [left|exact HI]|].
    intros ? w' HI'. apply IH; [exact HI'|].
    intros y w0 Hy. apply Hbody. right. exact Hy.
Qed.

Lemma post_for_map {A B} (I : world F → Prop) (Q : A → B → Prop)
    (f : A → M F B) (l : list A) w :
  I w →
  (∀ x w, x ∈ l → I w → post allowed (fun y w' => Q x y ∧ I w') (f x w)) →
  post allowed (fun ys w' => Forall2 Q l ys ∧ I w') (for_map f l w).
Proof.
  revert w. induction l as [|x l IH]; intros w HI Hbody; simpl.
  - split; [constructor|exact HI].
  - eapply post_bind; [apply Hbody; [left|exact HI]|].
    intros y w' [Hy HI'].
    eapply post_bind.
    + apply IH; [exact HI'|]. intros z w0 Hz. apply Hbody. right. exact Hz.
    + intros ys w'' [Hys HI'']. simpl. split; [constructor; assumption|exact HI''].
Qed.

End Post.

Section Quiet.

Context {F : Type} {FF : Float64 F}.

Variable config : OrganismConfig F.

Implicit Types (w : world F) (org : organism F).

Let anyhow : failure → bool := fun _ => true.

(** [w'] has the counters of [w], and every neuron of [w] is still there
    with its innovation number. *)
Definition quiet w w' : Prop :=
  same_counters w w'
  ∧ ∀ p n, neuronHeap w !! p = Some n →
           ∃ n', neuronHeap w' !! p = Some n'
                 ∧ n_innovation n' = n_innovation n.

Lemma quiet_refl w : quiet w w.
Proof. split; [repeat split|]. eauto. Qed.

Lemma quiet_trans w1 w2 w3 : quiet w1 w2 → quiet w2 w3 → quiet w1 w3.
Proof.
  intros [(Ha & Hb & Hc) H12] [(Ha' & Hb' & Hc') H23]. split.
  - repeat split; congruence.
  - intros p n Hp. destruct (H12 p n Hp) as (n' & Hp' & Hi).
    destruct (H23 p n' Hp') as (n'' & Hp'' & Hi'). exists n''.
    split; [exact Hp''|congruence].
Qed.

Lemma updateN_quietly (p : option ptr) (f : neuron F → neuron F) w0 w :
  (∀ n, n_innovation (f n) = n_innovation n) →
  quiet w0 w →
  post anyhow (fun _ w' => quiet w0 w') (updateN p f w).
Proof.
  intros Hf Hq. unfold updateN. destruct p as [a|]; [|reflexivity].
  destruct (neuronHeap w !! a) as [n|] eqn:Ha; [|reflexivity]. simpl.
  eapply quiet_trans; [exact Hq|]. split; [repeat split|].
  intros p m Hp. simpl. destruct (decide (p = a)) as [->|Hne].
  - exists (f n). rewrite list_lookup_insert_eq by (eapply lookup_lt_Some; eauto).
    split; [reflexivity|]. rewrite Ha in Hp. injection Hp as <-. apply Hf.
  - exists m. rewrite list_lookup_insert_ne by congruence. auto.
Qed.

Lemma derefN_quietly (p : option ptr) w0 w :
  quiet w0 w → post anyhow (fun _ w' => quiet w0 w') (derefN p w).
Proof.
  intros Hq. unfold derefN. destruct p as [a|]; [|reflexivity].
  destruct (neuronHeap w !! a); [exact Hq|reflexivity].
Qed.

Lemma derefS_quietly (p : option ptr) w0 w :
  quiet w0 w → post anyhow (fun _ w' => quiet w0 w') (derefS p w).
Proof.
  intros Hq. unfold derefS. destruct p as [a|]; [|reflexivity].
  destruct (synapseHeap w !! a); [exact Hq|reflexivity].
Qed.

Ltac quiet_update := intros ?; reflexivity.

Lemma propagate_synapse_quietly org (n : option ptr) (q : squeue) sid w0 w :
  quiet w0 w →
  post anyhow (fun _ w' => quiet w0 w') (propagate_synapse org n q sid w).
Proof.
  intros Hq. unfold propagate_synapse.
  eapply post_bind; [apply derefS_quietly; exact Hq|]. intros s w1 Hq1.
  destruct (s_enabled s); [|exact Hq1].
  eapply post_bind; [apply derefN_quietly; exact Hq1|]. intros nv w2 Hq2.
  eapply post_bind; [apply derefN_quietly; exact Hq2|]. intros o w3 Hq3.
  destruct (n_visited o).
  - eapply post_bind; [apply updateN_quietly; [quiet_update|exact Hq3]|].
    intros ? w4 Hq4. exact Hq4.
  - eapply post_bind; [apply updateN_quietly; [quiet_update|exact Hq3]|].
    intros ? w4 Hq4. destruct (negb (n_seen o)); [|exact Hq4].
    eapply post_bind; [apply updateN_quietly; [quiet_update|exact Hq4]|].
    intros ? w5 Hq5. exact Hq5.
Qed.

Lemma propagate_visit_quietly org (q : squeue) w0 w :
  quiet w0 w →
  post anyhow (fun _ w' => quiet w0 w') (propagate_visit config org q w).
Proof.
  intros Hq. unfold propagate_visit.
  destruct q as [|item q]; [reflexivity|].
  unfold Pop, bind at 1, ret. simpl fst. simpl snd.
  eapply post_bind; [apply derefN_quietly; exact Hq|]. intros nv w1 Hq1.
  destruct (n_visited nv); [reflexivity|].
  eapply post_bind; [apply updateN_quietly; [quiet_update|exact Hq1]|].
  intros ? w2 Hq2.
  eapply post_bind; [apply updateN_quietly; [quiet_update|exact Hq2]|].
  intros ? w3 Hq3.
  apply (post_for_fold anyhow (fun _ w' => quiet w0 w')); [exact Hq3|].
  intros sid q' w4 _ Hq4. apply propagate_synapse_quietly. exact Hq4.
Qed.

Lemma propagate_loop_quietly (fuel : nat) org (q : squeue) w0 w :
  quiet w0 w →
  post anyhow (fun _ w' => quiet w0 w') (propagate_loop config fuel org q w).
Proof.
  revert q w. induction fuel as [|fuel IH]; intros q w Hq; simpl.
  - destruct (0 <? Size q); [reflexivity|exact Hq].
  - destruct (0 <? Size q); [|exact Hq].
    eapply post_bind; [apply propagate_visit_quietly; exact Hq|].
    intros q' w' Hq'. apply IH. exact Hq'.
Qed.

Lemma process_quietly org (input : list F) w :
  post anyhow (fun out w' => length out = length (outputs org) ∧ quiet w w')
    (process config org input w).
Proof.
  unfold process.
  destruct (negb (length input =? length (sensors org))); [reflexivity|].
  eapply post_bind.
  { apply (post_for_do anyhow (fun w' => quiet w w')); [apply quiet_refl|].
    intros kv w1 _ Hq. apply updateN_quietly; [quiet_update|exact Hq]. }
  intros ? w1 Hq1. simpl in Hq1.
  eapply post_bind.
  { apply (post_for_do anyhow (fun w' => quiet w w')); [exact Hq1|].
    intros ix w2 _ Hq. apply updateN_quietly; [quiet_update|exact Hq]. }
  intros ? w2 Hq2. simpl in Hq2.
  eapply post_bind; [apply propagate_loop_quietly; exact Hq2|].
  intros ? w3 Hq3.
  eapply post_weaken;
    [|apply (post_for_map anyhow (fun w' => quiet w w') (fun _ _ => True))].
  - intros out w4 [Hall Hq4]. split; [|exact Hq4].
    symmetry. eapply Forall2_length. exact Hall.
  - exact Hq3.
  - intros id w4 _ Hq4.
    eapply post_bind; [apply derefN_quietly; exact Hq4|].
    intros n w5 Hq5. simpl. auto.
Qed.

(** X9: [process] always comes back.  Whatever the genome (cycles,
    synapses into sensors, dangling ids), the input and the state, the loop
    of [propagate] pops at most [len(sensors) + len(neurons)] items: a
    call of [process], and any sequence of calls, returns, exits through
    [log.Fatal] or panics, and never runs on forever. *)
Theorem process_terminates org (inputs : list (list F)) w :
  (∀ input, observe (process config org input w) ≠ Diverged)
  ∧ observe (process_all config org inputs w) ≠ Diverged.
Proof.
  split.
  - intros input. eapply ensures_not_diverged. apply process_footprint.
  - eapply ensures_not_diverged. apply process_all_footprint.
Qed.

(** The footprint of a call of [process] that returns. *)
Lemma process_done_footprint org (input out : list F) w w' :
  process config org input w = Done out w' →
  length out = length (outputs org)
  ∧ synapseHeap w' = synapseHeap w
  ∧ length (neuronHeap w') = length (neuronHeap w)
  ∧ same_counters w w'
  ∧ (∀ p n, neuronHeap w !! p = Some n →
            ∃ n', neuronHeap w' !! p = Some n'
                  ∧ n_id n' = n_id n ∧ n_kind n' = n_kind n
                  ∧ n_innovation n' = n_innovation n)
  ∧ (∀ p, (∀ id, neurons org !! id ≠ Some p) →
          neuronHeap w' !! p = neuronHeap w !! p).
Proof.
  intros Hrun.
  pose proof (process_quietly org input w) as Hq.
  pose proof (process_footprint config org input w) as Hm.
  rewrite Hrun in Hq, Hm. simpl in Hq, Hm.
  destruct Hq as (Hlen & Hcount & Hinn).
  destruct Hm as (Hsyn & Hl & Hout & Hid & _).
  split; [exact Hlen|]. split; [exact Hsyn|]. split; [exact Hl|].
  split; [exact Hcount|]. split; [|exact Hout].
  intros p n Hp. destruct (Hid p n Hp) as (n' & Hp' & Hi & Hk).
  destruct (Hinn p n Hp) as (n'' & Hp'' & Hv).
  rewrite Hp' in Hp''. injection Hp'' as <-. eauto.
Qed.

(** X10: what [process] changes.  When a call returns, the output vector
    has one entry per output neuron; no synapse object has changed; no
    object has been allocated; no id, innovation number or random number
    has been drawn; every neuron keeps its id, kind and innovation number;
    and a neuron that is not one of the organism's is left exactly as it
    was. *)
Theorem process_changes_neurons_only org (input out : list F) w w' :
  process config org input w = Done out w' →
  length out = length (outputs org)
  ∧ synapseHeap w' = synapseHeap w
  ∧ length (neuronHeap w') = length (neuronHeap w)
  ∧ same_counters w w'
  ∧ (∀ p n, neuronHeap w !! p = Some n →
            ∃ n', neuronHeap w' !! p = Some n'
                  ∧ n_id n' = n_id n ∧ n_kind n' = n_kind n
                  ∧ n_innovation n' = n_innovation n)
  ∧ (∀ p, (∀ id, neurons org !! id ≠ Some p) →
          neuronHeap w' !! p = neuronHeap w !! p).
Proof. apply process_done_footprint. Qed.

End Quiet.

(** * Well-formed genomes *)

Section Wellformed.

Context {F : Type} {FF : Float64 F}.

Implicit Types (w : world F) (org : organism F) (vs : list (gene_value F)).

(** Every synapse of the organism joins two neurons of the organism. *)
Definition closed org (h : list (synapse F)) : Prop :=
  ∀ sid p s, synapses org !! sid = Some p → h !! p = Some s →
             is_Some (neurons org !! s_in s) ∧ is_Some (neurons org !! s_out s).

(** A genome assembled by [addNeuron] and [addSynapse] whose synapses join
    neurons of its own. *)
Definition sound w org : Prop := built w org ∧ closed org (synapseHeap w).

(** All ids in use are ids the counter has handed out. *)
Definition ids_below org (c : N) : Prop :=
  (∀ id, is_Some (neurons org !! id) → (id <= c)%N)
  ∧ (∀ id, is_Some (synapses org !! id) → (id <= c)%N)
  ∧ (∀ id, is_Some (connections org !! id) → (id <= c)%N).

Record wellformed w org : Prop := mkWellformed {
  wf_sound : sound w org;
  wf_ids : ids_below org (idCount w);
  wf_sensors : NoDup (sensors org);
  wf_outputs : NoDup (outputs org);
  wf_disjoint : ∀ id, id ∈ sensors org → id ∉ outputs org;
  wf_targets : no_sensor_target org (synapseHeap w);
}.

(** The gene sequence is strictly ascending by innovation number, and no
    innovation number in it exceeds [c]. *)
Definition numbered_upto w org (c : N) : Prop :=
  ∃ vs, genes_read w (genes org) vs
        ∧ strictly_ascending vs
        ∧ Forall (fun v => (innovation_of v <= c)%N) vs.

Definition numbered w org : Prop := numbered_upto w org (innovationCount w).

(** Every object of [w] is still there in [w'], with everything but the
    weights, the enabled flags and the accumulators of the neurons. *)
Definition same_structure w w' : Prop :=
  (∀ p n, neuronHeap w !! p = Some n →
          ∃ n', neuronHeap w' !! p = Some n'
                ∧ n_id n' = n_id n ∧ n_kind n' = n_kind n
                ∧ n_innovation n' = n_innovation n)
  ∧ (∀ p s, synapseHeap w !! p = Some s →
            ∃ s', synapseHeap w' !! p = Some s'
                  ∧ s_id s' = s_id s ∧ s_in s' = s_in s ∧ s_out s' = s_out s
                  ∧ s_innovation s' = s_innovation s).

Lemma same_structure_refl w : same_structure w w.
Proof. split; eauto 10. Qed.

Lemma same_structure_trans w1 w2 w3 :
  same_structure w1 w2 → same_structure w2 w3 → same_structure w1 w3.
Proof.
  intros [Hn12 Hs12] [Hn23 Hs23]. split.
  - intros p n Hp. destruct (Hn12 p n Hp) as (n' & Hp' & H1 & H2 & H3).
    destruct (Hn23 p n' Hp') as (n'' & Hp'' & H1' & H2' & H3').
    exists n''. repeat split; congruence.
  - intros p s Hp. destruct (Hs12 p s Hp) as (s' & Hp' & H1 & H2 & H3 & H4).
    destruct (Hs23 p s' Hp') as (s'' & Hp'' & H1' & H2' & H3' & H4').
    exists s''. repeat split; congruence.
Qed.

Lemma same_structure_identity w w' : same_structure w w' → same_identity w w'.
Proof.
  intros [Hn Hs]. split.
  - intros p n Hp. destruct (Hn p n Hp) as (n' & ? & ? & ? & _). eauto.
  - intros p s Hp. destruct (Hs p s Hp) as (s' & ? & ? & ? & _). eauto.
Qed.

Lemma extends_same_structure w w' : extends w w' → same_structure w w'.
Proof.
  intros [[kn Hn] [ks Hs]]. split.
  - intros p n Hp. exists n. rewrite Hn, (lookup_app_l_Some _ _ _ _ Hp). auto.
  - intros p s Hp. exists s. rewrite Hs, (lookup_app_l_Some _ _ _ _ Hp). auto 6.
Qed.

(** The synapse a genome holds under an id, read in a later state. *)
Lemma same_structure_synapse w w' org sid p s' :
  built w org → same_structure w w' →
  synapses org !! sid = Some p → synapseHeap w' !! p = Some s' →
  ∃ s, synapseHeap w !! p = Some s
       ∧ s_in s' = s_in s ∧ s_out s' = s_out s.
Proof.
  intros Hb [_ Hs] Hsid Hp'.
  destruct (built_synapses w org sid p Hb Hsid) as (s & Hp & _).
  destruct (Hs p s Hp) as (s'' & Hp'' & _ & Hin & Hout & _).
  rewrite Hp' in Hp''. injection Hp'' as <-. eauto.
Qed.

Lemma sound_same_structure w w' org :
  same_structure w w' → sound w org → sound w' org.
Proof.
  intros Hst [Hb Hc]. split.
  - eapply built_same_identity; [apply same_structure_identity|]; eassumption.
  - intros sid p s' Hsid Hp'.
    destruct (same_structure_synapse w w' org sid p s' Hb Hst Hsid Hp')
      as (s & Hp & -> & ->).
    exact (Hc sid p s Hsid Hp).
Qed.

Lemma wellformed_same_structure w w' org :
  same_structure w w' → (idCount w <= idCount w')%N →
  wellformed w org → wellformed w' org.
Proof.
  intros Hst Hc [Hs (Hin & His & Hic) Hse Hou Hdi Hta]. constructor.
  - eapply sound_same_structure; eassumption.
  - split; [|split]; intros id Hid;
      [specialize (Hin id Hid)|specialize (His id Hid)|specialize (Hic id Hid)];
      lia.
  - exact Hse.
  - exact Hou.
  - exact Hdi.
  - intros sid p s' Hsid Hp'. destruct Hs as [Hb _].
    destruct (same_structure_synapse w w' org sid p s' Hb Hst Hsid Hp')
      as (s & Hp & _ & ->).
    exact (Hta sid p s Hsid Hp).
Qed.

Lemma read_gene_same_structure w w' g v :
  same_structure w w' → read_gene w g = Some v →
  ∃ v', read_gene w' g = Some v' ∧ innovation_of v' = innovation_of v.
Proof.
  intros [Hn Hs]. destruct g as [p|p]; simpl.
  - destruct (neuronHeap w !! p) as [n|] eqn:Hp; [|discriminate].
    intros [= <-]. destruct (Hn p n Hp) as (n' & -> & _ & _ & Hi).
    exists (VNeuron n'). auto.
  - destruct (synapseHeap w !! p) as [s|] eqn:Hp; [|discriminate].
    intros [= <-]. destruct (Hs p s Hp) as (s' & -> & _ & _ & _ & Hi).
    exists (VSynapse s'). auto.
Qed.

Lemma genes_read_same_structure w w' (gs : list gene) vs :
  same_structure w w' → genes_read w gs vs →
  ∃ vs', genes_read w' gs vs'
         ∧ innovation_of <$> vs' = innovation_of <$> vs.
Proof.
  intros Hst. induction 1 as [|g v gs vs Hg _ (vs' & Hvs' & Hi)].
  - exists []. split; [constructor|reflexivity].
  - destruct (read_gene_same_structure w w' g v Hst Hg) as (v' & Hg' & Hv).
    exists (v' :: vs'). split; [constructor; assumption|].
    rewrite !fmap_cons, Hv, Hi. reflexivity.
Qed.

Lemma ascending_innovations vs vs' :
  innovation_of <$> vs' = innovation_of <$> vs →
  strictly_ascending vs → strictly_ascending vs'.
Proof.
  unfold strictly_ascending. revert vs'.
  induction vs as [|v vs IH]; intros [|v' vs'] Heq Hs; try discriminate.
  - constructor.
  - injection Heq as Hv Heq. apply Sorted_inv in Hs as [Hs Hhd].
    constructor; [apply IH; assumption|].
    destruct vs as [|v2 vs], vs' as [|v2' vs']; try discriminate;
      constructor.
    injection Heq as Hv2 _. apply HdRel_inv in Hhd.
    unfold innovation_lt in *. rewrite Hv, Hv2. exact Hhd.
Qed.

Lemma bounded_innovations vs vs' (c : N) :
  innovation_of <$> vs' = innovation_of <$> vs →
  Forall (fun v => (innovation_of v <= c)%N) vs →
  Forall (fun v => (innovation_of v <= c)%N) vs'.
Proof.
  revert vs'. induction vs as [|v vs IH]; intros [|v' vs'] Heq Hall;
    try discriminate; [constructor|].
  injection Heq as Hv Heq. apply Forall_cons in Hall as [Hle Hall].
  constructor; [rewrite Hv; exact Hle|apply IH; assumption].
Qed.

Lemma numbered_upto_same_structure w w' org (c c' : N) :
  same_structure w w' → (c <= c')%N →
  numbered_upto w org c → numbered_upto w' org c'.
Proof.
  intros Hst Hc (vs & Hread & Hasc & Hle).
  destruct (genes_read_same_structure w w' _ vs Hst Hread) as (vs' & Hread' & Hi).
  exists vs'. split; [exact Hread'|].
  split; [eapply ascending_innovations; eassumption|].
  eapply Forall_impl; [eapply bounded_innovations; eassumption|].
  simpl. intros v Hv. lia.
Qed.

(** ** Registering one more gene *)

Lemma closed_registerNeuron org (h : list (synapse F)) p (n : neuron F) :
  closed org h → closed (registerNeuron org p n) h.
Proof.
  intros Hc sid q s. destruct (registerNeuron_fields org p n) as (Hn & Hs & _).
  rewrite Hs, Hn. intros Hsid Hq. destruct (Hc sid q s Hsid Hq) as [Hi Ho].
  split; apply lookup_insert_is_Some'; auto.
Qed.

Lemma sound_registerNeuron w org p (n : neuron F) :
  sound w org → neuronHeap w !! p = Some n → sound w (registerNeuron org p n).
Proof.
  intros [Hb Hc] Hp. split; [constructor; assumption|].
  apply closed_registerNeuron. exact Hc.
Qed.

Lemma sound_registerSynapse w org p (s : synapse F) :
  sound w org → synapseHeap w !! p = Some s →
  is_Some (neurons org !! s_in s) → is_Some (neurons org !! s_out s) →
  sound w (registerSynapse org p s).
Proof.
  intros [Hb Hc] Hp Hi Ho. split; [constructor; assumption|].
  intros sid q s'. unfold registerSynapse. simpl.
  destruct (decide (s_id s = sid)) as [<-|Hne].
  - rewrite lookup_insert_eq. intros [= <-]. rewrite Hp. intros [= <-]. auto.
  - rewrite lookup_insert_ne by exact Hne. apply Hc.
Qed.

Lemma registerNeuron_lists org p (n : neuron F) :
  sensors (registerNeuron org p n)
  = sensors org ++ (if decide (n_kind n = sensorNeuron) then [n_id n] else [])
  ∧ outputs (registerNeuron org p n)
    = outputs org ++ (if decide (n_kind n = outputNeuron) then [n_id n] else []).
Proof.
  unfold registerNeuron. destruct (n_kind n); simpl; rewrite ?app_nil_r; auto.
Qed.

Lemma wellformed_registerNeuron w org p (n : neuron F) :
  wellformed w org → neuronHeap w !! p = Some n →
  (∀ id, is_Some (neurons org !! id) → (id < n_id n)%N) →
  (n_id n <= idCount w)%N →
  wellformed w (registerNeuron org p n).
Proof.
  intros [Hs (Hin & His & Hic) Hse Hou Hdi Hta] Hp Hfresh Hle.
  destruct (registerNeuron_fields org p n) as (Hn & Hy & Hcn & _).
  destruct (registerNeuron_lists org p n) as (Hsl & Hol).
  assert (Hns : n_id n ∉ sensors org).
  { intros Hx. destruct Hs as [Hb _].
    pose proof (Hfresh _ (built_sensors w org _ Hb Hx)). lia. }
  assert (Hno : n_id n ∉ outputs org).
  { intros Hx. destruct Hs as [Hb _].
    pose proof (Hfresh _ (built_outputs w org _ Hb Hx)). lia. }
  constructor.
  - apply sound_registerNeuron; assumption.
  - split.
    + intros id. rewrite Hn. destruct (decide (n_id n = id)) as [<-|Hne];
        [intros _; exact Hle|].
      rewrite lookup_insert_ne by exact Hne. apply Hin.
    + split; [intros id; rewrite Hy; apply His|].
      intros id. rewrite Hcn. apply Hic.
  - rewrite Hsl. destruct (decide (n_kind n = sensorNeuron));
      [|rewrite app_nil_r; exact Hse].
    apply NoDup_app. split; [exact Hse|]. split; [|apply NoDup_singleton].
    intros x Hx Hx'. apply list_elem_of_singleton in Hx'. subst x. auto.
  - rewrite Hol. destruct (decide (n_kind n = outputNeuron));
      [|rewrite app_nil_r; exact Hou].
    apply NoDup_app. split; [exact Hou|]. split; [|apply NoDup_singleton].
    intros x Hx Hx'. apply list_elem_of_singleton in Hx'. subst x. auto.
  - intros id. rewrite Hsl, Hol, !elem_of_app. intros [Hx|Hx] [Hx'|Hx'].
    + exact (Hdi id Hx Hx').
    + destruct (decide (n_kind n = outputNeuron)); [|inversion Hx'].
      apply list_elem_of_singleton in Hx'. subst id. auto.
    + destruct (decide (n_kind n = sensorNeuron)); [|inversion Hx].
      apply list_elem_of_singleton in Hx. subst id. auto.
    + destruct (decide (n_kind n = sensorNeuron)) as [Hk|]; [|inversion Hx].
      destruct (decide (n_kind n = outputNeuron)) as [Hk'|]; [|inversion Hx'].
      congruence.
  - intros sid q s. rewrite Hy, Hsl. intros Hsid Hq.
    rewrite elem_of_app. intros [Hx|Hx]; [exact (Hta sid q s Hsid Hq Hx)|].
    destruct (decide _); [|inversion Hx].
    apply list_elem_of_singleton in Hx.
    destruct Hs as [_ Hc]. destruct (Hc sid q s Hsid Hq) as [_ Ho].
    pose proof (Hfresh _ Ho). lia.
Qed.

Lemma wellformed_registerSynapse w org p (s : synapse F) :
  wellformed w org → synapseHeap w !! p = Some s →
  is_Some (neurons org !! s_in s) → is_Some (neurons org !! s_out s) →
  s_out s ∉ sensors org →
  (s_id s <= idCount w)%N →
  wellformed w (registerSynapse org p s).
Proof.
  intros [Hs (Hin & His & Hic) Hse Hou Hdi Hta] Hp Hi Ho Hout Hle. constructor.
  - apply sound_registerSynapse; assumption.
  - split; [exact Hin|]. split; intros id; unfold registerSynapse; simpl.
    + destruct (decide (s_id s = id)) as [<-|Hne]; [intros _; exact Hle|].
      rewrite lookup_insert_ne by exact Hne. apply His.
    + destruct (decide (s_in s = id)) as [<-|Hne]; [intros _; exact (Hin _ Hi)|].
      rewrite lookup_insert_ne by exact Hne. apply Hic.
  - exact Hse.
  - exact Hou.
  - exact Hdi.
  - intros sid q s'. unfold registerSynapse. simpl.
    destruct (decide (s_id s = sid)) as [<-|Hne].
    + rewrite lookup_insert_eq. intros [= <-]. rewrite Hp. intros [= <-].
      exact Hout.
    + rewrite lookup_insert_ne by exact Hne. apply Hta.
Qed.

Lemma ascending_snoc vs (v : gene_value F) (c : N) :
  strictly_ascending vs →
  Forall (fun v0 => (innovation_of v0 <= c)%N) vs →
  (c < innovation_of v)%N →
  strictly_ascending (vs ++ [v]).
Proof.
  unfold strictly_ascending. induction vs as [|v0 vs IH]; intros Hs Hall Hlt.
  - repeat constructor.
  - apply Sorted_inv in Hs as [Hs Hhd]. apply Forall_cons in Hall as [Hle Hall].
    simpl. constructor; [apply IH; assumption|].
    destruct vs as [|v1 vs]; simpl; constructor.
    + unfold innovation_lt. lia.
    + apply HdRel_inv in Hhd. exact Hhd.
Qed.

Lemma numbered_upto_snoc w (gs : list gene) (g : gene) (v : gene_value F)
    (c : N) vs :
  genes_read w gs vs → strictly_ascending vs →
  Forall (fun v0 => (innovation_of v0 <= c)%N) vs →
  read_gene w g = Some v → (c < innovation_of v)%N →
  genes_read w (gs ++ [g]) (vs ++ [v])
  ∧ strictly_ascending (vs ++ [v])
  ∧ Forall (fun v0 => (innovation_of v0 <= innovation_of v)%N) (vs ++ [v]).
Proof.
  intros Hread Hasc Hall Hg Hlt.
  split; [apply Forall2_app; [exact Hread|constructor; [exact Hg|constructor]]|].
  split; [eapply ascending_snoc; eassumption|].
  apply Forall_app. split.
  - eapply Forall_impl; [exact Hall|]. simpl. intros v0 Hv0. lia.
  - constructor; [lia|constructor].
Qed.

Lemma numbered_registerNeuron w org p (n : neuron F) (c : N) :
  numbered_upto w org c → neuronHeap w !! p = Some n →
  (c < n_innovation n)%N →
  numbered_upto w (registerNeuron org p n) (n_innovation n).
Proof.
  intros (vs & Hread & Hasc & Hall) Hp Hlt.
  destruct (registerNeuron_fields org p n) as (_ & _ & _ & Hg).
  exists (vs ++ [VNeuron n]). rewrite Hg.
  apply (numbered_upto_snoc w (genes org) (GNeuron p) (VNeuron n) c vs);
    try assumption.
  simpl. rewrite Hp. reflexivity.
Qed.

Lemma numbered_registerSynapse w org p (s : synapse F) (c : N) :
  numbered_upto w org c → synapseHeap w !! p = Some s →
  (c < s_innovation s)%N →
  numbered_upto w (registerSynapse org p s) (s_innovation s).
Proof.
  intros (vs & Hread & Hasc & Hall) Hp Hlt.
  exists (vs ++ [VSynapse s]). unfold registerSynapse. simpl.
  apply (numbered_upto_snoc w (genes org) (GSynapse p) (VSynapse s) c vs);
    try assumption.
  simpl. rewrite Hp. reflexivity.
Qed.

End Wellformed.

(** * [process] on a well-formed genome *)

Section Succeeds.

Context {F : Type} {FF : Float64 F}.

Variable config : OrganismConfig F.
Variable org : organism F.

Implicit Types (w : world F).

Let calm : failure → bool :=
  fun f => match f with ByPanic => false | _ => true end.

(** The connections of a genome only list synapses of the genome. *)
Lemma built_connections w (o : organism F) nid l sid :
  built w o → connections o !! nid = Some l → sid ∈ l →
  is_Some (synapses o !! sid).
Proof.
  intros Hb. revert l.
  induction Hb as [gen fit|o q n _ IH Hq|o q s _ IH Hq]; intros l; simpl.
  - rewrite lookup_empty. discriminate.
  - destruct (registerNeuron_fields o q n) as (_ & Hs & Hc & _).
    rewrite Hs, Hc. apply IH.
  - destruct (decide (s_in s = nid)) as [<-|Hne].
    + rewrite lookup_insert_eq. intros [= <-]. rewrite elem_of_app.
      intros [Hin|Hin].
      * apply lookup_insert_is_Some'. right.
        destruct (connections o !! s_in s) as [l0|] eqn:Hl0; simpl in Hin.
        -- exact (IH l0 eq_refl Hin).
        -- inversion Hin.
      * apply list_elem_of_singleton in Hin. subst sid.
        rewrite lookup_insert_eq. eauto.
    + rewrite lookup_insert_ne by exact Hne. intros Hl Hin.
      apply lookup_insert_is_Some'. right. exact (IH l Hl Hin).
Qed.

(** A queue of neurons of the genome. *)
Definition queue_live (q : squeue) : Prop :=
  ∃ ids, q = queue_of org ids ∧ Forall (fun id => is_Some (neurons org !! id)) ids.

Lemma derefN_calm id w :
  built w org → is_Some (neurons org !! id) →
  post calm (fun n w' => w' = w ∧ n_id n = id) (derefN (neurons org !! id) w).
Proof.
  intros Hb [p Hp]. rewrite Hp.
  destruct (built_neurons w org id p Hb Hp) as (n & Hn & Hid).
  unfold derefN. rewrite Hn. simpl. auto.
Qed.

Lemma derefS_calm sid w :
  built w org → is_Some (synapses org !! sid) →
  post calm (fun s w' => w' = w ∧ ∃ p, synapses org !! sid = Some p
                                      ∧ synapseHeap w !! p = Some s)
    (derefS (synapses org !! sid) w).
Proof.
  intros Hb [p Hp]. rewrite Hp.
  destruct (built_synapses w org sid p Hb Hp) as (s & Hs & _).
  unfold derefS. rewrite Hs. simpl. eauto.
Qed.

Lemma updateN_calm id (f : neuron F → neuron F) w :
  sound w org → is_Some (neurons org !! id) → keeps_identity f →
  post calm (fun _ w' => sound w' org) (updateN (neurons org !! id) f w).
Proof.
  intros [Hb Hc] [p Hp] Hf. rewrite Hp.
  destruct (built_neurons w org id p Hb Hp) as (n & Hn & Hid).
  unfold updateN. rewrite Hn. simpl. split.
  - eapply built_same_identity; [|exact Hb]. split.
    + intros q m Hq. simpl. destruct (decide (q = p)) as [->|Hne].
      * exists (f n). rewrite list_lookup_insert_eq
          by (eapply lookup_lt_Some; eauto).
        rewrite Hn in Hq. injection Hq as <-. split; [reflexivity|apply Hf].
      * exists m. rewrite list_lookup_insert_ne by congruence. auto.
    + intros q s Hq. exists s. auto.
  - exact Hc.
Qed.

Ltac identity_update := intros ?; split; reflexivity.

Lemma propagate_synapse_calm nid (q : squeue) sid w :
  sound w org → is_Some (neurons org !! nid) → queue_live q →
  is_Some (synapses org !! sid) →
  post calm (fun q' w' => sound w' org ∧ queue_live q')
    (propagate_synapse org (neurons org !! nid) q sid w).
Proof.
  intros Hs Hn Hq Hsid. unfold propagate_synapse, getSynapse.
  eapply post_bind; [apply derefS_calm; [apply Hs|exact Hsid]|].
  intros s ? (-> & p & Hp & Hsp).
  destruct (s_enabled s); [|simpl; auto].
  eapply post_bind; [apply derefN_calm; [apply Hs|exact Hn]|].
  intros nv ? (-> & _).
  destruct Hs as [Hb Hc]. destruct (Hc sid p s Hp Hsp) as [_ Hout].
  eapply post_bind; [apply derefN_calm; [exact Hb|exact Hout]|].
  intros o ? (-> & _).
  destruct (n_visited o).
  - eapply post_bind;
      [apply updateN_calm; [split; assumption|exact Hout|identity_update]|].
    intros ? w1 Hs1. simpl. auto.
  - eapply post_bind;
      [apply updateN_calm; [split; assumption|exact Hout|identity_update]|].
    intros ? w1 Hs1. destruct (negb (n_seen o)); [|simpl; auto].
    eapply post_bind; [apply updateN_calm; [exact Hs1|exact Hout|identity_update]|].
    intros ? w2 Hs2. simpl. split; [exact Hs2|].
    destruct Hq as (ids & -> & Hids). exists (ids ++ [s_out s]).
    split; [unfold queue_of, Push; rewrite fmap_app; reflexivity|].
    apply Forall_app. split; [exact Hids|]. constructor; [exact Hout|constructor].
Qed.

Lemma propagate_visit_calm (q : squeue) w :
  sound w org → queue_live q → q ≠ [] →
  post calm (fun q' w' => sound w' org ∧ queue_live q')
    (propagate_visit config org q w).
Proof.
  intros Hs (ids & -> & Hids) Hne. unfold propagate_visit.
  destruct ids as [|id ids]; [contradiction|].
  apply Forall_cons in Hids as [Hid Hids].
  simpl queue_of. unfold Pop, bind at 1, ret. simpl fst. simpl snd.
  eapply post_bind; [apply derefN_calm; [apply Hs|exact Hid]|].
  intros nv ? (-> & Hnv).
  destruct (n_visited nv); [reflexivity|].
  eapply post_bind; [apply updateN_calm; [exact Hs|exact Hid|identity_update]|].
  intros ? w1 Hs1.
  eapply post_bind; [apply updateN_calm; [exact Hs1|exact Hid|identity_update]|].
  intros ? w2 Hs2.
  apply (post_for_fold calm (fun q' w' => sound w' org ∧ queue_live q')).
  - split; [exact Hs2|]. exists ids. auto.
  - intros sid q' w3 Hin [Hs3 Hq3].
    apply propagate_synapse_calm; try assumption.
    destruct (connections org !! n_id nv) as [l|] eqn:Hl; simpl in Hin;
      [|inversion Hin].
    destruct Hs3 as [Hb3 _]. exact (built_connections w3 org _ l sid Hb3 Hl Hin).
Qed.

Lemma propagate_loop_calm (fuel : nat) (q : squeue) w :
  sound w org → queue_live q →
  post calm (fun _ w' => sound w' org) (propagate_loop config fuel org q w).
Proof.
  revert q w. induction fuel as [|fuel IH]; intros q w Hs Hq; simpl.
  - destruct (0 <? Size q); [reflexivity|exact Hs].
  - destruct (0 <? Size q) eqn:Hsz; [|exact Hs].
    eapply post_bind.
    + apply propagate_visit_calm; [exact Hs|exact Hq|].
      intros ->. discriminate.
    + intros q' w' [Hs' Hq']. apply IH; assumption.
Qed.

Lemma process_calm (input : list F) w :
  sound w org →
  post calm (fun _ w' => sound w' org) (process config org input w).
Proof.
  intros Hs. unfold process.
  destruct (negb (length input =? length (sensors org))); [reflexivity|].
  eapply post_bind.
  { apply (post_for_do calm (fun w' => sound w' org)); [exact Hs|].
    intros [k p] w1 Hkp Hs1. apply elem_of_map_to_list in Hkp.
    change (post calm (fun (_ : unit) w' => sound w' org)
              (updateN (Some p) clear_neuron w1)).
    rewrite <- Hkp.
    apply updateN_calm; [exact Hs1|rewrite Hkp; eauto|identity_update]. }
  intros ? w1 Hs1. simpl in Hs1.
  eapply post_bind.
  { apply (post_for_do calm (fun w' => sound w' org)); [exact Hs1|].
    intros [id x] w2 Hin Hs2. simpl.
    apply updateN_calm; [exact Hs2| |identity_update].
    destruct Hs2 as [Hb2 _]. apply (built_sensors w2 org id Hb2).
    apply elem_of_zip_l in Hin. exact Hin. }
  intros ? w2 Hs2. simpl in Hs2.
  eapply post_bind.
  { apply propagate_loop_calm; [exact Hs2|].
    exists (sensors org). split; [apply initial_queue_of|].
    apply Forall_forall. intros id Hid. destruct Hs2 as [Hb2 _].
    exact (built_sensors w2 org id Hb2 Hid). }
  intros ? w3 Hs3.
  eapply post_weaken;
    [|apply (post_for_map calm (fun w' => sound w' org) (fun _ _ => True))].
  - intros out w4 [_ Hs4]. exact Hs4.
  - exact Hs3.
  - intros id w4 Hid Hs4.
    eapply post_bind.
    + apply derefN_calm; [apply Hs4|]. destruct Hs4 as [Hb4 _].
      exact (built_outputs w4 org id Hb4 Hid).
    + intros n ? (-> & _). simpl. auto.
Qed.

(** On a well-formed genome a call with one input per sensor returns, with
    one output per output neuron, and leaves the genome well-formed. *)
Lemma process_wellformed (input : list F) w :
  wellformed w org →
  length input = length (sensors org) →
  ∃ out w',
    process config org input w = Done out w'
    ∧ length out = length (outputs org)
    ∧ wellformed w' org
    ∧ (numbered w org → numbered w' org).
Proof.
  intros Hwf Hlen.
  pose proof (process_calm input w (wf_sound _ _ Hwf)) as Hcalm.
  pose proof (process_footprint config org input w) as Hfoot.
  pose proof (process_never_revisits config org input w
                (proj1 (wf_sound _ _ Hwf)) (wf_sensors _ _ Hwf)
                (wf_targets _ _ Hwf) Hlen) as Hsafe.
  destruct (process config org input w) as [out w'| | |] eqn:Hrun;
    simpl in Hcalm, Hfoot, Hsafe; try contradiction; try discriminate.
  destruct (process_done_footprint config org input out w w' Hrun)
    as (Hout & Hsyn & _ & (Hid & Hinn & _) & Hneu & _).
  assert (Hst : same_structure w w').
  { split; [exact Hneu|]. intros p s Hp. exists s. rewrite Hsyn. auto 6. }
  exists out, w'. split; [reflexivity|]. split; [exact Hout|].
  split; [eapply wellformed_same_structure; [exact Hst| |exact Hwf]; lia|].
  unfold numbered. rewrite Hinn.
  apply numbered_upto_same_structure; [exact Hst|lia].
Qed.

End Succeeds.

(** * Growing a genome: [newOrganism] *)

Section Growth.

Context {F : Type} {FF : Float64 F}.

Implicit Types (w : world F) (org : organism F).

Let anyhow : failure → bool := fun _ => true.

(** A loop invariant for [for_fold] that knows the iteration number. *)
Lemma post_for_fold_indexed {A B} (I : nat → B → world F → Prop)
    (body : B → A → M F B) (l : list A) acc w :
  I 0 acc w →
  (∀ i x acc w, l !! i = Some x → I i acc w →
     post anyhow (I (S i)) (body acc x w)) →
  post anyhow (I (length l)) (for_fold body acc l w).
Proof.
  revert I acc w. induction l as [|x l IH]; intros I acc w H0 Hstep; simpl.
  - exact H0.
  - eapply post_bind; [apply (Hstep 0 x acc w eq_refl H0)|].
    intros acc1 w1 H1. apply (IH (fun i => I (S i))); [exact H1|].
    intros i y acc2 w2 Hy Hi. apply (Hstep (S i) y acc2 w2 Hy Hi).
Qed.

(** The counters have room for [k] more draws before they wrap around. *)
Definition room w (k : nat) : Prop :=
  (idCount w + N.of_nat k < 2 ^ 64)%N
  ∧ (innovationCount w + N.of_nat k < 2 ^ 64)%N.

Lemma uint64_add_room (c : N) : (c + 1 < 2 ^ 64)%N → uint64_add c 1 = (c + 1)%N.
Proof. intros H. unfold uint64_add. apply N.mod_small. exact H. Qed.

Lemma uint64_add_twice (c : N) :
  (c + 2 < 2 ^ 64)%N → uint64_add (uint64_add c 1) 1 = (c + 2)%N.
Proof.
  intros H. rewrite (uint64_add_room c) by lia.
  rewrite uint64_add_room by lia. lia.
Qed.

Lemma uint64_add_thrice (c : N) :
  (c + 3 < 2 ^ 64)%N →
  uint64_add (uint64_add (uint64_add c 1) 1) 1 = (c + 3)%N.
Proof.
  intros H. rewrite (uint64_add_twice c) by lia.
  rewrite uint64_add_room by lia. lia.
Qed.

(** [w'] is [k] gene creations after [w]. *)
Definition advanced w (k : nat) w' : Prop :=
  idCount w' = (idCount w + N.of_nat k)%N
  ∧ innovationCount w' = (innovationCount w + N.of_nat k)%N
  ∧ randCalls w' = randCalls w.

Lemma wellformed_empty w gen fit :
  wellformed w (mkOrganism [] [] ∅ ∅ ∅ [] gen fit)
  ∧ numbered w (mkOrganism [] [] ∅ ∅ ∅ [] gen fit).
Proof.
  split.
  - constructor; simpl.
    + split; [constructor|]. intros sid p s. simpl. rewrite lookup_empty.
      discriminate.
    + split; [|split]; intros id [x Hx]; simpl in Hx;
        rewrite lookup_empty in Hx; discriminate.
    + constructor.
    + constructor.
    + intros id Hid. inversion Hid.
    + intros sid p s. simpl. rewrite lookup_empty. discriminate.
  - exists []. split; [constructor|]. split; constructor.
Qed.

(** One more neuron, created and added. *)
Lemma grow_neuron (k : neuronKind) org w :
  wellformed w org → numbered w org → room w 1 →
  wellformed (copy_into org (VNeuron (fresh_neuron k w)) (bump w)).2
    (copy_into org (VNeuron (fresh_neuron k w)) (bump w)).1
  ∧ numbered (copy_into org (VNeuron (fresh_neuron k w)) (bump w)).2
      (copy_into org (VNeuron (fresh_neuron k w)) (bump w)).1
  ∧ advanced w 1 (copy_into org (VNeuron (fresh_neuron k w)) (bump w)).2.
Proof.
  intros Hwf Hnum [Hid Hinn].
  set (n := fresh_neuron k w).
  set (w' := set_neuronHeap (neuronHeap (bump w) ++ [n]) (bump w)).
  assert (Hext : extends w w').
  { split; simpl; [apply prefix_app_r|]; reflexivity. }
  assert (Hidc : idCount w' = (idCount w + 1)%N) by (apply uint64_add_room, Hid).
  assert (Hinc : innovationCount w' = (innovationCount w + 1)%N)
    by (apply uint64_add_room, Hinn).
  assert (Hp : neuronHeap w' !! length (neuronHeap w) = Some n)
    by (apply list_lookup_middle; reflexivity).
  split; [|split].
  - apply wellformed_registerNeuron.
    + apply (wellformed_same_structure w w' org
               (extends_same_structure _ _ Hext)); [lia|exact Hwf].
    + exact Hp.
    + intros id Hsome. pose proof (proj1 (wf_ids _ _ Hwf) id Hsome).
      change (id < idCount w')%N. lia.
    + exact (N.le_refl (idCount w')).
  - change (numbered_upto w' (registerNeuron org (length (neuronHeap w)) n)
              (n_innovation n)).
    apply (numbered_registerNeuron w' org _ n (innovationCount w)).
    + apply (numbered_upto_same_structure w w' org (innovationCount w)
               (innovationCount w) (extends_same_structure _ _ Hext));
        [lia|exact Hnum].
    + exact Hp.
    + change (innovationCount w < innovationCount w')%N. lia.
  - change (advanced w 1 w'). unfold advanced.
    split; [rewrite Hidc; lia|]. split; [rewrite Hinc; lia|reflexivity].
Qed.

(** One more synapse, created between two neurons of the genome and
    added. *)
Lemma grow_synapse (ni no : neuron F) org w :
  wellformed w org → numbered w org → room w 1 →
  is_Some (neurons org !! n_id ni) → is_Some (neurons org !! n_id no) →
  n_id no ∉ sensors org →
  wellformed (copy_into org (VSynapse (fresh_synapse ni no w)) (bump w)).2
    (copy_into org (VSynapse (fresh_synapse ni no w)) (bump w)).1
  ∧ numbered (copy_into org (VSynapse (fresh_synapse ni no w)) (bump w)).2
      (copy_into org (VSynapse (fresh_synapse ni no w)) (bump w)).1
  ∧ advanced w 1 (copy_into org (VSynapse (fresh_synapse ni no w)) (bump w)).2.
Proof.
  intros Hwf Hnum [Hid Hinn] Hi Ho Hout.
  set (s := fresh_synapse ni no w).
  set (w' := set_synapseHeap (synapseHeap (bump w) ++ [s]) (bump w)).
  assert (Hext : extends w w').
  { split; simpl; [|apply prefix_app_r]; reflexivity. }
  assert (Hidc : idCount w' = (idCount w + 1)%N) by (apply uint64_add_room, Hid).
  assert (Hinc : innovationCount w' = (innovationCount w + 1)%N)
    by (apply uint64_add_room, Hinn).
  assert (Hp : synapseHeap w' !! length (synapseHeap w) = Some s)
    by (apply list_lookup_middle; reflexivity).
  split; [|split].
  - apply wellformed_registerSynapse; try assumption.
    + apply (wellformed_same_structure w w' org
               (extends_same_structure _ _ Hext)); [lia|exact Hwf].
    + exact (N.le_refl (idCount w')).
  - change (numbered_upto w' (registerSynapse org (length (synapseHeap w)) s)
              (s_innovation s)).
    apply (numbered_registerSynapse w' org _ s (innovationCount w)).
    + apply (numbered_upto_same_structure w w' org (innovationCount w)
               (innovationCount w) (extends_same_structure _ _ Hext));
        [lia|exact Hnum].
    + exact Hp.
    + change (innovationCount w < innovationCount w')%N. lia.
  - change (advanced w 1 w'). unfold advanced.
    split; [rewrite Hidc; lia|]. split; [rewrite Hinc; lia|reflexivity].
Qed.

Lemma advanced_step w0 (k : nat) w w' :
  advanced w0 k w → advanced w 1 w' → advanced w0 (S k) w'.
Proof.
  intros (H1 & H2 & H3) (H1' & H2' & H3'). unfold advanced.
  rewrite H1', H2', H3', H1, H2, H3. repeat split; lia.
Qed.

Lemma room_step w0 (k total : nat) w :
  room w0 total → advanced w0 k w → k < total → room w 1.
Proof.
  intros [Hid Hinn] (H1 & H2 & _) Hlt. unfold room. rewrite H1, H2. lia.
Qed.

(** The invariant of the three loops of [newOrganism]. *)
Definition grown w0 (k : nat) org w : Prop :=
  wellformed w org ∧ numbered w org ∧ advanced w0 k w.

Lemma neuron_loop_grown (kind : neuronKind) (count base total : nat) w0 org w :
  room w0 total → base + count ≤ total →
  grown w0 base org w →
  post anyhow (grown w0 (base + count))
    (for_fold (fun org (_ : nat) => n <- _newNeuron kind ;; addNeuron org (Some n))
       org (seq 0 count) w).
Proof.
  intros Hroom Hle Hg.
  eapply post_weaken;
    [|apply (post_for_fold_indexed (fun i => grown w0 (base + i)))].
  - intros o w'. rewrite length_seq. auto.
  - rewrite Nat.add_0_r. exact Hg.
  - intros i x o w1 Hx (Hwf & Hnum & Hadv).
    apply lookup_lt_Some in Hx. rewrite length_seq in Hx.
    rewrite newNeuron_add. unfold copied. simpl post.
    destruct (grow_neuron kind o w1 Hwf Hnum) as (Hwf' & Hnum' & Hadv').
    { eapply room_step; [exact Hroom|exact Hadv|lia]. }
    split; [exact Hwf'|]. split; [exact Hnum'|].
    rewrite Nat.add_succ_r. eapply advanced_step; eassumption.
Qed.

Lemma int_rem_post (a b : Z) w :
  post anyhow (fun _ w' => w' = w) (int_rem (F:=F) a b w).
Proof. unfold int_rem. destruct (b =? 0)%Z; reflexivity. Qed.

Lemma index_post {A} (l : list A) (i : Z) w :
  post anyhow (fun x w' => w' = w ∧ x ∈ l) (index (F:=F) l i w).
Proof.
  unfold index. destruct (i <? 0)%Z; [reflexivity|].
  destruct (l !! Z.to_nat i) as [x|] eqn:Hx; [|reflexivity].
  simpl. split; [reflexivity|]. eapply list_elem_of_lookup_2. exact Hx.
Qed.

Lemma synapse_loop_grown (nInputs nOutputs : Z) (count base total : nat)
    w0 org w :
  room w0 total → base + count ≤ total →
  grown w0 base org w →
  post anyhow (grown w0 (base + count))
    (for_fold (fun org (i : nat) =>
                 a <- int_rem (Z.of_nat i) nInputs ;;
                 sid <- index (sensors org) a ;;
                 let in_ := neurons org !! sid in
                 b <- int_rem (Z.of_nat i) nOutputs ;;
                 oid <- index (outputs org) b ;;
                 let out := neurons org !! oid in
                 s <- newSynapse in_ out ;;
                 addSynapse org (Some s))
       org (seq 0 count) w).
Proof.
  intros Hroom Hle Hg.
  eapply post_weaken;
    [|apply (post_for_fold_indexed (fun i => grown w0 (base + i)))].
  - intros o w'. rewrite length_seq. auto.
  - rewrite Nat.add_0_r. exact Hg.
  - intros i x o w1 Hx (Hwf & Hnum & Hadv).
    apply lookup_lt_Some in Hx. rewrite length_seq in Hx.
    eapply post_bind; [apply int_rem_post|]. intros a ? ->.
    eapply post_bind; [apply index_post|]. intros sid ? [-> Hsid].
    eapply post_bind; [apply int_rem_post|]. intros b ? ->.
    eapply post_bind; [apply index_post|]. intros oid ? [-> Hoid].
    pose proof (proj1 (wf_sound _ _ Hwf)) as Hb.
    destruct (built_sensors w1 o sid Hb Hsid) as [pi Hpi].
    destruct (built_outputs w1 o oid Hb Hoid) as [po Hpo].
    destruct (built_neurons w1 o sid pi Hb Hpi) as (ni & Hni & Hii).
    destruct (built_neurons w1 o oid po Hb Hpo) as (no & Hno & Hoo).
    rewrite Hpi, Hpo.
    rewrite (newSynapse_add o pi po ni no w1 Hni Hno). unfold copied. simpl post.
    destruct (grow_synapse ni no o w1 Hwf Hnum) as (Hwf' & Hnum' & Hadv').
    { eapply room_step; [exact Hroom|exact Hadv|lia]. }
    { rewrite Hii, Hpi. eauto. }
    { rewrite Hoo, Hpo. eauto. }
    { rewrite Hoo. intros Hx'. exact (wf_disjoint _ _ Hwf oid Hx' Hoid). }
    split; [exact Hwf'|]. split; [exact Hnum'|].
    rewrite Nat.add_succ_r. eapply advanced_step; eassumption.
Qed.

(** The genome [newOrganism] returns is well-formed and numbered, and the
    call creates exactly [nInputs + nOutputs + max(nInputs, nOutputs)]
    genes. *)
Lemma newOrganism_grown (nInputs nOutputs : Z) w :
  (1 <= nInputs)%Z → (1 <= nOutputs)%Z →
  room w (Z.to_nat nInputs + Z.to_nat nOutputs + Z.to_nat (max nInputs nOutputs)) →
  ∃ org w',
    newOrganism nInputs nOutputs w = Done org w'
    ∧ grown w (Z.to_nat nInputs + Z.to_nat nOutputs
               + Z.to_nat (max nInputs nOutputs)) org w'.
Proof.
  intros HnI HnO Hroom.
  destruct (newOrganism_spec nInputs nOutputs w HnI HnO)
    as (org & w' & _ & _ & _ & Hrun & _).
  exists org, w'. split; [exact Hrun|].
  set (total := Z.to_nat nInputs + Z.to_nat nOutputs
                + Z.to_nat (max nInputs nOutputs)) in *.
  assert (Hpost : post anyhow (grown w total) (newOrganism nInputs nOutputs w)).
  { unfold newOrganism.
    eapply post_bind.
    { apply (neuron_loop_grown sensorNeuron (Z.to_nat nInputs) 0 total w);
        [exact Hroom|unfold total; lia|].
      destruct (wellformed_empty w 0%Z f_zero) as [Hwf Hnum].
      split; [exact Hwf|]. split; [exact Hnum|].
      unfold advanced. repeat split; lia. }
    intros o1 w1 Hg1. simpl in Hg1.
    eapply post_bind.
    { apply (neuron_loop_grown outputNeuron (Z.to_nat nOutputs)
               (Z.to_nat nInputs) total w);
        [exact Hroom|unfold total; lia|exact Hg1]. }
    intros o2 w2 Hg2.
    apply (synapse_loop_grown nInputs nOutputs
             (Z.to_nat (max nInputs nOutputs))
             (Z.to_nat nInputs + Z.to_nat nOutputs) total w);
      [exact Hroom|unfold total; lia|exact Hg2]. }
  rewrite Hrun in Hpost. exact Hpost.
Qed.

End Growth.

(** * Growing a genome: [splitSynapse] *)

Section Split.

Context {F : Type} {FF : Float64 F}.

Implicit Types (w : world F) (org : organism F).

(** The state after [splitSynapse] has split the synapse [s] at address
    [p], which runs from neuron [ni] to neuron [no]: a hidden neuron and
    two synapses are created, in this order, and [s] is disabled. *)
Definition split_neuron w : neuron F := fresh_neuron hiddenNeuron w.

Definition split_world1 w : world F :=
  set_neuronHeap (neuronHeap w ++ [split_neuron w]) (bump w).

Definition split_in (ni : neuron F) w : synapse F :=
  fresh_synapse ni (split_neuron w) (split_world1 w).

Definition split_world2 (ni : neuron F) w : world F :=
  set_synapseHeap (synapseHeap w ++ [split_in ni w]) (bump (split_world1 w)).

Definition split_out (ni no : neuron F) w : synapse F :=
  fresh_synapse (split_neuron w) no (split_world2 ni w).

Definition split_world3 (ni no : neuron F) w : world F :=
  set_synapseHeap (synapseHeap (split_world2 ni w) ++ [split_out ni no w])
    (bump (split_world2 ni w)).

Definition split_world (p : ptr) (s : synapse F) (ni no : neuron F) w
  : world F :=
  set_synapseHeap
    (<[p := set_enabled false s]> (synapseHeap (split_world3 ni no w)))
    (split_world3 ni no w).

Definition split_organism (ni no : neuron F) org w : organism F :=
  registerSynapse
    (registerSynapse
       (registerNeuron org (length (neuronHeap w)) (split_neuron w))
       (length (synapseHeap w)) (split_in ni w))
    (length (synapseHeap (split_world2 ni w))) (split_out ni no w).

Lemma newSynapse_run (pi po : ptr) (ni no : neuron F) w :
  neuronHeap w !! pi = Some ni → neuronHeap w !! po = Some no →
  newSynapse (Some pi) (Some po) w
  = Done (length (synapseHeap w))
      (set_synapseHeap (synapseHeap w ++ [fresh_synapse ni no w]) (bump w)).
Proof.
  intros Hi Ho.
  unfold newSynapse, bind, nextID, nextInnovation, allocS, derefN. simpl.
  rewrite Hi. simpl. rewrite Ho. reflexivity.
Qed.

Lemma newHiddenNeuron_run w :
  newHiddenNeuron w = Done (length (neuronHeap w)) (split_world1 w).
Proof. reflexivity. Qed.

Lemma splitSynapse_run org (id : N) (p pi po : ptr) (s : synapse F)
    (ni no : neuron F) w :
  synapses org !! id = Some p → synapseHeap w !! p = Some s →
  neurons org !! s_in s = Some pi → neuronHeap w !! pi = Some ni →
  neurons org !! s_out s = Some po → neuronHeap w !! po = Some no →
  splitSynapse org id w
  = Done (split_organism ni no org w) (split_world p s ni no w).
Proof.
  intros Hid Hp Hin Hni Hout Hno.
  assert (H1 : synapseEndpoints org id w = Done (Some pi, Some po) w).
  { unfold synapseEndpoints, getSynapse, bind, derefS. rewrite Hid, Hp.
    simpl. rewrite Hin, Hout. reflexivity. }
  assert (Hh : neuronHeap (split_world1 w) !! length (neuronHeap w)
               = Some (split_neuron w))
    by (apply list_lookup_middle; reflexivity).
  assert (H3 : newSynapse (Some pi) (Some (length (neuronHeap w)))
                 (split_world1 w)
               = Done (length (synapseHeap w)) (split_world2 ni w)).
  { rewrite (newSynapse_run pi _ ni (split_neuron w) (split_world1 w));
      [reflexivity| |exact Hh].
    simpl. apply lookup_app_l_Some. exact Hni. }
  assert (H4 : newSynapse (Some (length (neuronHeap w))) (Some po)
                 (split_world2 ni w)
               = Done (length (synapseHeap (split_world2 ni w)))
                   (split_world3 ni no w)).
  { rewrite (newSynapse_run _ po (split_neuron w) no (split_world2 ni w));
      [reflexivity|exact Hh|].
    simpl. apply lookup_app_l_Some. exact Hno. }
  assert (H5 : updateS (synapses org !! id) (set_enabled false)
                 (split_world3 ni no w)
               = Done tt (split_world p s ni no w)).
  { unfold updateS. rewrite Hid. simpl.
    rewrite (lookup_app_l_Some _ _ _ s); [reflexivity|].
    apply lookup_app_l_Some. exact Hp. }
  assert (Hlt : p < length (synapseHeap w)) by (eapply lookup_lt_Some; eauto).
  unfold splitSynapse.
  rewrite (bind_Done _ _ _ _ _ H1). simpl fst. simpl snd.
  rewrite (bind_Done _ _ _ _ _ (newHiddenNeuron_run w)).
  rewrite (bind_Done _ _ _ _ _ H3), (bind_Done _ _ _ _ _ H4).
  rewrite (bind_Done _ _ _ _ _ H5).
  rewrite (bind_Done _ _ _ _ _
             (addNeuron_spec org _ (split_neuron w) (split_world p s ni no w) Hh)).
  assert (Hsi : synapseHeap (split_world p s ni no w) !! length (synapseHeap w)
                = Some (split_in ni w)).
  { simpl. rewrite list_lookup_insert_ne by lia.
    apply lookup_app_l_Some. apply list_lookup_middle. reflexivity. }
  assert (Hso : synapseHeap (split_world p s ni no w)
                  !! length (synapseHeap (split_world2 ni w))
                = Some (split_out ni no w)).
  { simpl. rewrite list_lookup_insert_ne by (rewrite length_app; simpl; lia).
    apply list_lookup_middle. reflexivity. }
  rewrite (bind_Done _ _ _ _ _ (addSynapse_spec _ _ _ _ Hsi)).
  apply addSynapse_spec. exact Hso.
Qed.

Lemma same_structure_set_synapse (p : ptr) (s s' : synapse F) w :
  synapseHeap w !! p = Some s →
  s_id s' = s_id s → s_in s' = s_in s → s_out s' = s_out s →
  s_innovation s' = s_innovation s →
  same_structure w (set_synapseHeap (<[p := s']> (synapseHeap w)) w).
Proof.
  intros Hp H1 H2 H3 H4. split; [intros q n Hq; exists n; auto|].
  intros q x Hq. simpl. destruct (decide (q = p)) as [->|Hne].
  - exists s'. rewrite list_lookup_insert_eq by (eapply lookup_lt_Some; eauto).
    rewrite Hp in Hq. injection Hq as <-. auto.
  - exists x. rewrite list_lookup_insert_ne by congruence. auto 6.
Qed.

(** [splitSynapse] on a well-formed genome. *)
Lemma splitSynapse_grown org (id : N) (p : ptr) w :
  wellformed w org → numbered w org → room w 3 →
  synapses org !! id = Some p →
  ∃ s pi po ni no,
    synapseHeap w !! p = Some s
    ∧ neurons org !! s_in s = Some pi ∧ neuronHeap w !! pi = Some ni
    ∧ n_id ni = s_in s
    ∧ neurons org !! s_out s = Some po ∧ neuronHeap w !! po = Some no
    ∧ n_id no = s_out s
    ∧ splitSynapse org id w
      = Done (split_organism ni no org w) (split_world p s ni no w)
    ∧ grown w 3 (split_organism ni no org w) (split_world p s ni no w).
Proof.
  intros Hwf Hnum Hroom Hid.
  destruct (wf_sound _ _ Hwf) as [Hb Hc].
  destruct (built_synapses w org id p Hb Hid) as (s & Hp & Hsid).
  destruct (Hc id p s Hid Hp) as [[pi Hin] [po Hout]].
  destruct (built_neurons w org _ pi Hb Hin) as (ni & Hni & Hii).
  destruct (built_neurons w org _ po Hb Hout) as (no & Hno & Hoo).
  exists s, pi, po, ni, no.
  do 7 (split; [assumption|]).
  split; [apply (splitSynapse_run org id p pi po); assumption|].
  assert (Hr1 : room w 1) by (destruct Hroom; split; lia).
  destruct (grow_neuron hiddenNeuron org w Hwf Hnum Hr1) as (Hwf1 & Hnum1 & Hadv1).
  set (h := split_neuron w) in *.
  set (o1 := registerNeuron org (length (neuronHeap w)) h).
  change (wellformed (split_world1 w) o1) in Hwf1.
  change (numbered (split_world1 w) o1) in Hnum1.
  change (advanced w 1 (split_world1 w)) in Hadv1.
  destruct (registerNeuron_fields org (length (neuronHeap w)) h)
    as (Hn1 & _).
  destruct (registerNeuron_lists org (length (neuronHeap w)) h) as (Hs1 & _).
  assert (Hfresh : ∀ x, is_Some (neurons org !! x) → x ≠ n_id h).
  { intros x Hx ->. pose proof (proj1 (wf_ids _ _ Hwf) _ Hx) as Hle.
    change (n_id h) with (uint64_add (idCount w) 1) in Hle.
    rewrite uint64_add_room in Hle by (destruct Hr1; assumption). lia. }
  assert (Hhns : n_id h ∉ sensors o1).
  { unfold o1. rewrite Hs1. simpl. rewrite app_nil_r. intros Hx.
    exact (Hfresh _ (built_sensors w org _ Hb Hx) eq_refl). }
  assert (Hr2 : room (split_world1 w) 1).
  { eapply (room_step w 1 3); [exact Hroom|exact Hadv1|lia]. }
  destruct (grow_synapse ni h o1 (split_world1 w) Hwf1 Hnum1 Hr2)
    as (Hwf2 & Hnum2 & Hadv2).
  { unfold o1. rewrite Hn1, Hii. apply lookup_insert_is_Some'. right. eauto. }
  { unfold o1. rewrite Hn1, lookup_insert_eq. eauto. }
  { exact Hhns. }
  set (o2 := registerSynapse o1 (length (synapseHeap w)) (split_in ni w)).
  change (wellformed (split_world2 ni w) o2) in Hwf2.
  change (numbered (split_world2 ni w) o2) in Hnum2.
  change (advanced (split_world1 w) 1 (split_world2 ni w)) in Hadv2.
  pose proof (advanced_step w 1 _ _ Hadv1 Hadv2) as Hadv12.
  assert (Hr3 : room (split_world2 ni w) 1).
  { eapply (room_step w 2 3); [exact Hroom|exact Hadv12|lia]. }
  destruct (grow_synapse h no o2 (split_world2 ni w) Hwf2 Hnum2 Hr3)
    as (Hwf3 & Hnum3 & Hadv3).
  { change (is_Some (neurons o1 !! n_id h)).
    unfold o1. rewrite Hn1, lookup_insert_eq. eauto. }
  { change (is_Some (neurons o1 !! n_id no)).
    unfold o1. rewrite Hn1, Hoo. apply lookup_insert_is_Some'. right. eauto. }
  { change (n_id no ∉ sensors o1).
    unfold o1. rewrite Hs1. simpl. rewrite app_nil_r, Hoo.
    exact (wf_targets _ _ Hwf id p s Hid Hp). }
  change (wellformed (split_world3 ni no w) (split_organism ni no org w)) in Hwf3.
  change (numbered (split_world3 ni no w) (split_organism ni no org w)) in Hnum3.
  change (advanced (split_world2 ni w) 1 (split_world3 ni no w)) in Hadv3.
  pose proof (advanced_step w 2 _ _ Hadv12 Hadv3) as Hadv123.
  assert (Hst : same_structure (split_world3 ni no w) (split_world p s ni no w)).
  { apply (same_structure_set_synapse p s); try reflexivity.
    simpl. apply lookup_app_l_Some, lookup_app_l_Some. exact Hp. }
  split; [|split].
  - apply (wellformed_same_structure _ _ _ Hst); [reflexivity|exact Hwf3].
  - apply (numbered_upto_same_structure _ _ _
             (innovationCount (split_world3 ni no w)) _ Hst);
      [reflexivity|exact Hnum3].
  - exact Hadv123.
Qed.

End Split.

(** * Well-formedness under [clone] and under mutations in place *)

Section Preserved.

Context {F : Type} {FF : Float64 F}.

Variable config : OrganismConfig F.
Variable rand_source : nat → F.

Implicit Types (w : world F) (g c org : organism F).

Lemma same_object_is_Some {T} (h1 h2 : list T) key id (p1 p2 : option ptr) :
  same_object h1 h2 key id p1 p2 → is_Some p1 ↔ is_Some p2.
Proof.
  unfold same_object. destruct p1, p2; try contradiction;
    intros _; split; intros [? ?]; eauto; discriminate.
Qed.

(** A genome that is the same network as a well-formed one is
    well-formed. *)
Lemma wellformed_sim w g c :
  sim w g w c → built w c → wellformed w g → wellformed w c.
Proof.
  intros [Hs Ho Hc Hn Hy] Hb [[Hbg Hcl] (Hin & His & Hic) Hse Hou Hdi Hta].
  assert (Hsyn : ∀ sid p s, synapses c !! sid = Some p →
                  synapseHeap w !! p = Some s →
                  ∃ q, synapses g !! sid = Some q ∧ synapseHeap w !! q = Some s).
  { intros sid p s Hsid Hp. specialize (Hy sid). rewrite Hsid in Hy.
    destruct (synapses g !! sid) as [q|]; [|contradiction].
    destruct Hy as (x & Hq & Hp' & _). rewrite Hp in Hp'. injection Hp' as <-.
    eauto. }
  constructor.
  - split; [exact Hb|]. intros sid p s Hsid Hp.
    destruct (Hsyn sid p s Hsid Hp) as (q & Hq & Hqs).
    destruct (Hcl sid q s Hq Hqs) as [Hi Hout].
    split; apply (same_object_is_Some _ _ _ _ _ _ (Hn _)); assumption.
  - split; [|split].
    + intros id Hid. apply Hin.
      apply (same_object_is_Some _ _ _ _ _ _ (Hn _)). exact Hid.
    + intros id Hid. apply His.
      apply (same_object_is_Some _ _ _ _ _ _ (Hy _)). exact Hid.
    + intros id. rewrite <- Hc. apply Hic.
  - rewrite <- Hs. exact Hse.
  - rewrite <- Ho. exact Hou.
  - rewrite <- Hs, <- Ho. exact Hdi.
  - intros sid p s Hsid Hp. rewrite <- Hs.
    destruct (Hsyn sid p s Hsid Hp) as (q & Hq & Hqs).
    exact (Hta sid q s Hq Hqs).
Qed.

Lemma clone_grown g w :
  wellformed w g → numbered w g →
  ∃ c w',
    clone g w = Done c w'
    ∧ wellformed w' c ∧ numbered w' c
    ∧ wellformed w' g ∧ numbered w' g
    ∧ same_counters w w'.
Proof.
  intros Hwf Hnum. pose proof (proj1 (wf_sound _ _ Hwf)) as Hb.
  destruct Hnum as (vs & Hread & Hasc & Hle).
  set (e := mkOrganism [] [] ∅ ∅ ∅ [] 0%Z (f_zero (F:=F))).
  pose proof (clone_spec g vs w Hread) as Hrun.
  destruct (clone_sim w g Hb) as (c & w' & Hrun' & Hext & Hsim).
  rewrite Hrun in Hrun'. injection Hrun' as <- <-.
  destruct (copy_all_spec e vs w []) as (Hcg & _); [constructor|].
  pose proof (copy_all_counters e vs w) as Hcount.
  destruct Hcount as (Hic & Hnc & Hrc).
  assert (Hwfg : wellformed (copy_all e vs w).2 g).
  { apply (wellformed_same_structure w); [apply extends_same_structure, Hext| |exact Hwf].
    rewrite Hic. reflexivity. }
  exists (copy_all e vs w).1, (copy_all e vs w).2.
  split; [exact Hrun|].
  split; [apply (wellformed_sim _ g); [exact Hsim| |exact Hwfg];
          apply copy_all_built; constructor|].
  split; [exists vs; unfold numbered; rewrite Hnc; auto|].
  split; [exact Hwfg|].
  split; [|repeat split; assumption].
  exists vs. rewrite Hnc. split; [|auto].
  eapply genes_read_extends; eassumption.
Qed.

(** A mutation in place changes a weight or an enabled flag, and the
    number of random numbers drawn; nothing else. *)
Lemma apply_mutation_structure org (m : mutation) w w' :
  apply_mutation config rand_source org m w = Done tt w' →
  same_structure w w'
  ∧ neuronHeap w' = neuronHeap w
  ∧ idCount w' = idCount w
  ∧ innovationCount w' = innovationCount w
  ∧ randCalls w'
    = randCalls w + match m with ToggleEnabled _ => 0 | MutateWeight _ => 1 end.
Proof.
  destruct m as [id|id]; simpl.
  - unfold toggleEnabled, synapse_toggleEnabled, updateS.
    destruct (synapses org !! id) as [p|]; [|discriminate].
    destruct (synapseHeap w !! p) as [s|] eqn:Hp; [|discriminate].
    intros [= <-]. split; [|simpl; auto with lia].
    apply (same_structure_set_synapse p s); auto.
  - unfold mutateWeight, synapse_mutateWeight, bind, RandFloat64, updateS.
    destruct (synapses org !! id) as [p|]; [|discriminate]. simpl.
    destruct (synapseHeap w !! p) as [s|] eqn:Hp; [|discriminate].
    intros [= <-]. simpl. split; [|auto with lia].
    split; [intros q n Hq; exists n; auto|].
    intros q x Hq. simpl. destruct (decide (q = p)) as [->|Hne].
    + eexists. rewrite list_lookup_insert_eq by (eapply lookup_lt_Some; eauto).
      rewrite Hp in Hq. injection Hq as <-. auto 6.
    + exists x. rewrite list_lookup_insert_ne by congruence. auto 6.
Qed.

Lemma mutate_all_grown org (ms : list mutation) w :
  wellformed w org → numbered w org →
  Forall (fun m => is_Some (synapses org !! mutation_id m)) ms →
  ∃ w',
    mutate_all config rand_source org ms w = Done tt w'
    ∧ wellformed w' org ∧ numbered w' org
    ∧ neuronHeap w' = neuronHeap w
    ∧ idCount w' = idCount w
    ∧ innovationCount w' = innovationCount w.
Proof.
  intros Hwf Hnum Hms. revert w Hwf Hnum.
  induction Hms as [|m ms Hm _ IH]; intros w Hwf Hnum.
  - exists w. split; [reflexivity|]. auto 6.
  - destruct (apply_mutation_returns config rand_source org m w
                (proj1 (wf_sound _ _ Hwf)) Hm) as [w1 Hrun].
    destruct (apply_mutation_structure org m w w1 Hrun)
      as (Hst & Hnh & Hic & Hnc & _).
    destruct (IH w1) as (w2 & Hrest & Hwf2 & Hnum2 & Hnh2 & Hic2 & Hnc2).
    { apply (wellformed_same_structure w); [exact Hst| |exact Hwf].
      rewrite Hic. reflexivity. }
    { unfold numbered. rewrite Hnc.
      apply (numbered_upto_same_structure w w1 org (innovationCount w) _ Hst);
        [reflexivity|exact Hnum]. }
    exists w2. split.
    + unfold mutate_all in *. simpl. rewrite (bind_Done _ _ _ _ _ Hrun).
      exact Hrest.
    + split; [exact Hwf2|]. split; [exact Hnum2|].
      split; [rewrite Hnh2; exact Hnh|].
      split; [rewrite Hic2; exact Hic|rewrite Hnc2; exact Hnc].
Qed.

End Preserved.

(** * [mutate] *)

(** The comparison [<=] on [float64], which [mutate] uses besides the
    operations of [Float64]. *)
Class Float64Le (F : Type) := {
  f_le : F -> F -> bool;
}.

#[export] Instance binary64_le : Float64Le float := {|
  f_le := PrimFloat.leb;
|}.

#[export] Instance exact_real_le : Float64Le R := {|
  f_le := fun x y => if Rle_dec x y then true else false;
|}.

Section Mutate.

Context {F : Type} {FF : Float64 F} {FL : Float64Le F}.

Variable config : OrganismConfig F.
Variable rand_source : nat → F.

Implicit Types (w : world F) (org : organism F).

(** The body of the inner loop of [mutate]: three draws, each deciding one
    mutation of the synapse [id]. *)
Definition mutate_synapse org (id : synapseID) : M F (organism F) :=
  r <- RandFloat64 rand_source ;;
  org <- (if f_le r (SynapseSplitMutProb config)
          then splitSynapse org id else ret org) ;;
  r <- RandFloat64 rand_source ;;
  (if f_le r (SynapseActivityMutProb config)
   then toggleEnabled org id else ret tt) ;;;
  r <- RandFloat64 rand_source ;;
  (if f_le r (SynapseWeightMutProp config)
   then mutateWeight config rand_source org id else ret tt) ;;;
  ret org.

(** [mutate] ranges over the map [org.connections] while [splitSynapse]
    adds entries to it.  Go fixes neither the order in which a map is
    ranged over nor whether an entry added meanwhile is produced; [order]
    is the sequence of keys the range produces in a run.  For each key the
    inner loop ranges over the slice found under it at that moment. *)
Definition mutate (order : list neuronID) org : M F (organism F) :=
  for_fold (fun org nid =>
              for_fold mutate_synapse org
                (default [] (connections org !! nid)))
    org order.

Let never : failure → bool := fun _ => false.

(** [org'] is [org] with more genes: the same sensors and outputs, the
    genes of [org] first, and every id of [org] still resolved. *)
Definition grows org org' : Prop :=
  sensors org' = sensors org
  ∧ outputs org' = outputs org
  ∧ genes org `prefix_of` genes org'
  ∧ (∀ id, is_Some (neurons org !! id) → is_Some (neurons org' !! id))
  ∧ (∀ id, is_Some (synapses org !! id) → is_Some (synapses org' !! id)).

Lemma grows_refl org : grows org org.
Proof. repeat split; auto. Qed.

Lemma grows_trans o1 o2 o3 : grows o1 o2 → grows o2 o3 → grows o1 o3.
Proof.
  intros (H1 & H2 & H3 & H4 & H5) (H1' & H2' & H3' & H4' & H5').
  split; [congruence|]. split; [congruence|].
  split; [etrans; eassumption|]. split; auto.
Qed.

Lemma grows_split (ni no : neuron F) org w :
  grows org (split_organism ni no org w).
Proof.
  destruct (registerNeuron_lists org (length (neuronHeap w)) (split_neuron w))
    as (Hsl & Hol).
  destruct (registerNeuron_fields org (length (neuronHeap w)) (split_neuron w))
    as (Hn1 & Hy1 & Hc1 & Hg1).
  unfold grows, split_organism, registerSynapse.
  cbn [genes sensors outputs neurons synapses connections].
  rewrite Hsl, Hol, Hn1, Hy1, Hg1. simpl. rewrite !app_nil_r.
  split; [reflexivity|]. split; [reflexivity|].
  split; [rewrite <- !app_assoc; apply prefix_app_r; reflexivity|].
  split.
  - intros id Hid. apply lookup_insert_is_Some'. auto.
  - intros id Hid. apply lookup_insert_is_Some'. right.
    apply lookup_insert_is_Some'. auto.
Qed.

Lemma same_structure_rand w :
  same_structure w
    (mkWorld (neuronHeap w) (synapseHeap w) (idCount w) (innovationCount w)
       (S (randCalls w))).
Proof. split; simpl; eauto 10. Qed.

Lemma RandFloat64_never w (P : world F → Prop) :
  (∀ w', same_structure w w' → neuronHeap w' = neuronHeap w →
         synapseHeap w' = synapseHeap w → idCount w' = idCount w →
         innovationCount w' = innovationCount w → P w') →
  post never (fun _ w' => P w') (RandFloat64 rand_source w).
Proof.
  intros HP. unfold RandFloat64. simpl. apply HP; try reflexivity.
  apply same_structure_rand.
Qed.

(** [splitSynapse] on a sound genome returns a sound genome, whatever the
    counters. *)
Lemma splitSynapse_sound org (id : N) w :
  sound w org → is_Some (synapses org !! id) →
  ∃ org' w',
    splitSynapse org id w = Done org' w'
    ∧ sound w' org' ∧ grows org org'.
Proof.
  intros [Hb Hc] [p Hid].
  destruct (built_synapses w org id p Hb Hid) as (s & Hp & _).
  destruct (Hc id p s Hid Hp) as [[pi Hin] [po Hout]].
  destruct (built_neurons w org _ pi Hb Hin) as (ni & Hni & Hii).
  destruct (built_neurons w org _ po Hb Hout) as (no & Hno & Hoo).
  pose proof (splitSynapse_run org id p pi po s ni no w Hid Hp Hin Hni Hout Hno)
    as Hrun.
  exists (split_organism ni no org w), (split_world p s ni no w).
  split; [exact Hrun|]. split; [|apply grows_split].
  assert (Hext : extends w (split_world3 ni no w)).
  { split; simpl; [apply prefix_app_r; reflexivity|].
    rewrite <- app_assoc. apply prefix_app_r. reflexivity. }
  assert (Hst : same_structure w (split_world p s ni no w)).
  { eapply same_structure_trans; [apply extends_same_structure, Hext|].
    apply (same_structure_set_synapse p s); try reflexivity.
    simpl. apply lookup_app_l_Some, lookup_app_l_Some. exact Hp. }
  assert (Hlt : p < length (synapseHeap w)) by (eapply lookup_lt_Some; eauto).
  pose proof (sound_same_structure _ _ _ Hst (conj Hb Hc)) as Hs0.
  destruct (registerNeuron_fields org (length (neuronHeap w)) (split_neuron w))
    as (Hn1 & _).
  apply sound_registerSynapse; [apply sound_registerSynapse| | |].
  - apply sound_registerNeuron; [exact Hs0|].
    simpl. apply list_lookup_middle. reflexivity.
  - simpl. rewrite list_lookup_insert_ne by lia.
    apply lookup_app_l_Some. apply list_lookup_middle. reflexivity.
  - rewrite Hn1. apply lookup_insert_is_Some'. right.
    change (s_in (split_in ni w)) with (n_id ni). rewrite Hii, Hin. eauto.
  - rewrite Hn1. change (s_out (split_in ni w)) with (n_id (split_neuron w)).
    rewrite lookup_insert_eq. eauto.
  - simpl. rewrite list_lookup_insert_ne by (rewrite length_app; simpl; lia).
    apply list_lookup_middle. reflexivity.
  - change (is_Some (neurons (registerNeuron org (length (neuronHeap w))
                                (split_neuron w))
                     !! n_id (split_neuron w))).
    rewrite Hn1, lookup_insert_eq. eauto.
  - change (is_Some (neurons (registerNeuron org (length (neuronHeap w))
                                (split_neuron w))
                     !! n_id no)).
    rewrite Hn1. apply lookup_insert_is_Some'. right. rewrite Hoo, Hout. eauto.
Qed.

Lemma updateS_sound org (id : N) (f : synapse F → synapse F) w :
  (∀ s, s_id (f s) = s_id s ∧ s_in (f s) = s_in s ∧ s_out (f s) = s_out s
        ∧ s_innovation (f s) = s_innovation s) →
  sound w org → is_Some (synapses org !! id) →
  ∃ w', updateS (synapses org !! id) f w = Done tt w'
        ∧ same_structure w w'
        ∧ neuronHeap w' = neuronHeap w
        ∧ idCount w' = idCount w
        ∧ innovationCount w' = innovationCount w
        ∧ randCalls w' = randCalls w.
Proof.
  intros Hf [Hb _] [p Hid]. rewrite Hid.
  destruct (built_synapses w org id p Hb Hid) as (s & Hp & _).
  unfold updateS. rewrite Hp. eexists. split; [reflexivity|].
  split; [|auto]. destruct (Hf s) as (H1 & H2 & H3 & H4).
  apply (same_structure_set_synapse p s); assumption.
Qed.

(** The counters have handed out one id and one innovation number per
    gene added since a genome of [L0] genes, starting from [c0] and [i0]. *)
Definition tracked (c0 i0 : N) (L0 : nat) org w : Prop :=
  wellformed w org ∧ numbered w org
  ∧ L0 ≤ length (genes org)
  ∧ idCount w = (c0 + N.of_nat (length (genes org) - L0))%N
  ∧ innovationCount w = (i0 + N.of_nat (length (genes org) - L0))%N.

(** The counters can number the genes of [org] without wrapping around. *)
Definition numberable (c0 i0 : N) (L0 : nat) org : Prop :=
  (c0 + N.of_nat (length (genes org) - L0) < 2 ^ 64)%N
  ∧ (i0 + N.of_nat (length (genes org) - L0) < 2 ^ 64)%N.

Lemma tracked_same_structure (c0 i0 : N) (L0 : nat) org w w' :
  same_structure w w' → idCount w' = idCount w →
  innovationCount w' = innovationCount w →
  tracked c0 i0 L0 org w → tracked c0 i0 L0 org w'.
Proof.
  intros Hst Hic Hnc (Hwf & Hnum & HL & Hid & Hin).
  split; [apply (wellformed_same_structure w); [exact Hst|rewrite Hic; reflexivity|exact Hwf]|].
  split.
  { unfold numbered. rewrite Hnc.
    apply (numbered_upto_same_structure w w' org (innovationCount w) _ Hst);
      [reflexivity|exact Hnum]. }
  split; [exact HL|]. split; congruence.
Qed.

Lemma grows_length org org' : grows org org' → length (genes org) ≤ length (genes org').
Proof. intros (_ & _ & Hp & _). apply prefix_length. exact Hp. Qed.

Lemma numberable_grows (c0 i0 : N) (L0 : nat) org org' :
  grows org org' → numberable c0 i0 L0 org' → numberable c0 i0 L0 org.
Proof.
  intros Hg [H1 H2]. apply grows_length in Hg. unfold numberable. split; lia.
Qed.

Lemma split_organism_length (ni no : neuron F) org w :
  length (genes (split_organism ni no org w)) = length (genes org) + 3.
Proof.
  destruct (registerNeuron_fields org (length (neuronHeap w)) (split_neuron w))
    as (_ & _ & _ & Hg1).
  unfold split_organism, registerSynapse. cbn [genes].
  rewrite Hg1, !length_app. simpl. lia.
Qed.

(** One visit of a synapse by [mutate]. *)
Lemma mutate_synapse_total org (id : N) w :
  sound w org → is_Some (synapses org !! id) →
  ∃ org' w',
    mutate_synapse org id w = Done org' w'
    ∧ sound w' org' ∧ grows org org'
    ∧ randCalls w + 3 ≤ randCalls w'
    ∧ ∀ c0 i0 L0, tracked c0 i0 L0 org w → numberable c0 i0 L0 org' →
                   tracked c0 i0 L0 org' w'.
Proof.
  intros Hs Hid. unfold mutate_synapse.
  (* first draw: split *)
  set (w1 := mkWorld (neuronHeap w) (synapseHeap w) (idCount w)
               (innovationCount w) (S (randCalls w))).
  assert (Hst1 : same_structure w w1) by apply same_structure_rand.
  pose proof (sound_same_structure _ _ _ Hst1 Hs) as Hs1.
  assert (Hsplit : ∃ o1 w2,
            (if f_le (rand_source (randCalls w)) (SynapseSplitMutProb config)
             then splitSynapse org id else ret org) w1 = Done o1 w2
            ∧ sound w2 o1 ∧ grows org o1 ∧ randCalls w2 = randCalls w1
            ∧ ∀ c0 i0 L0, tracked c0 i0 L0 org w → numberable c0 i0 L0 o1 →
                           tracked c0 i0 L0 o1 w2).
  { destruct (f_le (rand_source (randCalls w)) (SynapseSplitMutProb config)).
    - destruct Hid as [p Hid].
      destruct Hs1 as [Hb1 Hc1].
      destruct (built_synapses w1 org id p Hb1 Hid) as (s & Hp & _).
      destruct (Hc1 id p s Hid Hp) as [[pi Hin] [po Hout]].
      destruct (built_neurons w1 org _ pi Hb1 Hin) as (ni & Hni & Hii).
      destruct (built_neurons w1 org _ po Hb1 Hout) as (no & Hno & Hoo).
      pose proof (splitSynapse_run org id p pi po s ni no w1
                    Hid Hp Hin Hni Hout Hno) as Hrun.
      destruct (splitSynapse_sound org id w1 (conj Hb1 Hc1))
        as (o1 & w2 & Hrun' & Hs2 & Hg); [eauto|].
      rewrite Hrun in Hrun'. injection Hrun' as <- <-.
      eexists _, _. split; [exact Hrun|]. split; [exact Hs2|].
      split; [exact Hg|]. split; [reflexivity|].
      intros c0 i0 L0 Htr [Hn1 Hn2].
      pose proof (tracked_same_structure c0 i0 L0 org w w1 Hst1 eq_refl eq_refl Htr)
        as (Hwf & Hnum & HL & Hic & Hnc).
      rewrite split_organism_length in Hn1, Hn2.
      destruct (splitSynapse_grown org id p w1 Hwf Hnum) as
        (s' & pi' & po' & ni' & no' & Hp' & Hin' & Hni' & _ & Hout' & Hno' & _
         & Hrun2 & Hwf2 & Hnum2 & Hadv); [split; lia|exact Hid|].
      rewrite Hp in Hp'. injection Hp' as <-.
      rewrite Hin in Hin'. injection Hin' as <-.
      rewrite Hni in Hni'. injection Hni' as <-.
      rewrite Hout in Hout'. injection Hout' as <-.
      rewrite Hno in Hno'. injection Hno' as <-.
      destruct Hadv as (Ha1 & Ha2 & _).
      split; [exact Hwf2|]. split; [exact Hnum2|].
      rewrite split_organism_length.
      split; [lia|]. rewrite Ha1, Ha2, Hic, Hnc. split; lia.
    - exists org, w1. split; [reflexivity|]. split; [exact Hs1|].
      split; [apply grows_refl|]. split; [reflexivity|].
      intros c0 i0 L0 Htr _.
      apply (tracked_same_structure c0 i0 L0 org w w1 Hst1); auto. }
  destruct Hsplit as (o1 & w2 & Hrun1 & Hs2 & Hg1 & Hr2 & Htr2).
  assert (Hid1 : is_Some (synapses o1 !! id)) by (apply Hg1; exact Hid).
  (* second draw: activity *)
  set (w3 := mkWorld (neuronHeap w2) (synapseHeap w2) (idCount w2)
               (innovationCount w2) (S (randCalls w2))).
  assert (Hst3 : same_structure w2 w3) by apply same_structure_rand.
  pose proof (sound_same_structure _ _ _ Hst3 Hs2) as Hs3.
  assert (Htog : ∃ w4,
            (if f_le (rand_source (randCalls w2)) (SynapseActivityMutProb config)
             then toggleEnabled o1 id else ret tt) w3 = Done tt w4
            ∧ same_structure w3 w4 ∧ idCount w4 = idCount w3
            ∧ innovationCount w4 = innovationCount w3
            ∧ randCalls w4 = randCalls w3).
  { destruct (f_le (rand_source (randCalls w2)) (SynapseActivityMutProb config)).
    - destruct (updateS_sound o1 id (fun v => set_enabled (negb (s_enabled v)) v)
                  w3) as (w4 & Hrun & Hst & _ & Hic & Hnc & Hrc);
        [intros v; auto|exact Hs3|exact Hid1|].
      exists w4. auto.
    - exists w3. split; [reflexivity|]. split; [apply same_structure_refl|auto]. }
  destruct Htog as (w4 & Hrun2 & Hst4 & Hic4 & Hnc4 & Hrc4).
  pose proof (sound_same_structure _ _ _ Hst4 Hs3) as Hs4.
  (* third draw: weight *)
  set (w5 := mkWorld (neuronHeap w4) (synapseHeap w4) (idCount w4)
               (innovationCount w4) (S (randCalls w4))).
  assert (Hst5 : same_structure w4 w5) by apply same_structure_rand.
  pose proof (sound_same_structure _ _ _ Hst5 Hs4) as Hs5.
  assert (Hwei : ∃ w6,
            (if f_le (rand_source (randCalls w4)) (SynapseWeightMutProp config)
             then mutateWeight config rand_source o1 id else ret tt) w5
            = Done tt w6
            ∧ same_structure w5 w6 ∧ idCount w6 = idCount w5
            ∧ innovationCount w6 = innovationCount w5
            ∧ randCalls w5 ≤ randCalls w6).
  { destruct (f_le (rand_source (randCalls w4)) (SynapseWeightMutProp config)).
    - set (w5' := mkWorld (neuronHeap w5) (synapseHeap w5) (idCount w5)
                    (innovationCount w5) (S (randCalls w5))).
      assert (Hst5' : same_structure w5 w5') by apply same_structure_rand.
      destruct (updateS_sound o1 id
                  (set_weight (f_mul f_two
                     (f_mul (f_sub (rand_source (randCalls w5)) f_half)
                        (SynapseWeightBound config))))
                  w5') as (w6 & Hrun & Hst & _ & Hic & Hnc & Hrc);
        [intros v; auto|exact (sound_same_structure _ _ _ Hst5' Hs5)|exact Hid1|].
      exists w6. split.
      { unfold mutateWeight, synapse_mutateWeight, bind, RandFloat64.
        exact Hrun. }
      split; [exact (same_structure_trans _ _ _ Hst5' Hst)|].
      split; [exact Hic|]. split; [exact Hnc|]. rewrite Hrc. simpl. lia.
    - exists w5. split; [reflexivity|]. split; [apply same_structure_refl|auto]. }
  destruct Hwei as (w6 & Hrun3 & Hst6 & Hic6 & Hnc6 & Hrc6).
  exists o1, w6. split.
  { unfold bind at 1. unfold RandFloat64 at 1. fold w1.
    rewrite (bind_Done _ _ _ _ _ Hrun1).
    unfold bind at 1. unfold RandFloat64 at 1. fold w3.
    rewrite (bind_Done _ _ _ _ _ Hrun2).
    unfold bind at 1. unfold RandFloat64 at 1. fold w5.
    rewrite (bind_Done _ _ _ _ _ Hrun3). reflexivity. }
  assert (Hst26 : same_structure w2 w6).
  { eapply same_structure_trans; [exact Hst3|].
    eapply same_structure_trans; [exact Hst4|].
    eapply same_structure_trans; [exact Hst5|exact Hst6]. }
  split; [eapply sound_same_structure; eassumption|].
  split; [exact Hg1|].
  split.
  { unfold w5 in Hrc6. simpl in Hrc6. rewrite Hrc4 in Hrc6.
    unfold w3 in Hrc6. simpl in Hrc6. rewrite Hr2 in Hrc6.
    unfold w1 in Hrc6. simpl in Hrc6. lia. }
  intros c0 i0 L0 Htr Hnb.
  apply (tracked_same_structure c0 i0 L0 o1 w2 w6 Hst26).
  - rewrite Hic6. simpl. rewrite Hic4. reflexivity.
  - rewrite Hnc6. simpl. rewrite Hnc4. reflexivity.
  - apply Htr2; assumption.
Qed.

(** The inner loop, over ids the genome resolves. *)
Lemma mutate_inner_total (l : list N) org w :
  sound w org → Forall (fun id => is_Some (synapses org !! id)) l →
  ∃ org' w',
    for_fold mutate_synapse org l w = Done org' w'
    ∧ sound w' org' ∧ grows org org'
    ∧ randCalls w + 3 * length l ≤ randCalls w'
    ∧ ∀ c0 i0 L0, tracked c0 i0 L0 org w → numberable c0 i0 L0 org' →
                   tracked c0 i0 L0 org' w'.
Proof.
  revert org w. induction l as [|id l IH]; intros org w Hs Hall.
  - exists org, w. split; [reflexivity|]. split; [exact Hs|].
    split; [apply grows_refl|]. split; [simpl; lia|auto].
  - apply Forall_cons in Hall as [Hid' Hall].
    destruct (mutate_synapse_total org id w Hs Hid')
      as (o1 & w1 & Hrun1 & Hs1 & Hg1 & Hr1 & Htr1).
    destruct (IH o1 w1 Hs1) as (o2 & w2 & Hrun2 & Hs2 & Hg2 & Hr2 & Htr2).
    { eapply Forall_impl; [exact Hall|]. intros x Hx. apply Hg1. exact Hx. }
    exists o2, w2. split.
    { simpl. rewrite (bind_Done _ _ _ _ _ Hrun1). exact Hrun2. }
    split; [exact Hs2|]. split; [eapply grows_trans; eassumption|].
    split; [simpl; lia|].
    intros c0 i0 L0 Htr Hnb. apply Htr2; [|exact Hnb].
    apply Htr1; [exact Htr|]. eapply numberable_grows; eassumption.
Qed.

Lemma mutate_total (order : list N) org w :
  sound w org →
  ∃ org' w',
    mutate order org w = Done org' w'
    ∧ sound w' org' ∧ grows org org'
    ∧ randCalls w ≤ randCalls w'
    ∧ ∀ c0 i0 L0, tracked c0 i0 L0 org w → numberable c0 i0 L0 org' →
                   tracked c0 i0 L0 org' w'.
Proof.
  unfold mutate. revert org w.
  induction order as [|nid order IH]; intros org w Hs.
  - exists org, w. split; [reflexivity|]. split; [exact Hs|].
    split; [apply grows_refl|]. split; [lia|auto].
  - destruct (mutate_inner_total (default [] (connections org !! nid)) org w Hs)
      as (o1 & w1 & Hrun1 & Hs1 & Hg1 & Hr1 & Htr1).
    { apply Forall_forall. intros sid Hin.
      destruct (connections org !! nid) as [l|] eqn:Hl; simpl in Hin;
        [|inversion Hin].
      exact (built_connections w org nid l sid (proj1 Hs) Hl Hin). }
    destruct (IH o1 w1 Hs1) as (o2 & w2 & Hrun2 & Hs2 & Hg2 & Hr2 & Htr2).
    exists o2, w2. split.
    { simpl. rewrite (bind_Done _ _ _ _ _ Hrun1). exact Hrun2. }
    split; [exact Hs2|]. split; [eapply grows_trans; eassumption|].
    split; [lia|].
    intros c0 i0 L0 Htr Hnb. apply Htr2; [|exact Hnb].
    apply Htr1; [exact Htr|]. eapply numberable_grows; eassumption.
Qed.

(** X16: [mutate] returns.  On a genome assembled by [addNeuron] and
    [addSynapse] whose synapses join neurons of its own, and for every order
    in which the range over the connections may produce its keys, [mutate]
    returns: it neither panics nor exits.  The genome it leaves is again of
    that kind, has the same sensors and outputs, the same genes followed by
    the genes added, and resolves every id it resolved before. *)
Theorem mutate_returns (order : list N) org w :
  sound w org →
  ∃ org' w',
    mutate order org w = Done org' w'
    ∧ sound w' org'
    ∧ grows org org'.
Proof.
  intros Hs.
  destruct (mutate_total order org w Hs) as (org' & w' & Hrun & Hs' & Hg & _).
  exists org', w'. auto.
Qed.

(** X17: [mutate] keeps a genome well-formed.  When a call of [mutate] on
    a well-formed genome with strictly ascending innovation numbers
    returns, and the counters can number the genes it added without
    wrapping around, the genome is well-formed and strictly ascending
    afterwards, and the id counter and the innovation counter have each
    advanced by the number of genes added. *)
Theorem mutate_wellformed (order : list N) org w org' w' :
  wellformed w org →
  numbered w org →
  mutate order org w = Done org' w' →
  (idCount w + N.of_nat (length (genes org') - length (genes org)) < 2 ^ 64)%N →
  (innovationCount w + N.of_nat (length (genes org') - length (genes org))
   < 2 ^ 64)%N →
  wellformed w' org'
  ∧ numbered w' org'
  ∧ idCount w'
    = (idCount w + N.of_nat (length (genes org') - length (genes org)))%N
  ∧ innovationCount w'
    = (innovationCount w
       + N.of_nat (length (genes org') - length (genes org)))%N.
Proof.
  intros Hwf Hnum Hrun Hid Hin.
  destruct (mutate_total order org w (wf_sound _ _ Hwf))
    as (o & v & Hrun' & _ & _ & _ & Htr).
  rewrite Hrun in Hrun'. injection Hrun' as <- <-.
  destruct (Htr (idCount w) (innovationCount w) (length (genes org)))
    as (Hwf' & Hnum' & _ & Hic & Hnc).
  - split; [exact Hwf|]. split; [exact Hnum|]. split; [lia|].
    rewrite Nat.sub_diag. simpl. split; lia.
  - split; assumption.
  - auto.
Qed.

Lemma toggleEnabled_run org (id : N) (p : ptr) (s : synapse F) w :
  synapses org !! id = Some p → synapseHeap w !! p = Some s →
  toggleEnabled org id w
  = Done tt (set_synapseHeap
               (<[p := set_enabled (negb (s_enabled s)) s]> (synapseHeap w)) w).
Proof.
  intros Hid Hp. unfold toggleEnabled, synapse_toggleEnabled, updateS.
  rewrite Hid, Hp. reflexivity.
Qed.

(** The state of the synapse at [p] after the weight draw of a visit. *)
Lemma weight_draw_keeps_enabled org (id : N) (p : ptr) (s : synapse F) w :
  synapses org !! id = Some p → synapseHeap w !! p = Some s →
  ∃ w' s',
    (r <- RandFloat64 rand_source ;;
     (if f_le r (SynapseWeightMutProp config)
      then mutateWeight config rand_source org id else ret tt) ;;;
     ret org) w = Done org w'
    ∧ synapseHeap w' !! p = Some s'
    ∧ s_enabled s' = s_enabled s.
Proof.
  intros Hid Hp. unfold bind at 1. unfold RandFloat64 at 1.
  destruct (f_le (rand_source (randCalls w)) (SynapseWeightMutProp config)).
  - unfold mutateWeight, synapse_mutateWeight, bind, RandFloat64, updateS.
    rewrite Hid. simpl. rewrite Hp. eexists _, _. split; [reflexivity|].
    simpl. split; [apply list_lookup_insert_eq; eapply lookup_lt_Some; eauto|].
    reflexivity.
  - exists (mkWorld (neuronHeap w) (synapseHeap w) (idCount w)
              (innovationCount w) (S (randCalls w))), s.
    split; [reflexivity|]. split; [exact Hp|reflexivity].
Qed.

(** X18: a split and a toggle on the same visit.  When the first two
    draws of a visit both fire, [splitSynapse] disables the visited synapse
    and [toggleEnabled] switches it on again at once: after the visit the
    synapse is enabled, whatever its state was before, and runs in parallel
    with the two synapses and the hidden neuron that were added. *)
Theorem split_then_toggle_enables org (id : N) (p : ptr) w :
  wellformed w org →
  numbered w org →
  room w 3 →
  synapses org !! id = Some p →
  f_le (rand_source (randCalls w)) (SynapseSplitMutProb config) = true →
  f_le (rand_source (S (randCalls w))) (SynapseActivityMutProb config) = true →
  ∃ org' w' s',
    mutate_synapse org id w = Done org' w'
    ∧ length (genes org') = length (genes org) + 3
    ∧ synapses org' !! id = Some p
    ∧ synapseHeap w' !! p = Some s'
    ∧ s_enabled s' = true.
Proof.
  intros Hwf Hnum Hroom Hid Hsplit Htoggle.
  set (w1 := mkWorld (neuronHeap w) (synapseHeap w) (idCount w)
               (innovationCount w) (S (randCalls w))).
  assert (Hst1 : same_structure w w1) by apply same_structure_rand.
  assert (Hwf1 : wellformed w1 org)
    by (apply (wellformed_same_structure w); [exact Hst1|reflexivity|exact Hwf]).
  assert (Hnum1 : numbered w1 org).
  { apply (numbered_upto_same_structure w w1 org (innovationCount w) _ Hst1);
      [reflexivity|exact Hnum]. }
  destruct (splitSynapse_grown org id p w1 Hwf1 Hnum1 Hroom Hid)
    as (s & pi & po & ni & no & Hp & Hin & Hni & Hii & Hout & Hno & Hoo
        & Hrun & Hwf2 & _).
  set (o1 := split_organism ni no org w1) in *.
  set (w2 := split_world p s ni no w1) in *.
  assert (Hlt : p < length (synapseHeap w)) by (eapply lookup_lt_Some; exact Hp).
  assert (Hp2 : synapseHeap w2 !! p = Some (set_enabled false s)).
  { unfold w2. simpl. apply list_lookup_insert_eq. rewrite !length_app. simpl. lia. }
  assert (Hid1 : synapses o1 !! id = Some p).
  { destruct (wf_ids _ _ Hwf) as (_ & Hys & _).
    pose proof (Hys id ltac:(rewrite Hid; eauto)) as Hle.
    destruct Hroom as [Hr _].
    destruct (registerNeuron_fields org (length (neuronHeap w1)) (split_neuron w1))
      as (_ & Hy1 & _).
    unfold o1, split_organism, registerSynapse. cbn [synapses].
    change (s_id (split_out ni no w1))
      with (uint64_add (uint64_add (uint64_add (idCount w) 1) 1) 1).
    change (s_id (split_in ni w1))
      with (uint64_add (uint64_add (idCount w) 1) 1).
    rewrite (uint64_add_thrice (idCount w)), (uint64_add_twice (idCount w)) by lia.
    rewrite !lookup_insert_ne by lia. rewrite Hy1. exact Hid. }
  set (w3 := mkWorld (neuronHeap w2) (synapseHeap w2) (idCount w2)
               (innovationCount w2) (S (randCalls w2))).
  pose proof (toggleEnabled_run o1 id p (set_enabled false s) w3 Hid1 Hp2)
    as Htog.
  set (w4 := set_synapseHeap
               (<[p := set_enabled (negb (s_enabled (set_enabled false s)))
                         (set_enabled false s)]> (synapseHeap w3)) w3) in *.
  assert (Hp4 : synapseHeap w4 !! p
                = Some (set_enabled true (set_enabled false s))).
  { unfold w4. simpl. apply list_lookup_insert_eq.
    rewrite length_insert, !length_app. simpl. lia. }
  destruct (weight_draw_keeps_enabled o1 id p _ w4 Hid1 Hp4)
    as (w6 & s' & Hrun3 & Hp6 & Hen).
  exists o1, w6, s'. split.
  { unfold mutate_synapse. unfold bind at 1. unfold RandFloat64 at 1. fold w1.
    rewrite Hsplit. rewrite (bind_Done _ _ _ _ _ Hrun).
    unfold bind at 1. unfold RandFloat64 at 1. fold w3.
    change (randCalls w2) with (S (randCalls w)). rewrite Htoggle.
    rewrite (bind_Done _ _ _ _ _ Htog). exact Hrun3. }
  split; [apply split_organism_length|]. split; [exact Hid1|].
  split; [exact Hp6|]. rewrite Hen. reflexivity.
Qed.

End Mutate.

(** * Well-formed genomes: what the package guarantees *)

Section GrowthTheorems.

Context {F : Type} {FF : Float64 F}.

Variable config : OrganismConfig F.
Variable rand_source : nat → F.

Implicit Types (w : world F) (org g : organism F).

(** X11: [process] on a well-formed genome.  A call with one input per
    sensor returns an output vector with one entry per output neuron: it
    neither panics, nor exits through [log.Fatal], nor runs on; the genome
    is well-formed afterwards, and its gene sequence is still strictly
    ascending if it was.  A call with any other number of inputs exits
    through [log.Fatal]. *)
Theorem process_succeeds org (input : list F) w :
  wellformed w org →
  (length input = length (sensors org) →
   ∃ out w',
     process config org input w = Done out w'
     ∧ length out = length (outputs org)
     ∧ wellformed w' org
     ∧ (numbered w org → numbered w' org))
  ∧ (length input ≠ length (sensors org) →
     process config org input w
     = Fatal "Number of inputs exceeds number of sensors").
Proof.
  intros Hwf. split.
  - intros Hlen. apply process_wellformed; assumption.
  - intros Hne. unfold process.
    destruct (Nat.eqb_spec (length input) (length (sensors org))) as [Heq|_];
      [contradiction|reflexivity].
Qed.


(** X14: the clone of a well-formed genome is well-formed, with the same
    strictly ascending innovation numbers, and the original stays so; the
    counters do not move. *)
Theorem clone_wellformed g w :
  wellformed w g →
  numbered w g →
  ∃ c w',
    clone g w = Done c w'
    ∧ wellformed w' c ∧ numbered w' c
    ∧ wellformed w' g ∧ numbered w' g
    ∧ same_counters w w'.
Proof. apply clone_grown. Qed.

(** X15: mutations in place.  On a well-formed genome, any sequence of
    [toggleEnabled] and [mutateWeight] calls on synapses of the genome
    returns; the genome is well-formed and strictly ascending afterwards;
    no neuron has changed and no id or innovation number was drawn. *)
Theorem mutations_keep_wellformed org (ms : list mutation) w :
  wellformed w org →
  numbered w org →
  Forall (fun m => is_Some (synapses org !! mutation_id m)) ms →
  ∃ w',
    mutate_all config rand_source org ms w = Done tt w'
    ∧ wellformed w' org ∧ numbered w' org
    ∧ neuronHeap w' = neuronHeap w
    ∧ idCount w' = idCount w
    ∧ innovationCount w' = innovationCount w.
Proof. apply mutate_all_grown. Qed.

Ltac fields :=
  unfold split_organism, registerSynapse;
  cbn [genes sensors outputs neurons synapses connections].

(** X13: [splitSynapse] on a well-formed genome, with counters that do not
    wrap around.  The call returns.  It appends three genes: a hidden
    neuron [h] with the next id and innovation number and all accumulators
    zero, a synapse from the source of the split synapse to [h], and a
    synapse from [h] to its target, both enabled with weight 1.0 and
    numbered next.  The split synapse is disabled whatever its state was,
    and keeps its weight; no other object changes.  The first new synapse is
    appended to the connections of the source neuron and the second is the
    only connection of [h]; sensors and outputs are as before.  The genome
    stays well-formed and strictly ascending, and no random number is
    drawn. *)
Theorem splitSynapse_wellformed org (id : N) (p : ptr) (s : synapse F) w :
  wellformed w org →
  numbered w org →
  room w 3 →
  synapses org !! id = Some p →
  synapseHeap w !! p = Some s →
  ∃ org' w' (h : neuron F) (si so : synapse F) (ph psi pso : ptr),
    splitSynapse org id w = Done org' w'
    ∧ genes org' = genes org ++ [GNeuron ph; GSynapse psi; GSynapse pso]
    ∧ neuronHeap w' !! ph = Some h
    ∧ synapseHeap w' !! psi = Some si
    ∧ synapseHeap w' !! pso = Some so
    ∧ h = mkNeuron (idCount w + 1)%N f_zero (innovationCount w + 1)%N
            hiddenNeuron f_zero f_zero false false
    ∧ si = mkSynapse (idCount w + 2)%N (s_in s) (n_id h) f_one true
             (innovationCount w + 2)%N
    ∧ so = mkSynapse (idCount w + 3)%N (n_id h) (s_out s) f_one true
             (innovationCount w + 3)%N
    ∧ synapseHeap w' !! p = Some (set_enabled false s)
    ∧ (∀ q, q ≠ p → q < length (synapseHeap w) →
            synapseHeap w' !! q = synapseHeap w !! q)
    ∧ (∀ q, q < length (neuronHeap w) →
            neuronHeap w' !! q = neuronHeap w !! q)
    ∧ sensors org' = sensors org
    ∧ outputs org' = outputs org
    ∧ getNeuron org' (n_id h) = Some ph
    ∧ getSynapse org' (s_id si) = Some psi
    ∧ getSynapse org' (s_id so) = Some pso
    ∧ connections org' !! s_in s
      = Some (default [] (connections org !! s_in s) ++ [s_id si])
    ∧ connections org' !! n_id h = Some [s_id so]
    ∧ wellformed w' org'
    ∧ numbered w' org'
    ∧ advanced w 3 w'.
Proof.
  intros Hwf Hnum Hroom Hid Hp.
  destruct (splitSynapse_grown org id p w Hwf Hnum Hroom Hid)
    as (s' & pi & po & ni & no & Hp' & Hin & Hni & Hii & Hout & Hno & Hoo
        & Hrun & Hwf' & Hnum' & Hadv).
  rewrite Hp in Hp'. injection Hp' as <-.
  destruct Hroom as [Hrid Hrin].
  assert (Hlt : p < length (synapseHeap w)) by (eapply lookup_lt_Some; eauto).
  assert (Hh : split_neuron w
               = mkNeuron (idCount w + 1)%N f_zero (innovationCount w + 1)%N
                   hiddenNeuron f_zero f_zero false false).
  { unfold split_neuron, fresh_neuron.
    rewrite !uint64_add_room by lia. reflexivity. }
  assert (Hsi : split_in ni w
                = mkSynapse (idCount w + 2)%N (s_in s) (n_id (split_neuron w))
                    f_one true (innovationCount w + 2)%N).
  { unfold split_in, fresh_synapse. simpl idCount. simpl innovationCount.
    rewrite !(uint64_add_twice (idCount w)), !(uint64_add_twice (innovationCount w)) by lia.
    rewrite Hii. reflexivity. }
  assert (Hso : split_out ni no w
                = mkSynapse (idCount w + 3)%N (n_id (split_neuron w)) (s_out s)
                    f_one true (innovationCount w + 3)%N).
  { unfold split_out, fresh_synapse. simpl idCount. simpl innovationCount.
    rewrite !(uint64_add_thrice (idCount w)), !(uint64_add_thrice (innovationCount w)) by lia.
    rewrite Hoo. reflexivity. }
  assert (Hhid : n_id (split_neuron w) = (idCount w + 1)%N)
    by (rewrite Hh; reflexivity).
  destruct (wf_ids _ _ Hwf) as (Hidn & _ & Hidc).
  exists (split_organism ni no org w), (split_world p s ni no w),
    (split_neuron w), (split_in ni w), (split_out ni no w),
    (length (neuronHeap w)), (length (synapseHeap w)),
    (length (synapseHeap (split_world2 ni w))).
  split; [exact Hrun|].
  destruct (registerNeuron_lists org (length (neuronHeap w)) (split_neuron w))
    as (Hsl & Hol).
  destruct (registerNeuron_fields org (length (neuronHeap w)) (split_neuron w))
    as (Hn1 & Hy1 & Hc1 & Hg1).
  split.
  { fields. rewrite Hg1, <- !app_assoc. reflexivity. }
  split; [simpl; apply list_lookup_middle; reflexivity|].
  split.
  { simpl. rewrite list_lookup_insert_ne by lia.
    apply lookup_app_l_Some. apply list_lookup_middle. reflexivity. }
  split.
  { simpl. rewrite list_lookup_insert_ne by (rewrite length_app; simpl; lia).
    apply list_lookup_middle. reflexivity. }
  split; [exact Hh|]. split; [exact Hsi|]. split; [exact Hso|].
  split.
  { simpl. apply list_lookup_insert_eq. rewrite !length_app. simpl. lia. }
  split.
  { intros q Hne Hq. simpl. rewrite list_lookup_insert_ne by congruence.
    rewrite <- app_assoc. apply lookup_app_l. exact Hq. }
  split; [intros q Hq; simpl; apply lookup_app_l; exact Hq|].
  split; [fields; rewrite Hsl, Hh; simpl; apply app_nil_r|].
  split; [fields; rewrite Hol, Hh; simpl; apply app_nil_r|].
  split; [unfold getNeuron; fields; rewrite Hn1; apply lookup_insert_eq|].
  split.
  { unfold getSynapse. fields.
    rewrite lookup_insert_ne by (rewrite Hsi, Hso; simpl; lia).
    apply lookup_insert_eq. }
  split; [unfold getSynapse; fields; apply lookup_insert_eq|].
  assert (Hsrc : s_in s ≠ (idCount w + 1)%N).
  { intros Heq. pose proof (Hidn (s_in s) ltac:(rewrite Hin; eauto)). lia. }
  assert (Hsi_in : s_in (split_in ni w) = s_in s) by (rewrite Hsi; reflexivity).
  assert (Hso_in : s_in (split_out ni no w) = (idCount w + 1)%N)
    by (rewrite Hso; simpl; exact Hhid).
  split.
  { fields. rewrite Hso_in, Hsi_in.
    rewrite lookup_insert_ne by congruence.
    rewrite lookup_insert_eq, Hc1. reflexivity. }
  split.
  { fields. rewrite Hso_in, Hsi_in, Hhid. rewrite lookup_insert_eq.
    rewrite lookup_insert_ne by exact Hsrc.
    rewrite Hc1.
    destruct (connections org !! (idCount w + 1)%N) as [l|] eqn:Hl;
      [|reflexivity].
    pose proof (Hidc _ ltac:(rewrite Hl; eauto)). lia. }
  auto.
Qed.

End GrowthTheorems.

(** * Configuration (config.go) *)



Module Config.

(** Go's [error]: [None] is [nil]. *)
Definition error := option string.
Definition errors_New (msg : string) : error := Some msg.

(** The activation functions of the package.  What they compute
    ([math.Exp], [math.Abs], [math.Max]) is not modelled; the table below
    only needs to tell them apart. *)
Inductive ActivationFunction := Sigmoid | FastSigmoid | Rectifier.

Definition actFuncNameMap : gmap string ActivationFunction :=
  <["Sigmoid" := Sigmoid]>
    (<["FastSigmoid" := FastSigmoid]>
       (<["Recifier" := Rectifier]> ∅)).

Record SpeciesConfig := mkSpeciesConfig {
  ExcessGenesCoeff : float;
  DisjoinGenesCoeff : float;
  AvgWeightDiffCoeff : float;
  CompatibilityThreshold : float;
}.

(** The exported fields of the struct OrganismConfig, which the JSON
    decoder fills and validation reads. *)
Record OrganismConfig := mkOrganismConfig {
  SynapseSplitMutProb : float;
  SynapseActivityMutProb : float;
  SynapseWeightMutProp : float;
  SynapseWeightBound : float;
  ActFunc : string;
}.

Record NeatConfig := mkNeatConfig {
  speciesConfig : SpeciesConfig;
  organismConfig : OrganismConfig;
}.

(** util.go *)
Definition inRange (x lower upper : float) : bool :=
  PrimFloat.leb lower x && PrimFloat.leb x upper.

(** An expression statement: the value of [e] is computed and dropped. *)
Definition discard {A B} (e : A) (k : B) : B := k.

(** Each check builds an error with [errors.New] and drops it: there is no
    [return] in the four branches. *)
Definition validateSpeciesConfig (c : SpeciesConfig) : error :=
  discard (if PrimFloat.ltb (ExcessGenesCoeff c) 0
           then errors_New "ExcessGeneCoeff must be positive" else None)
  (discard (if PrimFloat.ltb (DisjoinGenesCoeff c) 0
            then errors_New "DisjoinGenesCoeff must be positive" else None)
  (discard (if PrimFloat.ltb (AvgWeightDiffCoeff c) 0
            then errors_New "AvgWeightDiffCoeff must be positive" else None)
  (discard (if PrimFloat.ltb (CompatibilityThreshold c) 0
            then errors_New "CompatibilityThreshold must be positive" else None)
     None))).

Definition validateOrganismConfig (c : OrganismConfig) : error :=
  if negb (inRange (SynapseSplitMutProb c) 0 1) then
    errors_New "SynapseSplitMutProb must be in the range [0, 1]"
  else if negb (inRange (SynapseActivityMutProb c) 0 1) then
    errors_New "SynapseActivityMutProb must be in the range [0, 1]"
  else if negb (inRange (SynapseWeightMutProp c) 0 1) then
    errors_New "SynapseWeightMutProp must be in the range [0, 1]"
  else if PrimFloat.leb (SynapseWeightBound c) 0 then
    errors_New "SynapseWeightBound must be larger than zero"
  else
    match actFuncNameMap !! ActFunc c with
    | None => errors_New ("Unregistered activation function: " +:+ ActFunc c)
    | Some _ => None
    end.

Definition validateNeatConfig (c : NeatConfig) : error :=
  match validateSpeciesConfig (speciesConfig c) with
  | Some err => Some err
  | None =>
      match validateOrganismConfig (organismConfig c) with
      | Some err => Some err
      | None => None
      end
  end.

Lemma actFuncNameMap_keys (name : string) :
  is_Some (actFuncNameMap !! name)
  ↔ name = "Sigmoid" ∨ name = "FastSigmoid" ∨ name = "Recifier".
Proof.
  unfold actFuncNameMap. rewrite !lookup_insert_is_Some, lookup_empty.
  split.
  - intros [H|[_ [H|[_ [H|[_ [x Hx]]]]]]]; auto. discriminate.
  - intros [H|[H|H]]; subst name.
    + left. reflexivity.
    + right. split; [discriminate|]. left. reflexivity.
    + right. split; [discriminate|]. right. split; [discriminate|].
      left. reflexivity.
Qed.

(** X19: the species settings are never rejected.  Each check of
    [validateSpeciesConfig] builds its error and drops it, so every
    [SpeciesConfig] passes, negative coefficients included, and
    [validateNeatConfig] returns what [validateOrganismConfig] returns for
    the organism settings. *)
Theorem validateNeatConfig_ignores_species (c : NeatConfig) :
  validateSpeciesConfig (speciesConfig c) = None
  ∧ validateNeatConfig c = validateOrganismConfig (organismConfig c)
  ∧ validateSpeciesConfig
      (mkSpeciesConfig (-1)%float (-1)%float (-1)%float (-1)%float) = None.
Proof.
  split; [reflexivity|]. split; [|reflexivity].
  unfold validateNeatConfig.
  change (validateSpeciesConfig (speciesConfig c)) with (@None string).
  destruct (validateOrganismConfig (organismConfig c)); reflexivity.
Qed.

(** X20: what [validateOrganismConfig] accepts.  The settings pass exactly
    when the three probabilities are in [0, 1], the weight bound is not
    [<= 0], and the name of the activation function is one of the three
    keys of the table: Sigmoid, FastSigmoid and Recifier.  The key of the
    rectifier is spelled Recifier, so the name Rectifier is always
    rejected, and so is the empty name of a configuration that sets none. *)
Theorem validateOrganismConfig_accepts (c : OrganismConfig) :
  (validateOrganismConfig c = None
   ↔ inRange (SynapseSplitMutProb c) 0 1 = true
     ∧ inRange (SynapseActivityMutProb c) 0 1 = true
     ∧ inRange (SynapseWeightMutProp c) 0 1 = true
     ∧ PrimFloat.leb (SynapseWeightBound c) 0 = false
     ∧ (ActFunc c = "Sigmoid" ∨ ActFunc c = "FastSigmoid"
        ∨ ActFunc c = "Recifier"))
  ∧ (ActFunc c = "Rectifier" ∨ ActFunc c = "" →
     validateOrganismConfig c ≠ None).
Proof.
  assert (Hiff : validateOrganismConfig c = None
     ↔ inRange (SynapseSplitMutProb c) 0 1 = true
       ∧ inRange (SynapseActivityMutProb c) 0 1 = true
       ∧ inRange (SynapseWeightMutProp c) 0 1 = true
       ∧ PrimFloat.leb (SynapseWeightBound c) 0 = false
       ∧ (ActFunc c = "Sigmoid" ∨ ActFunc c = "FastSigmoid"
          ∨ ActFunc c = "Recifier")).
  { unfold validateOrganismConfig, errors_New.
    rewrite <- actFuncNameMap_keys.
    destruct (inRange (SynapseSplitMutProb c) 0 1); simpl;
      [|split; [discriminate|intros (? & _); discriminate]].
    destruct (inRange (SynapseActivityMutProb c) 0 1); simpl;
      [|split; [discriminate|intros (_ & ? & _); discriminate]].
    destruct (inRange (SynapseWeightMutProp c) 0 1); simpl;
      [|split; [discriminate|intros (_ & _ & ? & _); discriminate]].
    destruct (PrimFloat.leb (SynapseWeightBound c) 0); simpl;
      [split; [discriminate|intros (_ & _ & _ & ? & _); discriminate]|].
    destruct (actFuncNameMap !! ActFunc c) as [f|].
    - split; [intros _; eauto 10|reflexivity].
    - split; [discriminate|]. intros (_ & _ & _ & _ & [x Hx]). discriminate. }
  split; [exact Hiff|].
  intros Hname Hok. apply Hiff in Hok as (_ & _ & _ & _ & Hkeys).
  destruct Hname as [Hn|Hn]; rewrite Hn in Hkeys;
    destruct Hkeys as [H|[H|H]]; discriminate.
Qed.

End Config.

(** * What [process] computes on a network without hidden layers *)

Section OneLayer.

Context {F : Type} {FF : Float64 F}.

Variable config : OrganismConfig F.
Variable org : organism F.

Implicit Types (w : world F) (E : list (F * synapse F)).

Let anyhow : failure → bool := fun _ => true.

(** The synapse the organism resolves an id to. *)
Definition resolve w (sid : N) : option (synapse F) :=
  match synapses org !! sid with
  | Some p => synapseHeap w !! p
  | None => None
  end.

(** The outgoing synapses of a neuron, in the order of its connections. *)
Definition outgoing w (id : N) : list (synapse F) :=
  omap (resolve w) (default [] (connections org !! id)).

(** What a sensor that was fed [x] sends, and through which synapses, in
    the order in which [propagate] sends it. *)
Definition sent w (ix : N * F) : list (F * synapse F) :=
  (fun s => (actFunc config (f_add f_zero ix.2), s)) <$> outgoing w ix.1.

Definition events w (inputs : list (N * F)) : list (F * synapse F) :=
  concat (sent w <$> inputs).

(** The signals that arrive at the neuron [t], in order of arrival. *)
Definition signals E (t : N) : list F :=
  omap (fun e : F * synapse F =>
          if s_enabled e.2 && bool_decide (s_out e.2 = t)
          then Some (f_mul e.1 (s_weight e.2)) else None) E.

(** The value a neuron shows after the call: the activation of the sum of
    the signals that arrived, in order, or the value it had when none
    arrived. *)
Definition response w (inputs : list (N * F)) (t : N) (old : F) : F :=
  match signals (events w inputs) t with
  | [] => old
  | sigs => actFunc config (fold_left f_add sigs f_zero)
  end.

(** No accumulator holds a signal deferred to the next call. *)
Definition rested w : Prop :=
  ∀ id n, state org w id = Some n → n_future n = f_zero.

(** Only sensors have outgoing connections. *)
Definition sources_are_sensors : Prop :=
  ∀ id, id ∉ sensors org → default [] (connections org !! id) = [].

(** A sensor fed [x], before and after its visit. *)
Definition sensor_form (x : F) (vis : bool) (n0 : neuron F) : neuron F :=
  mkNeuron (n_id n0)
    (if vis then actFunc config (f_add f_zero x) else n_value n0)
    (n_innovation n0) (n_kind n0) f_zero (f_add f_zero x) vis false.

(** Any other neuron that the signals [sigs] have reached, before and
    after its visit. *)
Definition target_form (sigs : list F) (vis : bool) (n0 : neuron F)
  : neuron F :=
  mkNeuron (n_id n0)
    (if vis then actFunc config (fold_left f_add sigs f_zero) else n_value n0)
    (n_innovation n0) (n_kind n0) f_zero (fold_left f_add sigs f_zero) vis
    (match sigs with [] => false | _ => true end).

Definition form (fed : gmap N F) (done : list N) E (visited : list N)
    (id : N) (n0 : neuron F) : neuron F :=
  match fed !! id with
  | Some x => sensor_form x (bool_decide (id ∈ done)) n0
  | None => target_form (signals E id) (bool_decide (id ∈ visited)) n0
  end.

(** [w'] holds, for every neuron of the genome in [w0], the neuron
    [shape] describes. *)
Definition described w0 (shape : N → neuron F → neuron F) w' : Prop :=
  keyed org w'
  ∧ synapseHeap w' = synapseHeap w0
  ∧ ∀ id n0, state org w0 id = Some n0 → state org w' id = Some (shape id n0).

Lemma safely_post {A} (P : A → world F → Prop) (r : outcome F A) :
  safely P r → post anyhow P r.
Proof. destruct r; simpl; auto. Qed.

Lemma described_ext w0 (shape shape' : N → neuron F → neuron F) w' :
  (∀ id n0, state org w0 id = Some n0 → shape id n0 = shape' id n0) →
  described w0 shape w' → described w0 shape' w'.
Proof.
  intros Heq (Hk & Hs & Hd). split; [exact Hk|]. split; [exact Hs|].
  intros id n0 H0. rewrite (Hd id n0 H0), (Heq id n0 H0). reflexivity.
Qed.

Lemma described_update w0 shape id (f : neuron F → neuron F) w' :
  keyed org w0 →
  (∀ n, n_id (f n) = n_id n) →
  described w0 shape w' →
  post anyhow
    (fun _ w'' =>
       described w0 (fun id' n0 => if decide (id' = id) then f (shape id' n0)
                                   else shape id' n0) w'')
    (updateN (neurons org !! id) f w').
Proof.
  intros Hk0 Hf (Hk & Hs & Hd).
  eapply post_weaken; [|apply safely_post, (updateN_state org id f w' Hk Hf)].
  intros _ w'' (Hk' & Hs' & Hst). split; [exact Hk'|]. split; [congruence|].
  intros id' n0 H0. rewrite Hst. destruct (decide (id' = id)) as [->|Hne].
  - rewrite (Hd id n0 H0). reflexivity.
  - apply Hd. exact H0.
Qed.

Lemma described_deref w0 shape id w' :
  keyed org w0 →
  described w0 shape w' →
  post anyhow
    (fun n w'' => w'' = w' ∧ ∃ n0, state org w0 id = Some n0 ∧ n = shape id n0)
    (derefN (neurons org !! id) w').
Proof.
  intros Hk0 (Hk & Hs & Hd).
  eapply post_weaken; [|apply safely_post, (derefN_state org id w')].
  intros n w'' [-> Hn]. split; [reflexivity|].
  unfold state in Hn |- *. destruct (neurons org !! id) as [p|] eqn:Hp;
    [|discriminate].
  destruct (Hk0 id p Hp) as (n0 & Hn0 & _). exists n0. split; [exact Hn0|].
  pose proof (Hd id n0) as Hd'. unfold state in Hd'. rewrite Hp in Hd'.
  rewrite (Hd' Hn0) in Hn. injection Hn as <-. reflexivity.
Qed.

Lemma signals_snoc E (v : F) (s : synapse F) (t : N) :
  signals (E ++ [(v, s)]) t
  = signals E t
    ++ (if s_enabled s && bool_decide (s_out s = t)
        then [f_mul v (s_weight s)] else []).
Proof.
  unfold signals. rewrite omap_app. simpl.
  destruct (s_enabled s && bool_decide (s_out s = t)); reflexivity.
Qed.

Lemma derefS_resolve sid w :
  post anyhow (fun s w' => w' = w ∧ resolve w sid = Some s)
    (derefS (synapses org !! sid) w).
Proof.
  unfold derefS, resolve. destruct (synapses org !! sid) as [p|]; [|reflexivity].
  destruct (synapseHeap w !! p) as [s|]; [|reflexivity]. simpl. auto.
Qed.

Section Run.

(** The state in which [process] is called, and what the sensors are fed. *)
Variable w0 : world F.
Variable fed : gmap N F.

Hypothesis Hkeyed : keyed org w0.
Hypothesis Htargets : no_sensor_target org (synapseHeap w0).
Hypothesis Hfed : ∀ id, is_Some (fed !! id) ↔ id ∈ sensors org.
Hypothesis Hsources : sources_are_sensors.

(** The neurons in the queue behind the sensors: those that signals have
    reached, each once. *)
Definition reached E (T : list N) : Prop :=
  NoDup T ∧ ∀ t, t ∈ T ↔ fed !! t = None ∧ signals E t ≠ [].

Lemma propagate_synapse_one_layer (src : N) (x : F) (done rest T : list N)
    E sid w :
  fed !! src = Some x → src ∈ done →
  described w0 (form fed done E []) w →
  reached E T →
  post anyhow
    (fun q' w' =>
       ∃ s T',
         resolve w0 sid = Some s
         ∧ q' = queue_of org (rest ++ T')
         ∧ described w0
             (form fed done (E ++ [(actFunc config (f_add f_zero x), s)]) []) w'
         ∧ reached (E ++ [(actFunc config (f_add f_zero x), s)]) T')
    (propagate_synapse org (neurons org !! src) (queue_of org (rest ++ T))
       sid w).
Proof.
  intros Hx Hdone Hd [Hnd HT]. unfold propagate_synapse, getSynapse.
  set (v := actFunc config (f_add f_zero x)).
  eapply post_bind; [apply derefS_resolve|]. intros s ? [-> Hres].
  assert (Hres0 : resolve w0 sid = Some s).
  { unfold resolve in *. destruct Hd as (_ & <- & _). exact Hres. }
  assert (Hnot : fed !! s_out s = None).
  { destruct (fed !! s_out s) as [y|] eqn:Hy; [|reflexivity]. exfalso.
    unfold resolve in Hres0.
    destruct (synapses org !! sid) as [p|] eqn:Hp; [|discriminate].
    apply (Htargets sid p s Hp Hres0). apply Hfed. rewrite Hy. eauto. }
  destruct (s_enabled s) eqn:Hen.
  - eapply post_bind; [apply (described_deref w0 _ src w Hkeyed Hd)|].
    intros nv ? (-> & n0s & H0s & ->).
    assert (Hval : n_value (form fed done E [] src n0s) = v).
    { unfold form. rewrite Hx, (bool_decide_eq_true_2 _ Hdone). reflexivity. }
    rewrite Hval.
    eapply post_bind; [apply (described_deref w0 _ (s_out s) w Hkeyed Hd)|].
    intros o ? (-> & n0 & H0 & ->).
    assert (Hform : form fed done E [] (s_out s) n0
                    = target_form (signals E (s_out s)) false n0).
    { unfold form. rewrite Hnot. reflexivity. }
    rewrite Hform. cbn [n_visited target_form n_seen].
    eapply post_bind;
      [apply (described_update w0 (form fed done E []) (s_out s) _ w Hkeyed);
       [reflexivity|exact Hd]|].
    intros [] w1 Hd1.
    assert (Hsig : ∀ t, signals (E ++ [(v, s)]) t
                        = signals E t
                          ++ (if bool_decide (s_out s = t)
                              then [f_mul v (s_weight s)] else [])).
    { intros t. rewrite signals_snoc, Hen. reflexivity. }
    destruct (signals E (s_out s)) as [|sig1 sigs] eqn:Hsigs; cbn [negb].
    + eapply post_bind;
        [eapply (described_update w0 _ (s_out s) _ w1 Hkeyed);
         [reflexivity|exact Hd1]|].
      intros [] w2 Hd2. simpl.
      exists s, (T ++ [s_out s]). split; [exact Hres0|].
      split; [unfold Push, queue_of; rewrite !fmap_app, <- app_assoc; reflexivity|].
      split.
      * eapply described_ext; [|exact Hd2]. intros id n1 _. simpl.
        destruct (decide (id = s_out s)) as [->|Hne].
        -- unfold form. rewrite Hnot, Hsig, Hsigs.
           rewrite (bool_decide_eq_true_2 (s_out s = s_out s) eq_refl).
           reflexivity.
        -- unfold form. rewrite Hsig.
           rewrite (bool_decide_eq_false_2 (s_out s = id)) by congruence.
           rewrite app_nil_r. reflexivity.
      * split.
        -- apply NoDup_app. split; [exact Hnd|]. split; [|apply NoDup_singleton].
           intros t Ht Ht'. apply list_elem_of_singleton in Ht'. subst t.
           apply HT in Ht as [_ Hne]. contradiction.
        -- intros t. rewrite elem_of_app, HT, Hsig, list_elem_of_singleton.
           destruct (decide (s_out s = t)) as [<-|Hne].
           ++ rewrite (bool_decide_eq_true_2 (s_out s = s_out s) eq_refl).
              rewrite Hsigs.
              split; [intros _; split; [exact Hnot|discriminate]|auto].
           ++ rewrite (bool_decide_eq_false_2 (s_out s = t) Hne), app_nil_r.
              split; [intros [H|H]; [exact H|congruence]|auto].
    + simpl. exists s, T. split; [exact Hres0|]. split; [reflexivity|]. split.
      * eapply described_ext; [|exact Hd1]. intros id n1 _. simpl.
        destruct (decide (id = s_out s)) as [->|Hne].
        -- unfold form. rewrite Hnot, Hsig, Hsigs.
           rewrite (bool_decide_eq_true_2 (s_out s = s_out s) eq_refl).
           unfold target_form. cbn [n_sum n_id n_value n_innovation n_kind
                                    n_future n_visited n_seen set_sum].
           rewrite fold_left_app. reflexivity.
        -- unfold form. rewrite Hsig.
           rewrite (bool_decide_eq_false_2 (s_out s = id)) by congruence.
           rewrite app_nil_r. reflexivity.
      * split; [exact Hnd|]. intros t. rewrite HT, Hsig.
        destruct (decide (s_out s = t)) as [<-|Hne].
        -- rewrite (bool_decide_eq_true_2 (s_out s = s_out s) eq_refl).
           rewrite Hsigs.
           split; intros [? _]; (split; [assumption|discriminate]).
        -- rewrite (bool_decide_eq_false_2 (s_out s = t) Hne), app_nil_r.
           reflexivity.
  - simpl. exists s, T. split; [exact Hres0|]. split; [reflexivity|].
    assert (Hsig : ∀ t, signals (E ++ [(v, s)]) t = signals E t).
    { intros t. rewrite signals_snoc, Hen. simpl. apply app_nil_r. }
    split.
    + eapply described_ext; [|exact Hd]. intros id n1 _. unfold form.
      rewrite Hsig. reflexivity.
    + split; [exact Hnd|]. intros t. rewrite HT, Hsig. reflexivity.
Qed.

Lemma propagate_fan_one_layer (src : N) (x : F) (done rest : list N)
    (l : list synapseID) T E w :
  fed !! src = Some x → src ∈ done →
  described w0 (form fed done E []) w →
  reached E T →
  post anyhow
    (fun q' w' =>
       ∃ T',
         q' = queue_of org (rest ++ T')
         ∧ described w0
             (form fed done
                (E ++ ((fun s => (actFunc config (f_add f_zero x), s))
                         <$> omap (resolve w0) l)) []) w'
         ∧ reached
             (E ++ ((fun s => (actFunc config (f_add f_zero x), s))
                      <$> omap (resolve w0) l)) T')
    (for_fold (propagate_synapse org (neurons org !! src))
       (queue_of org (rest ++ T)) l w).
Proof.
  intros Hx Hdone. revert T E w.
  induction l as [|sid l IH]; intros T E w Hd Hr; simpl.
  - exists T. rewrite app_nil_r. auto.
  - eapply post_bind;
      [apply (propagate_synapse_one_layer src x done rest T E sid w
                Hx Hdone Hd Hr)|].
    intros q' w' (s & T' & Hres & -> & Hd' & Hr').
    eapply post_weaken; [|apply (IH T' _ w' Hd' Hr')].
    intros q'' w'' (T'' & -> & Hd'' & Hr''). exists T''.
    rewrite Hres. rewrite fmap_cons.
    rewrite <- app_assoc in Hd'', Hr''. auto.
Qed.

Lemma state_id w id n : keyed org w → state org w id = Some n → n_id n = id.
Proof.
  intros Hk. unfold state. destruct (neurons org !! id) as [p|] eqn:Hp;
    [|discriminate].
  destruct (Hk id p Hp) as (n' & -> & Hid). intros [= <-]. exact Hid.
Qed.

Lemma form_done_cons (src : N) done E vis id (n0 : neuron F) :
  id ≠ src → form fed (src :: done) E vis id n0 = form fed done E vis id n0.
Proof.
  intros Hne. unfold form. destruct (fed !! id); [|reflexivity].
  rewrite (bool_decide_ext (id ∈ src :: done) (id ∈ done)); [reflexivity|].
  rewrite elem_of_cons. split; [intros [?|?]; [congruence|assumption]|auto].
Qed.

Lemma form_visited_cons (t : N) done E vis id (n0 : neuron F) :
  id ≠ t → form fed done E (t :: vis) id n0 = form fed done E vis id n0.
Proof.
  intros Hne. unfold form. destruct (fed !! id); [reflexivity|].
  rewrite (bool_decide_ext (id ∈ t :: vis) (id ∈ vis)); [reflexivity|].
  rewrite elem_of_cons. split; [intros [?|?]; [congruence|assumption]|auto].
Qed.

(** The visit of a sensor that was fed [x]. *)
Lemma visit_sensor (src : N) (x : F) (done rest T : list N) E w :
  fed !! src = Some x → src ∉ done →
  described w0 (form fed done E []) w →
  reached E T →
  post anyhow
    (fun q' w' =>
       ∃ T',
         q' = queue_of org (rest ++ T')
         ∧ described w0 (form fed (src :: done) (E ++ sent w0 (src, x)) []) w'
         ∧ reached (E ++ sent w0 (src, x)) T')
    (propagate_visit config org (queue_of org ((src :: rest) ++ T)) w).
Proof.
  intros Hx Hdone Hd Hr. unfold propagate_visit.
  eapply (post_bind anyhow
            (fun pq w' =>
               pq = (neurons org !! src, queue_of org (rest ++ T)) ∧ w' = w));
    [simpl; auto|].
  intros ? ? [-> ->]. cbn [fst snd].
  eapply post_bind; [apply (described_deref w0 _ src w Hkeyed Hd)|].
  intros nv ? (-> & n0 & H0 & ->).
  assert (Hform : form fed done E [] src n0 = sensor_form x false n0).
  { unfold form. rewrite Hx, (bool_decide_eq_false_2 _ Hdone). reflexivity. }
  rewrite Hform. cbn [n_visited sensor_form n_id].
  eapply post_bind;
    [apply (described_update w0 (form fed done E []) src _ w Hkeyed);
     [reflexivity|exact Hd]|].
  intros [] w1 Hd1.
  eapply post_bind;
    [eapply (described_update w0 _ src _ w1 Hkeyed); [reflexivity|exact Hd1]|].
  intros [] w2 Hd2. simpl.
  rewrite (state_id w0 src n0 Hkeyed H0).
  apply (propagate_fan_one_layer src x (src :: done) rest
           (default [] (connections org !! src)) T E w2 Hx);
    [left| |exact Hr].
  eapply described_ext; [|exact Hd2]. intros id n1 _. simpl.
  destruct (decide (id = src)) as [->|Hne].
  - unfold form. rewrite Hx, (bool_decide_eq_false_2 _ Hdone).
    rewrite (bool_decide_eq_true_2 (src ∈ src :: done)) by left.
    reflexivity.
  - symmetry. apply form_done_cons. exact Hne.
Qed.

(** The visit of a neuron that is not a sensor: it has nowhere to send. *)
Lemma visit_target (t : N) (done vis rest : list N) E w :
  fed !! t = None → t ∉ vis →
  described w0 (form fed done E vis) w →
  post anyhow
    (fun q' w' =>
       q' = queue_of org rest ∧ described w0 (form fed done E (t :: vis)) w')
    (propagate_visit config org (queue_of org (t :: rest)) w).
Proof.
  intros Ht Hvis Hd. unfold propagate_visit.
  eapply (post_bind anyhow
            (fun pq w' => pq = (neurons org !! t, queue_of org rest) ∧ w' = w));
    [simpl; auto|].
  intros ? ? [-> ->]. cbn [fst snd].
  eapply post_bind; [apply (described_deref w0 _ t w Hkeyed Hd)|].
  intros nv ? (-> & n0 & H0 & ->).
  assert (Hform : form fed done E vis t n0
                  = target_form (signals E t) false n0).
  { unfold form. rewrite Ht, (bool_decide_eq_false_2 _ Hvis). reflexivity. }
  rewrite Hform. cbn [n_visited target_form n_id].
  eapply post_bind;
    [apply (described_update w0 (form fed done E vis) t _ w Hkeyed);
     [reflexivity|exact Hd]|].
  intros [] w1 Hd1.
  eapply post_bind;
    [eapply (described_update w0 _ t _ w1 Hkeyed); [reflexivity|exact Hd1]|].
  intros [] w2 Hd2. simpl.
  rewrite (state_id w0 t n0 Hkeyed H0).
  rewrite Hsources.
  2:{ intros Hin. apply Hfed in Hin. rewrite Ht in Hin.
      destruct Hin as [? [=]]. }
  simpl. split; [reflexivity|].
  eapply described_ext; [|exact Hd2]. intros id n1 _. simpl.
  destruct (decide (id = t)) as [->|Hne].
  - unfold form. rewrite Ht, (bool_decide_eq_false_2 _ Hvis).
    rewrite (bool_decide_eq_true_2 (t ∈ t :: vis)) by left.
    reflexivity.
  - symmetry. apply form_visited_cons. exact Hne.
Qed.

(** Once the sensors are done, the loop visits the reached neurons and
    stops. *)
Lemma drain_targets (done : list N) E (rest : list N) :
  ∀ (fuel : nat) (vis : list N) w,
    NoDup rest →
    (∀ t, t ∈ rest → fed !! t = None ∧ t ∉ vis) →
    described w0 (form fed done E vis) w →
    post anyhow
      (fun _ w' =>
         ∃ vis', (∀ t, t ∈ vis' ↔ t ∈ vis ∨ t ∈ rest)
                 ∧ described w0 (form fed done E vis') w')
      (propagate_loop config fuel org (queue_of org rest) w).
Proof.
  induction rest as [|t rest IH]; intros fuel vis w Hnd Hrest Hd.
  - destruct fuel; simpl; exists vis; (split; [|exact Hd]);
      intros t; rewrite elem_of_nil; tauto.
  - destruct fuel as [|fuel]; [reflexivity|].
    apply NoDup_cons in Hnd as [Ht Hnd].
    destruct (Hrest t) as [Hnone Hvis]; [left|].
    change (post anyhow
              (fun _ w' =>
                 ∃ vis', (∀ t', t' ∈ vis' ↔ t' ∈ vis ∨ t' ∈ t :: rest)
                         ∧ described w0 (form fed done E vis') w')
              (bind (propagate_visit config org (queue_of org (t :: rest)))
                 (propagate_loop config fuel org) w)).
    eapply post_bind; [apply (visit_target t done vis rest E w Hnone Hvis Hd)|].
    intros q' w' [-> Hd'].
    eapply post_weaken; [|apply (IH fuel (t :: vis) w' Hnd); [|exact Hd']].
    + intros _ w'' (vis' & Hvis' & Hd''). exists vis'. split; [|exact Hd''].
      intros t'. rewrite Hvis', !elem_of_cons. tauto.
    + intros t' Ht'. destruct (Hrest t') as [Hn' Hv']; [right; exact Ht'|].
      split; [exact Hn'|]. rewrite elem_of_cons. intros [->|Hin]; auto.
Qed.

Lemma events_cons w (ix : N * F) (l : list (N * F)) :
  events w (ix :: l) = sent w ix ++ events w l.
Proof. reflexivity. Qed.

(** The whole loop of [propagate], from a queue that holds the sensors
    still to visit and, behind them, the neurons reached so far. *)
Lemma drain_sensors (rest_in : list (N * F)) :
  ∀ (fuel : nat) (done T : list N) E w,
    NoDup rest_in.*1 →
    (∀ ix, ix ∈ rest_in → fed !! ix.1 = Some ix.2 ∧ ix.1 ∉ done) →
    described w0 (form fed done E []) w →
    reached E T →
    post anyhow
      (fun _ w' =>
         ∃ done' T',
           (∀ id, id ∈ done' ↔ id ∈ done ∨ id ∈ rest_in.*1)
           ∧ reached (E ++ events w0 rest_in) T'
           ∧ described w0 (form fed done' (E ++ events w0 rest_in) T') w')
      (propagate_loop config fuel org (queue_of org (rest_in.*1 ++ T)) w).
Proof.
  induction rest_in as [|[src x] rest_in IH]; intros fuel done T E w Hnd Hin Hd Hr.
  - simpl. unfold events. simpl. rewrite app_nil_r.
    eapply post_weaken;
      [|apply (drain_targets done E T fuel [] w (proj1 Hr)); [|exact Hd]].
    + intros _ w' (vis' & Hvis' & Hd'). exists done, T.
      split; [intros id; rewrite elem_of_nil; tauto|]. split; [exact Hr|].
      eapply described_ext; [|exact Hd']. intros id n0 _. unfold form.
      destruct (fed !! id); [reflexivity|].
      rewrite (bool_decide_ext (id ∈ vis') (id ∈ T)); [reflexivity|].
      rewrite Hvis', elem_of_nil. tauto.
    + intros t Ht. split; [apply (proj2 Hr); exact Ht|apply not_elem_of_nil].
  - destruct fuel as [|fuel]; [reflexivity|].
    rewrite fmap_cons in Hnd. apply NoDup_cons in Hnd as [Hsrc Hnd].
    destruct (Hin (src, x)) as [Hx Hdone]; [left|]. simpl in Hx, Hdone.
    change (post anyhow
              (fun _ w' =>
                 ∃ done' T',
                   (∀ id, id ∈ done'
                          ↔ id ∈ done ∨ id ∈ ((src, x) :: rest_in).*1)
                   ∧ reached (E ++ events w0 ((src, x) :: rest_in)) T'
                   ∧ described w0
                       (form fed done'
                          (E ++ events w0 ((src, x) :: rest_in)) T') w')
              (bind (propagate_visit config org
                       (queue_of org ((src :: rest_in.*1) ++ T)))
                 (propagate_loop config fuel org) w)).
    eapply post_bind;
      [apply (visit_sensor src x done rest_in.*1 T E w Hx Hdone Hd Hr)|].
    intros q' w' (T' & -> & Hd' & Hr').
    eapply post_weaken;
      [|apply (IH fuel (src :: done) T' (E ++ sent w0 (src, x)) w' Hnd);
        [|exact Hd'|exact Hr']].
    + intros _ w'' (done' & T'' & Hdone' & Hr'' & Hd'').
      rewrite events_cons, app_assoc. exists done', T''.
      split; [|split; assumption].
      intros id. rewrite Hdone', fmap_cons, !elem_of_cons. simpl. tauto.
    + intros ix Hix. destruct (Hin ix) as [Hx' Hd0]; [right; exact Hix|].
      split; [exact Hx'|]. rewrite elem_of_cons. intros [Heq|Hin']; [|auto].
      apply Hsrc. rewrite <- Heq. apply list_elem_of_fmap.
      exists ix. split; [reflexivity|exact Hix].
Qed.

End Run.

(** The value a neuron holds ([f_zero] for an id that names no neuron). *)
Definition shown w (id : N) : F :=
  match state org w id with
  | Some n => n_value n
  | None => f_zero
  end.

(** The loop of [process] that feeds the sensors. *)
Lemma feed_sensors w0 (l : list (N * F)) :
  ∀ (pre : list (N * F)) w,
    keyed org w0 →
    NoDup (pre ++ l).*1 →
    described w0 (form (list_to_map pre) [] [] []) w →
    post anyhow
      (fun _ w' => described w0 (form (list_to_map (pre ++ l)) [] [] []) w')
      (for_do l
         (fun ix =>
            let s := neurons org !! fst ix in
            updateN s (fun v => set_sum (f_add (n_sum v) (snd ix)) v)) w).
Proof.
  induction l as [|[id x] l IH]; intros pre w Hk Hnd Hd; simpl.
  - rewrite app_nil_r. exact Hd.
  - assert (Hnotin : id ∉ pre.*1).
    { rewrite fmap_app, fmap_cons in Hnd. apply NoDup_app in Hnd as (_ & H & _).
      intros Hin. apply (H id Hin). left. }
    eapply post_bind;
      [apply (described_update w0 (form (list_to_map pre) [] [] []) id _ w Hk);
       [reflexivity|exact Hd]|].
    intros [] w1 Hd1.
    replace (pre ++ (id, x) :: l) with ((pre ++ [(id, x)]) ++ l)
      by (rewrite <- app_assoc; reflexivity).
    apply IH; [exact Hk|rewrite <- app_assoc; exact Hnd|].
    eapply described_ext; [|exact Hd1]. intros id' n0 _. simpl.
    rewrite (list_to_map_snoc pre id x Hnotin). unfold form.
    destruct (decide (id' = id)) as [->|Hne].
    + rewrite lookup_insert_eq.
      rewrite (not_elem_of_list_to_map_1 pre id Hnotin). reflexivity.
    + rewrite lookup_insert_ne;
        [reflexivity|intros Heq; apply Hne; symmetry; exact Heq].
Qed.

Lemma Forall2_function {A B} (f : A → B) (l : list A) (ys : list B) :
  Forall2 (fun x y => y = f x) l ys → ys = f <$> l.
Proof.
  induction 1 as [|x y l ys Hy _ IH]; [reflexivity|].
  rewrite fmap_cons, Hy, IH. reflexivity.
Qed.

(** What a call computes, if it returns. *)
Lemma process_one_layer_post (input : list F) w :
  wellformed w org →
  rested w →
  sources_are_sensors →
  length input = length (sensors org) →
  post anyhow
    (fun out w' =>
       out = (fun o => response w (zip (sensors org) input) o (shown w o))
               <$> outputs org
       ∧ synapseHeap w' = synapseHeap w
       ∧ rested w'
       ∧ ∀ id, is_Some (neurons org !! id) → id ∉ sensors org →
               shown w' id
               = response w (zip (sensors org) input) id (shown w id))
    (process config org input w).
Proof.
  intros Hwf Hrest Hsrc Hlen.
  pose proof (built_keyed org w (proj1 (wf_sound _ _ Hwf))) as Hkey.
  set (fed := list_to_map (zip (sensors org) input) : gmap N F).
  assert (Hfst : (zip (sensors org) input).*1 = sensors org)
    by (apply fst_zip; lia).
  assert (Hnd : NoDup (zip (sensors org) input).*1)
    by (rewrite Hfst; exact (wf_sensors _ _ Hwf)).
  assert (Hfed : ∀ id, is_Some (fed !! id) ↔ id ∈ sensors org).
  { intros id. rewrite <- Hfst. unfold fed.
    destruct (decide (id ∈ (zip (sensors org) input).*1)) as [Hin|Hout].
    - split; [auto|]. intros _.
      destruct (list_to_map (zip (sensors org) input) !! id) as [x|] eqn:Hx;
        [eauto|].
      apply not_elem_of_list_to_map in Hx. contradiction.
    - split; [|contradiction].
      rewrite (not_elem_of_list_to_map_1 _ _ Hout). intros [? [=]]. }
  unfold process. rewrite Hlen, Nat.eqb_refl. cbn [negb].
  destruct (clear_all_spec (map_to_list (neurons org)) w)
    as (w1 & Hrun1 & Hsyn1 & Hheap1).
  { apply (keyed_NoDup _ (neuronHeap w)). exact Hkey. }
  { intros [k p] Hkp. apply elem_of_map_to_list in Hkp.
    destruct (Hkey k p Hkp) as (n & Hn & _). simpl. eauto. }
  rewrite (bind_Done _ _ _ _ _ Hrun1).
  assert (Hst1 : ∀ id, state org w1 id = clear_neuron <$> state org w id).
  { intros id. unfold state. destruct (neurons org !! id) as [p|] eqn:Hp;
      [|reflexivity].
    rewrite Hheap1, decide_True; [reflexivity|].
    apply list_elem_of_fmap. exists (id, p). split; [reflexivity|].
    apply elem_of_map_to_list. exact Hp. }
  assert (Hd1 : described w (form (list_to_map []) [] [] []) w1).
  { split; [|split; [exact Hsyn1|]].
    - intros id p Hp. destruct (Hkey id p Hp) as (n & Hn & Hid).
      exists (clear_neuron n). specialize (Hst1 id). unfold state in Hst1.
      rewrite Hp, Hn in Hst1. auto.
    - intros id n0 H0. rewrite Hst1, H0. simpl. f_equal.
      unfold form, clear_neuron, target_form. simpl. rewrite lookup_empty.
      rewrite (Hrest id n0 H0). reflexivity. }
  eapply post_bind;
    [apply (feed_sensors w (zip (sensors org) input) [] w1 Hkey Hnd Hd1)|].
  intros [] w2 Hd2. simpl in Hd2. fold fed in Hd2. simpl.
  eapply post_bind.
  { unfold propagate. rewrite initial_queue_of.
    replace (queue_of org (sensors org))
      with (queue_of org ((zip (sensors org) input).*1 ++ []))
      by (rewrite app_nil_r, Hfst; reflexivity).
    apply (drain_sensors w fed Hkey (wf_targets _ _ Hwf) Hfed Hsrc
             (zip (sensors org) input) (propagate_fuel org) [] [] [] w2 Hnd).
    - intros [id x] Hix. split; [|apply not_elem_of_nil].
      apply elem_of_list_to_map_1; assumption.
    - exact Hd2.
    - split; [constructor|]. intros t. rewrite elem_of_nil.
      split; [contradiction|]. intros [_ H]. apply H. reflexivity. }
  intros [] w3 (done' & T' & Hdone' & [HndT HT] & Hd3). simpl in HT, Hd3.
  assert (Hval : ∀ id n0, state org w id = Some n0 → id ∉ sensors org →
            n_value (form fed done' (events w (zip (sensors org) input)) T'
                       id n0)
            = response w (zip (sensors org) input) id (n_value n0)).
  { intros id n0 H0 Hns.
    assert (Hnone : fed !! id = None).
    { destruct (fed !! id) as [x|] eqn:Hx; [|reflexivity].
      exfalso. apply Hns, Hfed. rewrite Hx. eauto. }
    unfold form, response. rewrite Hnone. specialize (HT id).
    rewrite Hnone in HT. simpl.
    destruct (signals (events w (zip (sensors org) input)) id) as [|a sigs].
    - rewrite bool_decide_eq_false_2; [reflexivity|].
      intros Hin. apply HT in Hin as [_ H]. apply H. reflexivity.
    - rewrite bool_decide_eq_true_2; [reflexivity|].
      apply HT. split; [reflexivity|discriminate]. }
  eapply post_weaken;
    [|apply (post_for_map anyhow (fun w' => w' = w3)
               (fun o y => y = response w (zip (sensors org) input) o
                                 (shown w o))); [reflexivity|]].
  - intros out w' [Hout ->]. split; [apply Forall2_function; exact Hout|].
    split; [exact (proj1 (proj2 Hd3))|]. split.
    + intros id n Hn. unfold state in Hn.
      destruct (neurons org !! id) as [p|] eqn:Hp; [|discriminate].
      destruct (Hkey id p Hp) as (n0 & Hn0 & _).
      assert (H0 : state org w id = Some n0) by (unfold state; rewrite Hp; exact Hn0).
      pose proof (proj2 (proj2 Hd3) id n0 H0) as H3. unfold state in H3.
      rewrite Hp, Hn in H3. injection H3 as ->.
      unfold form. destruct (fed !! id); reflexivity.
    + intros id [p Hp] Hns. destruct (Hkey id p Hp) as (n0 & Hn0 & _).
      assert (H0 : state org w id = Some n0) by (unfold state; rewrite Hp; exact Hn0).
      unfold shown. rewrite (proj2 (proj2 Hd3) id n0 H0), H0.
      apply Hval; assumption.
  - intros o w' Ho ->.
    eapply post_bind; [apply (described_deref w _ o w3 Hkey Hd3)|].
    intros n ? (-> & n0 & H0 & ->). simpl. split; [|reflexivity].
    unfold shown. rewrite H0. apply Hval; [exact H0|].
    intros Hin. exact (wf_disjoint _ _ Hwf o Hin Ho).
Qed.

(** What a call computes: it returns, and with what. *)
Lemma process_one_layer_run (input : list F) w :
  wellformed w org →
  rested w →
  sources_are_sensors →
  length input = length (sensors org) →
  ∃ out w',
    process config org input w = Done out w'
    ∧ out = (fun o => response w (zip (sensors org) input) o (shown w o))
              <$> outputs org
    ∧ (∀ id, is_Some (neurons org !! id) → id ∉ sensors org →
             shown w' id
             = response w (zip (sensors org) input) id (shown w id))
    ∧ synapseHeap w' = synapseHeap w
    ∧ rested w'
    ∧ wellformed w' org.
Proof.
  intros Hwf Hrest Hsrc Hlen.
  destruct (process_wellformed config org input w Hwf Hlen)
    as (out & w' & Hrun & _ & Hwf' & _).
  pose proof (process_one_layer_post input w Hwf Hrest Hsrc Hlen) as Hpost.
  rewrite Hrun in Hpost. simpl in Hpost.
  destruct Hpost as (Hout & Hsyn & Hrest' & Hval).
  exists out, w'. auto 7.
Qed.

(** X21: what [process] computes on a network in which only sensors have
    outgoing connections, as [newOrganism] builds them.  Called with one
    input per sensor on a well-formed genome none of whose neurons holds a
    deferred signal, it returns.  Each sensor sends the activation of
    [0 + input] through its enabled synapses, sensors in the order of
    [org.sensors], synapses in the order of [org.connections]; an output
    neuron returns the activation of the sum of the signals that reached
    it, added in that order starting from zero, and its previous value
    if none did.  No synapse changes, no signal is left deferred, and the
    genome stays well-formed. *)
Theorem process_one_layer (input : list F) w :
  wellformed w org →
  rested w →
  sources_are_sensors →
  length input = length (sensors org) →
  ∃ out w',
    process config org input w = Done out w'
    ∧ out = (fun o => response w (zip (sensors org) input) o (shown w o))
              <$> outputs org
    ∧ (∀ id, is_Some (neurons org !! id) → id ∉ sensors org →
             shown w' id
             = response w (zip (sensors org) input) id (shown w id))
    ∧ synapseHeap w' = synapseHeap w
    ∧ rested w'
    ∧ wellformed w' org.
Proof. apply process_one_layer_run. Qed.

Lemma signals_app E1 E2 (t : N) :
  signals (E1 ++ E2) t = signals E1 t ++ signals E2 t.
Proof. unfold signals. apply omap_app. Qed.

(** Whether a signal reaches a neuron does not depend on the input. *)
Lemma sent_reach w (id : N) (x y : F) (t : N) :
  length (signals (sent w (id, x)) t) = length (signals (sent w (id, y)) t).
Proof.
  unfold sent. cbn [fst snd].
  induction (outgoing w id) as [|s l IH]; [reflexivity|].
  rewrite !fmap_cons. unfold signals in *. cbn [omap list_omap snd fst].
  destruct (s_enabled s && bool_decide (s_out s = t)); simpl; rewrite IH;
    reflexivity.
Qed.

Lemma events_reach w (l1 l2 : list (N * F)) (t : N) :
  l1.*1 = l2.*1 →
  length (signals (events w l1) t) = length (signals (events w l2) t).
Proof.
  revert l2. induction l1 as [|[id x] l1 IH]; intros [|[id' y] l2] Heq;
    try discriminate; [reflexivity|].
  rewrite !fmap_cons in Heq. injection Heq as <- Heq.
  rewrite !events_cons, !signals_app, !length_app.
  rewrite (sent_reach w id x y t), (IH l2 Heq). reflexivity.
Qed.

Lemma response_absorbs w (l1 l2 : list (N * F)) (t : N) (old : F) :
  l1.*1 = l2.*1 →
  response w l2 t (response w l1 t old) = response w l2 t old.
Proof.
  intros Heq. pose proof (events_reach w l1 l2 t Heq) as Hlen.
  unfold response.
  destruct (signals (events w l2) t); [|reflexivity].
  destruct (signals (events w l1) t); [reflexivity|discriminate].
Qed.

Lemma response_heap w w' (l : list (N * F)) (t : N) (old : F) :
  synapseHeap w' = synapseHeap w → response w' l t old = response w l t old.
Proof.
  intros Hsyn. unfold response, events, sent, outgoing, resolve.
  rewrite Hsyn. reflexivity.
Qed.

Lemma process_twice_one_layer (a b : list F) w :
  wellformed w org →
  rested w →
  sources_are_sensors →
  length a = length (sensors org) →
  length b = length (sensors org) →
  ∃ out_a w1 out w2 w3,
    process config org a w = Done out_a w1
    ∧ wellformed w1 org ∧ rested w1
    ∧ process config org b w1 = Done out w2
    ∧ process config org b w = Done out w3.
Proof.
  intros Hwf Hrest Hsrc Ha Hb.
  destruct (process_one_layer_run a w Hwf Hrest Hsrc Ha)
    as (out_a & w1 & Hrun1 & _ & Hval1 & Hsyn1 & Hrest1 & Hwf1).
  destruct (process_one_layer_run b w1 Hwf1 Hrest1 Hsrc Hb)
    as (out & w2 & Hrun2 & Hout2 & _).
  destruct (process_one_layer_run b w Hwf Hrest Hsrc Hb)
    as (out' & w3 & Hrun3 & Hout3 & _).
  exists out_a, w1, out, w2, w3. split; [exact Hrun1|].
  split; [exact Hwf1|]. split; [exact Hrest1|]. split; [exact Hrun2|].
  rewrite Hrun3. f_equal. rewrite Hout2, Hout3.
  apply list_fmap_ext. intros i o Ho.
  apply list_elem_of_lookup_2 in Ho.
  rewrite (response_heap w w1 _ o _ Hsyn1).
  destruct (neurons org !! o) as [p|] eqn:Hp.
  - rewrite (Hval1 o);
      [|rewrite Hp; eauto|intros Hin; exact (wf_disjoint _ _ Hwf o Hin Ho)].
    symmetry. apply response_absorbs.
    rewrite !fst_zip by lia. reflexivity.
  - unfold shown, state. rewrite Hp. reflexivity.
Qed.

(** X22: a network in which only sensors have outgoing connections has no
    memory.  After any sequence of calls of [process], each with one input
    per sensor, a call returns the outputs it would have returned had it
    been the first call. *)
Theorem one_layer_has_no_memory (history : list (list F)) (input : list F) w :
  wellformed w org →
  rested w →
  sources_are_sensors →
  Forall (fun a => length a = length (sensors org)) history →
  length input = length (sensors org) →
  ∃ outs w1 out w2 w3,
    process_all config org history w = Done outs w1
    ∧ process config org input w1 = Done out w2
    ∧ process config org input w = Done out w3.
Proof.
  intros Hwf Hrest Hsrc Hall Hlen. revert w Hwf Hrest.
  induction Hall as [|a history Ha _ IH]; intros w Hwf Hrest.
  - destruct (process_one_layer_run input w Hwf Hrest Hsrc Hlen)
      as (out & w' & Hrun & _).
    exists [], w, out, w', w'. auto.
  - destruct (process_twice_one_layer a input w Hwf Hrest Hsrc Ha Hlen)
      as (out_a & wa & out & w2 & w3 & Hrun_a & Hwf_a & Hrest_a & Hrun2 & Hrun3).
    destruct (IH wa Hwf_a Hrest_a)
      as (outs & w1 & out' & w2' & w3' & Hall' & Hlast & Hfirst).
    rewrite Hrun2 in Hfirst. injection Hfirst as <- <-.
    exists (out_a :: outs), w1, out, w2', w3.
    split; [|split; [exact Hlast|exact Hrun3]].
    unfold process_all in *. simpl.
    rewrite (bind_Done _ _ _ _ _ Hrun_a), (bind_Done _ _ _ _ _ Hall').
    reflexivity.
Qed.


End OneLayer.
(** * The networks [newOrganism] builds have one layer *)

Section Fresh.

Context {F : Type} {FF : Float64 F}.

Implicit Types (w : world F) (org : organism F).

Let anyhow : failure → bool := fun _ => true.

(** Only sensors have outgoing connections, and no neuron holds a deferred
    signal. *)
Definition layered org w : Prop := sources_are_sensors org ∧ rested org w.

Lemma layered_empty w (nInputs nOutputs : Z) :
  layered (_newOrganism nInputs nOutputs) w.
Proof.
  split.
  - intros id _. reflexivity.
  - intros id n. unfold state. simpl. rewrite lookup_empty. discriminate.
Qed.

(** One more neuron, as [_newNeuron] creates it. *)
Lemma layered_neuron (k : neuronKind) org w :
  layered org w →
  layered (copy_into org (VNeuron (fresh_neuron k w)) (bump w)).1
    (copy_into org (VNeuron (fresh_neuron k w)) (bump w)).2.
Proof.
  intros [Hsrc Hrest]. split.
  - intros id Hid. simpl. unfold registerNeuron.
    destruct k; simpl in Hid |- *; apply Hsrc; intros Hin; apply Hid;
      try exact Hin; apply elem_of_app; left; exact Hin.
  - intros id n. unfold state. simpl.
    replace (neurons (registerNeuron org (length (neuronHeap w))
                        (fresh_neuron k w)))
      with (<[n_id (fresh_neuron k w) := length (neuronHeap w)]> (neurons org))
      by (unfold registerNeuron; destruct k; reflexivity).
    destruct (decide (id = n_id (fresh_neuron k w))) as [->|Hne].
    + rewrite lookup_insert_eq, list_lookup_middle by reflexivity.
      intros [= <-]. reflexivity.
    + rewrite lookup_insert_ne by congruence.
      destruct (neurons org !! id) as [p|] eqn:Hp; [|discriminate].
      intros Hn. apply lookup_app_Some in Hn as [Hn|[_ Hn]].
      * apply (Hrest id n). unfold state. rewrite Hp. exact Hn.
      * apply list_lookup_singleton_Some in Hn as [_ <-]. reflexivity.
Qed.

(** One more synapse, leaving a sensor. *)
Lemma layered_synapse (ni no : neuron F) org w :
  layered org w →
  n_id ni ∈ sensors org →
  layered (copy_into org (VSynapse (fresh_synapse ni no w)) (bump w)).1
    (copy_into org (VSynapse (fresh_synapse ni no w)) (bump w)).2.
Proof.
  intros [Hsrc Hrest] Hin. split.
  - intros id Hid. simpl in Hid |- *.
    rewrite lookup_insert_ne; [apply Hsrc; exact Hid|].
    intros <-. apply Hid. exact Hin.
  - intros id n Hn. apply (Hrest id n). exact Hn.
Qed.

Lemma neuron_loop_layered (kind : neuronKind) (count base total : nat)
    w0 org w :
  room w0 total → base + count ≤ total →
  grown w0 base org w → layered org w →
  post anyhow (fun o w' => grown w0 (base + count) o w' ∧ layered o w')
    (for_fold (fun org (_ : nat) => n <- _newNeuron kind ;; addNeuron org (Some n))
       org (seq 0 count) w).
Proof.
  intros Hroom Hle Hg Hl.
  eapply post_weaken;
    [|apply (post_for_fold_indexed
               (fun i o w' => grown w0 (base + i) o w' ∧ layered o w'))].
  - intros o w'. rewrite length_seq. auto.
  - rewrite Nat.add_0_r. auto.
  - intros i x o w1 Hx [(Hwf & Hnum & Hadv) Hl1].
    apply lookup_lt_Some in Hx. rewrite length_seq in Hx.
    rewrite newNeuron_add. unfold copied. simpl post.
    destruct (grow_neuron kind o w1 Hwf Hnum) as (Hwf' & Hnum' & Hadv').
    { eapply room_step; [exact Hroom|exact Hadv|lia]. }
    split; [|apply layered_neuron; exact Hl1].
    split; [exact Hwf'|]. split; [exact Hnum'|].
    rewrite Nat.add_succ_r. eapply advanced_step; eassumption.
Qed.

Lemma synapse_loop_layered (nInputs nOutputs : Z) (count base total : nat)
    w0 org w :
  room w0 total → base + count ≤ total →
  grown w0 base org w → layered org w →
  post anyhow (fun o w' => grown w0 (base + count) o w' ∧ layered o w')
    (for_fold (fun org (i : nat) =>
                 a <- int_rem (Z.of_nat i) nInputs ;;
                 sid <- index (sensors org) a ;;
                 let in_ := neurons org !! sid in
                 b <- int_rem (Z.of_nat i) nOutputs ;;
                 oid <- index (outputs org) b ;;
                 let out := neurons org !! oid in
                 s <- newSynapse in_ out ;;
                 addSynapse org (Some s))
       org (seq 0 count) w).
Proof.
  intros Hroom Hle Hg Hl.
  eapply post_weaken;
    [|apply (post_for_fold_indexed
               (fun i o w' => grown w0 (base + i) o w' ∧ layered o w'))].
  - intros o w'. rewrite length_seq. auto.
  - rewrite Nat.add_0_r. auto.
  - intros i x o w1 Hx [(Hwf & Hnum & Hadv) Hl1].
    apply lookup_lt_Some in Hx. rewrite length_seq in Hx.
    eapply post_bind; [apply int_rem_post|]. intros a ? ->.
    eapply post_bind; [apply index_post|]. intros sid ? [-> Hsid].
    eapply post_bind; [apply int_rem_post|]. intros b ? ->.
    eapply post_bind; [apply index_post|]. intros oid ? [-> Hoid].
    pose proof (proj1 (wf_sound _ _ Hwf)) as Hb.
    destruct (built_sensors w1 o sid Hb Hsid) as [pi Hpi].
    destruct (built_outputs w1 o oid Hb Hoid) as [po Hpo].
    destruct (built_neurons w1 o sid pi Hb Hpi) as (ni & Hni & Hii).
    destruct (built_neurons w1 o oid po Hb Hpo) as (no & Hno & Hoo).
    rewrite Hpi, Hpo.
    rewrite (newSynapse_add o pi po ni no w1 Hni Hno). unfold copied. simpl post.
    destruct (grow_synapse ni no o w1 Hwf Hnum) as (Hwf' & Hnum' & Hadv').
    { eapply room_step; [exact Hroom|exact Hadv|lia]. }
    { rewrite Hii, Hpi. eauto. }
    { rewrite Hoo, Hpo. eauto. }
    { rewrite Hoo. intros Hx'. exact (wf_disjoint _ _ Hwf oid Hx' Hoid). }
    split; [|apply layered_synapse; [exact Hl1|rewrite Hii; exact Hsid]].
    split; [exact Hwf'|]. split; [exact Hnum'|].
    rewrite Nat.add_succ_r. eapply advanced_step; eassumption.
Qed.

Lemma newOrganism_layered (nInputs nOutputs : Z) w :
  (1 <= nInputs)%Z → (1 <= nOutputs)%Z →
  room w (Z.to_nat nInputs + Z.to_nat nOutputs + Z.to_nat (max nInputs nOutputs)) →
  ∃ org w',
    newOrganism nInputs nOutputs w = Done org w'
    ∧ wellformed w' org
    ∧ layered org w'.
Proof.
  intros HnI HnO Hroom.
  destruct (newOrganism_spec nInputs nOutputs w HnI HnO)
    as (org & w' & _ & _ & _ & Hrun & _).
  exists org, w'. split; [exact Hrun|].
  set (total := Z.to_nat nInputs + Z.to_nat nOutputs
                + Z.to_nat (max nInputs nOutputs)) in *.
  assert (Hpost : post anyhow (fun o w1 => grown w total o w1 ∧ layered o w1)
                    (newOrganism nInputs nOutputs w)).
  { unfold newOrganism.
    eapply post_bind.
    { apply (neuron_loop_layered sensorNeuron (Z.to_nat nInputs) 0 total w);
        [exact Hroom|unfold total; lia| |apply layered_empty].
      destruct (wellformed_empty w 0%Z f_zero) as [Hwf Hnum].
      split; [exact Hwf|]. split; [exact Hnum|].
      unfold advanced. repeat split; lia. }
    intros o1 w1 [Hg1 Hl1]. simpl in Hg1.
    eapply post_bind.
    { apply (neuron_loop_layered outputNeuron (Z.to_nat nOutputs)
               (Z.to_nat nInputs) total w);
        [exact Hroom|unfold total; lia|exact Hg1|exact Hl1]. }
    intros o2 w2 [Hg2 Hl2].
    apply (synapse_loop_layered nInputs nOutputs
             (Z.to_nat (max nInputs nOutputs))
             (Z.to_nat nInputs + Z.to_nat nOutputs) total w);
      [exact Hroom|unfold total; lia|exact Hg2|exact Hl2]. }
  rewrite Hrun in Hpost. destruct Hpost as [(Hwf & _) Hl]. auto.
Qed.


End Fresh.

(** * The theorems above on the genomes of the test suite *)

(** The genome of TestMating and the state it is created in. *)
Definition mating_genome : organism float := result_of no_organism two_by_two.
Definition mating_world : world float := world_of two_by_two.

(** The recurrent genome of the test suite and the state it is created in. *)
Definition recurrent_genome : organism float := result_of no_organism recurrent.
Definition recurrent_world : world float := world_of recurrent.

Lemma mating_genome_grown : grown initial_world 6 mating_genome mating_world.
Proof.
  destruct (newOrganism_grown (F:=float) 2 2 initial_world) as (org & w' & Hrun & Hg);
    [lia|lia|split; vm_compute; reflexivity|].
  unfold mating_genome, mating_world, two_by_two. rewrite Hrun. exact Hg.
Qed.

Lemma mating_genome_read :
  genes_read mating_world (genes mating_genome)
    (values_of mating_world (genes mating_genome)).
Proof. apply genes_read_values. vm_compute. reflexivity. Qed.

Lemma recurrent_genome_built : built recurrent_world recurrent_genome.
Proof. apply built_check_sound. vm_compute. reflexivity. Qed.

Lemma addNeuron_getNeuron_witness :
  ∃ org',
    addNeuron no_organism (Some 1) recurrent_world = Done org' recurrent_world
    ∧ getNeuron org' 2%N = Some 1
    ∧ (∀ id, id ≠ 2%N → getNeuron org' id = getNeuron no_organism id)
    ∧ genes org' = genes no_organism ++ [GNeuron 1]
    ∧ sensors org' = sensors no_organism ++ []
    ∧ outputs org' = outputs no_organism ++ []
    ∧ synapses org' = synapses no_organism
    ∧ connections org' = connections no_organism
    ∧ addNeuron no_organism None recurrent_world = Panic nil_dereference.
Proof.
  apply (addNeuron_getNeuron no_organism 1
           (mkNeuron 2%N 0%float 2%N hiddenNeuron 0%float 0%float false false) recurrent_world).
  reflexivity.
Defined.

Lemma addSynapse_getSynapse_witness :
  ∃ org',
    addSynapse no_organism (Some 1) recurrent_world = Done org' recurrent_world
    ∧ getSynapse org' 5%N = Some 1
    ∧ (∀ id, id ≠ 5%N → getSynapse org' id = getSynapse no_organism id)
    ∧ connections org' !! 2%N
      = Some (default [] (connections no_organism !! 2%N) ++ [5%N])
    ∧ (∀ id, id ≠ 2%N → connections org' !! id = connections no_organism !! id)
    ∧ genes org' = genes no_organism ++ [GSynapse 1]
    ∧ neurons org' = neurons no_organism
    ∧ sensors org' = sensors no_organism
    ∧ outputs org' = outputs no_organism
    ∧ addSynapse no_organism None recurrent_world = Panic nil_dereference.
Proof.
  apply (addSynapse_getSynapse no_organism 1
           (mkSynapse 5%N 2%N 1%N 1%float true 5%N) recurrent_world).
  reflexivity.
Defined.

Lemma toggleEnabled_twice_witness :
  toggleEnabled recurrent_genome 5%N recurrent_world
  = Done tt (set_synapseHeap
               (<[1 := set_enabled (negb true) (mkSynapse 5%N 2%N 1%N 1%float true 5%N)]>
                  (synapseHeap recurrent_world)) recurrent_world)
  ∧ (toggleEnabled recurrent_genome 5%N ;;; toggleEnabled recurrent_genome 5%N)
      recurrent_world = Done tt recurrent_world.
Proof.
  apply (toggleEnabled_twice recurrent_genome 5%N 1 (mkSynapse 5%N 2%N 1%N 1%float true 5%N)
           recurrent_world); reflexivity.
Defined.

Lemma clone_copies_genes_witness :
  ∃ c w' vs,
    clone recurrent_genome recurrent_world = Done c w'
    ∧ genes_read recurrent_world (genes recurrent_genome) vs
    ∧ genes_read w' (genes recurrent_genome) vs
    ∧ genes_read w' (genes c) vs
    ∧ extends recurrent_world w'
    ∧ separate recurrent_genome c
    ∧ sensors c = sensors recurrent_genome
    ∧ outputs c = outputs recurrent_genome
    ∧ connections c = connections recurrent_genome
    ∧ dom (neurons c) = dom (neurons recurrent_genome)
    ∧ dom (synapses c) = dom (synapses recurrent_genome)
    ∧ generation c = 0%Z
    ∧ fitness c = f_zero
    ∧ same_counters recurrent_world w'.
Proof.
  apply (clone_copies_genes recurrent_genome recurrent_world).
  exact recurrent_genome_built.
Defined.

Lemma mate_guard_witness :
  if decide (length (sensors mating_genome) = length (sensors mating_genome)
             ∧ length (outputs mating_genome) = length (outputs mating_genome))
  then ∃ o w',
         mate mating_genome mating_genome mating_world = Done o w'
         ∧ built w' o
         ∧ extends mating_world w'
         ∧ separate mating_genome o
         ∧ separate mating_genome o
         ∧ generation o = int_add (generation mating_genome) 1
         ∧ fitness o = f_zero
         ∧ same_counters mating_world w'
  else mate mating_genome mating_genome mating_world
       = Fatal "Wooooh easy there fella' that's illegal".
Proof.
  apply (mate_guard mating_genome mating_genome mating_world).
  - exact (proj1 (wf_sound _ _ (proj1 mating_genome_grown))).
  - exact (proj1 (wf_sound _ _ (proj1 mating_genome_grown))).
Defined.

Lemma mate_same_structure_witness :
  ∃ o w',
    mate mating_genome mating_genome mating_world = Done o w'
    ∧ genes_read w' (genes o)
        (if f_gt (fitness mating_genome) (fitness mating_genome)
         then values_of mating_world (genes mating_genome)
         else values_of mating_world (genes mating_genome)).
Proof.
  apply (mate_same_structure mating_genome mating_genome
           (values_of mating_world (genes mating_genome))
           (values_of mating_world (genes mating_genome)) mating_world).
  - exact mating_genome_read.
  - exact mating_genome_read.
  - reflexivity.
  - reflexivity.
  - reflexivity.
Defined.

(** The first call of TestSimpleRecurrent. *)
Definition first_call : outcome float (list float) :=
  process testConfig recurrent_genome [1%float] recurrent_world.

Lemma process_changes_neurons_only_witness :
  length (result_of [] first_call) = length (outputs recurrent_genome)
  ∧ synapseHeap (world_of first_call) = synapseHeap recurrent_world
  ∧ length (neuronHeap (world_of first_call))
    = length (neuronHeap recurrent_world)
  ∧ same_counters recurrent_world (world_of first_call)
  ∧ (∀ p n, neuronHeap recurrent_world !! p = Some n →
            ∃ n', neuronHeap (world_of first_call) !! p = Some n'
                  ∧ n_id n' = n_id n ∧ n_kind n' = n_kind n
                  ∧ n_innovation n' = n_innovation n)
  ∧ (∀ p, (∀ id, neurons recurrent_genome !! id ≠ Some p) →
          neuronHeap (world_of first_call) !! p
          = neuronHeap recurrent_world !! p).
Proof.
  apply (process_changes_neurons_only testConfig recurrent_genome [1%float]
           (result_of [] first_call) recurrent_world (world_of first_call)).
  vm_compute. reflexivity.
Defined.

Lemma process_succeeds_witness :
  (length [1%float; 2%float] = length (sensors mating_genome) →
   ∃ out w',
     process testConfig mating_genome [1%float; 2%float] mating_world
     = Done out w'
     ∧ length out = length (outputs mating_genome)
     ∧ wellformed w' mating_genome
     ∧ (numbered mating_world mating_genome → numbered w' mating_genome))
  ∧ (length [1%float; 2%float] ≠ length (sensors mating_genome) →
     process testConfig mating_genome [1%float; 2%float] mating_world
     = Fatal "Number of inputs exceeds number of sensors").
Proof.
  apply (process_succeeds testConfig mating_genome [1%float; 2%float]
           mating_world).
  exact (proj1 mating_genome_grown).
Defined.


Lemma clone_wellformed_witness :
  ∃ c w',
    clone mating_genome mating_world = Done c w'
    ∧ wellformed w' c ∧ numbered w' c
    ∧ wellformed w' mating_genome ∧ numbered w' mating_genome
    ∧ same_counters mating_world w'.
Proof.
  apply (clone_wellformed mating_genome mating_world).
  - exact (proj1 mating_genome_grown).
  - exact (proj1 (proj2 mating_genome_grown)).
Defined.

Lemma mutations_keep_wellformed_witness :
  ∃ w',
    mutate_all testConfig (fun _ => 0%float) mating_genome
      [ToggleEnabled 5%N; MutateWeight 6%N] mating_world = Done tt w'
    ∧ wellformed w' mating_genome ∧ numbered w' mating_genome
    ∧ neuronHeap w' = neuronHeap mating_world
    ∧ idCount w' = idCount mating_world
    ∧ innovationCount w' = innovationCount mating_world.
Proof.
  apply (mutations_keep_wellformed testConfig (fun _ => 0%float) mating_genome
           [ToggleEnabled 5%N; MutateWeight 6%N] mating_world).
  - exact (proj1 mating_genome_grown).
  - exact (proj1 (proj2 mating_genome_grown)).
  - repeat constructor; vm_compute; eauto.
Defined.

Lemma splitSynapse_wellformed_witness :
  ∃ org' w' (h : neuron float) (si so : synapse float) (ph psi pso : ptr),
    splitSynapse mating_genome 5%N mating_world = Done org' w'
    ∧ genes org' = genes mating_genome ++ [GNeuron ph; GSynapse psi; GSynapse pso]
    ∧ neuronHeap w' !! ph = Some h
    ∧ synapseHeap w' !! psi = Some si
    ∧ synapseHeap w' !! pso = Some so
    ∧ h = mkNeuron (idCount mating_world + 1)%N f_zero
            (innovationCount mating_world + 1)%N
            hiddenNeuron f_zero f_zero false false
    ∧ si = mkSynapse (idCount mating_world + 2)%N
             (s_in (mkSynapse 5%N 1%N 3%N 1%float true 5%N)) (n_id h) f_one true
             (innovationCount mating_world + 2)%N
    ∧ so = mkSynapse (idCount mating_world + 3)%N (n_id h)
             (s_out (mkSynapse 5%N 1%N 3%N 1%float true 5%N)) f_one true
             (innovationCount mating_world + 3)%N
    ∧ synapseHeap w' !! 0
      = Some (set_enabled false (mkSynapse 5%N 1%N 3%N 1%float true 5%N))
    ∧ (∀ q, q ≠ 0 → q < length (synapseHeap mating_world) →
            synapseHeap w' !! q = synapseHeap mating_world !! q)
    ∧ (∀ q, q < length (neuronHeap mating_world) →
            neuronHeap w' !! q = neuronHeap mating_world !! q)
    ∧ sensors org' = sensors mating_genome
    ∧ outputs org' = outputs mating_genome
    ∧ getNeuron org' (n_id h) = Some ph
    ∧ getSynapse org' (s_id si) = Some psi
    ∧ getSynapse org' (s_id so) = Some pso
    ∧ connections org' !! s_in (mkSynapse 5%N 1%N 3%N 1%float true 5%N)
      = Some (default []
                (connections mating_genome
                   !! s_in (mkSynapse 5%N 1%N 3%N 1%float true 5%N))
              ++ [s_id si])
    ∧ connections org' !! n_id h = Some [s_id so]
    ∧ wellformed w' org'
    ∧ numbered w' org'
    ∧ advanced mating_world 3 w'.
Proof.
  apply (splitSynapse_wellformed mating_genome 5%N 0
           (mkSynapse 5%N 1%N 3%N 1%float true 5%N) mating_world).
  - exact (proj1 mating_genome_grown).
  - exact (proj1 (proj2 mating_genome_grown)).
  - split; vm_compute; reflexivity.
  - vm_compute. reflexivity.
  - vm_compute. reflexivity.
Defined.

(** [mutate] on the genome of TestMating with a random source that always
    draws 0, so that every mutation fires; the range produces the keys 1
    and 2. *)
Definition mutated : outcome float (organism float) :=
  mutate testConfig (fun _ => 0%float) [1%N; 2%N] mating_genome mating_world.

Lemma mutate_returns_witness :
  ∃ org' w',
    mutate testConfig (fun _ => 0%float) [1%N; 2%N] mating_genome mating_world
    = Done org' w'
    ∧ sound w' org'
    ∧ grows mating_genome org'.
Proof.
  apply (mutate_returns testConfig (fun _ => 0%float) [1%N; 2%N]
           mating_genome mating_world).
  exact (wf_sound _ _ (proj1 mating_genome_grown)).
Defined.

Lemma mutate_wellformed_witness :
  wellformed (world_of mutated) (result_of no_organism mutated)
  ∧ numbered (world_of mutated) (result_of no_organism mutated)
  ∧ idCount (world_of mutated)
    = (idCount mating_world
       + N.of_nat (length (genes (result_of no_organism mutated))
                   - length (genes mating_genome)))%N
  ∧ innovationCount (world_of mutated)
    = (innovationCount mating_world
       + N.of_nat (length (genes (result_of no_organism mutated))
                   - length (genes mating_genome)))%N.
Proof.
  apply (mutate_wellformed testConfig (fun _ => 0%float) [1%N; 2%N]
           mating_genome mating_world
           (result_of no_organism mutated) (world_of mutated)).
  - exact (proj1 mating_genome_grown).
  - exact (proj1 (proj2 mating_genome_grown)).
  - vm_compute. reflexivity.
  - vm_compute. reflexivity.
  - vm_compute. reflexivity.
Defined.

Lemma split_then_toggle_enables_witness :
  ∃ org' w' s',
    mutate_synapse testConfig (fun _ => 0%float) mating_genome 5%N mating_world
    = Done org' w'
    ∧ length (genes org') = length (genes mating_genome) + 3
    ∧ synapses org' !! 5%N = Some 0
    ∧ synapseHeap w' !! 0 = Some s'
    ∧ s_enabled s' = true.
Proof.
  apply (split_then_toggle_enables testConfig (fun _ => 0%float) mating_genome
           5%N 0 mating_world).
  - exact (proj1 mating_genome_grown).
  - exact (proj1 (proj2 mating_genome_grown)).
  - split; vm_compute; reflexivity.
  - vm_compute. reflexivity.
  - vm_compute. reflexivity.
  - vm_compute. reflexivity.
Defined.

Lemma mating_genome_layered : layered mating_genome mating_world.
Proof.
  destruct (newOrganism_layered (F:=float) 2 2 initial_world)
    as (org & w' & Hrun & _ & Hl);
    [lia|lia|split; vm_compute; reflexivity|].
  unfold mating_genome, mating_world, two_by_two. rewrite Hrun. exact Hl.
Qed.

Lemma process_one_layer_witness :
  ∃ out w',
    process testConfig mating_genome [1%float; 2%float] mating_world
    = Done out w'
    ∧ out = (fun o =>
               response testConfig mating_genome mating_world
                 (zip (sensors mating_genome) [1%float; 2%float]) o
                 (shown mating_genome mating_world o))
              <$> outputs mating_genome
    ∧ (∀ id, is_Some (neurons mating_genome !! id) →
             id ∉ sensors mating_genome →
             shown mating_genome w' id
             = response testConfig mating_genome mating_world
                 (zip (sensors mating_genome) [1%float; 2%float]) id
                 (shown mating_genome mating_world id))
    ∧ synapseHeap w' = synapseHeap mating_world
    ∧ rested mating_genome w'
    ∧ wellformed w' mating_genome.
Proof.
  apply (process_one_layer testConfig mating_genome [1%float; 2%float]
           mating_world).
  - exact (proj1 mating_genome_grown).
  - exact (proj2 mating_genome_layered).
  - exact (proj1 mating_genome_layered).
  - reflexivity.
Defined.

Lemma one_layer_has_no_memory_witness :
  ∃ outs w1 out w2 w3,
    process_all testConfig mating_genome
      [[1%float; 2%float]; [3%float; 4%float]] mating_world = Done outs w1
    ∧ process testConfig mating_genome [5%float; 6%float] w1 = Done out w2
    ∧ process testConfig mating_genome [5%float; 6%float] mating_world
      = Done out w3.
Proof.
  apply (one_layer_has_no_memory testConfig mating_genome
           [[1%float; 2%float]; [3%float; 4%float]] [5%float; 6%float]
           mating_world).
  - exact (proj1 mating_genome_grown).
  - exact (proj2 mating_genome_layered).
  - exact (proj1 mating_genome_layered).
  - repeat constructor.
  - reflexivity.
Defined.

